(** * httomolib.prep.phase: Fresnel, Paganin and single-step phase retrieval

    A shallow embedding of [src/httomolib/prep/phase.py].

    - A CuPy array is an [ndarray] object (buffer id, dtype tag, shape) over a
      [heap] of buffers, so that views ([cp.expand_dims]) and in-place writes
      ([tomo[m] = proj]) alias as they do in the source.
    - The contents of a buffer are kept grouped as images (last two axes) of
      rows (last axis).  An image is a list of rows; an image with no row
      carries no column count, and the statements about image data assume at
      least one row and one column.
    - Scalars are abstract: the code is embedded once over an interface of
      floating-point operations ([FloatClass], [Numeric]) and then read at two
      instances: IEEE binary32/binary64 values ([spec_float]) for the
      classification of NaN and infinities, and the real numbers for the exact
      value of the arithmetic (rounding is not modelled there).  The pad width
      is also read at the real numbers with an abstract rounding function.
    - Python exceptions are values of [exn]; a call that raises returns [inl]. *)

From Stdlib Require Import String Ascii DecimalString.
From Stdlib Require Import QArith Reals Lra SpecFloat.
From Stdlib Require Import List ZArith Lia Bool.
Import ListNotations.

Set Implicit Arguments.
Close Scope Q_scope.
Close Scope R_scope.
Open Scope nat_scope.

(* ------------------------------------------------------------------ *)
(** ** Python exceptions and the two monads of the embedding *)

Inductive exn : Type :=
| ValueError (msg : string)
| ZeroDivisionError
| IndexError
| OverflowError.

Definition result (A : Type) : Type := (exn + A)%type.

Definition raise {A : Type} (e : exn) : result A := inl e.
Definition ok {A : Type} (a : A) : result A := inr a.

Definition rbind {A B : Type} (c : result A) (k : A -> result B) : result B :=
  match c with
  | inl e => inl e
  | inr a => k a
  end.

Declare Scope result_scope.
Delimit Scope result_scope with result.
Notation "x <- c ;; k" := (rbind c (fun x => k))
  (at level 61, c at next level, right associativity) : result_scope.
Notation "' pat <- c ;; k" := (rbind c (fun x => match x with pat => k end))
  (at level 61, pat pattern, c at next level, right associativity) : result_scope.

(** [for i in range(n)] over a fallible body that threads a state. *)
Fixpoint for_range {St : Type} (body : nat -> St -> result St) (from count : nat)
  (s : St) : result St :=
  match count with
  | O => ok s
  | S count' => rbind (body from s) (for_range body (S from) count')
  end.

(** The message of the only [raise] statement of the module (lines 79, 208
    and 302): an f-string that interpolates [ndim]. *)
Definition str_of_nat (n : nat) : string := NilEmpty.string_of_uint (Nat.to_uint n).

Definition invalid_ndim_msg (ndim : nat) : string :=
  ("Invalid number of dimensions in data: " ++ str_of_nat ndim
     ++ ", please provide a stack of 2D projections.")%string.

(** Messages of the ValueErrors raised inside CuPy. *)
Definition msg_pad_empty_axis (axis : nat) : string :=
  ("can't extend empty axis " ++ str_of_nat axis
     ++ " using modes other than 'constant' or 'empty'")%string.
Definition msg_pad_negative : string := "index can't contain negative values".
Definition msg_pad_mode (mode : string) : string :=
  ("mode '" ++ mode ++ "' is not supported")%string.
Definition msg_fft_points : string := "Invalid number of FFT data points (0) specified.".
Definition msg_broadcast : string := "operands could not be broadcast together".
Definition msg_negative_dim : string := "negative dimensions are not allowed".
Definition msg_int_of_nan : string := "cannot convert float NaN to integer".

(* ------------------------------------------------------------------ *)
(** ** Element types *)

Inductive dtype : Type := float32 | float64.

Definition dtype_eqb (a b : dtype) : bool :=
  match a, b with
  | float32, float32 | float64, float64 => true
  | _, _ => false
  end.

(** What the code needs to know about a floating-point value besides its
    arithmetic: its class, the two constants [nan_to_num] and line 251
    write, and the conversion between precisions. *)
Class FloatClass (F : Type) : Type := {
  fzero : F;
  fone : F;
  is_nan : F -> bool;
  is_posinf : F -> bool;
  is_neginf : F -> bool;
  (** [x == 0] *)
  is_zero : F -> bool;
  (** largest finite value of a dtype ([cp.finfo(dtype).max]) *)
  fmaxval : dtype -> F;
  fneg : F -> F;
  (** [x.astype(dtype)] *)
  cast : dtype -> F -> F
}.

(** Arithmetic and elementary functions. [lit q] is the float literal whose
    decimal expansion is [q]; [twiddle n k] is [exp(-2*pi*i*k/n)] as a pair
    (real part, imaginary part). *)
Class Numeric (F : Type) `{FloatClass F} : Type := {
  of_Z : Z -> F;
  lit : Q -> F;
  fadd : F -> F -> F;
  fsub : F -> F -> F;
  fmul : F -> F -> F;
  fdiv : F -> F -> F;
  fltb : F -> F -> bool;
  fln : F -> F;
  fexp : F -> F;
  fsqrt : F -> F;
  flog2 : F -> F;
  fpow : F -> F -> F;
  fceil : F -> F;
  (** Python's [int(x)] on a finite value: truncation toward zero *)
  ftrunc : F -> Z;
  twiddle : nat -> Z -> F * F
}.
Arguments Numeric F {_}.

(** A padding mode of [cp.pad]: "edge", which the embedding spells out, or
    another mode, given by its name and by the rule that fills the border:
    [fill before after v i] is the value written at the out-of-range
    position [i] of the vector [v] padded by [before] and [after]. *)
Inductive pad_mode (F : Type) : Type :=
| Edge
| Mode (name : string) (fill : nat -> nat -> list F -> Z -> F).
Arguments Edge {F}.

Definition mode_name {F : Type} (m : pad_mode F) : string :=
  match m with
  | Edge => "edge"
  | Mode name _ => name
  end.

(* ------------------------------------------------------------------ *)
(** ** Python indexing and NumPy array primitives (dtype-agnostic) *)

(** [a[i]] with a possibly negative integer index. *)
Definition py_index (len : nat) (i : Z) : result nat :=
  let j := if (i <? 0)%Z then (i + Z.of_nat len)%Z else i in
  if ((0 <=? j) && (j <? Z.of_nat len))%Z then ok (Z.to_nat j) else raise IndexError.

(** One bound of a slice [a[start:stop]]: negative bounds count from the
    end, and every bound is clipped to [0, len]. *)
Definition slice_bound (len : nat) (i : Z) : nat :=
  if (i <? 0)%Z then Z.to_nat (Z.max 0 (i + Z.of_nat len))
  else Nat.min (Z.to_nat i) len.

(** The index range [lo, hi) selected by [start:stop] ([None] is an omitted
    bound); [hi >= lo]. *)
Definition slice_range (len : nat) (start stop : option Z) : nat * nat :=
  let lo := match start with None => 0 | Some s => slice_bound len s end in
  let hi := match stop with None => len | Some s => slice_bound len s end in
  (lo, Nat.max lo hi).

Definition slice {A : Type} (start stop : option Z) (l : list A) : list A :=
  let '(lo, hi) := slice_range (length l) start stop in
  firstn (hi - lo) (skipn lo l).

(** Replace the positions [lo, hi) of [old] by [new]. *)
Definition splice {A : Type} (lo hi : nat) (new old : list A) : list A :=
  firstn lo old ++ new ++ skipn hi old.

Definition matrix (A : Type) : Type := list (list A).

Definition nrows {A : Type} (m : matrix A) : nat := length m.
Definition ncols {A : Type} (m : matrix A) : nat :=
  match m with
  | [] => 0
  | r :: _ => length r
  end.

(** [m] has [h] rows of [w] entries each. *)
Definition rect {A : Type} (h w : nat) (m : matrix A) : Prop :=
  length m = h /\ Forall (fun r => length r = w) m.

Definition rectb {A : Type} (h w : nat) (m : matrix A) : bool :=
  (length m =? h) && forallb (fun r => length r =? w) m.

(** [cp.full((h, w), x)] and [cp.zeros]. *)
Definition full {A : Type} (h w : nat) (x : A) : matrix A := repeat (repeat x w) h.

Definition mmap {A B : Type} (f : A -> B) (m : matrix A) : matrix B := map (map f) m.

Definition map2 {A B C : Type} (f : A -> B -> C) (a : list A) (b : list B) : list C :=
  map (fun p => f (fst p) (snd p)) (combine a b).

Fixpoint mapM {A B : Type} (f : A -> result B) (l : list A) : result (list B) :=
  match l with
  | [] => ok []
  | x :: l' => rbind (f x) (fun y => rbind (mapM f l') (fun ys => ok (y :: ys)))
  end.

(** Broadcasting of one axis to length [n]: the axis has length [n]
    already, or length 1 and is repeated. *)
Definition stretch {A : Type} (n : nat) (l : list A) : result (list A) :=
  if length l =? n then ok l
  else match l with
       | [x] => ok (repeat x n)
       | _ => raise (ValueError msg_broadcast)
       end.

Definition broadcast_to {A : Type} (h w : nat) (m : matrix A) : result (matrix A) :=
  rbind (stretch h m) (mapM (stretch w)).

(** Length of an axis after broadcasting two operands. *)
Definition bdim (n m : nat) : nat := if n =? 1 then m else n.

(** An element-wise binary operation on two 2-D arrays. *)
Definition elementwise {A B C : Type} (f : A -> B -> C) (a : matrix A) (b : matrix B)
  : result (matrix C) :=
  let h := bdim (nrows a) (nrows b) in
  let w := bdim (ncols a) (ncols b) in
  rbind (broadcast_to h w a) (fun a' =>
  rbind (broadcast_to h w b) (fun b' =>
  ok (map2 (map2 f) a' b'))).

(** An in-place binary operation [a op= b]: [b] is broadcast to the shape
    of [a]. *)
Definition elementwise_inplace {A B : Type} (f : A -> B -> A) (a : matrix A) (b : matrix B)
  : result (matrix A) :=
  rbind (broadcast_to (nrows a) (ncols a) b) (fun b' => ok (map2 (map2 f) a b')).

(** [m[r0:r1, c0:c1]] *)
Definition crop {A : Type} (r0 r1 c0 c1 : Z) (m : matrix A) : matrix A :=
  map (slice (Some c0) (Some c1)) (slice (Some r0) (Some r1) m).

(** [m[r0:r1, c0:c1] = v] *)
Definition assign_block {A : Type} (r0 r1 c0 c1 : Z) (v : matrix A) (m : matrix A)
  : result (matrix A) :=
  let '(rlo, rhi) := slice_range (nrows m) (Some r0) (Some r1) in
  let '(clo, chi) := slice_range (ncols m) (Some c0) (Some c1) in
  rbind (broadcast_to (rhi - rlo) (chi - clo) v) (fun v' =>
  ok (splice rlo rhi
        (map2 (fun new old => splice clo chi new old) v' (firstn (rhi - rlo) (skipn rlo m)))
        m)).

(** [m[start:stop] = m[i]]: a row of the array written over a range of its rows. *)
Definition assign_rows {A : Type} (start stop : option Z) (i : Z) (m : matrix A)
  : result (matrix A) :=
  rbind (py_index (nrows m) i) (fun k =>
  let row := nth k m [] in
  let '(lo, hi) := slice_range (nrows m) start stop in
  rbind (stretch (ncols m) row) (fun row' =>
  ok (splice lo hi (repeat row' (hi - lo)) m))).

(** [m[:, start:stop] = m[:, j][:, cp.newaxis]]: a column of the array
    written over a range of its columns. *)
Definition assign_cols {A : Type} (start stop : option Z) (j : Z) (d : A) (m : matrix A)
  : result (matrix A) :=
  rbind (py_index (ncols m) j) (fun k =>
  let '(lo, hi) := slice_range (ncols m) start stop in
  ok (map (fun row => splice lo hi (repeat (nth k row d) (hi - lo)) row) m)).

(** [res[i] = v] for an image [v] and a stack whose images have shape (h, w). *)
Definition assign_image {A : Type} (h w : nat) (i : nat) (v : matrix A) (res : list (matrix A))
  : result (list (matrix A)) :=
  if i <? length res then
    rbind (broadcast_to h w v) (fun v' => ok (splice i (S i) [v'] res))
  else raise IndexError.

(** [cp.pad(l, (before, after), mode="edge")] along one axis of a non-empty vector. *)
Definition pad_edge1 {A : Type} (before after : nat) (l : list A) : list A :=
  match l with
  | [] => []
  | x :: _ => repeat x before ++ l ++ repeat (last l x) after
  end.

(** [cp.pad(m, ((top, bottom), (left, right)), mode="edge")]: an empty axis
    cannot be extended. *)
Definition pad_edge {A : Type} (top bottom left right : nat) (m : matrix A)
  : result (matrix A) :=
  if (nrows m =? 0) && negb ((top =? 0) && (bottom =? 0)) then
    raise (ValueError (msg_pad_empty_axis 0))
  else if (ncols m =? 0) && negb ((left =? 0) && (right =? 0)) then
    raise (ValueError (msg_pad_empty_axis 1))
  else ok (map (pad_edge1 left right) (pad_edge1 top bottom m)).

(** [cp.fft.fftshift] and [cp.fft.ifftshift] along one axis: a rotation by
    [n // 2] to the right, respectively to the left. *)
Definition fftshift1 {A : Type} (l : list A) : list A :=
  let n := length l in
  skipn (n - n / 2) l ++ firstn (n - n / 2) l.

Definition ifftshift1 {A : Type} (l : list A) : list A :=
  let n := length l in
  skipn (n / 2) l ++ firstn (n / 2) l.

(** Over both axes of an image ... *)
Definition fftshift {A : Type} (m : matrix A) : matrix A := map fftshift1 (fftshift1 m).
Definition ifftshift {A : Type} (m : matrix A) : matrix A := map ifftshift1 (ifftshift1 m).
(** ... and with [axes=1]. *)
Definition fftshift_axis1 {A : Type} (m : matrix A) : matrix A := map fftshift1 m.
Definition ifftshift_axis1 {A : Type} (m : matrix A) : matrix A := map ifftshift1 m.

(* ------------------------------------------------------------------ *)
(** ** Sanitising pixels ([cp.nan_to_num] and line 251) *)

Section Sanitize.
Context {F : Type} `{FloatClass F}.

(** [cp.nan_to_num] with its default arguments, on an array of dtype [dt]:
    NaN becomes 0.0, +inf the largest finite value of the dtype and -inf
    the most negative one. *)
Definition nan_to_num (dt : dtype) (x : F) : F :=
  if is_nan x then fzero
  else if is_posinf x then fmaxval dt
  else if is_neginf x then fneg (fmaxval dt)
  else x.

(** [proj[proj == 0] = 1.0], in an array of dtype [dt] *)
Definition zero_to_one (dt : dtype) (x : F) : F := if is_zero x then cast dt fone else x.

(** Lines 250-251 on one pixel, and on one image [data[i]]. *)
Definition sanitize_pixel (dt : dtype) (x : F) : F := zero_to_one dt (nan_to_num dt x).
Definition sanitize (dt : dtype) (img : matrix F) : matrix F := mmap (sanitize_pixel dt) img.

(** The argument of [cp.fft.fft2] on line 252. *)
Definition transform_input (dt : dtype) (img : matrix F) : matrix F :=
  mmap (cast float32) (sanitize dt img).
End Sanitize.

(* ------------------------------------------------------------------ *)
(** ** Complex arithmetic, discrete Fourier transforms, padding modes *)

Section Transforms.
Context {F : Type} `{Numeric F}.

Definition complex : Type := (F * F)%type.

Definition czero : complex := (fzero, fzero).
Definition of_real (x : F) : complex := (x, fzero).
Definition creal (z : complex) : F := fst z.
Definition cadd (a b : complex) : complex :=
  (fadd (fst a) (fst b), fadd (snd a) (snd b)).
Definition cmul (a b : complex) : complex :=
  (fsub (fmul (fst a) (fst b)) (fmul (snd a) (snd b)),
   fadd (fmul (fst a) (snd b)) (fmul (snd a) (fst b))).
(** complex by real *)
Definition cscale (a : complex) (x : F) : complex := (fmul (fst a) x, fmul (snd a) x).
Definition cdiv_real (a : complex) (x : F) : complex := (fdiv (fst a) x, fdiv (snd a) x).
Definition cdiv (a b : complex) : complex :=
  let d := fadd (fmul (fst b) (fst b)) (fmul (snd b) (snd b)) in
  (fdiv (fadd (fmul (fst a) (fst b)) (fmul (snd a) (snd b))) d,
   fdiv (fsub (fmul (snd a) (fst b)) (fmul (fst a) (snd b))) d).
Definition cabs (a : complex) : F :=
  fsqrt (fadd (fmul (fst a) (fst a)) (fmul (snd a) (snd a))).

Definition csum (l : list complex) : complex := fold_right cadd czero l.
Definition fsum (l : list F) : F := fold_right fadd fzero l.

(** One output sample of the one-dimensional transform of [v]:
    [sum_n v[n] * exp(-2*pi*i*sign*n*k/len(v))]. *)
Definition dft1_at (sign : Z) (v : list complex) (k : nat) : complex :=
  let w := length v in
  csum (map (fun n => cmul (nth n v czero)
                        (twiddle w (sign * Z.of_nat n * Z.of_nat k)))
          (seq 0 w)).

(** One output sample of the two-dimensional transform of [x]. *)
Definition dft2_at (sign : Z) (x : matrix complex) (k l : nat) : complex :=
  let h := nrows x in
  let w := ncols x in
  csum (map (fun m =>
          csum (map (fun n =>
                  cmul (nth n (nth m x []) czero)
                    (cmul (twiddle h (sign * Z.of_nat m * Z.of_nat k))
                          (twiddle w (sign * Z.of_nat n * Z.of_nat l))))
                  (seq 0 w)))
          (seq 0 h)).

Definition dft2 (sign : Z) (x : matrix complex) : matrix complex :=
  map (fun k => map (fun l => dft2_at sign x k l) (seq 0 (ncols x))) (seq 0 (nrows x)).

(** [cp.fft.fft2] and [cp.fft.ifft2] of a 2-D array: a transform axis of
    length 0 is refused. *)
Definition fft2 (x : matrix complex) : result (matrix complex) :=
  if (nrows x =? 0) || (ncols x =? 0) then raise (ValueError msg_fft_points)
  else ok (dft2 1 x).

Definition ifft2 (x : matrix complex) : result (matrix complex) :=
  if (nrows x =? 0) || (ncols x =? 0) then raise (ValueError msg_fft_points)
  else ok (mmap (fun z => cdiv_real z (of_Z (Z.of_nat (nrows x * ncols x)))) (dft2 (-1) x)).

(** [cp.fft.fft] and [cp.fft.ifft] of a 2-D array: along the last axis. *)
Definition fft (x : matrix complex) : result (matrix complex) :=
  if ncols x =? 0 then raise (ValueError msg_fft_points)
  else ok (map (fun row => map (dft1_at 1 row) (seq 0 (length row))) x).

Definition ifft (x : matrix complex) : result (matrix complex) :=
  if ncols x =? 0 then raise (ValueError msg_fft_points)
  else ok (map (fun row =>
              map (fun k => cdiv_real (dft1_at (-1) row k) (of_Z (Z.of_nat (length row))))
                (seq 0 (length row))) x).

(** [cp.pad(m, ((top, bottom), (left, right)), mode="edge")] with the pad
    widths as the Python integers they are. *)
Definition pad_edge_int (top bottom left right : Z) (m : matrix F) : result (matrix F) :=
  if ((top <? 0) || (bottom <? 0) || (left <? 0) || (right <? 0))%Z then
    raise (ValueError msg_pad_negative)
  else pad_edge (Z.to_nat top) (Z.to_nat bottom) (Z.to_nat left) (Z.to_nat right) m.

(** The modes [cp.pad] knows. *)
Definition pad_modes : list string :=
  ["constant"; "edge"; "linear_ramp"; "maximum"; "mean"; "median"; "minimum";
   "reflect"; "symmetric"; "wrap"; "empty"]%string.

Definition extends_empty_axis (mode : string) : bool :=
  String.eqb mode "constant" || String.eqb mode "empty".

Definition column (j : nat) (m : matrix F) : list F := map (fun r => nth j r fzero) m.

(** One vector padded in a given mode. *)
Definition pad1 (mode : pad_mode F) (before after : nat) (l : list F) : list F :=
  match mode with
  | Edge => pad_edge1 before after l
  | Mode _ fill =>
      map (fun i => fill before after l (Z.of_nat i - Z.of_nat before)%Z) (seq 0 before)
      ++ l
      ++ map (fun i => fill before after l (Z.of_nat (length l + i))) (seq 0 after)
  end.

(** One image of [w] columns padded along its rows axis, then along its
    columns axis. *)
Definition pad_image (mode : pad_mode F) (w : nat) (pad_y pad_x : nat) (m : matrix F)
  : matrix F :=
  let rows :=
    match mode with
    | Edge => pad_edge1 pad_y pad_y m
    | Mode _ fill =>
        map (fun i => map (fun j => fill pad_y pad_y (column j m)
                                      (Z.of_nat i - Z.of_nat pad_y)%Z) (seq 0 w))
          (seq 0 pad_y)
        ++ m
        ++ map (fun i => map (fun j => fill pad_y pad_y (column j m)
                                         (Z.of_nat (length m + i))) (seq 0 w))
             (seq 0 pad_y)
    end in
  map (pad1 mode pad_x pad_x) rows.

(** [cp.pad(data, ((0, 0), (pad_y, pad_y), (pad_x, pad_x)), mode=mode)] on
    a stack of shape (d, h, w). *)
Definition pad_stack (mode : pad_mode F) (pad_y pad_x : Z) (h w : nat)
  (stack : list (matrix F)) : result (list (matrix F)) :=
  if ((pad_y <? 0) || (pad_x <? 0))%Z then raise (ValueError msg_pad_negative)
  else if negb (existsb (String.eqb (mode_name mode)) pad_modes) then
    raise (ValueError (msg_pad_mode (mode_name mode)))
  else if negb (extends_empty_axis (mode_name mode)) && (h =? 0) && negb (pad_y =? 0)%Z then
    raise (ValueError (msg_pad_empty_axis 1))
  else if negb (extends_empty_axis (mode_name mode)) && (w =? 0) && negb (pad_x =? 0)%Z then
    raise (ValueError (msg_pad_empty_axis 2))
  else ok (map (pad_image mode w (Z.to_nat pad_y) (Z.to_nat pad_x)) stack).

(** [cp.zeros((d, h, w))] with the dimensions as Python integers. *)
Definition zeros_stack (d : nat) (h w : Z) : result (list (matrix F)) :=
  if ((h <? 0) || (w <? 0))%Z then raise (ValueError msg_negative_dim)
  else ok (repeat (full (Z.to_nat h) (Z.to_nat w) fzero) d).
End Transforms.

(* ------------------------------------------------------------------ *)
(** ** Array objects and the heap *)

Record ndarray : Type := {
  base : nat;           (** the buffer the array views *)
  dtype_of : dtype;
  shape : list nat
}.

Definition ndim (a : ndarray) : nat := length (shape a).

(** [cp.expand_dims(a, 0)]: a view of the same buffer. *)
Definition expand_dims0 (a : ndarray) : ndarray :=
  {| base := base a; dtype_of := dtype_of a; shape := 1 :: shape a |}.

(** Lines 75-80, 204-209 and 298-303: the rank check the three filters
    start with. *)
Definition check_stack (a : ndarray) : result ndarray :=
  let a := if ndim a =? 2 then expand_dims0 a else a in
  if negb (ndim a =? 3) then raise (ValueError (invalid_ndim_msg (ndim a)))
  else ok a.

Section Heap.
Context {F : Type}.

(** The contents of the buffers, each grouped as a stack of images. *)
Definition heap : Type := list (list (matrix F)).

Definition read (hp : heap) (a : ndarray) : list (matrix F) := nth (base a) hp [].

Definition write (hp : heap) (a : ndarray) (v : list (matrix F)) : heap :=
  splice (base a) (S (base a)) [v] hp.

(** A new array with its own buffer. *)
Definition alloc (hp : heap) (dt : dtype) (shp : list nat) (v : list (matrix F))
  : ndarray * heap :=
  ({| base := length hp; dtype_of := dt; shape := shp |}, hp ++ [v]).

(** The buffer of [a] exists and holds what the shape of [a] says. *)
Definition wf_array (hp : heap) (a : ndarray) : Prop :=
  base a < length hp /\
  match shape a with
  | [h; w] => exists img, read hp a = [img] /\ rect h w img
  | [d; h; w] => length (read hp a) = d /\ Forall (rect h w) (read hp a)
  | _ => True
  end.
End Heap.

(* ------------------------------------------------------------------ *)
(** ** The module's constants and helper functions *)

Section Phase.
Context {F : Type} `{Numeric F}.

Definition SPEED_OF_LIGHT : F := lit (29979245800 # 1).
Definition PI : F := lit (314159265359 # 100000000000).
Definition PLANCK_CONSTANT : F := lit (658211928 # 1000000000000000000000000000).
(** [math.pi] *)
Definition math_pi : F := lit (3141592653589793 # 1000000000000000).

Definition fsqr (x : F) : F := fmul x x.

(** [cp.arange(0, n)] as integers. *)
Definition arange (n : nat) : list Z := map Z.of_nat (seq 0 n).

(** Lines 135-148. *)
Definition _make_window (height width : nat) (ratio : F) (pattern : string) : matrix F :=
  let center_hei := ftrunc (fceil (fmul (of_Z (Z.of_nat height - 1)) (lit (1 # 2)))) in
  let center_wid := ftrunc (fceil (fmul (of_Z (Z.of_nat width - 1)) (lit (1 # 2)))) in
  if String.eqb pattern "PROJECTION" then
    let ulist := map (fun j => fdiv (fsub (fmul (lit 1) (of_Z j)) (of_Z center_wid))
                                 (of_Z (Z.of_nat width))) (arange width) in
    let vlist := map (fun i => fdiv (fsub (fmul (lit 1) (of_Z i)) (of_Z center_hei))
                                 (of_Z (Z.of_nat height))) (arange height) in
    (* u, v = cp.meshgrid(ulist, vlist): u[i][j] = ulist[j], v[i][j] = vlist[i] *)
    map (fun v => map (fun u => fadd (lit 1) (fmul ratio (fadd (fsqr u) (fsqr v)))) ulist)
      vlist
  else
    let ulist := map (fun j => fdiv (fsub (fmul (lit 1) (of_Z j)) (of_Z center_wid))
                                 (of_Z (Z.of_nat width))) (arange width) in
    let win1d := map (fun u => fadd (lit 1) (fmul ratio (fsqr u))) ulist in
    (* cp.tile(win1d, (height, 1)) *)
    repeat win1d height.

(** Lines 389-390; the division is one of Python floats. *)
Definition _wavelength (energy : F) : result F :=
  if is_zero energy then raise ZeroDivisionError
  else ok (fdiv (fmul (fmul (fmul (of_Z 2) PI) PLANCK_CONSTANT) SPEED_OF_LIGHT) energy).

(** Lines 393-395, on one entry of [w2]. *)
Definition _paganin_filter_factor (energy dist alpha : F) (w2 : matrix F)
  : result (matrix F) :=
  rbind (_wavelength energy) (fun wavelength =>
  ok (mmap (fun x => fdiv (of_Z 1)
                       (fadd (fdiv (fmul (fmul wavelength dist) x) (fmul (of_Z 4) PI)) alpha))
        w2)).

(** Python's [int(x)] on a floating-point value: NaN is refused with a
    ValueError and an infinity with an OverflowError; a finite value is
    truncated toward zero. *)
Definition py_int (x : F) : result Z :=
  if is_nan x then raise (ValueError msg_int_of_nan)
  else if is_posinf x || is_neginf x then raise OverflowError
  else ok (ftrunc x).

(** [x ** 2] on a Python float: the square of a finite [x] that overflows
    raises OverflowError; an infinite [x] gives an infinity. *)
Definition py_sqr (x : F) : result F :=
  let y := fsqr x in
  if is_posinf y && negb (is_posinf x || is_neginf x) then raise OverflowError
  else ok y.

(** Lines 398-401.  The square and the division are those of Python
    floats.  [cp.log2] of a negative number is NaN, which [int] refuses;
    [cp.log2(0)] is -inf and [pow(2, -inf)] is 0; a blur support that is
    infinite or NaN reaches [int] as such. *)
Definition _calc_pad_width (dim : nat) (pixel_size wavelength dist : F) : result Z :=
  rbind (py_sqr pixel_size) (fun pixel_size2 =>
  if is_zero pixel_size2 then raise ZeroDivisionError
  else
    let pad_pix := fceil (fdiv (fmul (fmul PI wavelength) dist) pixel_size2) in
    let x := fadd (of_Z (Z.of_nat dim)) pad_pix in
    if fltb x fzero then raise (ValueError msg_int_of_nan)
    else
      let p := if is_zero x then fzero else fpow (of_Z 2) (fceil (flog2 x)) in
      py_int (fmul (fsub p (of_Z (Z.of_nat dim))) (lit (1 # 2)))).

(** Lines 404-405 on a stack whose images have [dz] columns. *)
Definition _calc_pad_val (dz : nat) (tomo : list (matrix F)) : result F :=
  if dz =? 0 then raise IndexError
  else
    let vals := flat_map (map (fun row =>
                   fmul (fadd (nth 0 row fzero) (last row fzero)) (lit (1 # 2)))) tomo in
    ok (fdiv (fsum vals) (of_Z (Z.of_nat (length vals)))).

(** Lines 379-386. *)
Definition _calc_pad (dy dz : nat) (tomo : list (matrix F))
  (pixel_size dist energy : F) (pad : bool) : result (Z * Z * F) :=
  rbind (_wavelength energy) (fun wavelength =>
  if pad then
    rbind (_calc_pad_val dz tomo) (fun val =>
    rbind (_calc_pad_width dy pixel_size wavelength dist) (fun py =>
    rbind (_calc_pad_width dz pixel_size wavelength dist) (fun pz =>
    ok (py, pz, val))))
  else ok (0%Z, 0%Z, of_Z 0)).

(** Lines 461-464: [cp.arange(-n, num_grid, 2, dtype=cp.float32)] has
    [num_grid] entries [-n + 2*k] (none when [num_grid <= 0]); the scale
    factor is computed with Python floats. *)
Definition _reciprocal_coord (pixel_size : F) (num_grid : Z) : result (list F) :=
  let n := (num_grid - 1)%Z in
  let rc := map (fun k => cast float32 (of_Z (- n + 2 * Z.of_nat k)))
              (seq 0 (Z.to_nat num_grid)) in
  if is_zero (fmul (of_Z n) pixel_size) then raise ZeroDivisionError
  else
    let c := fdiv (lit (1 # 2)) (fmul (of_Z n) pixel_size) in
    ok (map (fun x => cast float32 (fmul x c)) rc).

(** Lines 425-441. *)
Definition _reciprocal_grid (pixel_size : F) (nx ny : Z) : result (matrix F) :=
  rbind (_reciprocal_coord pixel_size nx) (fun indx =>
  rbind (_reciprocal_coord pixel_size ny) (fun indy =>
  let indx := map (fun x => cast float32 (fsqr x)) indx in
  let indy := map (fun y => cast float32 (fsqr y)) indy in
  ok (map (fun xi => map (fun yj => fadd xi yj) indy) indx))).

(** [a.max()] over all the entries of a 2-D array. *)
Definition matrix_max (m : matrix F) : result F :=
  match concat m with
  | [] => raise (ValueError "zero-size array to reduction operation maximum which has no identity")
  | x :: l => ok (fold_left (fun acc y => if fltb acc y then y else acc) l x)
  end.
End Phase.

(* ------------------------------------------------------------------ *)
(** ** The three filters *)

Section Filters.
Context {F : Type} `{Numeric F}.

Local Open Scope Z_scope.
Local Open Scope result_scope.

(** The body of the loop of lines 107-127 up to [mat_dec], for the image
    [img = mat[i]]. *)
Definition fresnel_image (pattern : string) (window : matrix F) (pad_width : Z)
  (nrow ncol : nat) (img : matrix F) : result (matrix F) :=
  if String.eqb pattern "PROJECTION" then
    let top_drop := 10%Z in
    mat_pad <- pad_edge_int (pad_width + top_drop) pad_width pad_width pad_width
                 (slice (Some top_drop) None img) ;;
    win_pad <- pad_edge_int pad_width pad_width pad_width pad_width window ;;
    mat_fft <- fft2 (mmap of_real mat_pad) ;;
    quot <- elementwise cdiv_real mat_fft (ifftshift win_pad) ;;
    mat_dec <- ifft2 quot ;;
    ok (mmap creal (crop pad_width (pad_width + Z.of_nat nrow)
                      pad_width (pad_width + Z.of_nat ncol) mat_dec))
  else
    mat_pad <- pad_edge_int 0 0 pad_width pad_width img ;;
    win_pad <- pad_edge_int 0 0 pad_width pad_width window ;;
    mat_fft0 <- fft (mmap of_real mat_pad) ;;
    mat_fft <- elementwise cdiv_real (fftshift_axis1 mat_fft0) win_pad ;;
    mat_dec <- ifft (ifftshift_axis1 mat_fft) ;;
    ok (mmap creal (map (slice (Some pad_width) (Some (pad_width + Z.of_nat ncol))) mat_dec)).

(** Lines 82-130 on a stack of shape [shp] and contents [data]: the shape
    and the contents of [res]. *)
Definition fresnel_stack (shp : list nat) (data : list (matrix F)) (pattern : string)
  (ratio : F) (apply_log : bool) : result (list nat * list (matrix F)) :=
  match shp with
  | [depth1; height1; width1] =>
      let data := if apply_log then map (mmap (fun x => fneg (fln x))) data else data in
      let window := _make_window height1 width1 ratio pattern in
      let pad_width := Z.min 150 (ftrunc (fmul (lit (1 # 10)) (of_Z (Z.of_nat width1)))) in
      let nrow := height1 in
      let ncol := width1 in
      let padded_height := (Z.of_nat height1 + pad_width * 2)%Z in
      let res_height := Z.min (Z.of_nat nrow) (padded_height - pad_width) in
      let padded_width := (Z.of_nat width1 + pad_width * 2)%Z in
      let res_width := Z.min (Z.of_nat ncol) (padded_width - pad_width) in
      res <- zeros_stack depth1 res_height res_width ;;
      res <- for_range (fun i res =>
               mat_dec <- fresnel_image pattern window pad_width nrow ncol (nth i data []) ;;
               assign_image (Z.to_nat res_height) (Z.to_nat res_width) i mat_dec res)
               0 depth1 res ;;
      let res := if apply_log then map (mmap (fun x => fexp (fneg x))) res else res in
      ok ([depth1; Z.to_nat res_height; Z.to_nat res_width], res)
  | _ => raise (ValueError (invalid_ndim_msg (length shp)))
  end.

(** Lines 45-132: the rank check, the filter on the contents of [mat], and
    the new single-precision array [cp.asarray(res, dtype=cp.float32)]. *)
Definition fresnel_filter (mat : ndarray) (pattern : string) (ratio : F)
  (apply_log : bool) (hp : heap) : result (ndarray * heap) :=
  mat <- check_stack mat ;;
  '(shp, res) <- fresnel_stack (shape mat) (read hp mat) pattern ratio apply_log ;;
  ok (alloc hp float32 shp (map (mmap (cast float32)) res)).

(** The body of the loop of lines 247-256 up to the cropped [proj], for
    the padded image [img = data[i]] of dtype [dt]. *)
Definition paganin_image (dt : dtype) (filtercomplex : matrix complex) (ratio increment : F)
  (pad_y pad_x : Z) (height width : nat) (img : matrix F) : result (matrix F) :=
  let proj := transform_input dt img in
  pci1 <- fft2 (mmap of_real proj) ;;
  pci2 <- elementwise cdiv (fftshift pci1) filtercomplex ;;
  inv <- ifft2 pci2 ;;
  let fpci := mmap cabs inv in
  let proj := mmap (fun x => fmul (fmul (lit (-1 # 2)) ratio) (fln (fadd x increment))) fpci in
  ok (crop pad_y (pad_y + Z.of_nat height) pad_x (pad_x + Z.of_nat width) proj).

(** Lines 211-237: the complex filter over the padded shape. *)
Definition paganin_filtercomplex (ratio energy distance resolution : F)
  (height1 width1 : Z) : result (matrix complex) :=
  let micron := lit (1 # 1000000) in
  let keV := lit 1000 in
  let energy := fmul energy keV in
  let resolution := fmul resolution micron in
  if is_zero energy then raise ZeroDivisionError
  else
    let wavelength := fmul (fdiv (lit 1240) energy) (lit (1 # 1000000000)) in
    let centery := fsub (fceil (fdiv (of_Z height1) (lit 2))) (lit 1) in
    let centerx := fsub (fceil (fdiv (of_Z width1) (lit 2))) (lit 1) in
    if is_zero (fmul (of_Z width1) resolution) then raise ZeroDivisionError
    else if is_zero (fmul (of_Z height1) resolution) then raise ZeroDivisionError
    else
      let dpx := fdiv (lit 1) (fmul (of_Z width1) resolution) in
      let dpy := fdiv (lit 1) (fmul (of_Z height1) resolution) in
      let pxlist := map (fun j => fmul (fsub (of_Z j) centerx) dpx) (arange (Z.to_nat width1)) in
      let pylist := map (fun i => fmul (fsub (of_Z i) centery) dpy) (arange (Z.to_nat height1)) in
      if ((height1 <? 0) || (width1 <? 0))%Z then raise (ValueError msg_negative_dim)
      else
        (* pxx[i][j] = pxlist[j] and pyy[i][j] = pylist[i], stored as float32 *)
        ok (map (fun py =>
               map (fun px =>
                      let pxx := cast float32 px in
                      let pyy := cast float32 py in
                      let pd := fmul (fmul (fmul (fadd (fmul pxx pxx) (fmul pyy pyy))
                                              wavelength) distance) math_pi in
                      let filter1 := fadd (lit 1) (fmul ratio pd) in
                      (filter1, filter1))
                 pxlist)
              pylist).

(** Lines 211-256 on a stack of dtype [dt], shape [shp] and contents
    [data]: the shape and the contents of [res]. *)
Definition paganin_stack (dt : dtype) (shp : list nat) (data : list (matrix F))
  (ratio energy distance resolution : F) (pad_y pad_x : Z) (pad_method : pad_mode F)
  (increment : F) : result (list nat * list (matrix F)) :=
  match shp with
  | [depth; height; width] =>
      let height1 := (Z.of_nat height + 2 * pad_y)%Z in
      let width1 := (Z.of_nat width + 2 * pad_x)%Z in
      filtercomplex <- paganin_filtercomplex ratio energy distance resolution height1 width1 ;;
      padded <- pad_stack pad_method pad_y pad_x height width data ;;
      let res := repeat (full height width fzero) depth in
      res <- for_range (fun i res =>
               proj <- paganin_image dt filtercomplex ratio increment
                         pad_y pad_x height width (nth i padded []) ;;
               assign_image height width i (mmap (cast float32) proj) res)
               0 depth res ;;
      ok ([depth; height; width], res)
  | _ => raise (ValueError (invalid_ndim_msg (length shp)))
  end.

(** Lines 154-258: the rank check, the filter on the contents of [data],
    and the new single-precision array [res]. *)
Definition paganin_filter (data : ndarray) (ratio energy distance resolution : F)
  (pad_y pad_x : Z) (pad_method : pad_mode F) (increment : F) (hp : heap)
  : result (ndarray * heap) :=
  data <- check_stack data ;;
  '(shp, res) <- paganin_stack (dtype_of data) (shape data) (read hp data)
                   ratio energy distance resolution pad_y pad_x pad_method increment ;;
  ok (alloc hp float32 shp res).

(** The body of the loop of lines 333-348: the working buffer [prj] is
    updated in place and the filtered image [proj] is produced from it. *)
Definition retrieve_image (normalized_phase_filter : matrix F) (px py : Z) (dy dz : nat)
  (pad : bool) (img : matrix F) (prj : matrix F) : result (matrix F * matrix F) :=
  prj <- assign_block px (Z.of_nat dy + px) py (Z.of_nat dz + py)
           (mmap (cast float32) img) prj ;;
  prj <- assign_rows None (Some px) px prj ;;
  prj <- assign_rows (Some (- px)%Z) None (- px - 1) prj ;;
  prj <- assign_cols None (Some py) py fzero prj ;;
  prj <- assign_cols (Some (- py)%Z) None (- py - 1) fzero prj ;;
  fproj <- fft2 (mmap of_real prj) ;;
  fproj <- elementwise_inplace cscale fproj normalized_phase_filter ;;
  inv <- ifft2 fproj ;;
  let proj := mmap creal inv in
  let proj := if pad then crop px (Z.of_nat dy + px) py (Z.of_nat dz + py) proj else proj in
  ok (prj, proj).

(** Lines 322-349: the images of [tomo] are overwritten one by one and
    [tomo] itself is returned. *)
Definition _retrieve_phase (tomo : ndarray) (phase_filter : matrix F) (px py : Z)
  (prj : matrix F) (pad : bool) (hp : heap) : result (ndarray * heap) :=
  match shape tomo with
  | [num_projs; dy; dz] =>
      mx <- matrix_max phase_filter ;;
      let normalized_phase_filter := mmap (fun x => fdiv x mx) phase_filter in
      '(_, hp') <- for_range (fun m (st : matrix F * heap) =>
                 let '(prj, hp) := st in
                 '(prj', proj) <- retrieve_image normalized_phase_filter px py dy dz pad
                                    (nth m (read hp tomo) []) prj ;;
                 stack' <- assign_image dy dz m (mmap (cast (dtype_of tomo)) proj)
                             (read hp tomo) ;;
                 ok (prj', write hp tomo stack'))
                 0 num_projs (prj, hp) ;;
      ok (tomo, hp')
  | _ => raise (ValueError (invalid_ndim_msg (ndim tomo)))
  end.

(** Lines 264-319. *)
Definition retrieve_phase (tomo : ndarray) (pixel_size dist energy alpha : F) (pad : bool)
  (hp : heap) : result (ndarray * heap) :=
  tomo <- check_stack tomo ;;
  match shape tomo with
  | [_; dy; dz] =>
      '(py, pz, val) <- _calc_pad dy dz (read hp tomo) pixel_size dist energy pad ;;
      let ny := (Z.of_nat dy + 2 * py)%Z in
      let nz := (Z.of_nat dz + 2 * pz)%Z in
      w2 <- _reciprocal_grid pixel_size ny nz ;;
      factor <- _paganin_filter_factor energy dist alpha w2 ;;
      let phase_filter := fftshift factor in
      if ((ny <? 0) || (nz <? 0))%Z then raise (ValueError msg_negative_dim)
      else
        let prj := full (Z.to_nat ny) (Z.to_nat nz) (cast float32 val) in
        _retrieve_phase tomo phase_filter py pz prj pad hp
  | _ => raise (ValueError (invalid_ndim_msg (ndim tomo)))
  end.
End Filters.

(* ------------------------------------------------------------------ *)
(** ** Instance: IEEE 754 binary32 and binary64 values *)

Module IEEE.
Definition prec (dt : dtype) : Z :=
  match dt with float32 => 24 | float64 => 53 end.
Definition emax (dt : dtype) : Z :=
  match dt with float32 => 128 | float64 => 1024 end.

(** Rounding to the nearest value of a dtype; overflow gives an infinity. *)
Definition round_to (dt : dtype) (x : spec_float) : spec_float :=
  match x with
  | S754_finite s m e =>
      binary_normalize (prec dt) (emax dt) (cond_Zopp s (Zpos m)) e s
  | _ => x
  end.

Definition finite (x : spec_float) : bool :=
  match x with
  | S754_zero _ | S754_finite _ _ _ => true
  | _ => false
  end.

#[export] Instance float_class : FloatClass spec_float := {
  fzero := S754_zero false;
  fone := SFone 53 1024;
  is_nan x := match x with S754_nan => true | _ => false end;
  is_posinf x := match x with S754_infinity false => true | _ => false end;
  is_neginf x := match x with S754_infinity true => true | _ => false end;
  is_zero x := match x with S754_zero _ => true | _ => false end;
  fmaxval dt := SFmax_float (prec dt) (emax dt);
  fneg := SFopp;
  cast := round_to
}.
End IEEE.

(* ------------------------------------------------------------------ *)
(** ** Instance: real numbers (exact arithmetic, no rounding) *)

Module Exact.
Local Open Scope R_scope.

(** Ceiling and truncation toward zero of a real number. *)
Definition ceilZ (x : R) : Z := (1 - up (- x))%Z.
Definition floorZ (x : R) : Z := (up x - 1)%Z.
Definition truncZ (x : R) : Z := if Rle_dec 0 x then floorZ x else ceilZ x.

#[export] Instance float_class : FloatClass R := {
  fzero := 0;
  fone := 1;
  is_nan _ := false;
  is_posinf _ := false;
  is_neginf _ := false;
  is_zero x := if Req_dec_T x 0 then true else false;
  fmaxval dt :=
    match dt with
    | float32 => IZR ((2 ^ 24 - 1) * 2 ^ 104)
    | float64 => IZR ((2 ^ 53 - 1) * 2 ^ 971)
    end;
  fneg := Ropp;
  cast _ x := x
}.

#[export] Instance numeric : Numeric R := {
  of_Z := IZR;
  lit := Q2R;
  fadd := Rplus;
  fsub := Rminus;
  fmul := Rmult;
  fdiv := Rdiv;
  fltb x y := if Rlt_dec x y then true else false;
  fln := ln;
  fexp := exp;
  fsqrt := sqrt;
  flog2 x := ln x / ln 2;
  fpow := Rpower;
  fceil x := IZR (ceilZ x);
  ftrunc := truncZ;
  twiddle n k :=
    (cos (2 * Rtrigo1.PI * IZR k / INR n), - sin (2 * Rtrigo1.PI * IZR k / INR n))
}.
End Exact.

(* ------------------------------------------------------------------ *)
(** ** Instance: real numbers with rounding *)

(** Floating-point arithmetic on the reals: every arithmetic result is
    rounded by [rnd]; [log2_fl] and [pow_fl] are the library's [log2] and
    power functions.  The ceiling and the truncation are exact, as they are
    on floating-point values.  Values are classified as in [Exact]: NaN and
    the infinities are not represented. *)
Module Rounded.
Section Rounding.
Variable rnd : R -> R.
Variable log2_fl : R -> R.
Variable pow_fl : R -> R -> R.

Definition numeric : @Numeric R Exact.float_class := {|
  of_Z := fun z => rnd (IZR z);
  lit := fun q => rnd (Q2R q);
  fadd := fun x y => rnd (x + y)%R;
  fsub := fun x y => rnd (x - y)%R;
  fmul := fun x y => rnd (x * y)%R;
  fdiv := fun x y => rnd (x / y)%R;
  fltb := fun x y => if Rlt_dec x y then true else false;
  fln := fun x => rnd (ln x);
  fexp := fun x => rnd (exp x);
  fsqrt := fun x => rnd (sqrt x);
  flog2 := log2_fl;
  fpow := pow_fl;
  fceil := fun x => IZR (Exact.ceilZ x);
  ftrunc := Exact.truncZ;
  twiddle := fun n k =>
    (rnd (cos (2 * Rtrigo1.PI * IZR k / INR n)),
     rnd (- sin (2 * Rtrigo1.PI * IZR k / INR n)))%R
|}.
End Rounding.
End Rounded.

(* ================================================================== *)
(** * Notions used in the statements *)

Import IEEE Exact.

(** What lines 250-251 make of a pixel of an array of dtype [dt]. *)
Definition sanitized (dt : dtype) (x : spec_float) : spec_float :=
  match x with
  | S754_nan => round_to dt (SFone 53 1024)
  | S754_zero _ => round_to dt (SFone 53 1024)
  | S754_infinity false => SFmax_float (prec dt) (emax dt)
  | S754_infinity true => SFopp (SFmax_float (prec dt) (emax dt))
  | S754_finite _ _ _ => x
  end.

(** The coordinate the specification gives for index [k] of an axis of
    [n] points. *)
Definition reciprocal_coord_spec (pixel_size : R) (n k : nat) : R :=
  ((2 * INR k - (INR n - 1)) / (2 * (INR n - 1) * pixel_size))%R.

(** The value [PI * wavelength * dist / pixel_size ** 2] of line 400, of
    which [_calc_pad_width] takes the ceiling. *)
Definition blur_support {F : Type} `{Numeric F} (pixel_size wavelength dist : F) : F :=
  fdiv (fmul (fmul PI wavelength) dist) (fsqr pixel_size).

(** The factor by which [retrieve_phase] with [pad=False] multiplies the
    constant it makes of an image of [h] rows and [w] columns: the entry of
    the filter of line 395 that [fftshift] moves to position [0, 0], over
    the largest entry of the filter, the one at the frequencies nearest to
    zero. *)
Definition no_pad_gain (pixel_size dist energy alpha : R) (h w : nat) : R :=
  let wavelength := (2 * PI * PLANCK_CONSTANT * SPEED_OF_LIGHT / energy)%R in
  let factor := fun i j : nat =>
    (1 / (wavelength * dist
            * (reciprocal_coord_spec pixel_size h i * reciprocal_coord_spec pixel_size h i
               + reciprocal_coord_spec pixel_size w j * reciprocal_coord_spec pixel_size w j)
            / (4 * PI) + alpha))%R in
  (factor (h - h / 2)%nat (w - w / 2)%nat / factor ((h - 1) / 2)%nat ((w - 1) / 2)%nat)%R.

(** The error of the rank check, recognised by its message. *)
Definition is_rank_error (e : exn) : bool :=
  match e with
  | ValueError msg => String.prefix "Invalid number of dimensions" msg
  | _ => false
  end.

(** A computation that does not raise the error of the rank check. *)
Definition no_rank_error {A : Type} (c : result A) : Prop :=
  forall e, c = inl e -> is_rank_error e = false.

(** The entry [img[-1, -1]]. *)
Definition bottom_right {F : Type} `{FloatClass F} (img : matrix F) : F :=
  nth (ncols img - 1) (nth (nrows img - 1) img []) fzero.

(** The angle of the twiddle factor [exp(-2*pi*i*k/n)]. *)
Definition angle (n : nat) (k : Z) : R := (2 * Rtrigo1.PI * IZR k / INR n)%R.

(** The sum of the [n] powers of a twiddle factor. *)
Definition geometric (n : nat) (k : nat) : R * R :=
  csum (map (fun m => twiddle n (1 * Z.of_nat m * Z.of_nat k)) (seq 0 n)).

(** An image of complex numbers whose only non-zero entry is [v] at
    [0, 0]: the transform of a constant image. *)
Definition is_delta (h w : nat) (v : R * R) (x : matrix (R * R)) : Prop :=
  rect h w x
  /\ forall k l, k < h -> l < w ->
       nth l (nth k x []) czero = if (k =? 0) && (l =? 0) then v else czero.

(** Sample inputs. *)

(** A double-precision stack holding one image of two rows and two columns. *)
Definition image_2x2 : matrix R := [[1%R; 2%R]; [3%R; 4%R]].
Definition heap_2x2 : heap (F := R) := [[image_2x2]].
Definition stack_2x2 : ndarray := {| base := 0; dtype_of := float64; shape := [1; 2; 2] |}.

(** A stack holding one image of five rows and five columns. *)
Definition image_5x5 : matrix R := full 5 5 1%R.
Definition heap_5x5 : heap (F := R) := [[image_5x5]].
Definition stack_5x5 : ndarray := {| base := 0; dtype_of := float32; shape := [1; 5; 5] |}.

(** Two stacks of one image of eleven rows and one column that differ in
    their first row only. *)
Definition image_11a : matrix R := repeat [1%R] 11.
Definition image_11b : matrix R := [5%R] :: repeat [1%R] 10.
Definition heap_11 : heap (F := R) := [[image_11a]; [image_11b]].
Definition stack_11a : ndarray := {| base := 0; dtype_of := float32; shape := [1; 11; 1] |}.
Definition stack_11b : ndarray := {| base := 1; dtype_of := float32; shape := [1; 11; 1] |}.

(** An array of rank 1 (four entries, stored as one row) and an image of
    rank 2 over the buffer of [stack_2x2]. *)
Definition heap_vector : heap (F := R) := [[[[1%R; 2%R; 3%R; 4%R]]]].
Definition vector_4 : ndarray := {| base := 0; dtype_of := float32; shape := [4] |}.
Definition array_2x2 : ndarray := {| base := 0; dtype_of := float64; shape := [2; 2] |}.

(** Notions and sample inputs of the further properties. *)

(** What [fresnel_filter] can keep of an image under the pattern
    "PROJECTION": rows 0 to 9 are replaced by row 10. *)
Definition top_rows_replaced {A : Type} (img : matrix A) : matrix A :=
  repeat (nth 10 img []) 10 ++ skipn 10 img.

(** Every pixel of a stack is positive. *)
Definition positive_stack (data : list (matrix R)) : Prop :=
  Forall (Forall (Forall (fun x => (0 < x)%R))) data.

(** Every pixel of the image has the same value. *)
Definition constant_image {A : Type} (h w : nat) (img : matrix A) : Prop :=
  exists v, img = full h w v.

(** Every row of the image is constant. *)
Definition constant_rows {A : Type} (w : nat) (img : matrix A) : Prop :=
  Forall (fun r => exists v, r = repeat v w) img.

(** A stack holding one constant image of four rows and four columns. *)
Definition image_4x4 : matrix R := full 4 4 3%R.
Definition heap_4x4 : heap (F := R) := [[image_4x4]].
Definition stack_4x4 : ndarray := {| base := 0; dtype_of := float32; shape := [1; 4; 4] |}.

(** A stack of one image of two rows and no column. *)
Definition heap_no_columns : heap (F := R) := [[[[]; []]]].
Definition stack_no_columns : ndarray :=
  {| base := 0; dtype_of := float32; shape := [1; 2; 0] |}.

(** The pixel [paganin_filter] computes at distance 0 from the pixel [x]. *)
Definition paganin_pointwise (ratio increment x : R) : R :=
  (- (1 / 2) * ratio
   * ln (Rabs (if Req_dec_T x 0 then 1 else x) / sqrt 2 + increment))%R.

(** The entry of the filter of [paganin_filter] that meets the zero
    frequency of the shifted spectrum of a padded image of [h1] rows and
    [w1] columns, the entry [h1 // 2, w1 // 2]: the frequency there is 0 on
    an axis of odd length and one step [1 / (n * resolution)] on an axis of
    even length. *)
Definition paganin_center_gain (ratio energy distance resolution : R) (h1 w1 : nat) : R :=
  let off := fun n : nat => if Nat.even n then 1%R else 0%R in
  let wavelength := (1240 / (energy * 1000) * (1 / 1000000000))%R in
  let px := (off w1 * (1 / (INR w1 * (resolution * (1 / 1000000)))))%R in
  let py := (off h1 * (1 / (INR h1 * (resolution * (1 / 1000000)))))%R in
  (1 + ratio * ((px * px + py * py) * wavelength * distance * math_pi))%R.

(** The pixel [paganin_filter] computes from the pixel [x] of a constant
    image, for the gain [g] of the filter at the zero frequency. *)
Definition paganin_flat (ratio increment g x : R) : R :=
  (- (1 / 2) * ratio
   * ln (Rabs (if Req_dec_T x 0 then 1 else x) / (sqrt 2 * g) + increment))%R.

(** An image of one infinite pixel. *)
Definition image_inf : matrix spec_float := [[S754_infinity false]].

(* ================================================================== *)
(** * Properties *)

(* ------------------------------------------------------------------ *)
(** ** Pixels on the way to the transform of [paganin_filter] *)

Lemma sanitize_pixel_cases (dt : dtype) (x : spec_float) :
  sanitize_pixel dt x = sanitized dt x.
Proof.
  destruct x as [s | [|] | | s m e]; reflexivity.
Qed.

Lemma sanitized_finite_nonzero (dt : dtype) (x : spec_float) :
  finite (sanitized dt x) = true /\ is_zero (sanitized dt x) = false.
Proof.
  destruct dt; destruct x as [s | [|] | | s m e]; split; reflexivity.
Qed.

(** C6, as the code has it: [cp.nan_to_num] turns NaN into 0.0, but +inf and
    -inf into the largest and the most negative finite value of the dtype
    (not into zero); line 251 then turns every exact zero (the former NaNs
    among them) into 1.0.  After line 251 the image holds no NaN, no
    infinity and no zero, and finite non-zero pixels are left as they were. *)
Theorem C6_paganin_sanitize (dt : dtype) (img : matrix spec_float) :
  Forall (Forall (fun y => finite y = true /\ is_zero y = false)) (sanitize dt img)
  /\ nan_to_num dt S754_nan = S754_zero false
  /\ nan_to_num dt (S754_infinity false) = SFmax_float (prec dt) (emax dt)
  /\ nan_to_num dt (S754_infinity true) = SFopp (SFmax_float (prec dt) (emax dt))
  /\ (forall x, is_zero (nan_to_num dt x) = true ->
        sanitize_pixel dt x = round_to dt (SFone 53 1024))
  /\ (forall s m e, sanitize_pixel dt (S754_finite s m e) = S754_finite s m e).
Proof.
  repeat split.
  - unfold sanitize, mmap.
    apply Forall_forall; intros row Hrow.
    apply in_map_iff in Hrow as [row0 [<- _]].
    apply Forall_forall; intros y Hy.
    apply in_map_iff in Hy as [x [<- _]].
    rewrite sanitize_pixel_cases.
    apply sanitized_finite_nonzero.
  - intros x Hx. unfold sanitize_pixel, zero_to_one. now rewrite Hx.
Qed.

(** C6 as stated fails: a +inf pixel of a single-precision image is replaced
    by the largest finite single-precision value, not by zero (and so not by
    1.0 afterwards); and a +inf pixel of a double-precision image reaches the
    transform as +inf again, the largest double overflowing in the
    conversion of line 252. *)
Lemma C6_counterexample :
  nan_to_num float32 (S754_infinity false) = S754_finite false 16777215 104
  /\ sanitize_pixel float32 (S754_infinity false) <> round_to float32 (SFone 53 1024)
  /\ transform_input float64 [[S754_infinity false]] = [[S754_infinity false]].
Proof.
  repeat split; try reflexivity.
  vm_compute. discriminate.
Qed.

(* ------------------------------------------------------------------ *)
(** ** Facts of real arithmetic used by the exact instance *)

Ltac push_IZR :=
  repeat (rewrite ?plus_IZR, ?mult_IZR, ?minus_IZR, ?opp_IZR in * ).

Lemma ceilZ_spec (x : R) (z : Z) :
  (IZR z - 1 < x)%R -> (x <= IZR z)%R -> ceilZ x = z.
Proof.
  intros Hlo Hhi. unfold ceilZ.
  assert (Hup : (1 - z)%Z = up (- x)).
  { apply tech_up; rewrite minus_IZR; lra. }
  rewrite <- Hup. lia.
Qed.

Lemma floorZ_spec (x : R) (z : Z) :
  (IZR z <= x)%R -> (x < IZR z + 1)%R -> floorZ x = z.
Proof.
  intros Hlo Hhi. unfold floorZ.
  assert (Hup : (z + 1)%Z = up x).
  { apply up_tech; [assumption | rewrite plus_IZR; lra]. }
  rewrite <- Hup. lia.
Qed.

Lemma ceilZ_bounds (x : R) : (IZR (ceilZ x) - 1 < x <= IZR (ceilZ x))%R.
Proof.
  unfold ceilZ. destruct (archimed (- x)) as [H1 H2].
  rewrite minus_IZR. lra.
Qed.

Lemma ceilZ_IZR (z : Z) : ceilZ (IZR z) = z.
Proof. apply ceilZ_spec; lra. Qed.

Lemma truncZ_IZR (z : Z) : truncZ (IZR z) = z.
Proof.
  unfold truncZ. destruct (Rle_dec 0 (IZR z)).
  - apply floorZ_spec; lra.
  - apply ceilZ_IZR.
Qed.

Lemma truncZ_nonneg (x : R) (z : Z) :
  (IZR z <= x)%R -> (x < IZR z + 1)%R -> (0 <= z)%Z -> truncZ x = z.
Proof.
  intros Hlo Hhi Hz. unfold truncZ.
  assert (0 <= IZR z)%R by (apply IZR_le; assumption).
  destruct (Rle_dec 0 x); [apply floorZ_spec; assumption | lra].
Qed.

Lemma Q2R_half : Q2R (1 # 2) = (/ 2)%R.
Proof. unfold Q2R; simpl. lra. Qed.

Lemma Q2R_one : Q2R 1 = 1%R.
Proof. unfold Q2R; simpl. lra. Qed.

(** [ceil(z / 2)] of an integer [z]. *)
Lemma ceilZ_half (z : Z) : ceilZ (IZR z * / 2) = ((z + 1) / 2)%Z.
Proof.
  apply ceilZ_spec.
  - assert (H : (2 * ((z + 1) / 2) <= z + 1)%Z) by (apply Z.mul_div_le; lia).
    apply IZR_le in H. push_IZR. lra.
  - assert (H' : (z <= 2 * ((z + 1) / 2))%Z).
    { pose proof (Z.mod_pos_bound (z + 1) 2 ltac:(lia)).
      pose proof (Z.div_mod (z + 1) 2 ltac:(lia)). lia. }
    apply IZR_le in H'. push_IZR. lra.
Qed.

(* ------------------------------------------------------------------ *)
(** ** Lists and indices *)

Lemma nth_map_lt {A B : Type} (f : A -> B) (l : list A) (d : B) (d' : A) (n : nat) :
  n < length l -> nth n (map f l) d = f (nth n l d').
Proof.
  revert n; induction l as [| a l IH]; intros [| n] Hn; simpl in *; try lia; auto.
  apply IH; lia.
Qed.

Lemma nth_repeat_lt {A : Type} (a d : A) (n k : nat) :
  k < n -> nth k (repeat a n) d = a.
Proof.
  revert k; induction n as [| n IH]; intros [| k] Hk; simpl; try lia; auto.
  apply IH; lia.
Qed.

Lemma length_arange (n : nat) : length (arange n) = n.
Proof. unfold arange. now rewrite length_map, length_seq. Qed.

Lemma nth_arange (n k : nat) (d : Z) : k < n -> nth k (arange n) d = Z.of_nat k.
Proof.
  intros Hk. unfold arange.
  rewrite nth_map_lt with (d' := 0) by (rewrite length_seq; exact Hk).
  now rewrite seq_nth.
Qed.

Lemma rect_map_map {A B C : Type} (f : A -> B -> C) (la : list A) (lb : list B) :
  rect (length la) (length lb) (map (fun a => map (fun b => f a b) lb) la).
Proof.
  split.
  - apply length_map.
  - apply Forall_forall; intros r Hr.
    apply in_map_iff in Hr as [a [<- _]]. apply length_map.
Qed.

Lemma rect_repeat {A : Type} (row : list A) (h : nat) :
  rect h (length row) (repeat row h).
Proof.
  split.
  - apply repeat_length.
  - apply Forall_forall; intros r Hr. now apply repeat_spec in Hr as ->.
Qed.

(* ------------------------------------------------------------------ *)
(** ** The Fresnel window *)

(** The centre the code computes for an axis of [n] points. *)
Lemma window_center (n : nat) :
  truncZ (IZR (ceilZ (IZR (Z.of_nat n - 1) * Q2R (1 # 2)))) = ceilZ (IZR (Z.of_nat n - 1) / 2).
Proof. now rewrite truncZ_IZR, Q2R_half. Qed.

(** C7, as the code has it: the two-dimensional window is built when the
    pattern is the string "PROJECTION" (upper case); every other pattern,
    "projection" in lower case included, gets the row-invariant window.
    Centres are [ceil((n-1)/2)], coordinates [(k - centre)/n], and the
    window is [height] rows by [width] columns. *)
Theorem C7_make_window (height width : nat) (ratio : R) (pattern : string) (i j : nat) :
  i < height -> j < width ->
  let center_row := ceilZ (IZR (Z.of_nat height - 1) / 2) in
  let center_col := ceilZ (IZR (Z.of_nat width - 1) / 2) in
  let u := ((IZR (Z.of_nat j) - IZR center_col) / IZR (Z.of_nat width))%R in
  let v := ((IZR (Z.of_nat i) - IZR center_row) / IZR (Z.of_nat height))%R in
  let win := _make_window height width ratio pattern in
  rect height width win
  /\ nth j (nth i win []) 0%R =
       (if String.eqb pattern "PROJECTION"
        then 1 + ratio * (u * u + v * v)
        else 1 + ratio * (u * u))%R
  /\ (String.eqb pattern "PROJECTION" = false -> nth i win [] = nth 0 win []).
Proof.
  intros Hi Hj center_row center_col u v win.
  subst win. unfold _make_window.
  cbn [ftrunc fceil fmul of_Z lit fdiv fsub fadd numeric].
  rewrite !window_center. fold center_row center_col.
  destruct (String.eqb pattern "PROJECTION") eqn:Hp.
  - split; [| split; [| discriminate]].
    + pose proof (rect_map_map
        (fun (vv uu : R) => (Q2R 1 + ratio * (fsqr uu + fsqr vv))%R)
        (map (fun i0 => ((Q2R 1 * IZR i0 - IZR center_row) / IZR (Z.of_nat height))%R)
           (arange height))
        (map (fun j0 => ((Q2R 1 * IZR j0 - IZR center_col) / IZR (Z.of_nat width))%R)
           (arange width))) as Hr.
      now rewrite !length_map, !length_arange in Hr.
    + rewrite nth_map_lt with (d' := 0%R) by (now rewrite length_map, length_arange).
      rewrite nth_map_lt with (d' := 0%R) by (now rewrite length_map, length_arange).
      rewrite !nth_map_lt with (d' := 0%Z) by (now rewrite length_arange).
      rewrite !nth_arange by assumption.
      unfold fsqr; cbn [fmul numeric]. rewrite Q2R_one. subst u v. lra.
  - split; [| split].
    + pose proof (rect_repeat
        (map (fun uu : R => (Q2R 1 + ratio * fsqr uu)%R)
           (map (fun j0 => ((Q2R 1 * IZR j0 - IZR center_col) / IZR (Z.of_nat width))%R)
              (arange width))) height) as Hr.
      now rewrite !length_map, !length_arange in Hr.
    + rewrite nth_repeat_lt by exact Hi.
      rewrite nth_map_lt with (d' := 0%R) by (now rewrite length_map, length_arange).
      rewrite nth_map_lt with (d' := 0%Z) by (now rewrite length_arange).
      rewrite nth_arange by assumption.
      unfold fsqr; cbn [fmul numeric]. rewrite Q2R_one. subst u. lra.
    + intros _. rewrite !nth_repeat_lt by lia. reflexivity.
Qed.

Lemma center_of_two : ceilZ (IZR (Z.of_nat 2 - 1) / 2) = 1%Z.
Proof. apply ceilZ_spec; simpl; lra. Qed.

(** The theorem at a window of 2 by 2 points, entry (0, 1). *)
Lemma C7_witness :
  nth 1 (nth 0 (_make_window 2 2 1%R "PROJECTION") []) 0%R
  = (1 + 1 * (0 * 0 + (- 1 / 2) * (- 1 / 2)))%R.
Proof.
  destruct (@C7_make_window 2 2 1%R "PROJECTION"%string 0 1
              ltac:(lia) ltac:(lia)) as (_ & Hentry & _).
  rewrite Hentry. rewrite center_of_two. simpl. lra.
Defined.

(** C7 as stated fails at the pattern "projection": the code compares with
    "PROJECTION", so the window of a 2 by 2 image with ratio 1 has
    [1 + u^2 = 5/4] at entry (0, 0), where the statement has
    [1 + (u^2 + v^2) = 3/2] with [u = v = (0 - 1)/2]. *)
Lemma C7_counterexample :
  nth 0 (nth 0 (_make_window 2 2 1%R "projection") []) 0%R = (5 / 4)%R
  /\ (5 / 4 <> 1 + 1 * ((0 - 1) / 2 * ((0 - 1) / 2) + (0 - 1) / 2 * ((0 - 1) / 2)))%R.
Proof.
  split; [| lra].
  unfold _make_window.
  cbn [ftrunc fceil fmul of_Z lit fdiv fsub fadd numeric].
  rewrite !window_center, center_of_two.
  simpl. unfold fsqr; cbn [fmul numeric]. rewrite Q2R_one. lra.
Qed.

(* ------------------------------------------------------------------ *)
(** ** The reciprocal grid *)

Lemma is_zero_false (x : R) : x <> 0%R -> is_zero x = false.
Proof. intros Hx. cbn. destruct (Req_dec_T x 0); [contradiction | reflexivity]. Qed.

Lemma is_zero_true (x : R) : x = 0%R -> is_zero x = true.
Proof. intros Hx. cbn. destruct (Req_dec_T x 0); [reflexivity | contradiction]. Qed.

Lemma reciprocal_coord_exact (pixel_size : R) (n : nat) :
  (0 < pixel_size)%R -> 2 <= n ->
  _reciprocal_coord pixel_size (Z.of_nat n)
  = ok (map (reciprocal_coord_spec pixel_size n) (seq 0 n)).
Proof.
  intros Hps Hn. unfold _reciprocal_coord.
  assert (Hn1 : (1 <= INR n - 1)%R).
  { apply le_INR in Hn. simpl in Hn. lra. }
  assert (HZ : IZR (Z.of_nat n - 1) = (INR n - 1)%R).
  { rewrite minus_IZR, <- INR_IZR_INZ. reflexivity. }
  rewrite is_zero_false.
  2:{ cbn [fmul of_Z numeric]. rewrite HZ. nra. }
  f_equal. rewrite Nat2Z.id, map_map.
  apply map_ext; intros k.
  unfold reciprocal_coord_spec.
  cbn [cast float_class fmul fdiv of_Z lit numeric].
  rewrite Q2R_half, HZ.
  replace (IZR (- (Z.of_nat n - 1) + 2 * Z.of_nat k)) with (2 * INR k - (INR n - 1))%R.
  2:{ push_IZR. rewrite <- !INR_IZR_INZ. lra. }
  field. split; lra.
Qed.

(** C8: for a positive pixel size and axes of at least two points, the
    builder returns [n] coordinates [(2k - (n-1)) / (2 (n-1) pixel_size)],
    and the grid is the outer sum of their squares. *)
Theorem C8_reciprocal_grid (pixel_size : R) (nx ny : nat) :
  (0 < pixel_size)%R -> 2 <= nx -> 2 <= ny ->
  exists rcx rcy grid,
    _reciprocal_coord pixel_size (Z.of_nat nx) = ok rcx
    /\ _reciprocal_coord pixel_size (Z.of_nat ny) = ok rcy
    /\ _reciprocal_grid pixel_size (Z.of_nat nx) (Z.of_nat ny) = ok grid
    /\ length rcx = nx /\ length rcy = ny /\ rect nx ny grid
    /\ (forall k, k < nx -> nth k rcx 0%R = reciprocal_coord_spec pixel_size nx k)
    /\ (forall k, k < ny -> nth k rcy 0%R = reciprocal_coord_spec pixel_size ny k)
    /\ (forall i j, i < nx -> j < ny ->
          nth j (nth i grid []) 0%R = (nth i rcx 0 * nth i rcx 0 + nth j rcy 0 * nth j rcy 0)%R).
Proof.
  intros Hps Hx Hy.
  pose proof (reciprocal_coord_exact Hps Hx) as Ex.
  pose proof (reciprocal_coord_exact Hps Hy) as Ey.
  eexists _, _, _. split; [exact Ex |]. split; [exact Ey |].
  split.
  { unfold _reciprocal_grid. rewrite Ex, Ey. cbn [rbind ok]. reflexivity. }
  assert (Lx : length (map (reciprocal_coord_spec pixel_size nx) (seq 0 nx)) = nx)
    by now rewrite length_map, length_seq.
  assert (Ly : length (map (reciprocal_coord_spec pixel_size ny) (seq 0 ny)) = ny)
    by now rewrite length_map, length_seq.
  repeat split.
  - exact Lx.
  - exact Ly.
  - now rewrite !length_map, length_seq.
  - apply Forall_forall; intros r Hr.
    apply in_map_iff in Hr as [x [<- _]]. now rewrite !length_map, length_seq.
  - intros k Hk. rewrite nth_map_lt with (d' := 0) by now rewrite length_seq.
    now rewrite seq_nth.
  - intros k Hk. rewrite nth_map_lt with (d' := 0) by now rewrite length_seq.
    now rewrite seq_nth.
  - intros i j Hi Hj.
    rewrite nth_map_lt with (d' := 0%R) by now rewrite length_map, Lx.
    rewrite nth_map_lt with (d' := 0%R) by now rewrite length_map, Ly.
    rewrite !nth_map_lt with (d' := 0%R) by (rewrite ?Lx, ?Ly; assumption).
    reflexivity.
Qed.

(** The theorem at the default pixel size and a grid of 2 by 3 points. *)
Lemma C8_witness :
  exists grid, _reciprocal_grid (1 / 10000)%R 2 3 = ok grid /\ rect 2 3 grid.
Proof.
  destruct (@C8_reciprocal_grid (1 / 10000)%R 2 3 ltac:(lra) ltac:(lia) ltac:(lia))
    as (rcx & rcy & grid & _ & _ & Hg & _ & _ & Hr & _).
  exists grid. split; [exact Hg | exact Hr].
Defined.

(* ------------------------------------------------------------------ *)
(** ** The pad width of the single-step retrieval *)

Lemma ln_nonneg (x : R) : (1 <= x)%R -> (0 <= ln x)%R.
Proof.
  intros [Hlt | <-].
  - left. rewrite <- ln_1. apply ln_increasing; lra.
  - rewrite ln_1. lra.
Qed.

(** [2 ** ceil(log2(x))] is a power of two that is at least [x]. *)
Lemma pow2_ceil_log2 (x : R) :
  (1 <= x)%R ->
  let k := ceilZ (ln x / ln 2) in
  (0 <= k)%Z /\ Rpower 2 (IZR k) = IZR (2 ^ k) /\ (x <= IZR (2 ^ k))%R.
Proof.
  intros Hx k.
  pose proof ln_lt_2 as Hln2.
  pose proof (ln_nonneg Hx) as Hlnx.
  pose proof (ceilZ_bounds (ln x / ln 2)) as [_ Hk]. fold k in Hk.
  assert (Hq : (0 <= ln x / ln 2)%R).
  { apply Rmult_le_pos; [exact Hlnx |]. left. apply Rinv_0_lt_compat. lra. }
  assert (Hk0 : (0 <= k)%Z).
  { apply le_IZR. lra. }
  assert (Hpow : Rpower 2 (IZR k) = IZR (2 ^ k)).
  { rewrite <- (Z2Nat.id k) by exact Hk0.
    rewrite <- INR_IZR_INZ, Rpower_pow by lra.
    now rewrite pow_IZR. }
  repeat split; try assumption.
  rewrite <- Hpow.
  replace x with (Rpower 2 (ln x / ln 2)) at 1.
  - apply Rle_Rpower; lra.
  - unfold Rpower. replace (ln x / ln 2 * ln 2)%R with (ln x) by (field; lra).
    apply exp_ln. lra.
Qed.

(** Halving a non-negative integer: [int(y * 0.5)]. *)
Lemma truncZ_half (y : Z) : (0 <= y)%Z -> truncZ (IZR y * / 2) = (y / 2)%Z.
Proof.
  intros Hy.
  pose proof (Z.div_mod y 2 ltac:(lia)) as Hdm.
  pose proof (Z.mod_pos_bound y 2 ltac:(lia)) as Hm.
  assert (H1 : (2 * (y / 2) <= y)%Z) by lia.
  assert (H2 : (y < 2 * (y / 2) + 2)%Z) by lia.
  apply IZR_le in H1. apply IZR_lt in H2. push_IZR.
  apply truncZ_nonneg; try lra.
  apply Z.div_pos; lia.
Qed.

Lemma Q2R_pos (a b : positive) : (0 < Q2R (Zpos a # b))%R.
Proof.
  unfold Q2R; simpl. apply Rmult_lt_0_compat.
  - apply IZR_lt; lia.
  - apply Rinv_0_lt_compat. apply IZR_lt; lia.
Qed.

Lemma PI_const_pos : (0 < PI)%R.
Proof. apply Q2R_pos. Qed.

Lemma wavelength_exact (energy : R) :
  energy <> 0%R ->
  _wavelength energy = ok (2 * PI * PLANCK_CONSTANT * SPEED_OF_LIGHT / energy)%R.
Proof. intros He. unfold _wavelength. now rewrite is_zero_false. Qed.

Lemma wavelength_pos (energy : R) :
  (0 < energy)%R -> (0 < 2 * PI * PLANCK_CONSTANT * SPEED_OF_LIGHT / energy)%R.
Proof.
  intros He.
  pose proof PI_const_pos as Hpi.
  assert (Hh : (0 < PLANCK_CONSTANT)%R) by apply Q2R_pos.
  assert (Hc : (0 < SPEED_OF_LIGHT)%R) by apply Q2R_pos.
  apply Rmult_lt_0_compat; [| now apply Rinv_0_lt_compat].
  apply Rmult_lt_0_compat; [| exact Hc].
  apply Rmult_lt_0_compat; [| exact Hh].
  apply Rmult_lt_0_compat; [lra | exact Hpi].
Qed.

(** The pad width for a non-negative blur support. *)
Lemma calc_pad_width_exact (dim : nat) (pixel_size wavelength dist : R) :
  1 <= dim -> pixel_size <> 0%R -> (0 <= wavelength * dist)%R ->
  let pad_pix := ceilZ (PI * wavelength * dist / (pixel_size * pixel_size)) in
  let k := ceilZ (ln (IZR (Z.of_nat dim) + IZR pad_pix) / ln 2) in
  _calc_pad_width dim pixel_size wavelength dist = ok ((2 ^ k - Z.of_nat dim) / 2)%Z
  /\ (0 <= pad_pix)%Z
  /\ (Z.of_nat dim + pad_pix <= 2 ^ k)%Z.
Proof.
  intros Hdim Hps Hwd pad_pix k.
  pose proof PI_const_pos as Hpi.
  assert (Hps2 : (0 < pixel_size * pixel_size)%R) by nra.
  assert (Harg : (0 <= PI * wavelength * dist / (pixel_size * pixel_size))%R).
  { apply Rmult_le_pos; [| left; now apply Rinv_0_lt_compat].
    rewrite Rmult_assoc. apply Rmult_le_pos; lra. }
  pose proof (ceilZ_bounds (PI * wavelength * dist / (pixel_size * pixel_size))) as [_ Hc].
  fold pad_pix in Hc.
  assert (Hpad : (0 <= pad_pix)%Z) by (apply le_IZR; lra).
  assert (Hdim' : (1 <= IZR (Z.of_nat dim))%R) by (apply IZR_le; lia).
  assert (Hx : (1 <= IZR (Z.of_nat dim) + IZR pad_pix)%R).
  { apply IZR_le in Hpad. lra. }
  destruct (pow2_ceil_log2 Hx) as (Hk0 & Hpow & Hle). fold k in Hk0, Hpow, Hle.
  assert (Hle' : (Z.of_nat dim + pad_pix <= 2 ^ k)%Z).
  { apply le_IZR. rewrite plus_IZR. exact Hle. }
  repeat split; try assumption.
  unfold _calc_pad_width, py_sqr, py_int.
  cbn [is_nan is_posinf is_neginf float_class andb orb negb rbind ok].
  rewrite is_zero_false by (unfold fsqr; cbn [fmul numeric]; lra).
  cbn [fltb fadd fceil fdiv fmul fsub flog2 fpow of_Z lit ftrunc fzero numeric float_class].
  unfold fsqr; cbn [fmul numeric]. fold pad_pix.
  destruct (Rlt_dec (IZR (Z.of_nat dim) + IZR pad_pix) 0) as [Hneg | _]; [lra |].
  rewrite is_zero_false by lra.
  fold k. rewrite Hpow, Q2R_half, <- minus_IZR.
  rewrite truncZ_half by lia. reflexivity.
Qed.

(* ------------------------------------------------------------------ *)
(** ** The pad width in floating-point arithmetic

    [_calc_pad_width] is read here at [Rounded.numeric].  Of the rounding
    [rnd] two properties are used, both of them properties of rounding to
    nearest in binary64: it is monotone, and it leaves the binary64 values
    [m * 2^e] unchanged.  Of the library functions, that the ceiling of
    [log2_fl n] is the exponent of the least power of two that is not below
    [n], for the integers [n] up to [2^32], and that [pow_fl] is exact on
    the powers of two up to [2^32].  Exact arithmetic ([rnd] the identity)
    is one such arithmetic. *)

Lemma Rpower_2_IZR (k : Z) : (0 <= k)%Z -> Rpower 2 (IZR k) = IZR (2 ^ k).
Proof.
  intros Hk. rewrite <- (Z2Nat.id k) by exact Hk.
  rewrite <- INR_IZR_INZ, Rpower_pow by lra.
  now rewrite pow_IZR.
Qed.

Lemma ln_pow2 (k : Z) : (0 <= k)%Z -> ln (IZR (2 ^ k)) = (IZR k * ln 2)%R.
Proof.
  intros Hk. rewrite <- Rpower_2_IZR by exact Hk. unfold Rpower. apply ln_exp.
Qed.

(** In exact arithmetic [ceil(log2(n))] is the exponent of the least power
    of two that is not below [n]. *)
Lemma log2_ceil_exact (n : Z) : (1 <= n)%Z -> ceilZ (ln (IZR n) / ln 2) = Z.log2_up n.
Proof.
  intros Hn. pose proof ln_lt_2 as Hln2.
  assert (Hi : (0 < / ln 2)%R) by (apply Rinv_0_lt_compat; lra).
  set (k := Z.log2_up n).
  assert (Hk0 : (0 <= k)%Z) by apply Z.log2_up_nonneg.
  destruct (Z.log2_log2_up_spec n ltac:(lia)) as [_ Hle]. fold k in Hle.
  assert (Hn0 : (0 < IZR n)%R) by (apply IZR_lt; lia).
  assert (Hup : (ln (IZR n) <= IZR k * ln 2)%R).
  { rewrite <- ln_pow2 by exact Hk0.
    apply IZR_le in Hle. destruct Hle as [Hlt | ->]; [| lra].
    left. now apply ln_increasing. }
  assert (Hlo : (IZR k * ln 2 - ln 2 < ln (IZR n))%R).
  { destruct (Z.eq_dec k 0) as [E | Hne].
    - rewrite E. assert (0 <= ln (IZR n))%R; [| lra].
      apply ln_nonneg. apply IZR_le. lia.
    - assert (Hlt : (2 ^ (k - 1) < n)%Z) by (apply Z.log2_up_lt_pow2; unfold k; lia).
      replace (IZR k * ln 2 - ln 2)%R with (IZR (k - 1) * ln 2)%R by (rewrite minus_IZR; ring).
      rewrite <- ln_pow2 by lia. apply ln_increasing.
      + apply IZR_lt. apply Z.pow_pos_nonneg; lia.
      + now apply IZR_lt. }
  apply ceilZ_spec.
  - apply Rmult_lt_reg_r with (ln 2); [lra |].
    unfold Rdiv. rewrite Rmult_assoc, Rinv_l by lra. lra.
  - apply Rmult_le_reg_r with (ln 2); [lra |].
    unfold Rdiv. rewrite Rmult_assoc, Rinv_l by lra. lra.
Qed.

(** Parameters between a millionth and a million lie well inside the range
    the theorem asks for. *)
Lemma pow2_400_bounds (x : R) :
  (/ 1000000 <= x <= 1000000)%R -> (powerRZ 2 (-400) <= x <= powerRZ 2 400)%R.
Proof.
  intros [Hlo Hhi].
  assert (Hbig : (1000000 <= powerRZ 2 400)%R).
  { change 400%Z with (Z.of_nat 400). rewrite <- pow_powerRZ, pow_IZR.
    apply IZR_le. vm_compute. discriminate. }
  assert (Hinv : powerRZ 2 (-400) = (/ powerRZ 2 400)%R) by apply (powerRZ_neg' 2 400).
  split; [| lra].
  rewrite Hinv. apply Rle_trans with (/ 1000000)%R; [| exact Hlo].
  apply Rinv_le_contravar; lra.
Qed.

Section PadWidthRounded.
Local Open Scope R_scope.
Variable rnd : R -> R.
Variable log2_fl : R -> R.
Variable pow_fl : R -> R -> R.

Hypothesis rnd_mono : forall x y : R, x <= y -> rnd x <= rnd y.
Hypothesis rnd_float : forall m e : Z,
  (Z.abs m <= 2 ^ 53)%Z -> (-1074 <= e <= 970)%Z ->
  rnd (IZR m * powerRZ 2 e) = IZR m * powerRZ 2 e.
Hypothesis log2_ceil : forall n : Z,
  (1 <= n <= 2 ^ 32)%Z -> ceilZ (log2_fl (IZR n)) = Z.log2_up n.
Hypothesis pow2_exact : forall k : Z,
  (0 <= k <= 32)%Z -> pow_fl 2 (IZR k) = IZR (2 ^ k).

Let arith : Numeric R := Rounded.numeric rnd log2_fl pow_fl.
#[local] Existing Instance arith.

Lemma rnd_int (m : Z) : (Z.abs m <= 2 ^ 53)%Z -> rnd (IZR m) = IZR m.
Proof.
  intros Hm. pose proof (@rnd_float m 0 Hm ltac:(lia)) as E.
  cbn [powerRZ] in E. now rewrite Rmult_1_r in E.
Qed.

Lemma rnd_half (m : Z) : (Z.abs m <= 2 ^ 53)%Z -> rnd (IZR m * / 2) = IZR m * / 2.
Proof.
  intros Hm. pose proof (@rnd_float m (-1) Hm ltac:(lia)) as E.
  assert (Hp : powerRZ 2 (-1) = / 2) by (simpl; field).
  now rewrite Hp in E.
Qed.

Lemma rnd_nonneg (x : R) : 0 <= x -> 0 <= rnd x.
Proof.
  intros Hx. rewrite <- (@rnd_int 0) by (cbn; lia). now apply rnd_mono.
Qed.

Lemma rnd_pos (x : R) : powerRZ 2 (-800) <= x -> 0 < rnd x.
Proof.
  intros Hx. apply Rlt_le_trans with (powerRZ 2 (-800)).
  - apply powerRZ_lt. lra.
  - pose proof (@rnd_float 1 (-800) ltac:(cbn; lia) ltac:(lia)) as E.
    rewrite Rmult_1_l in E. rewrite <- E. now apply rnd_mono.
Qed.

Lemma lit_nonneg (a b : positive) : 0 <= lit (Zpos a # b).
Proof. cbn [lit arith Rounded.numeric]. apply rnd_nonneg. left. apply Q2R_pos. Qed.

(** The wavelength of a positive energy is computed and is not negative. *)
Lemma wavelength_rounded (energy : R) :
  0 < energy ->
  exists wavelength,
    _wavelength energy = ok wavelength /\ 0 <= wavelength
    /\ wavelength
       = fdiv (fmul (fmul (fmul (of_Z 2) PI) PLANCK_CONSTANT) SPEED_OF_LIGHT) energy.
Proof.
  intros He. eexists. split; [| split; [| reflexivity]].
  - unfold _wavelength. rewrite is_zero_false by lra. reflexivity.
  - cbn [fdiv fmul of_Z arith Rounded.numeric].
    apply rnd_nonneg. apply Rmult_le_pos; [| left; now apply Rinv_0_lt_compat].
    apply rnd_nonneg. apply Rmult_le_pos; [| apply lit_nonneg].
    apply rnd_nonneg. apply Rmult_le_pos; [| apply lit_nonneg].
    apply rnd_nonneg. apply Rmult_le_pos; [| apply lit_nonneg].
    apply rnd_nonneg. lra.
Qed.

Lemma sqr_lower (pixel_size : R) :
  powerRZ 2 (-400) <= Rabs pixel_size -> powerRZ 2 (-800) <= pixel_size * pixel_size.
Proof.
  intros Hps.
  assert (Hp : 0 < powerRZ 2 (-400)) by (apply powerRZ_lt; lra).
  replace (-800)%Z with (-400 + -400)%Z by lia.
  rewrite powerRZ_add by lra.
  replace (pixel_size * pixel_size) with (Rabs pixel_size * Rabs pixel_size).
  - apply Rmult_le_compat; lra.
  - unfold Rabs. destruct (Rcase_abs pixel_size); ring.
Qed.

(** Lines 400-401 for a blur support that is not negative: the sum
    [dim + pad_pix], the power of two and the halved difference are
    integers or halves of integers below [2^53], which no rounding moves. *)
Lemma calc_pad_width_rounded (dim : nat) (pixel_size wavelength dist : R) :
  (1 <= dim)%nat -> 0 <= wavelength -> 0 <= dist ->
  powerRZ 2 (-400) <= Rabs pixel_size ->
  let pad_pix := ceilZ (blur_support pixel_size wavelength dist) in
  let k := Z.log2_up (Z.of_nat dim + pad_pix) in
  (Z.of_nat dim + pad_pix <= 2 ^ 31)%Z ->
  (0 <= pad_pix)%Z
  /\ (Z.of_nat dim + pad_pix <= 2 ^ k)%Z
  /\ _calc_pad_width dim pixel_size wavelength dist = ok ((2 ^ k - Z.of_nat dim) / 2)%Z.
Proof.
  intros Hdim Hwl Hdist Hps pad_pix k Hrange.
  pose proof (rnd_pos (@sqr_lower pixel_size Hps)) as Hsq.
  assert (Hsup : 0 <= blur_support pixel_size wavelength dist).
  { unfold blur_support, fsqr. cbn [fdiv fmul arith Rounded.numeric].
    apply rnd_nonneg. apply Rmult_le_pos; [| left; now apply Rinv_0_lt_compat].
    apply rnd_nonneg. apply Rmult_le_pos; [| exact Hdist].
    apply rnd_nonneg. apply Rmult_le_pos; [| exact Hwl].
    apply lit_nonneg. }
  pose proof (ceilZ_bounds (blur_support pixel_size wavelength dist)) as [_ Hc].
  fold pad_pix in Hc.
  assert (Hpad : (0 <= pad_pix)%Z) by (apply le_IZR; lra).
  set (n := (Z.of_nat dim + pad_pix)%Z) in *.
  assert (Hn : (1 <= n)%Z) by (unfold n; lia).
  destruct (Z.log2_log2_up_spec n ltac:(lia)) as [_ Hle]. fold k in Hle.
  assert (Hk0 : (0 <= k)%Z) by apply Z.log2_up_nonneg.
  assert (Hk31 : (k <= 31)%Z).
  { unfold k. rewrite <- (Z.log2_up_pow2 31) by lia. now apply Z.log2_up_le_mono. }
  assert (Hpk : (2 ^ k <= 2 ^ 31)%Z) by (apply Z.pow_le_mono_r; lia).
  assert (H31 : (2 ^ 31 = 2147483648)%Z) by reflexivity.
  assert (H53 : (2 ^ 53 = 9007199254740992)%Z) by reflexivity.
  split; [exact Hpad |]. split; [exact Hle |].
  assert (Hz : is_zero (fsqr pixel_size) = false).
  { apply is_zero_false. unfold fsqr. cbn [fmul arith Rounded.numeric]. lra. }
  unfold _calc_pad_width, py_sqr, py_int.
  cbn [is_nan is_posinf is_neginf float_class andb orb negb rbind ok].
  rewrite Hz.
  fold (blur_support pixel_size wavelength dist).
  cbn [fceil fadd of_Z fltb fzero flog2 fpow fsub fmul lit ftrunc float_class arith
       Rounded.numeric].
  fold pad_pix.
  rewrite (@rnd_int (Z.of_nat dim)) by lia.
  rewrite <- plus_IZR. fold n. rewrite (@rnd_int n) by lia.
  assert (Hn1 : 1 <= IZR n) by (now apply IZR_le).
  destruct (Rlt_dec (IZR n) 0) as [Hneg | _]; [lra |].
  rewrite is_zero_false by lra.
  rewrite log2_ceil by lia. fold k.
  rewrite (@rnd_int 2) by (cbn; lia).
  rewrite pow2_exact by lia.
  rewrite <- minus_IZR, (@rnd_int (2 ^ k - Z.of_nat dim)) by lia.
  replace (Q2R (1 # 2)) with (IZR 1 * / 2) by (rewrite Q2R_half; ring).
  rewrite (@rnd_half 1) by (cbn; lia). rewrite Rmult_1_l.
  rewrite rnd_half by lia.
  rewrite truncZ_half by lia. reflexivity.
Qed.

(** C9, on the domain where it holds, in floating-point arithmetic as
    described above (exact arithmetic included): for an axis of at least one
    point, a distance that is not negative and parameters whose
    intermediate results stay within the range of binary64 (an energy of at
    least [2^-400], a distance of at most [2^400], a pixel size between
    [2^-400] and [2^400] in absolute value), let [P] be the ceiling of
    [PI * wavelength * dist / pixel_size^2] as the arithmetic computes it,
    with [wavelength = 2 * PI * PLANCK_CONSTANT * SPEED_OF_LIGHT / energy].
    If [dim + P <= 2^31], the pad amount [_calc_pad_width] returns for the
    axis is [floor((2^k - dim) / 2)] with [k = ceil(log2(dim + P))], the
    exponent of the least power of two that is not below [dim + P]; it is
    not negative; and [_calc_pad] with [pad] set returns this amount for
    each of the two axes together with the pad value of [_calc_pad_val]. *)
Theorem C9_calc_pad_width (dim : nat) (pixel_size dist energy : R) :
  (1 <= dim)%nat ->
  powerRZ 2 (-400) <= energy -> 0 <= dist <= powerRZ 2 400 ->
  powerRZ 2 (-400) <= Rabs pixel_size <= powerRZ 2 400 ->
  let wavelength :=
    fdiv (fmul (fmul (fmul (of_Z 2) PI) PLANCK_CONSTANT) SPEED_OF_LIGHT) energy in
  let pad_pix := ceilZ (blur_support pixel_size wavelength dist) in
  let pad := fun n : nat => ((2 ^ Z.log2_up (Z.of_nat n + pad_pix) - Z.of_nat n) / 2)%Z in
  (Z.of_nat dim + pad_pix <= 2 ^ 31)%Z ->
  _wavelength energy = ok wavelength
  /\ _calc_pad_width dim pixel_size wavelength dist = ok (pad dim)
  /\ (0 <= pad dim)%Z
  /\ (forall (dz : nat) (tomo : list (matrix R)),
        (1 <= dz)%nat -> (Z.of_nat dz + pad_pix <= 2 ^ 31)%Z ->
        exists val,
          _calc_pad_val dz tomo = ok val
          /\ _calc_pad dim dz tomo pixel_size dist energy true
             = ok (pad dim, pad dz, val)).
Proof.
  intros Hdim He [Hd _] [Hps _] wavelength pad_pix pad Hrange.
  assert (He0 : 0 < energy).
  { apply Rlt_le_trans with (powerRZ 2 (-400)); [apply powerRZ_lt; lra | exact He]. }
  destruct (wavelength_rounded He0) as (wl & Hwl & Hwl0 & Ewl).
  fold wavelength in Ewl. subst wl.
  destruct (@calc_pad_width_rounded dim pixel_size wavelength dist Hdim Hwl0 Hd Hps Hrange)
    as (Hpp & Hle & Hpad).
  fold pad_pix in Hpp, Hle, Hpad.
  split; [exact Hwl |]. split; [exact Hpad |]. split.
  - unfold pad. apply Z.div_pos; lia.
  - intros dz tomo Hdz Hrz.
    destruct (@calc_pad_width_rounded dz pixel_size wavelength dist Hdz Hwl0 Hd Hps Hrz)
      as (_ & _ & Hpadz).
    fold pad_pix in Hpadz.
    unfold _calc_pad. rewrite Hwl. cbn [rbind ok].
    unfold _calc_pad_val. destruct (Nat.eqb_spec dz 0) as [-> | _]; [lia |].
    eexists. split; [reflexivity |].
    cbn [rbind ok]. rewrite Hpad, Hpadz. reflexivity.
Qed.
End PadWidthRounded.

(** The theorem in exact arithmetic, at the default parameters and an axis
    of 200 points: the blur support is [ceil(97.37...) = 98] pixels, the
    least power of two from 298 on is [2^9], and the pad amount is
    [(512 - 200) / 2 = 156]. *)
Lemma C9_witness :
  _calc_pad_width 200 (1 / 10000)%R
    (2 * PI * PLANCK_CONSTANT * SPEED_OF_LIGHT / 20)%R 50%R = ok 156%Z.
Proof.
  assert (Hpix : ceilZ (PI * (2 * PI * PLANCK_CONSTANT * SPEED_OF_LIGHT / 20) * 50
                        / (1 / 10000 * (1 / 10000))) = 98%Z).
  { apply ceilZ_spec; unfold PI, PLANCK_CONSTANT, SPEED_OF_LIGHT;
      cbn [lit numeric]; unfold Q2R; simpl; lra. }
  assert (Hps : (/ 1000000 <= Rabs (1 / 10000) <= 1000000)%R).
  { rewrite Rabs_right by lra. lra. }
  assert (Hdist : (0 <= 50 <= powerRZ 2 400)%R).
  { split; [lra |]. apply pow2_400_bounds. lra. }
  pose proof (@C9_calc_pad_width (fun x => x) (fun x => (ln x / ln 2)%R) Rpower
                (fun x y Hxy => Hxy) (fun m e _ _ => eq_refl)
                (fun n Hn => log2_ceil_exact (proj1 Hn))
                (fun k Hk => Rpower_2_IZR (proj1 Hk))
                200 (1 / 10000)%R 50%R 20%R ltac:(lia)
                (proj1 (@pow2_400_bounds 20 ltac:(lra)))
                Hdist (pow2_400_bounds Hps)) as Hthm.
  cbv zeta in Hthm.
  change (Rounded.numeric (fun x => x) (fun x => (ln x / ln 2)%R) Rpower)
    with Exact.numeric in Hthm.
  unfold blur_support, fsqr in Hthm.
  cbn [fdiv fmul of_Z numeric] in Hthm.
  rewrite Hpix in Hthm.
  destruct Hthm as (_ & Hpad & _); [vm_compute; discriminate |].
  exact Hpad.
Defined.

(** C9 as stated fails for a negative energy, which the code accepts: with
    energy -20 keV (other parameters at their defaults) the blur support is
    [ceil(-97.37...) = -97] pixels, an axis of 98 points gives
    [int((2^0 - 98) * 0.5) = int(-48.5) = -48]: a negative pad amount, and
    not the floor [-49] either, [int] truncating toward zero. *)
Lemma C9_counterexample :
  _wavelength (-20)%R = ok (2 * PI * PLANCK_CONSTANT * SPEED_OF_LIGHT / -20)%R
  /\ _calc_pad_width 98 (1 / 10000)%R
       (2 * PI * PLANCK_CONSTANT * SPEED_OF_LIGHT / -20)%R 50%R = ok (-48)%Z
  /\ ((2 ^ 0 - 98) / 2 = -49)%Z.
Proof.
  split; [apply wavelength_exact; lra |].
  split; [| reflexivity].
  assert (Hpix : ceilZ (PI * (2 * PI * PLANCK_CONSTANT * SPEED_OF_LIGHT / -20) * 50
                        / (1 / 10000 * (1 / 10000))) = (-97)%Z).
  { apply ceilZ_spec; unfold PI, PLANCK_CONSTANT, SPEED_OF_LIGHT;
      cbn [lit numeric]; unfold Q2R; simpl; lra. }
  unfold _calc_pad_width, py_sqr, py_int.
  cbn [is_nan is_posinf is_neginf float_class andb orb negb rbind ok].
  rewrite is_zero_false by (unfold fsqr; cbn [fmul numeric]; lra).
  cbn [fltb fadd fceil fdiv fmul fsub flog2 fpow of_Z lit ftrunc fzero numeric float_class].
  unfold fsqr; cbn [fmul numeric]. rewrite Hpix.
  replace (IZR (Z.of_nat 98) + IZR (-97))%R with 1%R by (simpl; lra).
  destruct (Rlt_dec 1 0) as [Hneg | _]; [lra |].
  rewrite is_zero_false by lra.
  rewrite ln_1. replace (0 / ln 2)%R with 0%R by (unfold Rdiv; ring).
  rewrite ceilZ_IZR, Rpower_O by lra.
  f_equal. unfold truncZ.
  destruct (Rle_dec 0 ((1 - IZR (Z.of_nat 98)) * Q2R (1 # 2))) as [Hpos | _].
  - rewrite Q2R_half in Hpos. simpl in Hpos. lra.
  - apply ceilZ_spec; rewrite Q2R_half; simpl; lra.
Qed.

(* ------------------------------------------------------------------ *)
(** ** The rank check *)

Lemma rank_error_msg (n : nat) : is_rank_error (ValueError (invalid_ndim_msg n)) = true.
Proof. reflexivity. Qed.

Lemma nre_ok {A : Type} (a : A) : no_rank_error (ok a).
Proof. intros e He; discriminate. Qed.

Lemma nre_raise {A : Type} (e : exn) : is_rank_error e = false -> no_rank_error (@raise A e).
Proof. intros H e' He'. injection He' as <-. exact H. Qed.

Lemma nre_bind {A B : Type} (c : result A) (k : A -> result B) :
  no_rank_error c -> (forall a, no_rank_error (k a)) -> no_rank_error (rbind c k).
Proof.
  intros Hc Hk e He. destruct c as [e0 | a]; simpl in He.
  - injection He as <-. now apply Hc.
  - now apply (Hk a).
Qed.

Lemma nre_for_range {St : Type} (body : nat -> St -> result St) (count from : nat) (s : St) :
  (forall i s', no_rank_error (body i s')) -> no_rank_error (for_range body from count s).
Proof.
  intros Hb. revert from s; induction count as [| n IH]; intros from s; simpl.
  - apply nre_ok.
  - apply nre_bind; [apply Hb | intros s'; apply IH].
Qed.

Lemma nre_mapM {A B : Type} (f : A -> result B) (l : list A) :
  (forall a, no_rank_error (f a)) -> no_rank_error (mapM f l).
Proof.
  intros Hf. induction l as [| x l IH]; simpl.
  - apply nre_ok.
  - apply nre_bind; [apply Hf | intros y].
    apply nre_bind; [exact IH | intros ys; apply nre_ok].
Qed.

(** Breaks a computation into its steps; what is left are the steps that
    are not built from [rbind], [ok], [raise], conditionals and loops. *)
Ltac nre_step :=
  match goal with
  | |- no_rank_error (ok _) => apply nre_ok
  | |- no_rank_error (raise _) => apply nre_raise; reflexivity
  | |- no_rank_error (rbind _ _) => apply nre_bind; [| intros ?]
  | |- no_rank_error (for_range _ _ _ _) => apply nre_for_range; intros ? ?
  | |- no_rank_error (mapM _ _) => apply nre_mapM; intros ?
  | |- no_rank_error (if ?b then _ else _) => destruct b
  | |- no_rank_error (match ?x with _ => _ end) => destruct x
  | |- no_rank_error (let _ := _ in _) => cbv zeta
  end.

Ltac nre := repeat (first [nre_step | solve [auto with nre]]).

Create HintDb nre.

Lemma nre_py_index (len : nat) (i : Z) : no_rank_error (py_index len i).
Proof. unfold py_index. nre. Qed.

Lemma nre_stretch {A : Type} (n : nat) (l : list A) : no_rank_error (stretch n l).
Proof. unfold stretch. nre. Qed.
#[export] Hint Resolve nre_py_index nre_stretch : nre.

Lemma nre_broadcast_to {A : Type} (h w : nat) (m : matrix A) : no_rank_error (broadcast_to h w m).
Proof. unfold broadcast_to. nre. Qed.
#[export] Hint Resolve nre_broadcast_to : nre.

Lemma nre_elementwise {A B C : Type} (f : A -> B -> C) (a : matrix A) (b : matrix B) :
  no_rank_error (elementwise f a b).
Proof. unfold elementwise. nre. Qed.

Lemma nre_elementwise_inplace {A B : Type} (f : A -> B -> A) (a : matrix A) (b : matrix B) :
  no_rank_error (elementwise_inplace f a b).
Proof. unfold elementwise_inplace. nre. Qed.

Lemma nre_assign_block {A : Type} (r0 r1 c0 c1 : Z) (v m : matrix A) :
  no_rank_error (assign_block r0 r1 c0 c1 v m).
Proof. unfold assign_block. nre. Qed.

Lemma nre_assign_rows {A : Type} (start stop : option Z) (i : Z) (m : matrix A) :
  no_rank_error (assign_rows start stop i m).
Proof. unfold assign_rows. nre. Qed.

Lemma nre_assign_cols {A : Type} (start stop : option Z) (j : Z) (d : A) (m : matrix A) :
  no_rank_error (assign_cols start stop j d m).
Proof. unfold assign_cols. nre. Qed.

Lemma nre_assign_image {A : Type} (h w i : nat) (v : matrix A) (res : list (matrix A)) :
  no_rank_error (assign_image h w i v res).
Proof. unfold assign_image. nre. Qed.

Lemma nre_pad_edge {A : Type} (t b l r : nat) (m : matrix A) : no_rank_error (pad_edge t b l r m).
Proof. unfold pad_edge. nre. Qed.
#[export] Hint Resolve nre_elementwise nre_elementwise_inplace nre_assign_block
  nre_assign_rows nre_assign_cols nre_assign_image nre_pad_edge : nre.

Lemma check_stack_rank3 (a : ndarray) : ndim a = 3 -> check_stack a = ok a.
Proof. intros Hn. unfold check_stack. rewrite Hn. cbn. now rewrite Hn. Qed.

Lemma check_stack_rank2 (a : ndarray) : ndim a = 2 -> check_stack a = ok (expand_dims0 a).
Proof.
  intros Hn. unfold check_stack. rewrite Hn. cbn [Nat.eqb].
  unfold ndim in *. cbn [expand_dims0 shape Datatypes.length]. now rewrite Hn.
Qed.

Lemma check_stack_reject (a : ndarray) :
  ndim a <> 2 -> ndim a <> 3 -> check_stack a = raise (ValueError (invalid_ndim_msg (ndim a))).
Proof.
  intros H2 H3. unfold check_stack.
  destruct (Nat.eqb_spec (ndim a) 2) as [E | _]; [contradiction |].
  destruct (Nat.eqb_spec (ndim a) 3) as [E | _]; [contradiction | reflexivity].
Qed.

Section RankErrors.
Context {F : Type} `{Numeric F}.

Lemma nre_pad_edge_int (t b l r : Z) (m : matrix F) : no_rank_error (pad_edge_int t b l r m).
Proof. unfold pad_edge_int. nre. Qed.

Lemma nre_fft2 (x : matrix complex) : no_rank_error (fft2 x).
Proof. unfold fft2. nre. Qed.

Lemma nre_ifft2 (x : matrix complex) : no_rank_error (ifft2 x).
Proof. unfold ifft2. nre. Qed.

Lemma nre_fft (x : matrix complex) : no_rank_error (fft x).
Proof. unfold fft. nre. Qed.

Lemma nre_ifft (x : matrix complex) : no_rank_error (ifft x).
Proof. unfold ifft. nre. Qed.

Lemma nre_pad_stack (mode : pad_mode F) (pad_y pad_x : Z) (h w : nat) (stack : list (matrix F)) :
  no_rank_error (pad_stack mode pad_y pad_x h w stack).
Proof. unfold pad_stack. nre. Qed.

Lemma nre_zeros_stack (d : nat) (h w : Z) : no_rank_error (zeros_stack (F := F) d h w).
Proof. unfold zeros_stack. nre. Qed.

Lemma nre_wavelength (energy : F) : no_rank_error (_wavelength energy).
Proof. unfold _wavelength. nre. Qed.

Hint Resolve nre_pad_edge_int nre_fft2 nre_ifft2 nre_fft nre_ifft nre_pad_stack
  nre_zeros_stack nre_wavelength : nre.

Lemma nre_paganin_filter_factor (energy dist alpha : F) (w2 : matrix F) :
  no_rank_error (_paganin_filter_factor energy dist alpha w2).
Proof. unfold _paganin_filter_factor. nre. Qed.

Lemma nre_calc_pad_width (dim : nat) (pixel_size wavelength dist : F) :
  no_rank_error (_calc_pad_width dim pixel_size wavelength dist).
Proof. unfold _calc_pad_width, py_sqr, py_int. nre. Qed.

Lemma nre_calc_pad_val (dz : nat) (tomo : list (matrix F)) : no_rank_error (_calc_pad_val dz tomo).
Proof. unfold _calc_pad_val. nre. Qed.

Hint Resolve nre_paganin_filter_factor nre_calc_pad_width nre_calc_pad_val : nre.

Lemma nre_calc_pad (dy dz : nat) (tomo : list (matrix F)) (pixel_size dist energy : F) (pad : bool) :
  no_rank_error (_calc_pad dy dz tomo pixel_size dist energy pad).
Proof. unfold _calc_pad. nre. Qed.

Lemma nre_reciprocal_coord (pixel_size : F) (num_grid : Z) :
  no_rank_error (_reciprocal_coord pixel_size num_grid).
Proof. unfold _reciprocal_coord. nre. Qed.

Hint Resolve nre_calc_pad nre_reciprocal_coord : nre.

Lemma nre_reciprocal_grid (pixel_size : F) (nx ny : Z) :
  no_rank_error (_reciprocal_grid pixel_size nx ny).
Proof. unfold _reciprocal_grid. nre. Qed.

Lemma nre_matrix_max (m : matrix F) : no_rank_error (matrix_max m).
Proof. unfold matrix_max. nre. Qed.

Lemma nre_fresnel_image (pattern : string) (window : matrix F) (pad_width : Z)
  (nrow ncol : nat) (img : matrix F) :
  no_rank_error (fresnel_image pattern window pad_width nrow ncol img).
Proof. unfold fresnel_image. nre. Qed.

Lemma nre_paganin_image (dt : dtype) (fc : matrix complex) (ratio increment : F)
  (pad_y pad_x : Z) (height width : nat) (img : matrix F) :
  no_rank_error (paganin_image dt fc ratio increment pad_y pad_x height width img).
Proof. unfold paganin_image. nre. Qed.

Lemma nre_paganin_filtercomplex (ratio energy distance resolution : F) (height1 width1 : Z) :
  no_rank_error (paganin_filtercomplex ratio energy distance resolution height1 width1).
Proof. unfold paganin_filtercomplex. nre. Qed.

Lemma nre_retrieve_image (nf : matrix F) (px py : Z) (dy dz : nat) (pad : bool)
  (img prj : matrix F) :
  no_rank_error (retrieve_image nf px py dy dz pad img prj).
Proof. unfold retrieve_image. nre. Qed.

Hint Resolve nre_reciprocal_grid nre_matrix_max nre_fresnel_image nre_paganin_image
  nre_paganin_filtercomplex nre_retrieve_image : nre.

(** The three filters after their rank check, on a stack of rank 3. *)
Lemma nre_fresnel_rank3 (mat : ndarray) (pattern : string) (ratio : F) (apply_log : bool)
  (hp : heap) :
  ndim mat = 3 -> no_rank_error (fresnel_filter mat pattern ratio apply_log hp).
Proof.
  intros Hn. unfold fresnel_filter. rewrite (check_stack_rank3 _ Hn). cbn [rbind ok].
  unfold ndim in Hn. unfold fresnel_stack.
  destruct (shape mat) as [| d [| h [| w [| ? ?]]]] eqn:Hs; try discriminate.
  nre.
Qed.

Lemma nre_paganin_rank3 (data : ndarray) (ratio energy distance resolution : F)
  (pad_y pad_x : Z) (pad_method : pad_mode F) (increment : F) (hp : heap) :
  ndim data = 3 ->
  no_rank_error (paganin_filter data ratio energy distance resolution pad_y pad_x
                   pad_method increment hp).
Proof.
  intros Hn. unfold paganin_filter. rewrite (check_stack_rank3 _ Hn). cbn [rbind ok].
  unfold ndim in Hn. unfold paganin_stack.
  destruct (shape data) as [| d [| h [| w [| ? ?]]]] eqn:Hs; try discriminate.
  nre.
Qed.

Lemma nre_retrieve_rank3 (tomo : ndarray) (pixel_size dist energy alpha : F) (pad : bool)
  (hp : heap) :
  ndim tomo = 3 -> no_rank_error (retrieve_phase tomo pixel_size dist energy alpha pad hp).
Proof.
  intros Hn. unfold retrieve_phase. rewrite (check_stack_rank3 _ Hn). cbn [rbind ok].
  unfold ndim in Hn.
  destruct (shape tomo) as [| d [| h [| w [| ? ?]]]] eqn:Hs; try discriminate.
  unfold _retrieve_phase. rewrite Hs.
  nre.
Qed.
End RankErrors.

(** C2: each of the three filters rejects an input whose rank is neither 2
    nor 3 with the ValueError whose message names that rank; an input of
    rank 2 is handled as the one-image stack [expand_dims0] makes of it (a
    view of the same buffer, of shape (1, rows, cols)); and for an input of
    rank 2 or 3 no filter raises the error of the rank check, which is the
    only validation of the input. *)
Theorem C2_rank_check {F : Type} `{Numeric F} (a : ndarray) (hp : heap)
  (pattern : string) (f_ratio : F) (apply_log : bool)
  (p_ratio p_energy distance resolution : F) (pad_y pad_x : Z) (pad_method : pad_mode F)
  (increment pixel_size dist energy alpha : F) (pad : bool) :
  let fresnel b := fresnel_filter b pattern f_ratio apply_log hp in
  let paganin b := paganin_filter b p_ratio p_energy distance resolution pad_y pad_x
                     pad_method increment hp in
  let retrieve b := retrieve_phase b pixel_size dist energy alpha pad hp in
  let rank_error :=
    ValueError ("Invalid number of dimensions in data: " ++ str_of_nat (ndim a)
                  ++ ", please provide a stack of 2D projections.")%string in
  (ndim a <> 2 -> ndim a <> 3 ->
     fresnel a = raise rank_error /\ paganin a = raise rank_error
     /\ retrieve a = raise rank_error)
  /\ (ndim a = 2 ->
        shape (expand_dims0 a) = 1 :: shape a /\ base (expand_dims0 a) = base a
        /\ fresnel a = fresnel (expand_dims0 a)
        /\ paganin a = paganin (expand_dims0 a)
        /\ retrieve a = retrieve (expand_dims0 a))
  /\ (ndim a = 2 \/ ndim a = 3 ->
        no_rank_error (fresnel a) /\ no_rank_error (paganin a)
        /\ no_rank_error (retrieve a)).
Proof.
  intros fresnel paganin retrieve rank_error.
  assert (Hexp : ndim a = 2 -> ndim (expand_dims0 a) = 3).
  { unfold ndim; cbn [expand_dims0 shape Datatypes.length]. lia. }
  assert (Hsame : ndim a = 2 ->
            fresnel a = fresnel (expand_dims0 a)
            /\ paganin a = paganin (expand_dims0 a)
            /\ retrieve a = retrieve (expand_dims0 a)).
  { intros H2. subst fresnel paganin retrieve.
    unfold fresnel_filter, paganin_filter, retrieve_phase.
    rewrite (check_stack_rank2 _ H2), (check_stack_rank3 _ (Hexp H2)). auto. }
  split; [| split].
  - intros H2 H3. subst fresnel paganin retrieve.
    unfold fresnel_filter, paganin_filter, retrieve_phase.
    rewrite (check_stack_reject _ H2 H3). auto.
  - intros H2. repeat split; try reflexivity; now apply Hsame.
  - intros [H2 | H3].
    + destruct (Hsame H2) as (-> & -> & ->). subst fresnel paganin retrieve.
      repeat split;
        [apply nre_fresnel_rank3 | apply nre_paganin_rank3 | apply nre_retrieve_rank3];
        auto.
    + subst fresnel paganin retrieve.
      repeat split;
        [apply nre_fresnel_rank3 | apply nre_paganin_rank3 | apply nre_retrieve_rank3];
        auto.
Qed.

(* ------------------------------------------------------------------ *)
(** ** The rows the Fresnel filter drops *)

Lemma slice_from {A : Type} (k : nat) (l : list A) :
  slice (Some (Z.of_nat k)) None l = skipn k l.
Proof.
  unfold slice, slice_range, slice_bound.
  destruct (Z.ltb_spec (Z.of_nat k) 0) as [Hneg | _]; [lia |].
  rewrite Nat2Z.id.
  destruct (Nat.le_gt_cases k (length l)) as [Hle | Hgt].
  - rewrite Nat.min_l, Nat.max_r by lia.
    apply firstn_all2. rewrite length_skipn. lia.
  - rewrite Nat.min_r, Nat.max_l by lia.
    rewrite Nat.sub_diag, !skipn_all2 by lia. reflexivity.
Qed.

Lemma for_range_ext {St : Type} (f g : nat -> St -> result St) (count from : nat) (s : St) :
  (forall i s', from <= i < from + count -> f i s' = g i s') ->
  for_range f from count s = for_range g from count s.
Proof.
  revert from s; induction count as [| n IH]; intros from s Hfg; simpl.
  - reflexivity.
  - rewrite Hfg by lia. destruct (g from s) as [e | s']; simpl; [reflexivity |].
    apply IH. intros i s'' Hi. apply Hfg. lia.
Qed.

Lemma nth_pad_edge1_top {A : Type} (before after k : nat) (l : list A) (d : A) :
  l <> [] -> k <= before -> nth k (pad_edge1 before after l) d = nth 0 l d.
Proof.
  intros Hl Hk. destruct l as [| x l]; [contradiction |].
  unfold pad_edge1.
  destruct (Nat.eq_dec k before) as [-> | Hne].
  - rewrite app_nth2 by (rewrite repeat_length; lia).
    rewrite repeat_length, Nat.sub_diag. reflexivity.
  - rewrite app_nth1 by (rewrite repeat_length; lia).
    rewrite nth_repeat_lt by lia. reflexivity.
Qed.

Section TopDrop.
Context {F : Type} `{Numeric F}.

(** With the pattern "PROJECTION" an image enters the loop body through
    its rows from 10 on only. *)
Lemma fresnel_image_projection (window : matrix F) (pad_width : Z) (nrow ncol : nat)
  (img img' : matrix F) :
  skipn 10 img = skipn 10 img' ->
  fresnel_image "PROJECTION" window pad_width nrow ncol img
  = fresnel_image "PROJECTION" window pad_width nrow ncol img'.
Proof.
  intros Hrows. unfold fresnel_image. cbn [String.eqb Ascii.eqb Bool.eqb].
  change 10%Z with (Z.of_nat 10). rewrite !slice_from, Hrows. reflexivity.
Qed.

Lemma skipn_nth_map (g : F -> F) (k m : nat) (data : list (matrix F)) :
  skipn k (nth m (map (mmap g) data) []) = mmap g (skipn k (nth m data [])).
Proof.
  change (@nil (list F)) with (mmap g []) at 1.
  rewrite map_nth. unfold mmap. now rewrite skipn_map.
Qed.

(** The filter on two stacks of one shape in one heap. *)
Lemma fresnel_projection_rows (a1 a2 : ndarray) (hp : heap) (ratio : F) (apply_log : bool) :
  shape a1 = shape a2 ->
  (forall m, skipn 10 (nth m (read hp a1) []) = skipn 10 (nth m (read hp a2) [])) ->
  fresnel_filter a1 "PROJECTION" ratio apply_log hp
  = fresnel_filter a2 "PROJECTION" ratio apply_log hp.
Proof.
  intros Hshape Hrows.
  assert (Hnd : ndim a1 = ndim a2) by (unfold ndim; now rewrite Hshape).
  assert (Hcore : forall b1 b2 : ndarray,
            shape b1 = shape b2 -> read hp b1 = read hp a1 -> read hp b2 = read hp a2 ->
            ndim b1 = 3 ->
            fresnel_filter b1 "PROJECTION" ratio apply_log hp
            = fresnel_filter b2 "PROJECTION" ratio apply_log hp).
  { intros b1 b2 Hs R1 R2 Hn.
    assert (Hn2 : ndim b2 = 3) by (unfold ndim in *; now rewrite <- Hs).
    unfold fresnel_filter.
    rewrite (check_stack_rank3 _ Hn), (check_stack_rank3 _ Hn2). cbn [rbind ok].
    rewrite <- Hs, R1, R2. unfold fresnel_stack.
    destruct (shape b1) as [| d [| h [| w [| ? ?]]]]; try reflexivity.
    destruct (zeros_stack _ _ _) as [e | res]; [reflexivity |]. cbn [rbind].
    erewrite for_range_ext; [reflexivity |].
    intros i s' _. cbv beta.
    erewrite fresnel_image_projection; [reflexivity |].
    destruct apply_log; [| apply Hrows].
    rewrite !skipn_nth_map. now rewrite Hrows. }
  destruct (Nat.eq_dec (ndim a1) 2) as [E2 | N2].
  - assert (E2' : ndim a2 = 2) by congruence.
    unfold fresnel_filter.
    rewrite (check_stack_rank2 _ E2), (check_stack_rank2 _ E2').
    assert (E3 : ndim (expand_dims0 a1) = 3).
    { unfold ndim in *; cbn [expand_dims0 shape Datatypes.length]. lia. }
    assert (E3' : ndim (expand_dims0 a2) = 3).
    { unfold ndim in *; cbn [expand_dims0 shape Datatypes.length]. lia. }
    pose proof (Hcore (expand_dims0 a1) (expand_dims0 a2)) as Hc.
    unfold fresnel_filter in Hc.
    rewrite (check_stack_rank3 _ E3), (check_stack_rank3 _ E3') in Hc.
    apply Hc; auto.
    cbn [expand_dims0 shape]. now rewrite Hshape.
  - destruct (Nat.eq_dec (ndim a1) 3) as [E3 | N3].
    + apply Hcore; auto.
    + unfold fresnel_filter.
      rewrite (check_stack_reject _ N2 N3).
      rewrite check_stack_reject by congruence.
      now rewrite Hnd.
Qed.

(** After the padding of the "PROJECTION" branch, the rows of the padded
    image down to the position of row 10 are copies of (the padded) row 10. *)
Lemma projection_top_rows (pad_width : nat) (img mat_pad : matrix F) (k : nat) :
  10 < length img ->
  pad_edge_int (Z.of_nat pad_width + 10) (Z.of_nat pad_width) (Z.of_nat pad_width)
    (Z.of_nat pad_width) (slice (Some 10%Z) None img) = ok mat_pad ->
  k <= pad_width + 10 ->
  nth k mat_pad [] = pad_edge1 pad_width pad_width (nth 10 img []).
Proof.
  intros Hlen Hpad Hk.
  change 10%Z with (Z.of_nat 10) in Hpad. rewrite slice_from in Hpad.
  unfold pad_edge_int in Hpad.
  destruct (_ || _)%bool eqn:Hneg in Hpad.
  { apply orb_true_iff in Hneg as [Hneg | Hneg];
      [apply orb_true_iff in Hneg as [Hneg | Hneg];
       [apply orb_true_iff in Hneg as [Hneg | Hneg] |] |];
      apply Z.ltb_lt in Hneg; lia. }
  assert (Hlenr : length (skipn 10 img) = length img - 10) by apply length_skipn.
  assert (Hrow : nth 0 (skipn 10 img) [] = nth 10 img []).
  { rewrite nth_skipn. reflexivity. }
  set (rows := skipn 10 img) in *.
  assert (Hskip : rows <> []).
  { intros E. rewrite E in Hlenr. simpl in Hlenr. lia. }
  unfold pad_edge, nrows in Hpad.
  destruct (Nat.eqb_spec (length rows) 0) as [E0 | _]; [lia |].
  cbn [andb] in Hpad.
  destruct (_ && _)%bool in Hpad; [discriminate |].
  injection Hpad as <-.
  rewrite !Nat2Z.id.
  replace (Z.to_nat (Z.of_nat pad_width + 10)) with (pad_width + 10) by lia.
  assert (Hlenp : k < length (pad_edge1 (pad_width + 10) pad_width rows)).
  { destruct rows as [| r rest]; [contradiction |].
    unfold pad_edge1. rewrite length_app, repeat_length. simpl. lia. }
  rewrite nth_map_lt with (d' := []) by exact Hlenp.
  rewrite nth_pad_edge1_top by assumption.
  now rewrite Hrow.
Qed.
End TopDrop.

(** C10: with the pattern "PROJECTION", two stacks of the same shape whose
    images agree from row 10 on give the same result, errors included: rows
    0 to 9 never reach the output.  In the padded image the rows above and
    at the position of row 10 are all the edge-padded row 10. *)
Theorem C10_fresnel_top_rows {F : Type} `{Numeric F} (a1 a2 : ndarray) (hp : heap)
  (ratio : F) (apply_log : bool) :
  shape a1 = shape a2 ->
  (forall m, skipn 10 (nth m (read hp a1) []) = skipn 10 (nth m (read hp a2) [])) ->
  fresnel_filter a1 "PROJECTION" ratio apply_log hp
  = fresnel_filter a2 "PROJECTION" ratio apply_log hp
  /\ (forall (pad_width k : nat) (img mat_pad : matrix F),
        10 < length img ->
        pad_edge_int (Z.of_nat pad_width + 10) (Z.of_nat pad_width) (Z.of_nat pad_width)
          (Z.of_nat pad_width) (slice (Some 10%Z) None img) = ok mat_pad ->
        k <= pad_width + 10 ->
        nth k mat_pad [] = pad_edge1 pad_width pad_width (nth 10 img [])).
Proof.
  intros Hshape Hrows. split.
  - now apply fresnel_projection_rows.
  - intros pad_width k img mat_pad. apply projection_top_rows.
Qed.

(* ------------------------------------------------------------------ *)
(** ** Shapes through the array primitives *)

Lemma rect_nrows {A : Type} (h w : nat) (m : matrix A) : rect h w m -> nrows m = h.
Proof. now intros [Hh _]. Qed.

Lemma rect_ncols {A : Type} (h w : nat) (m : matrix A) : rect h w m -> 1 <= h -> ncols m = w.
Proof.
  intros [Hh Hw] H1. destruct m as [| r m]; simpl in *; [lia |].
  now inversion Hw.
Qed.

Lemma rect_full {A : Type} (h w : nat) (x : A) : rect h w (full h w x).
Proof.
  unfold full. pose proof (rect_repeat (repeat x w) h) as Hr.
  now rewrite repeat_length in Hr.
Qed.

Lemma rect_mmap {A B : Type} (f : A -> B) (h w : nat) (m : matrix A) :
  rect h w m -> rect h w (mmap f m).
Proof.
  intros [Hh Hw]. split.
  - unfold mmap. now rewrite length_map.
  - unfold mmap. apply Forall_map. eapply Forall_impl; [| exact Hw].
    intros r Hr. now rewrite length_map.
Qed.

Lemma rect_map_rows {A B : Type} (f : list A -> list B) (h w w' : nat) (m : matrix A) :
  (forall r, length r = w -> length (f r) = w') -> rect h w m -> rect h w' (map f m).
Proof.
  intros Hf [Hh Hw]. split.
  - now rewrite length_map.
  - apply Forall_map. eapply Forall_impl; [| exact Hw]. exact Hf.
Qed.

Lemma rect_nth {A : Type} (h w i : nat) (m : matrix A) :
  rect h w m -> i < h -> length (nth i m []) = w.
Proof.
  intros [Hh Hw] Hi. rewrite Forall_forall in Hw. apply Hw. apply nth_In. lia.
Qed.

Lemma length_map2 {A B C : Type} (f : A -> B -> C) (a : list A) (b : list B) :
  length (map2 f a b) = Nat.min (length a) (length b).
Proof. unfold map2. now rewrite length_map, length_combine. Qed.

Lemma rect_map2 {A B C : Type} (f : A -> B -> C) (h w : nat) (a : matrix A) (b : matrix B) :
  rect h w a -> rect h w b -> rect h w (map2 (map2 f) a b).
Proof.
  intros [Ha Wa] [Hb Wb]. split.
  - rewrite length_map2. lia.
  - unfold map2 at 1. apply Forall_map. apply Forall_forall. intros [ra rb] Hin.
    rewrite Forall_forall in Wa, Wb.
    pose proof (in_combine_l _ _ _ _ Hin) as Hl.
    pose proof (in_combine_r _ _ _ _ Hin) as Hr.
    cbn [fst snd]. rewrite length_map2, (Wa _ Hl), (Wb _ Hr). lia.
Qed.

Lemma stretch_same {A : Type} (n : nat) (l : list A) : length l = n -> stretch n l = ok l.
Proof. intros Hl. unfold stretch. now rewrite Hl, Nat.eqb_refl. Qed.

Lemma mapM_stretch_same {A : Type} (w : nat) (m : matrix A) :
  Forall (fun r => length r = w) m -> mapM (stretch w) m = ok m.
Proof.
  induction 1 as [| r m Hr _ IH]; simpl; [reflexivity |].
  rewrite stretch_same by exact Hr. simpl. now rewrite IH.
Qed.

Lemma broadcast_to_rect {A : Type} (h w : nat) (m : matrix A) :
  rect h w m -> broadcast_to h w m = ok m.
Proof.
  intros [Hh Hw]. unfold broadcast_to. rewrite stretch_same by exact Hh. simpl.
  now apply mapM_stretch_same.
Qed.

Lemma bdim_same (n : nat) : bdim n n = n.
Proof. unfold bdim. now destruct (n =? 1). Qed.

Lemma elementwise_rect {A B C : Type} (f : A -> B -> C) (h w : nat) (a : matrix A)
  (b : matrix B) :
  rect h w a -> rect h w b -> 1 <= h ->
  elementwise f a b = ok (map2 (map2 f) a b).
Proof.
  intros Ha Hb H1. unfold elementwise.
  rewrite (rect_nrows Ha), (rect_nrows Hb), (rect_ncols Ha H1), (rect_ncols Hb H1).
  rewrite !bdim_same, (broadcast_to_rect Ha), (broadcast_to_rect Hb). reflexivity.
Qed.

Lemma elementwise_inplace_rect {A B : Type} (f : A -> B -> A) (h w : nat) (a : matrix A)
  (b : matrix B) :
  rect h w a -> rect h w b -> 1 <= h ->
  elementwise_inplace f a b = ok (map2 (map2 f) a b).
Proof.
  intros Ha Hb H1. unfold elementwise_inplace.
  rewrite (rect_nrows Ha), (rect_ncols Ha H1), (broadcast_to_rect Hb). reflexivity.
Qed.

Lemma length_pad_edge1 {A : Type} (before after : nat) (l : list A) :
  l <> [] -> length (pad_edge1 before after l) = before + length l + after.
Proof.
  intros Hl. destruct l as [| x l]; [contradiction |].
  unfold pad_edge1. rewrite !length_app, !repeat_length. lia.
Qed.

Lemma in_pad_edge1 {A : Type} (before after : nat) (l : list A) (x : A) :
  In x (pad_edge1 before after l) -> In x l.
Proof.
  destruct l as [| y l]; [auto |]. unfold pad_edge1. intros Hin.
  apply in_app_or in Hin as [Hin | Hin].
  - apply repeat_spec in Hin as ->. now left.
  - apply in_app_or in Hin as [Hin | Hin]; [exact Hin |].
    apply repeat_spec in Hin as ->.
    destruct (exists_last (l := y :: l) ltac:(discriminate)) as (l' & z & E).
    rewrite E, last_last. rewrite <- E. rewrite E. apply in_or_app. right. now left.
Qed.

Lemma pad_edge_rect {A : Type} (t b l r h w : nat) (m : matrix A) :
  rect h w m -> 1 <= h -> 1 <= w ->
  exists m', pad_edge t b l r m = ok m' /\ rect (t + h + b) (l + w + r) m'.
Proof.
  intros Hm Hh Hw. unfold pad_edge.
  rewrite (rect_nrows Hm), (rect_ncols Hm Hh).
  destruct (Nat.eqb_spec h 0) as [E | _]; [lia |].
  destruct (Nat.eqb_spec w 0) as [E | _]; [lia |].
  cbn [andb]. eexists. split; [reflexivity |].
  destruct Hm as [Hlen Hrows].
  assert (Hne : m <> []) by (intros ->; simpl in Hlen; lia).
  split.
  - rewrite length_map, length_pad_edge1 by exact Hne. lia.
  - apply Forall_map. apply Forall_forall. intros row Hin.
    apply in_pad_edge1 in Hin. rewrite Forall_forall in Hrows.
    assert (Hrl : length row = w) by now apply Hrows.
    rewrite length_pad_edge1; [lia |].
    intros ->. simpl in Hrl. lia.
Qed.

Lemma Forall_firstn {A : Type} (P : A -> Prop) (n : nat) (l : list A) :
  Forall P l -> Forall P (firstn n l).
Proof.
  intros Hl. revert n. induction Hl as [| x l Hx _ IH]; intros [| n]; simpl; auto.
Qed.

Lemma Forall_skipn {A : Type} (P : A -> Prop) (n : nat) (l : list A) :
  Forall P l -> Forall P (skipn n l).
Proof.
  intros Hl. revert n. induction Hl as [| x l Hx Hl IH]; intros [| n]; simpl; auto.
Qed.

Lemma length_fftshift1 {A : Type} (l : list A) : length (fftshift1 l) = length l.
Proof.
  unfold fftshift1. rewrite length_app, length_skipn, length_firstn.
  pose proof (Nat.Div0.div_le_upper_bound (length l) 2 (length l)). lia.
Qed.

Lemma length_ifftshift1 {A : Type} (l : list A) : length (ifftshift1 l) = length l.
Proof.
  unfold ifftshift1. rewrite length_app, length_skipn, length_firstn.
  assert (length l / 2 <= length l) by (apply Nat.Div0.div_le_upper_bound; lia). lia.
Qed.

Lemma Forall_fftshift1 {A : Type} (P : A -> Prop) (l : list A) :
  Forall P l -> Forall P (fftshift1 l).
Proof.
  intros Hl. unfold fftshift1. apply Forall_app. split.
  - now apply Forall_skipn.
  - now apply Forall_firstn.
Qed.

Lemma Forall_ifftshift1 {A : Type} (P : A -> Prop) (l : list A) :
  Forall P l -> Forall P (ifftshift1 l).
Proof.
  intros Hl. unfold ifftshift1. apply Forall_app. split.
  - now apply Forall_skipn.
  - now apply Forall_firstn.
Qed.

Lemma rect_fftshift {A : Type} (h w : nat) (m : matrix A) :
  rect h w m -> rect h w (fftshift m).
Proof.
  intros [Hh Hw]. unfold fftshift. split.
  - now rewrite length_map, length_fftshift1.
  - apply Forall_map. apply Forall_fftshift1.
    eapply Forall_impl; [| exact Hw]. intros r Hr. now rewrite length_fftshift1.
Qed.

Lemma rect_ifftshift {A : Type} (h w : nat) (m : matrix A) :
  rect h w m -> rect h w (ifftshift m).
Proof.
  intros [Hh Hw]. unfold ifftshift. split.
  - now rewrite length_map, length_ifftshift1.
  - apply Forall_map. apply Forall_ifftshift1.
    eapply Forall_impl; [| exact Hw]. intros r Hr. now rewrite length_ifftshift1.
Qed.

Lemma rect_fftshift_axis1 {A : Type} (h w : nat) (m : matrix A) :
  rect h w m -> rect h w (fftshift_axis1 m).
Proof. apply rect_map_rows. intros r Hr. now rewrite length_fftshift1. Qed.

Lemma rect_ifftshift_axis1 {A : Type} (h w : nat) (m : matrix A) :
  rect h w m -> rect h w (ifftshift_axis1 m).
Proof. apply rect_map_rows. intros r Hr. now rewrite length_ifftshift1. Qed.

(** A slice [lo : lo + n] that lies inside the axis. *)
Lemma slice_inside {A : Type} (lo n : nat) (l : list A) :
  lo + n <= length l ->
  slice (Some (Z.of_nat lo)) (Some (Z.of_nat lo + Z.of_nat n)%Z) l = firstn n (skipn lo l).
Proof.
  intros Hle. unfold slice, slice_range, slice_bound.
  destruct (Z.ltb_spec (Z.of_nat lo) 0) as [Hneg | _]; [lia |].
  destruct (Z.ltb_spec (Z.of_nat lo + Z.of_nat n) 0) as [Hneg | _]; [lia |].
  rewrite Nat2Z.id. replace (Z.to_nat (Z.of_nat lo + Z.of_nat n)) with (lo + n) by lia.
  rewrite !Nat.min_l, Nat.max_r by lia.
  f_equal. lia.
Qed.

Lemma length_slice_inside {A : Type} (lo n : nat) (l : list A) :
  lo + n <= length l ->
  length (slice (Some (Z.of_nat lo)) (Some (Z.of_nat lo + Z.of_nat n)%Z) l) = n.
Proof.
  intros Hle. rewrite slice_inside by exact Hle.
  rewrite length_firstn, length_skipn. lia.
Qed.

Lemma rect_crop {A : Type} (r0 c0 h w H W : nat) (m : matrix A) :
  rect H W m -> r0 + h <= H -> c0 + w <= W ->
  rect h w (crop (Z.of_nat r0) (Z.of_nat r0 + Z.of_nat h) (Z.of_nat c0)
              (Z.of_nat c0 + Z.of_nat w) m).
Proof.
  intros [Hh Hw] Hr Hc. unfold crop. split.
  - rewrite length_map. apply length_slice_inside. lia.
  - apply Forall_map. rewrite slice_inside by lia.
    apply Forall_firstn, Forall_skipn.
    eapply Forall_impl; [| exact Hw]. intros r Hrl. cbv beta in Hrl.
    apply length_slice_inside. lia.
Qed.

Lemma length_splice {A : Type} (lo hi : nat) (new old : list A) :
  lo <= hi <= length old -> length new = hi - lo -> length (splice lo hi new old) = length old.
Proof.
  intros Hb Hn. unfold splice. rewrite !length_app, length_firstn, length_skipn. lia.
Qed.

Lemma Forall_splice {A : Type} (P : A -> Prop) (lo hi : nat) (new old : list A) :
  Forall P new -> Forall P old -> Forall P (splice lo hi new old).
Proof.
  intros Hn Ho. unfold splice. apply Forall_app. split; [now apply Forall_firstn |].
  apply Forall_app. split; [exact Hn | now apply Forall_skipn].
Qed.

Lemma assign_image_rect {A : Type} (h w i : nat) (v : matrix A) (res : list (matrix A)) :
  i < length res -> rect h w v ->
  assign_image h w i v res = ok (splice i (S i) [v] res).
Proof.
  intros Hi Hv. unfold assign_image.
  destruct (Nat.ltb_spec i (length res)) as [_ | Hge]; [| lia].
  now rewrite (broadcast_to_rect Hv).
Qed.

Lemma for_range_inv {St : Type} (P : nat -> St -> Prop) (body : nat -> St -> result St)
  (count from : nat) (s : St) :
  P from s ->
  (forall i s0, from <= i < from + count -> P i s0 ->
     exists s1, body i s0 = ok s1 /\ P (S i) s1) ->
  exists s', for_range body from count s = ok s' /\ P (from + count) s'.
Proof.
  revert from s; induction count as [| n IH]; intros from s Hs Hbody; simpl.
  - exists s. rewrite Nat.add_0_r. auto.
  - destruct (Hbody from s ltac:(lia) Hs) as (s1 & -> & Hs1). simpl.
    destruct (IH (S from) s1 Hs1) as (s' & Hrun & Hfin).
    { intros i s0 Hi. apply Hbody. lia. }
    exists s'. split; [exact Hrun |]. now replace (from + S n) with (S from + n) by lia.
Qed.

Lemma for_range_post {St : Type} (P : nat -> St -> Prop) (body : nat -> St -> result St)
  (count from : nat) (s s' : St) :
  P from s ->
  (forall i s0 s1, from <= i < from + count -> P i s0 -> body i s0 = ok s1 -> P (S i) s1) ->
  for_range body from count s = ok s' -> P (from + count) s'.
Proof.
  revert from s; induction count as [| n IH]; intros from s Hs Hbody; simpl.
  - intros [= <-]. now rewrite Nat.add_0_r.
  - destruct (body from s) as [e | s1] eqn:Hb; simpl; [discriminate |].
    intros Hrun. replace (from + S n) with (S from + n) by lia.
    apply (IH (S from) s1); [| | exact Hrun].
    + eapply Hbody; [| exact Hs | exact Hb]. lia.
    + intros i s0 s2 Hi. apply Hbody. lia.
Qed.

Lemma rect_cast {A : Type} (h w h' w' : nat) (m : matrix A) :
  rect h w m -> h = h' -> w = w' -> rect h' w' m.
Proof. now intros Hm <- <-. Qed.

Lemma Forall_nth_default {A : Type} (P : A -> Prop) (l : list A) (d : A) (i : nat) :
  Forall P l -> i < length l -> P (nth i l d).
Proof. intros Hl Hi. rewrite Forall_forall in Hl. apply Hl. now apply nth_In. Qed.

Lemma rect_skipn {A : Type} (k h w : nat) (m : matrix A) :
  rect h w m -> rect (h - k) w (skipn k m).
Proof.
  intros [Hh Hw]. split.
  - rewrite length_skipn. lia.
  - now apply Forall_skipn.
Qed.

Section TransformShapes.
Context {F : Type} `{Numeric F}.

Lemma rect_dft2 (sign : Z) (x : matrix complex) : rect (nrows x) (ncols x) (dft2 sign x).
Proof.
  unfold dft2.
  pose proof (rect_map_map (fun k l => dft2_at sign x k l) (seq 0 (nrows x)) (seq 0 (ncols x)))
    as Hr.
  now rewrite !length_seq in Hr.
Qed.

Lemma fft2_rect (h w : nat) (x : matrix complex) :
  rect h w x -> 1 <= h -> 1 <= w ->
  exists y, fft2 x = ok y /\ rect h w y.
Proof.
  intros Hx Hh Hw. unfold fft2.
  pose proof (rect_dft2 1 x) as Hr.
  rewrite (rect_nrows Hx), (rect_ncols Hx Hh) in *.
  destruct (Nat.eqb_spec h 0) as [E | _]; [lia |].
  destruct (Nat.eqb_spec w 0) as [E | _]; [lia |].
  cbn [orb]. eauto.
Qed.

Lemma ifft2_rect (h w : nat) (x : matrix complex) :
  rect h w x -> 1 <= h -> 1 <= w ->
  exists y, ifft2 x = ok y /\ rect h w y.
Proof.
  intros Hx Hh Hw. unfold ifft2.
  pose proof (rect_dft2 (-1) x) as Hr.
  rewrite (rect_nrows Hx), (rect_ncols Hx Hh) in *.
  destruct (Nat.eqb_spec h 0) as [E | _]; [lia |].
  destruct (Nat.eqb_spec w 0) as [E | _]; [lia |].
  cbn [orb]. eexists. split; [reflexivity |]. now apply rect_mmap.
Qed.

Lemma fft_rect (h w : nat) (x : matrix complex) :
  rect h w x -> 1 <= h -> 1 <= w ->
  exists y, fft x = ok y /\ rect h w y.
Proof.
  intros Hx Hh Hw. unfold fft. rewrite (rect_ncols Hx Hh).
  destruct (Nat.eqb_spec w 0) as [E | _]; [lia |].
  eexists. split; [reflexivity |].
  eapply rect_map_rows; [| exact Hx].
  intros r Hr. now rewrite length_map, length_seq.
Qed.

Lemma ifft_rect (h w : nat) (x : matrix complex) :
  rect h w x -> 1 <= h -> 1 <= w ->
  exists y, ifft x = ok y /\ rect h w y.
Proof.
  intros Hx Hh Hw. unfold ifft. rewrite (rect_ncols Hx Hh).
  destruct (Nat.eqb_spec w 0) as [E | _]; [lia |].
  eexists. split; [reflexivity |].
  eapply rect_map_rows; [| exact Hx].
  intros r Hr. now rewrite length_map, length_seq.
Qed.

Lemma pad_edge_int_rect (t b l r : nat) (h w : nat) (m : matrix F) :
  rect h w m -> 1 <= h -> 1 <= w ->
  exists m', pad_edge_int (Z.of_nat t) (Z.of_nat b) (Z.of_nat l) (Z.of_nat r) m = ok m'
             /\ rect (t + h + b) (l + w + r) m'.
Proof.
  intros Hm Hh Hw. unfold pad_edge_int.
  destruct (Z.ltb_spec (Z.of_nat t) 0); [lia |].
  destruct (Z.ltb_spec (Z.of_nat b) 0); [lia |].
  destruct (Z.ltb_spec (Z.of_nat l) 0); [lia |].
  destruct (Z.ltb_spec (Z.of_nat r) 0); [lia |].
  cbn [orb]. rewrite !Nat2Z.id. now apply pad_edge_rect.
Qed.

Lemma rect_make_window (height width : nat) (ratio : F) (pattern : string) :
  rect height width (_make_window height width ratio pattern).
Proof.
  unfold _make_window. destruct (String.eqb pattern "PROJECTION").
  - match goal with
    | |- rect _ _ (map (fun v => map (fun u => @?f v u) ?ul) ?vl) =>
        pose proof (rect_map_map f vl ul) as Hr
    end.
    now rewrite !length_map, !length_arange in Hr.
  - match goal with
    | |- rect _ _ (repeat ?row _) => pose proof (rect_repeat row height) as Hr
    end.
    now rewrite !length_map, !length_arange in Hr.
Qed.

(** The loop body of [fresnel_filter] keeps the shape of the image; with
    the pattern "PROJECTION" the image needs more than 10 rows. *)
Lemma fresnel_image_rect (pattern : string) (window : matrix F) (pad_width nrow ncol : nat)
  (img : matrix F) :
  rect nrow ncol window -> rect nrow ncol img -> 1 <= nrow -> 1 <= ncol ->
  (String.eqb pattern "PROJECTION" = true -> 10 < nrow) ->
  exists m, fresnel_image pattern window (Z.of_nat pad_width) nrow ncol img = ok m
            /\ rect nrow ncol m.
Proof.
  intros Hwin Himg Hr Hc Hproj. unfold fresnel_image.
  destruct (String.eqb pattern "PROJECTION").
  - specialize (Hproj eq_refl).
    change 10%Z with (Z.of_nat 10). rewrite slice_from.
    rewrite <- Nat2Z.inj_add.
    destruct (@pad_edge_int_rect (pad_width + 10) pad_width pad_width pad_width
                (nrow - 10) ncol (skipn 10 img)) as (mat_pad & -> & Hmp);
      [now apply rect_skipn | lia | lia |].
    destruct (@pad_edge_int_rect pad_width pad_width pad_width pad_width
                nrow ncol window) as (win_pad & -> & Hwp); [assumption | lia | lia |].
    cbn [rbind ok].
    apply rect_cast with (h' := pad_width + nrow + pad_width)
                         (w' := pad_width + ncol + pad_width) in Hmp; [| lia | lia].
    destruct (@fft2_rect (pad_width + nrow + pad_width) (pad_width + ncol + pad_width)
                (mmap of_real mat_pad)) as (mat_fft & -> & Hf);
      [now apply rect_mmap | lia | lia |].
    cbn [rbind ok].
    rewrite (@elementwise_rect _ _ _ cdiv_real (pad_width + nrow + pad_width)
               (pad_width + ncol + pad_width)); [| exact Hf | now apply rect_ifftshift | lia].
    cbn [rbind ok].
    destruct (@ifft2_rect (pad_width + nrow + pad_width) (pad_width + ncol + pad_width)
                (map2 (map2 cdiv_real) mat_fft (ifftshift win_pad))) as (mat_dec & -> & Hd);
      [now apply rect_map2; [| apply rect_ifftshift] | lia | lia |].
    cbn [rbind ok]. eexists. split; [reflexivity |].
    apply rect_mmap. eapply rect_crop; [exact Hd | lia | lia].
  - change 0%Z with (Z.of_nat 0).
    destruct (@pad_edge_int_rect 0 0 pad_width pad_width nrow ncol img)
      as (mat_pad & -> & Hmp); [assumption | lia | lia |].
    destruct (@pad_edge_int_rect 0 0 pad_width pad_width nrow ncol window)
      as (win_pad & -> & Hwp); [assumption | lia | lia |].
    cbn [rbind ok].
    apply rect_cast with (h' := nrow) (w' := pad_width + ncol + pad_width) in Hmp;
      [| lia | lia].
    apply rect_cast with (h' := nrow) (w' := pad_width + ncol + pad_width) in Hwp;
      [| lia | lia].
    destruct (@fft_rect nrow (pad_width + ncol + pad_width) (mmap of_real mat_pad))
      as (mat_fft0 & -> & Hf);
      [now apply rect_mmap | lia | lia |].
    cbn [rbind ok].
    rewrite (@elementwise_rect _ _ _ cdiv_real nrow (pad_width + ncol + pad_width));
      [| now apply rect_fftshift_axis1 | exact Hwp | lia].
    cbn [rbind ok].
    destruct (@ifft_rect nrow (pad_width + ncol + pad_width)
                (ifftshift_axis1 (map2 (map2 cdiv_real) (fftshift_axis1 mat_fft0) win_pad)))
      as (mat_dec & -> & Hd);
      [apply rect_ifftshift_axis1, rect_map2;
       [now apply rect_fftshift_axis1 | exact Hwp] | lia | lia |].
    cbn [rbind ok]. eexists. split; [reflexivity |].
    apply rect_mmap. eapply rect_map_rows; [| exact Hd].
    intros r Hrl. apply length_slice_inside. lia.
Qed.
End TransformShapes.

Section FresnelShape.
Context {F : Type} `{Numeric F}.

Lemma zeros_stack_ok (d h w : nat) :
  zeros_stack (F := F) d (Z.of_nat h) (Z.of_nat w) = ok (repeat (full h w fzero) d).
Proof.
  unfold zeros_stack.
  destruct (Z.ltb_spec (Z.of_nat h) 0); [lia |].
  destruct (Z.ltb_spec (Z.of_nat w) 0); [lia |].
  cbn [orb]. now rewrite !Nat2Z.id.
Qed.

Lemma Forall_repeat {A : Type} (P : A -> Prop) (x : A) (n : nat) : P x -> Forall P (repeat x n).
Proof. intros Hx. apply Forall_forall. intros y Hy. now apply repeat_spec in Hy as ->. Qed.

Lemma Forall_rect_map (f : F -> F) (h w : nat) (l : list (matrix F)) :
  Forall (rect h w) l -> Forall (rect h w) (map (mmap f) l).
Proof.
  intros Hl. apply Forall_map. eapply Forall_impl; [| exact Hl].
  intros m Hm. now apply rect_mmap.
Qed.

(** The filter on the contents of a stack of non-empty images returns a
    stack of the same shape. *)
Lemma fresnel_stack_returns (d h w : nat) (data : list (matrix F)) (pattern : string)
  (ratio : F) (apply_log : bool) :
  length data = d -> Forall (rect h w) data -> 1 <= h -> 1 <= w ->
  (String.eqb pattern "PROJECTION" = true -> 10 < h) ->
  (0 <= ftrunc (fmul (lit (1 # 10)) (of_Z (Z.of_nat w))))%Z ->
  exists res, fresnel_stack [d; h; w] data pattern ratio apply_log = ok ([d; h; w], res)
              /\ length res = d /\ Forall (rect h w) res.
Proof.
  intros Hlen Hdata Hh Hw Hproj Hpad. unfold fresnel_stack.
  set (pad_width := Z.min 150 (ftrunc (fmul (lit (1 # 10)) (of_Z (Z.of_nat w))))).
  assert (Hpw : (0 <= pad_width)%Z) by (subst pad_width; lia).
  replace (Z.min (Z.of_nat h) (Z.of_nat h + pad_width * 2 - pad_width)) with (Z.of_nat h) by lia.
  replace (Z.min (Z.of_nat w) (Z.of_nat w + pad_width * 2 - pad_width)) with (Z.of_nat w) by lia.
  rewrite zeros_stack_ok. cbn [rbind ok]. rewrite !Nat2Z.id.
  set (data' := if apply_log then map (mmap (fun x => fneg (fln x))) data else data).
  assert (Hlen' : length data' = d).
  { subst data'. destruct apply_log; [now rewrite length_map | assumption]. }
  assert (Hdata' : Forall (rect h w) data').
  { subst data'. destruct apply_log; [now apply Forall_rect_map | assumption]. }
  rewrite <- (Z2Nat.id pad_width) by exact Hpw.
  destruct (@for_range_inv (list (matrix F))
              (fun _ res => length res = d /\ Forall (rect h w) res)
              (fun i res =>
                 rbind (fresnel_image pattern (_make_window h w ratio pattern)
                          (Z.of_nat (Z.to_nat pad_width)) h w (nth i data' []))
                   (fun mat_dec => assign_image h w i mat_dec res))
              d 0 (repeat (full h w fzero) d)) as (res & -> & Hres).
  { split; [apply repeat_length | apply Forall_repeat, rect_full]. }
  { intros i res Hi [Hrl Hrr].
    destruct (@fresnel_image_rect _ _ _ pattern (_make_window h w ratio pattern)
                (Z.to_nat pad_width) h w (nth i data' [])) as (m & -> & Hm);
      try assumption.
    - apply rect_make_window.
    - apply Forall_nth_default; [assumption | lia].
    - cbn [rbind ok]. rewrite assign_image_rect by (try assumption; lia).
      eexists. split; [reflexivity |]. split.
      + rewrite length_splice; [exact Hrl | lia | cbn [Datatypes.length]; lia].
      + apply Forall_splice; [| assumption]. now constructor. }
  cbn [rbind ok]. destruct Hres as [Hrl Hrr].
  eexists. split; [reflexivity |].
  destruct apply_log; [| now split].
  split; [now rewrite length_map | now apply Forall_rect_map].
Qed.
End FresnelShape.

Section PaganinShape.
Context {F : Type} `{Numeric F}.

Lemma length_pad1 (mode : pad_mode F) (before after : nat) (l : list F) :
  l <> [] -> length (pad1 mode before after l) = before + length l + after.
Proof.
  intros Hl. destruct mode as [| name fill]; cbn [pad1].
  - now apply length_pad_edge1.
  - rewrite !length_app, !length_map, !length_seq. lia.
Qed.

Lemma rect_pad_image (mode : pad_mode F) (h w pad_y pad_x : nat) (m : matrix F) :
  rect h w m -> 1 <= h -> 1 <= w ->
  rect (pad_y + h + pad_y) (pad_x + w + pad_x) (pad_image mode w pad_y pad_x m).
Proof.
  intros Hm Hh Hw. unfold pad_image.
  assert (Hne : m <> []) by (destruct Hm as [Hl _]; intros ->; simpl in Hl; lia).
  assert (Hrows : rect (pad_y + h + pad_y) w
            match mode with
            | Edge => pad_edge1 pad_y pad_y m
            | Mode _ fill =>
                map (fun i => map (fun j => fill pad_y pad_y (column j m)
                                              (Z.of_nat i - Z.of_nat pad_y)%Z) (seq 0 w))
                  (seq 0 pad_y)
                ++ m
                ++ map (fun i => map (fun j => fill pad_y pad_y (column j m)
                                                 (Z.of_nat (length m + i))) (seq 0 w))
                     (seq 0 pad_y)
            end).
  { destruct Hm as [Hl Hr]. destruct mode as [| name fill]; split.
    - rewrite length_pad_edge1 by exact Hne. lia.
    - apply Forall_forall. intros r Hin. apply in_pad_edge1 in Hin.
      rewrite Forall_forall in Hr. now apply Hr.
    - rewrite !length_app, !length_map, !length_seq. lia.
    - apply Forall_app. split; [| apply Forall_app; split]; try assumption.
      + apply Forall_map, Forall_forall. intros i _. now rewrite length_map, length_seq.
      + apply Forall_map, Forall_forall. intros i _. now rewrite length_map, length_seq. }
  eapply rect_map_rows; [| exact Hrows].
  intros r Hr. rewrite length_pad1; [lia |]. intros ->. simpl in Hr. lia.
Qed.

Lemma pad_stack_rect (mode : pad_mode F) (pad_y pad_x h w : nat) (stack : list (matrix F)) :
  existsb (String.eqb (mode_name mode)) pad_modes = true ->
  1 <= h -> 1 <= w -> Forall (rect h w) stack ->
  exists padded,
    pad_stack mode (Z.of_nat pad_y) (Z.of_nat pad_x) h w stack = ok padded
    /\ length padded = length stack
    /\ Forall (rect (pad_y + h + pad_y) (pad_x + w + pad_x)) padded.
Proof.
  intros Hmode Hh Hw Hst. unfold pad_stack.
  destruct (Z.ltb_spec (Z.of_nat pad_y) 0); [lia |].
  destruct (Z.ltb_spec (Z.of_nat pad_x) 0); [lia |].
  cbn [orb]. rewrite Hmode. cbn [negb].
  destruct (Nat.eqb_spec h 0) as [E | _]; [lia |].
  destruct (Nat.eqb_spec w 0) as [E | _]; [lia |].
  rewrite !andb_false_r. cbn [andb]. rewrite !Nat2Z.id.
  eexists. split; [reflexivity |]. split; [apply length_map |].
  apply Forall_map. eapply Forall_impl; [| exact Hst].
  intros m Hm. now apply rect_pad_image.
Qed.

Lemma paganin_filtercomplex_rect (ratio energy distance resolution : F) (h1 w1 : nat) :
  is_zero (fmul energy (lit 1000)) = false ->
  is_zero (fmul (of_Z (Z.of_nat w1)) (fmul resolution (lit (1 # 1000000)))) = false ->
  is_zero (fmul (of_Z (Z.of_nat h1)) (fmul resolution (lit (1 # 1000000)))) = false ->
  exists fc, paganin_filtercomplex ratio energy distance resolution
               (Z.of_nat h1) (Z.of_nat w1) = ok fc
             /\ rect h1 w1 fc.
Proof.
  intros He Hw Hh. unfold paganin_filtercomplex. rewrite He, Hw, Hh.
  destruct (Z.ltb_spec (Z.of_nat h1) 0); [lia |].
  destruct (Z.ltb_spec (Z.of_nat w1) 0); [lia |].
  cbn [orb]. rewrite !Nat2Z.id. eexists. split; [reflexivity |].
  match goal with
  | |- rect _ _ (map (fun py => map (fun px => @?f py px) ?xl) ?yl) =>
      pose proof (rect_map_map f yl xl) as Hr
  end.
  rewrite !length_map, !length_arange in Hr. exact Hr.
Qed.

Lemma paganin_image_rect (dt : dtype) (fc : matrix complex) (ratio increment : F)
  (pad_y pad_x h w : nat) (img : matrix F) :
  rect (pad_y + h + pad_y) (pad_x + w + pad_x) fc ->
  rect (pad_y + h + pad_y) (pad_x + w + pad_x) img -> 1 <= h -> 1 <= w ->
  exists m, paganin_image dt fc ratio increment (Z.of_nat pad_y) (Z.of_nat pad_x) h w img
            = ok m /\ rect h w m.
Proof.
  intros Hfc Himg Hh Hw. unfold paganin_image, transform_input, sanitize.
  destruct (@fft2_rect _ _ _ (pad_y + h + pad_y) (pad_x + w + pad_x)
              (mmap of_real (mmap (cast float32) (mmap (sanitize_pixel dt) img))))
    as (pci1 & -> & Hp); [now repeat apply rect_mmap | lia | lia |].
  cbn [rbind ok].
  rewrite (@elementwise_rect _ _ _ cdiv (pad_y + h + pad_y) (pad_x + w + pad_x));
    [| now apply rect_fftshift | exact Hfc | lia].
  cbn [rbind ok].
  destruct (@ifft2_rect _ _ _ (pad_y + h + pad_y) (pad_x + w + pad_x)
              (map2 (map2 cdiv) (fftshift pci1) fc)) as (inv & -> & Hi);
    [apply rect_map2; [now apply rect_fftshift | exact Hfc] | lia | lia |].
  cbn [rbind ok]. eexists. split; [reflexivity |].
  eapply rect_crop; [apply rect_mmap, rect_mmap; exact Hi | lia | lia].
Qed.

(** The Paganin filter on the contents of a stack of non-empty images
    returns a stack of the same shape. *)
Lemma paganin_stack_returns (dt : dtype) (d h w : nat) (data : list (matrix F))
  (ratio energy distance resolution : F) (pad_y pad_x : nat) (pad_method : pad_mode F)
  (increment : F) :
  length data = d -> Forall (rect h w) data -> 1 <= h -> 1 <= w ->
  existsb (String.eqb (mode_name pad_method)) pad_modes = true ->
  is_zero (fmul energy (lit 1000)) = false ->
  is_zero (fmul (of_Z (Z.of_nat (w + 2 * pad_x))) (fmul resolution (lit (1 # 1000000))))
  = false ->
  is_zero (fmul (of_Z (Z.of_nat (h + 2 * pad_y))) (fmul resolution (lit (1 # 1000000))))
  = false ->
  exists res,
    paganin_stack dt [d; h; w] data ratio energy distance resolution
      (Z.of_nat pad_y) (Z.of_nat pad_x) pad_method increment = ok ([d; h; w], res)
    /\ length res = d /\ Forall (rect h w) res.
Proof.
  intros Hlen Hdata Hh Hw Hmode He Hzw Hzh. unfold paganin_stack.
  replace (Z.of_nat h + 2 * Z.of_nat pad_y)%Z with (Z.of_nat (h + 2 * pad_y)) by lia.
  replace (Z.of_nat w + 2 * Z.of_nat pad_x)%Z with (Z.of_nat (w + 2 * pad_x)) by lia.
  destruct (@paganin_filtercomplex_rect ratio energy distance resolution
              (h + 2 * pad_y) (w + 2 * pad_x) He Hzw Hzh) as (fc & -> & Hfc).
  cbn [rbind ok].
  destruct (@pad_stack_rect pad_method pad_y pad_x h w data Hmode Hh Hw Hdata)
    as (padded & -> & Hpl & Hpr).
  cbn [rbind ok].
  apply rect_cast with (h' := pad_y + h + pad_y) (w' := pad_x + w + pad_x) in Hfc;
    [| lia | lia].
  destruct (@for_range_inv (list (matrix F))
              (fun _ res => length res = d /\ Forall (rect h w) res)
              (fun i res =>
                 rbind (paganin_image dt fc ratio increment (Z.of_nat pad_y) (Z.of_nat pad_x)
                          h w (nth i padded []))
                   (fun proj => assign_image h w i (mmap (cast float32) proj) res))
              d 0 (repeat (full h w fzero) d)) as (res & -> & Hres).
  { split; [apply repeat_length | apply Forall_repeat, rect_full]. }
  { intros i res Hi [Hrl Hrr].
    destruct (@paganin_image_rect dt fc ratio increment pad_y pad_x h w (nth i padded []))
      as (m & -> & Hm); try assumption.
    - apply Forall_nth_default; [assumption | lia].
    - cbn [rbind ok]. rewrite assign_image_rect by (try apply rect_mmap; try assumption; lia).
      eexists. split; [reflexivity |]. split.
      + rewrite length_splice; [exact Hrl | lia | cbn [Datatypes.length]; lia].
      + apply Forall_splice; [| assumption]. constructor; [| constructor].
        now apply rect_mmap. }
  cbn [rbind ok]. eexists. split; [reflexivity | exact Hres].
Qed.
End PaganinShape.

(* ------------------------------------------------------------------ *)
(** ** Shapes through the in-place updates of the working buffer *)

Lemma slice_bound_le (len : nat) (i : Z) : slice_bound len i <= len.
Proof. unfold slice_bound. destruct (Z.ltb_spec i 0); lia. Qed.

Lemma slice_range_bounds (len : nat) (start stop : option Z) :
  fst (slice_range len start stop) <= snd (slice_range len start stop) <= len.
Proof.
  unfold slice_range. cbn [fst snd].
  destruct start as [s |]; destruct stop as [e |];
    try pose proof (slice_bound_le len s); try pose proof (slice_bound_le len e); lia.
Qed.

Lemma slice_range_inside (lo n len : nat) :
  lo + n <= len ->
  slice_range len (Some (Z.of_nat lo)) (Some (Z.of_nat n + Z.of_nat lo)%Z) = (lo, lo + n).
Proof.
  intros Hle. unfold slice_range, slice_bound.
  destruct (Z.ltb_spec (Z.of_nat lo) 0); [lia |].
  destruct (Z.ltb_spec (Z.of_nat n + Z.of_nat lo) 0); [lia |].
  f_equal; lia.
Qed.

Lemma py_index_ok (len : nat) (i : Z) :
  (- Z.of_nat len <= i < Z.of_nat len)%Z ->
  exists k, py_index len i = ok k /\ k < len
            /\ Z.of_nat k = (if (i <? 0)%Z then i + Z.of_nat len else i)%Z.
Proof.
  intros Hi. unfold py_index.
  destruct (Z.ltb_spec i 0).
  - destruct (Z.leb_spec 0 (i + Z.of_nat len)); [| lia].
    destruct (Z.ltb_spec (i + Z.of_nat len) (Z.of_nat len)); [| lia].
    cbn [andb]. eexists. split; [reflexivity |]. lia.
  - destruct (Z.leb_spec 0 i); [| lia].
    destruct (Z.ltb_spec i (Z.of_nat len)); [| lia].
    cbn [andb]. eexists. split; [reflexivity |]. lia.
Qed.

Lemma assign_block_rect {A : Type} (px py dy dz H W : nat) (v m : matrix A) :
  rect H W m -> rect dy dz v -> 1 <= H -> px + dy <= H -> py + dz <= W ->
  exists m', assign_block (Z.of_nat px) (Z.of_nat dy + Z.of_nat px)
               (Z.of_nat py) (Z.of_nat dz + Z.of_nat py) v m = ok m'
             /\ rect H W m'.
Proof.
  intros Hm Hv H1 Hr Hc. unfold assign_block.
  rewrite (rect_nrows Hm), (rect_ncols Hm H1).
  rewrite !slice_range_inside by lia.
  replace (px + dy - px) with dy by lia. replace (py + dz - py) with dz by lia.
  rewrite (broadcast_to_rect Hv). cbn [rbind ok].
  eexists. split; [reflexivity |].
  destruct Hm as [Hlen Hrows]. destruct Hv as [Hvl Hvr].
  split.
  - rewrite length_splice; [exact Hlen | lia |].
    rewrite length_map2, length_firstn, length_skipn. lia.
  - apply Forall_splice; [| exact Hrows].
    unfold map2. apply Forall_map. apply Forall_forall. intros [new old] Hin.
    cbn [fst snd].
    pose proof (in_combine_l _ _ _ _ Hin) as Hl.
    pose proof (in_combine_r _ _ _ _ Hin) as Hrr.
    assert (Hwin : Forall (fun r => length r = W) (firstn dy (skipn px m)))
      by (apply Forall_firstn, Forall_skipn; exact Hrows).
    rewrite Forall_forall in Hvr, Hwin.
    assert (Hold : length old = W) by (now apply Hwin).
    rewrite length_splice; [exact Hold | lia |].
    rewrite (Hvr _ Hl). lia.
Qed.

Lemma assign_rows_rect {A : Type} (start stop : option Z) (i : Z) (H W : nat) (m : matrix A) :
  rect H W m -> (- Z.of_nat H <= i < Z.of_nat H)%Z ->
  exists m', assign_rows start stop i m = ok m' /\ rect H W m'.
Proof.
  intros Hm Hi. unfold assign_rows. rewrite (rect_nrows Hm).
  destruct (@py_index_ok H i Hi) as (k & -> & Hk & _). cbn [rbind ok].
  pose proof (slice_range_bounds H start stop) as Hb.
  destruct (slice_range H start stop) as [lo hi]. cbn [fst snd] in Hb.
  assert (H1 : 1 <= H) by lia.
  rewrite (rect_ncols Hm H1).
  rewrite stretch_same by (eapply rect_nth; eassumption).
  cbn [rbind ok]. eexists. split; [reflexivity |].
  destruct Hm as [Hlen Hrows]. split.
  - rewrite length_splice; [exact Hlen | lia | apply repeat_length].
  - apply Forall_splice; [| exact Hrows].
    apply Forall_repeat. apply Forall_nth_default; [exact Hrows | lia].
Qed.

Lemma assign_cols_rect {A : Type} (start stop : option Z) (j : Z) (d : A) (H W : nat)
  (m : matrix A) :
  rect H W m -> 1 <= H -> (- Z.of_nat W <= j < Z.of_nat W)%Z ->
  exists m', assign_cols start stop j d m = ok m' /\ rect H W m'.
Proof.
  intros Hm H1 Hj. unfold assign_cols. rewrite (rect_ncols Hm H1).
  destruct (@py_index_ok W j Hj) as (k & -> & Hk & _). cbn [rbind ok].
  pose proof (slice_range_bounds W start stop) as Hb.
  destruct (slice_range W start stop) as [lo hi]. cbn [fst snd] in Hb.
  eexists. split; [reflexivity |].
  eapply rect_map_rows; [| exact Hm].
  intros r Hr. rewrite length_splice; [exact Hr | lia | apply repeat_length].
Qed.

(* ------------------------------------------------------------------ *)
(** ** The heap *)

Section HeapFacts.
Context {F : Type}.

Lemma read_write_same (hp : heap (F := F)) (a : ndarray) (v : list (matrix F)) :
  base a < length hp -> read (write hp a v) a = v.
Proof.
  intros Hb. unfold read, write, splice.
  rewrite app_nth2 by (rewrite length_firstn; lia).
  rewrite length_firstn, Nat.min_l by lia. now rewrite Nat.sub_diag.
Qed.

Lemma length_write (hp : heap (F := F)) (a : ndarray) (v : list (matrix F)) :
  base a < length hp -> length (write hp a v) = length hp.
Proof.
  intros Hb. unfold write. apply length_splice; [lia | cbn [Datatypes.length]; lia].
Qed.

Lemma nth_write_other (hp : heap (F := F)) (a : ndarray) (v : list (matrix F)) (b : nat) :
  base a < length hp -> b <> base a -> nth b (write hp a v) [] = nth b hp [].
Proof.
  intros Hb Hne. unfold write, splice.
  destruct (Nat.lt_ge_cases b (base a)) as [Hlt | Hge].
  - rewrite app_nth1 by (rewrite length_firstn; lia).
    rewrite nth_firstn. destruct (Nat.ltb_spec b (base a)); [reflexivity | lia].
  - rewrite app_nth2 by (rewrite length_firstn; lia).
    rewrite length_firstn, Nat.min_l by lia.
    destruct (b - base a) as [| k] eqn:Ek; [lia |].
    cbn [app nth]. rewrite nth_skipn. f_equal. lia.
Qed.

Lemma read_alloc_old (hp : heap (F := F)) (a : ndarray) (v : list (matrix F)) :
  base a < length hp -> read (hp ++ [v]) a = read hp a.
Proof. intros Hb. unfold read. now rewrite app_nth1. Qed.

Lemma read_alloc_new (hp : heap (F := F)) (dt : dtype) (shp : list nat) (v : list (matrix F)) :
  read (snd (alloc hp dt shp v)) (fst (alloc hp dt shp v)) = v.
Proof.
  unfold read, alloc. cbn [fst snd base].
  rewrite app_nth2 by lia. now rewrite Nat.sub_diag.
Qed.
End HeapFacts.

(** The stack a well-formed array of rank 2 or 3 is for the filters. *)
Lemma check_stack_wf {F : Type} (hp : heap (F := F)) (a : ndarray) :
  wf_array hp a -> ndim a = 2 \/ ndim a = 3 ->
  exists a' d h w,
    check_stack a = ok a' /\ shape a' = [d; h; w]
    /\ base a' = base a /\ dtype_of a' = dtype_of a
    /\ shape a' = (if ndim a =? 2 then 1 :: shape a else shape a)
    /\ base a < length hp
    /\ length (read hp a') = d /\ Forall (rect h w) (read hp a').
Proof.
  intros [Hb Hwf] [H2 | H3].
  - rewrite (check_stack_rank2 _ H2). unfold ndim in H2.
    destruct (shape a) as [| h [| w [| ? ?]]] eqn:Hs; try discriminate.
    destruct Hwf as (img & Hread & Himg).
    exists (expand_dims0 a), 1, h, w. cbn [expand_dims0 shape base dtype_of].
    rewrite Hs. unfold ndim. rewrite Hs. cbn [Datatypes.length Nat.eqb].
    repeat split; try reflexivity; try assumption.
    + unfold read in *. cbn [base expand_dims0]. now rewrite Hread.
    + unfold read in *. cbn [base expand_dims0]. rewrite Hread. now constructor.
  - rewrite (check_stack_rank3 _ H3). unfold ndim in H3.
    destruct (shape a) as [| d [| h [| w [| ? ?]]]] eqn:Hs; try discriminate.
    destruct Hwf as (Hlen & Hrect).
    exists a, d, h, w. unfold ndim. rewrite Hs. cbn [Datatypes.length Nat.eqb].
    repeat split; try reflexivity; try assumption.
Qed.

Section RetrieveShape.
Context {F : Type} `{Numeric F}.

Lemma matrix_max_ok (h w : nat) (m : matrix F) :
  rect h w m -> 1 <= h -> 1 <= w -> exists mx, matrix_max m = ok mx.
Proof.
  intros [Hl Hr] Hh Hw. unfold matrix_max.
  destruct m as [| r m]; [simpl in Hl; lia |].
  inversion Hr as [| ? ? Hrl _]; subst.
  destruct r as [| x r]; [simpl in Hw; lia |].
  cbn [concat app]. eauto.
Qed.

Lemma reciprocal_coord_ok (pixel_size : F) (n : nat) :
  is_zero (fmul (of_Z (Z.of_nat n - 1)) pixel_size) = false ->
  exists rc, _reciprocal_coord pixel_size (Z.of_nat n) = ok rc /\ length rc = n.
Proof.
  intros Hz. unfold _reciprocal_coord. rewrite Hz.
  eexists. split; [reflexivity |]. now rewrite !length_map, length_seq, Nat2Z.id.
Qed.

Lemma reciprocal_grid_rect (pixel_size : F) (nx ny : nat) :
  is_zero (fmul (of_Z (Z.of_nat nx - 1)) pixel_size) = false ->
  is_zero (fmul (of_Z (Z.of_nat ny - 1)) pixel_size) = false ->
  exists grid, _reciprocal_grid pixel_size (Z.of_nat nx) (Z.of_nat ny) = ok grid
               /\ rect nx ny grid.
Proof.
  intros Hx Hy. unfold _reciprocal_grid.
  destruct (reciprocal_coord_ok pixel_size nx Hx) as (rcx & -> & Lx).
  destruct (reciprocal_coord_ok pixel_size ny Hy) as (rcy & -> & Ly).
  cbn [rbind ok]. eexists. split; [reflexivity |].
  match goal with
  | |- rect _ _ (map (fun xi => map (fun yj => @?f xi yj) ?yl) ?xl) =>
      pose proof (rect_map_map f xl yl) as Hr
  end.
  rewrite !length_map, Lx, Ly in Hr. exact Hr.
Qed.

(** The loop body of [_retrieve_phase] keeps the shape of the working
    buffer and produces an image of the shape of the input image (of the
    buffer when nothing is cropped). *)
Lemma retrieve_image_rect (nf : matrix F) (px py dy dz : nat) (pad : bool)
  (img prj : matrix F) :
  rect (dy + 2 * px) (dz + 2 * py) nf -> rect (dy + 2 * px) (dz + 2 * py) prj ->
  rect dy dz img -> 1 <= dy -> 1 <= dz ->
  exists prj' proj,
    retrieve_image nf (Z.of_nat px) (Z.of_nat py) dy dz pad img prj = ok (prj', proj)
    /\ rect (dy + 2 * px) (dz + 2 * py) prj'
    /\ rect (if pad then dy else dy + 2 * px) (if pad then dz else dz + 2 * py) proj.
Proof.
  intros Hnf Hprj Himg Hdy Hdz. unfold retrieve_image.
  destruct (@assign_block_rect F px py dy dz (dy + 2 * px) (dz + 2 * py)
              (mmap (cast float32) img) prj) as (p1 & -> & Hp1);
    [assumption | now apply rect_mmap | lia | lia | lia |].
  cbn [rbind ok].
  destruct (@assign_rows_rect F None (Some (Z.of_nat px)) (Z.of_nat px)
              (dy + 2 * px) (dz + 2 * py) p1) as (p2 & -> & Hp2); [assumption | lia |].
  cbn [rbind ok].
  destruct (@assign_rows_rect F (Some (- Z.of_nat px)%Z) None (- Z.of_nat px - 1)%Z
              (dy + 2 * px) (dz + 2 * py) p2) as (p3 & -> & Hp3); [assumption | lia |].
  cbn [rbind ok].
  destruct (@assign_cols_rect F None (Some (Z.of_nat py)) (Z.of_nat py) fzero
              (dy + 2 * px) (dz + 2 * py) p3) as (p4 & -> & Hp4); [assumption | lia | lia |].
  cbn [rbind ok].
  destruct (@assign_cols_rect F (Some (- Z.of_nat py)%Z) None (- Z.of_nat py - 1)%Z fzero
              (dy + 2 * px) (dz + 2 * py) p4) as (p5 & -> & Hp5); [assumption | lia | lia |].
  cbn [rbind ok].
  destruct (@fft2_rect _ _ _ (dy + 2 * px) (dz + 2 * py) (mmap of_real p5))
    as (fproj & -> & Hf); [now apply rect_mmap | lia | lia |].
  cbn [rbind ok].
  rewrite (@elementwise_inplace_rect _ _ cscale (dy + 2 * px) (dz + 2 * py));
    [| exact Hf | exact Hnf | lia].
  cbn [rbind ok].
  destruct (@ifft2_rect _ _ _ (dy + 2 * px) (dz + 2 * py) (map2 (map2 cscale) fproj nf))
    as (inv & -> & Hi); [now apply rect_map2 | lia | lia |].
  cbn [rbind ok]. eexists _, _. split; [reflexivity |]. split; [exact Hp5 |].
  destruct pad.
  - rewrite (Z.add_comm (Z.of_nat dy)), (Z.add_comm (Z.of_nat dz)).
    eapply rect_crop; [apply rect_mmap; exact Hi | lia | lia].
  - now apply rect_mmap.
Qed.
End RetrieveShape.

Section FilterReturns.
Context {F : Type} `{Numeric F}.

(** The loop of [_retrieve_phase]: every image of the buffer of [tomo] is
    replaced, and no other buffer is written. *)
Lemma retrieve_loop_returns (tomo : ndarray) (phase_filter : matrix F) (px py : nat)
  (prj : matrix F) (pad : bool) (hp : heap) (d dy dz : nat) :
  shape tomo = [d; dy; dz] -> base tomo < length hp ->
  length (read hp tomo) = d -> Forall (rect dy dz) (read hp tomo) ->
  1 <= dy -> 1 <= dz ->
  rect (dy + 2 * px) (dz + 2 * py) phase_filter -> rect (dy + 2 * px) (dz + 2 * py) prj ->
  (pad = false -> px = 0 /\ py = 0) ->
  exists hp',
    _retrieve_phase tomo phase_filter (Z.of_nat px) (Z.of_nat py) prj pad hp = ok (tomo, hp')
    /\ length hp' = length hp
    /\ (forall b, b <> base tomo -> nth b hp' [] = nth b hp [])
    /\ length (read hp' tomo) = d /\ Forall (rect dy dz) (read hp' tomo).
Proof.
  intros Hs Hb Hlen Hrect Hdy Hdz Hpf Hprj Hnopad.
  unfold _retrieve_phase. rewrite Hs.
  destruct (matrix_max_ok Hpf ltac:(lia) ltac:(lia)) as (mx & ->). cbn [rbind ok].
  set (nf := mmap (fun x => fdiv x mx) phase_filter).
  assert (Hnf : rect (dy + 2 * px) (dz + 2 * py) nf) by (now apply rect_mmap).
  match goal with
  | |- context [for_range ?body 0 d (prj, hp)] =>
      destruct (@for_range_inv (matrix F * heap)
                  (fun _ st =>
                     rect (dy + 2 * px) (dz + 2 * py) (fst st)
                     /\ length (snd st) = length hp
                     /\ (forall b, b <> base tomo -> nth b (snd st) [] = nth b hp [])
                     /\ length (read (snd st) tomo) = d
                     /\ Forall (rect dy dz) (read (snd st) tomo))
                  body d 0 (prj, hp)) as ([prj' hp'] & -> & Hfin)
  end.
  { cbn [fst snd]. auto. }
  { intros i [prj0 hp0] Hi (Hp0 & Hl0 & Hframe0 & Hd0 & Hr0). cbn [fst snd] in *.
    destruct (@retrieve_image_rect _ _ _ nf px py dy dz pad (nth i (read hp0 tomo) []) prj0)
      as (prj1 & proj & -> & Hp1 & Hproj); try assumption.
    { apply Forall_nth_default; [assumption | lia]. }
    cbn [rbind ok].
    assert (Hproj' : rect dy dz proj).
    { destruct pad; [exact Hproj |].
      destruct (Hnopad eq_refl) as [-> ->].
      eapply rect_cast; [exact Hproj | lia | lia]. }
    rewrite assign_image_rect by (try apply rect_mmap; try assumption; lia).
    cbn [rbind ok]. eexists. split; [reflexivity |]. cbn [fst snd].
    assert (Hb0 : base tomo < length hp0) by lia.
    split; [exact Hp1 |]. split; [rewrite length_write; assumption |].
    split.
    { intros b Hne. rewrite nth_write_other by assumption. now apply Hframe0. }
    rewrite read_write_same by assumption. split.
    - rewrite length_splice; [exact Hd0 | lia | cbn [Datatypes.length]; lia].
    - apply Forall_splice; [| assumption]. constructor; [| constructor].
      now apply rect_mmap. }
  cbn [rbind ok]. cbn [fst snd] in Hfin.
  destruct Hfin as (_ & Hl & Hframe & Hd & Hr). eauto 10.
Qed.

(** [fresnel_filter] on a stack of rank 3 whose buffer holds non-empty images. *)
Lemma fresnel_filter_returns (a : ndarray) (pattern : string) (ratio : F) (apply_log : bool)
  (hp : heap) (d h w : nat) :
  shape a = [d; h; w] -> length (read hp a) = d -> Forall (rect h w) (read hp a) ->
  1 <= h -> 1 <= w ->
  (String.eqb pattern "PROJECTION" = true -> 10 < h) ->
  (0 <= ftrunc (fmul (lit (1 # 10)) (of_Z (Z.of_nat w))))%Z ->
  exists buf,
    fresnel_filter a pattern ratio apply_log hp
    = ok ({| base := length hp; dtype_of := float32; shape := [d; h; w] |}, hp ++ [buf])
    /\ length buf = d /\ Forall (rect h w) buf.
Proof.
  intros Hs Hlen Hrect Hh Hw Hproj Hpad. unfold fresnel_filter.
  rewrite check_stack_rank3 by (unfold ndim; now rewrite Hs). cbn [rbind ok]. rewrite Hs.
  destruct (@fresnel_stack_returns _ _ _ d h w (read hp a) pattern ratio apply_log)
    as (res & -> & Hl & Hr); try assumption.
  cbn [rbind ok]. unfold alloc. eexists. split; [reflexivity |].
  split; [now rewrite length_map | now apply Forall_rect_map].
Qed.

(** [paganin_filter] on a stack of rank 3 whose buffer holds non-empty images. *)
Lemma paganin_filter_returns (a : ndarray) (ratio energy distance resolution : F)
  (pad_y pad_x : nat) (pad_method : pad_mode F) (increment : F) (hp : heap) (d h w : nat) :
  shape a = [d; h; w] -> length (read hp a) = d -> Forall (rect h w) (read hp a) ->
  1 <= h -> 1 <= w ->
  existsb (String.eqb (mode_name pad_method)) pad_modes = true ->
  is_zero (fmul energy (lit 1000)) = false ->
  is_zero (fmul (of_Z (Z.of_nat (w + 2 * pad_x))) (fmul resolution (lit (1 # 1000000))))
  = false ->
  is_zero (fmul (of_Z (Z.of_nat (h + 2 * pad_y))) (fmul resolution (lit (1 # 1000000))))
  = false ->
  exists buf,
    paganin_filter a ratio energy distance resolution (Z.of_nat pad_y) (Z.of_nat pad_x)
      pad_method increment hp
    = ok ({| base := length hp; dtype_of := float32; shape := [d; h; w] |}, hp ++ [buf])
    /\ length buf = d /\ Forall (rect h w) buf.
Proof.
  intros Hs Hlen Hrect Hh Hw Hmode He Hzw Hzh. unfold paganin_filter.
  rewrite check_stack_rank3 by (unfold ndim; now rewrite Hs). cbn [rbind ok]. rewrite Hs.
  destruct (@paganin_stack_returns _ _ _ (dtype_of a) d h w (read hp a) ratio energy distance
              resolution pad_y pad_x pad_method increment) as (res & -> & Hl & Hr);
    try assumption.
  cbn [rbind ok]. unfold alloc. eexists. split; [reflexivity |]. now split.
Qed.

(** [retrieve_phase] on a stack of rank 3, given the pad amounts
    [_calc_pad] returns for it. *)
Lemma retrieve_phase_returns (tomo : ndarray) (pixel_size dist energy alpha : F) (pad : bool)
  (hp : heap) (d dy dz py pz : nat) (val : F) :
  shape tomo = [d; dy; dz] -> base tomo < length hp ->
  length (read hp tomo) = d -> Forall (rect dy dz) (read hp tomo) ->
  1 <= dy -> 1 <= dz ->
  _calc_pad dy dz (read hp tomo) pixel_size dist energy pad
  = ok (Z.of_nat py, Z.of_nat pz, val) ->
  (pad = false -> py = 0 /\ pz = 0) ->
  is_zero (fmul (of_Z (Z.of_nat (dy + 2 * py) - 1)) pixel_size) = false ->
  is_zero (fmul (of_Z (Z.of_nat (dz + 2 * pz) - 1)) pixel_size) = false ->
  exists hp',
    retrieve_phase tomo pixel_size dist energy alpha pad hp = ok (tomo, hp')
    /\ length hp' = length hp
    /\ (forall b, b <> base tomo -> nth b hp' [] = nth b hp [])
    /\ length (read hp' tomo) = d /\ Forall (rect dy dz) (read hp' tomo).
Proof.
  intros Hs Hb Hlen Hrect Hdy Hdz Hpad Hnopad Hzy Hzz. unfold retrieve_phase.
  rewrite check_stack_rank3 by (unfold ndim; now rewrite Hs). cbn [rbind ok]. rewrite Hs.
  rewrite Hpad. cbn [rbind ok].
  replace (Z.of_nat dy + 2 * Z.of_nat py)%Z with (Z.of_nat (dy + 2 * py)) by lia.
  replace (Z.of_nat dz + 2 * Z.of_nat pz)%Z with (Z.of_nat (dz + 2 * pz)) by lia.
  destruct (@reciprocal_grid_rect _ _ _ pixel_size (dy + 2 * py) (dz + 2 * pz) Hzy Hzz)
    as (w2 & -> & Hw2).
  cbn [rbind ok].
  assert (Hwl : exists wl, _wavelength energy = ok wl).
  { unfold _calc_pad in Hpad. destruct (_wavelength energy) as [e | wl]; [discriminate |].
    eauto. }
  destruct Hwl as (wl & Hwl). unfold _paganin_filter_factor. rewrite Hwl. cbn [rbind ok].
  destruct (Z.ltb_spec (Z.of_nat (dy + 2 * py)) 0); [lia |].
  destruct (Z.ltb_spec (Z.of_nat (dz + 2 * pz)) 0); [lia |].
  cbn [orb]. rewrite !Nat2Z.id.
  apply retrieve_loop_returns with (d := d); try assumption.
  - apply rect_fftshift. now apply rect_mmap.
  - apply rect_full.
Qed.
End FilterReturns.

(* ------------------------------------------------------------------ *)
(** ** What a returning call has done to the heap *)

Lemma check_stack_inv (a a' : ndarray) :
  check_stack a = ok a' ->
  base a' = base a /\ dtype_of a' = dtype_of a
  /\ shape a' = (if ndim a =? 2 then 1 :: shape a else shape a).
Proof.
  unfold check_stack. destruct (ndim a =? 2).
  - destruct (negb _); [discriminate |]. intros [= <-]. auto.
  - destruct (negb _); [discriminate |]. intros [= <-]. auto.
Qed.

Section Frames.
Context {F : Type} `{Numeric F}.

Lemma fresnel_filter_inv (a : ndarray) (pattern : string) (ratio : F) (apply_log : bool)
  (hp hp' : heap) (res : ndarray) :
  fresnel_filter a pattern ratio apply_log hp = ok (res, hp') ->
  exists a' shp buf,
    check_stack a = ok a'
    /\ fresnel_stack (shape a') (read hp a') pattern ratio apply_log = ok (shp, buf)
    /\ res = {| base := length hp; dtype_of := float32; shape := shp |}
    /\ hp' = hp ++ [map (mmap (cast float32)) buf].
Proof.
  unfold fresnel_filter. intros Hrun.
  destruct (check_stack a) as [e | a']; [discriminate |]. cbn [rbind] in Hrun.
  destruct (fresnel_stack _ _ _ _ _) as [e | [shp buf]] eqn:Hst; [discriminate |].
  cbn [rbind] in Hrun. unfold alloc in Hrun. injection Hrun as <- <-.
  exists a', shp, buf. auto.
Qed.

Lemma paganin_filter_inv (a : ndarray) (ratio energy distance resolution : F)
  (pad_y pad_x : Z) (pad_method : pad_mode F) (increment : F) (hp hp' : heap)
  (res : ndarray) :
  paganin_filter a ratio energy distance resolution pad_y pad_x pad_method increment hp
  = ok (res, hp') ->
  exists a' shp buf,
    check_stack a = ok a'
    /\ paganin_stack (dtype_of a') (shape a') (read hp a') ratio energy distance resolution
         pad_y pad_x pad_method increment = ok (shp, buf)
    /\ res = {| base := length hp; dtype_of := float32; shape := shp |}
    /\ hp' = hp ++ [buf].
Proof.
  unfold paganin_filter. intros Hrun.
  destruct (check_stack a) as [e | a']; [discriminate |]. cbn [rbind] in Hrun.
  destruct (paganin_stack _ _ _ _ _ _ _ _ _ _ _) as [e | [shp buf]] eqn:Hst; [discriminate |].
  cbn [rbind] in Hrun. unfold alloc in Hrun. injection Hrun as <- <-.
  exists a', shp, buf. auto.
Qed.

Lemma retrieve_loop_inv (tomo : ndarray) (phase_filter : matrix F) (px py : Z)
  (prj : matrix F) (pad : bool) (hp hp' : heap) (res : ndarray) :
  base tomo < length hp ->
  _retrieve_phase tomo phase_filter px py prj pad hp = ok (res, hp') ->
  res = tomo /\ length hp' = length hp
  /\ (forall b, b <> base tomo -> nth b hp' [] = nth b hp []).
Proof.
  intros Hb. unfold _retrieve_phase.
  destruct (shape tomo) as [| d [| dy [| dz [| ? ?]]]]; try discriminate.
  destruct (matrix_max phase_filter) as [e | mx]; [discriminate |]. cbn [rbind].
  match goal with
  | |- context [for_range ?body 0 d (prj, hp)] =>
      destruct (for_range body 0 d (prj, hp)) as [e | [prj' hp1]] eqn:Hloop;
        [discriminate |];
      pose proof (@for_range_post (matrix F * heap)
                    (fun _ st =>
                       length (snd st) = length hp
                       /\ (forall b, b <> base tomo -> nth b (snd st) [] = nth b hp []))
                    body d 0 (prj, hp) (prj', hp1)) as Hpost
  end.
  cbn [rbind]. intros [= <- <-].
  destruct Hpost as [Hl Hf]; [cbn [snd]; auto | | exact Hloop | cbn [snd] in *; auto].
  intros i [prj0 hp0] [prj1 hp2] _ [Hl0 Hf0] Hbody. cbn [snd] in *.
  destruct (retrieve_image _ _ _ _ _ _ _ _) as [e | [prj2 proj]]; [discriminate |].
  cbn [rbind] in Hbody.
  destruct (assign_image _ _ _ _ _) as [e | stack']; [discriminate |].
  cbn [rbind] in Hbody. injection Hbody as <- <-.
  split.
  - rewrite length_write; lia.
  - intros b Hne. rewrite nth_write_other by (try assumption; lia). now apply Hf0.
Qed.

Lemma retrieve_phase_inv (a : ndarray) (pixel_size dist energy alpha : F) (pad : bool)
  (hp hp' : heap) (res : ndarray) :
  base a < length hp ->
  retrieve_phase a pixel_size dist energy alpha pad hp = ok (res, hp') ->
  check_stack a = ok res /\ length hp' = length hp
  /\ (forall b, b <> base a -> nth b hp' [] = nth b hp []).
Proof.
  intros Hb. unfold retrieve_phase.
  destruct (check_stack a) as [e | a'] eqn:Hc; [discriminate |]. cbn [rbind].
  destruct (@check_stack_inv a a' Hc) as (Hbase & _ & _).
  destruct (shape a') as [| d [| dy [| dz [| ? ?]]]]; try discriminate.
  destruct (_calc_pad _ _ _ _ _ _ _) as [e | [[py pz] val]]; [discriminate |]. cbn [rbind].
  destruct (_reciprocal_grid _ _ _) as [e | w2]; [discriminate |]. cbn [rbind].
  destruct (_paganin_filter_factor _ _ _ _) as [e | factor]; [discriminate |]. cbn [rbind].
  destruct (_ || _)%bool; [discriminate |].
  intros Hrun. apply retrieve_loop_inv in Hrun; [| lia].
  destruct Hrun as (-> & Hl & Hf). rewrite Hbase in Hf. auto.
Qed.
End Frames.

(** C3, as the code has it: [fresnel_filter] and [paganin_filter] return a
    single-precision array whatever the precision of the input;
    [retrieve_phase] returns its (promoted) input array, whose element type
    is the input's: single precision for a single-precision input, double
    precision for a double-precision one. *)
Theorem C3_output_dtype {F : Type} `{Numeric F} (a res : ndarray) (hp hp' : heap)
  (pattern : string) (f_ratio : F) (apply_log : bool)
  (p_ratio p_energy distance resolution : F) (pad_y pad_x : Z) (pad_method : pad_mode F)
  (increment pixel_size dist energy alpha : F) (pad : bool) :
  (fresnel_filter a pattern f_ratio apply_log hp = ok (res, hp') -> dtype_of res = float32)
  /\ (paganin_filter a p_ratio p_energy distance resolution pad_y pad_x pad_method
        increment hp = ok (res, hp') -> dtype_of res = float32)
  /\ (base a < length hp ->
      retrieve_phase a pixel_size dist energy alpha pad hp = ok (res, hp') ->
      dtype_of res = dtype_of a).
Proof.
  split; [| split].
  - intros Hrun. apply fresnel_filter_inv in Hrun as (a' & shp & buf & _ & _ & -> & _).
    reflexivity.
  - intros Hrun. apply paganin_filter_inv in Hrun as (a' & shp & buf & _ & _ & -> & _).
    reflexivity.
  - intros Hb Hrun. apply retrieve_phase_inv in Hrun as (Hc & _); [| exact Hb].
    now apply check_stack_inv in Hc.
Qed.

(** C4, as the code has it: [fresnel_filter] and [paganin_filter] write to
    no existing buffer (the result is a new array), so the input stack is
    unchanged and a second call on the same input returns the same shape,
    dtype and contents; [retrieve_phase] writes its result over the buffer
    of its input, returns that array, and writes to no other buffer. *)
Theorem C4_heap_effects {F : Type} `{Numeric F} (a res : ndarray) (hp hp' : heap)
  (pattern : string) (f_ratio : F) (apply_log : bool)
  (p_ratio p_energy distance resolution : F) (pad_y pad_x : Z) (pad_method : pad_mode F)
  (increment pixel_size dist energy alpha : F) (pad : bool) :
  base a < length hp ->
  (fresnel_filter a pattern f_ratio apply_log hp = ok (res, hp') ->
     read hp' a = read hp a /\ base res = length hp
     /\ (forall b, b < length hp -> nth b hp' [] = nth b hp [])
     /\ exists res2 hp2,
          fresnel_filter a pattern f_ratio apply_log hp' = ok (res2, hp2)
          /\ shape res2 = shape res /\ dtype_of res2 = dtype_of res
          /\ read hp2 res2 = read hp' res)
  /\ (paganin_filter a p_ratio p_energy distance resolution pad_y pad_x pad_method
        increment hp = ok (res, hp') ->
      read hp' a = read hp a /\ base res = length hp
      /\ (forall b, b < length hp -> nth b hp' [] = nth b hp [])
      /\ exists res2 hp2,
           paganin_filter a p_ratio p_energy distance resolution pad_y pad_x pad_method
             increment hp' = ok (res2, hp2)
           /\ shape res2 = shape res /\ dtype_of res2 = dtype_of res
           /\ read hp2 res2 = read hp' res)
  /\ (retrieve_phase a pixel_size dist energy alpha pad hp = ok (res, hp') ->
      base res = base a /\ length hp' = length hp
      /\ (forall b, b <> base a -> nth b hp' [] = nth b hp [])).
Proof.
  intros Hb. split; [| split].
  - intros Hrun. apply fresnel_filter_inv in Hrun as (a' & shp & buf & Hc & Hst & -> & ->).
    destruct (@check_stack_inv a a' Hc) as (Hbase & _ & _).
    assert (Hread : read (hp ++ [map (mmap (cast float32)) buf]) a' = read hp a').
    { apply read_alloc_old. lia. }
    repeat split.
    + now apply read_alloc_old.
    + intros b Hlt. now rewrite app_nth1.
    + unfold fresnel_filter. rewrite Hc. cbn [rbind ok]. rewrite Hread, Hst. cbn [rbind ok].
      eexists _, _. split; [reflexivity |]. repeat split.
      pose proof (read_alloc_new (hp ++ [map (mmap (cast float32)) buf]) float32 shp
                    (map (mmap (cast float32)) buf)) as R2.
      pose proof (read_alloc_new hp float32 shp (map (mmap (cast float32)) buf)) as R1.
      unfold alloc in R1, R2. cbn [fst snd] in R1, R2. unfold alloc. now rewrite R1, R2.
  - intros Hrun. apply paganin_filter_inv in Hrun as (a' & shp & buf & Hc & Hst & -> & ->).
    destruct (@check_stack_inv a a' Hc) as (Hbase & _ & _).
    assert (Hread : read (hp ++ [buf]) a' = read hp a').
    { apply read_alloc_old. lia. }
    repeat split.
    + now apply read_alloc_old.
    + intros b Hlt. now rewrite app_nth1.
    + unfold paganin_filter. rewrite Hc. cbn [rbind ok]. rewrite Hread, Hst. cbn [rbind ok].
      eexists _, _. split; [reflexivity |]. repeat split.
      pose proof (read_alloc_new (hp ++ [buf]) float32 shp buf) as R2.
      pose proof (read_alloc_new hp float32 shp buf) as R1.
      unfold alloc in R1, R2. cbn [fst snd] in R1, R2. unfold alloc. now rewrite R1, R2.
  - intros Hrun. apply retrieve_phase_inv in Hrun as (Hc & Hl & Hf); [| exact Hb].
    destruct (@check_stack_inv a res Hc) as (Hbase & _ & _). auto.
Qed.

(* ------------------------------------------------------------------ *)
(** ** The three filters in exact arithmetic: when they return *)

Lemma check_stack_idem (a a' : ndarray) : check_stack a = ok a' -> check_stack a' = ok a'.
Proof.
  intros Hc. apply check_stack_rank3. revert Hc. unfold check_stack.
  destruct (ndim a =? 2).
  - destruct (Nat.eqb_spec (ndim (expand_dims0 a)) 3) as [E | _]; [| discriminate].
    now intros [= <-].
  - destruct (Nat.eqb_spec (ndim a) 3) as [E | _]; [| discriminate].
    now intros [= <-].
Qed.

Lemma truncZ_nonneg_arg (x : R) : (0 <= x)%R -> (0 <= truncZ x)%Z.
Proof.
  intros Hx. unfold truncZ. destruct (Rle_dec 0 x) as [_ | Hn]; [| contradiction].
  unfold floorZ. destruct (archimed x) as [Hup _].
  assert (0 < up x)%Z by (apply lt_IZR; lra). lia.
Qed.

Lemma fresnel_pad_width_nonneg (w : nat) :
  (0 <= ftrunc (fmul (lit (1 # 10)) (of_Z (Z.of_nat w))))%Z.
Proof.
  cbn [ftrunc fmul lit of_Z numeric]. apply truncZ_nonneg_arg.
  apply Rmult_le_pos.
  - left. apply Q2R_pos.
  - apply IZR_le. lia.
Qed.

Lemma Q2R_neq_0 (a b : positive) : Q2R (Zpos a # b) <> 0%R.
Proof. pose proof (Q2R_pos a b). lra. Qed.

Lemma paganin_energy_nonzero (energy : R) :
  energy <> 0%R -> is_zero (fmul energy (lit 1000)) = false.
Proof.
  intros He. apply is_zero_false. cbn [fmul lit numeric].
  apply Rmult_integral_contrapositive_currified; [exact He | apply Q2R_neq_0].
Qed.

Lemma paganin_step_nonzero (n : nat) (resolution : R) :
  1 <= n -> resolution <> 0%R ->
  is_zero (fmul (of_Z (Z.of_nat n)) (fmul resolution (lit (1 # 1000000)))) = false.
Proof.
  intros Hn Hr. apply is_zero_false. cbn [fmul lit of_Z numeric].
  apply Rmult_integral_contrapositive_currified.
  - apply not_0_IZR. lia.
  - apply Rmult_integral_contrapositive_currified; [exact Hr | apply Q2R_neq_0].
Qed.

Lemma reciprocal_step_nonzero (n : nat) (pixel_size : R) :
  2 <= n -> pixel_size <> 0%R ->
  is_zero (fmul (of_Z (Z.of_nat n - 1)) pixel_size) = false.
Proof.
  intros Hn Hp. apply is_zero_false. cbn [fmul of_Z numeric].
  apply Rmult_integral_contrapositive_currified; [| exact Hp].
  apply not_0_IZR. lia.
Qed.

(** The pad amounts of [_calc_pad] for admissible parameters. *)
Lemma calc_pad_exact (dy dz : nat) (tomo : list (matrix R)) (pixel_size dist energy : R)
  (pad : bool) :
  1 <= dy -> 1 <= dz -> pixel_size <> 0%R ->
  (if pad then (0 < energy)%R /\ (0 <= dist)%R else energy <> 0%R) ->
  exists py pz val,
    _calc_pad dy dz tomo pixel_size dist energy pad = ok (Z.of_nat py, Z.of_nat pz, val)
    /\ (pad = false -> py = 0 /\ pz = 0).
Proof.
  intros Hdy Hdz Hps Hpar. unfold _calc_pad. destruct pad.
  - destruct Hpar as [He Hd].
    rewrite wavelength_exact by lra. cbn [rbind ok].
    unfold _calc_pad_val. destruct (Nat.eqb_spec dz 0) as [E | _]; [lia |]. cbn [rbind ok].
    pose proof (wavelength_pos He) as Hw.
    assert (Hwd : (0 <= 2 * PI * PLANCK_CONSTANT * SPEED_OF_LIGHT / energy * dist)%R)
      by (apply Rmult_le_pos; lra).
    destruct (calc_pad_width_exact Hdy Hps Hwd) as (-> & Hpy & Hley).
    destruct (calc_pad_width_exact Hdz Hps Hwd) as (-> & Hpz & Hlez).
    cbn [rbind ok].
    match goal with
    | |- exists py pz val, ok (?a, ?b, ?v) = _ /\ _ =>
        exists (Z.to_nat a), (Z.to_nat b), v
    end.
    split; [| discriminate].
    rewrite !Z2Nat.id; [reflexivity | |]; apply Z.div_pos; lia.
  - rewrite wavelength_exact by exact Hpar. cbn [rbind ok].
    exists 0, 0, (of_Z 0). split; [reflexivity | auto].
Qed.

Section ExactReturns.
Variables (a : ndarray) (hp : heap (F := R)) (d h w : nat).
Hypothesis Hwf : wf_array hp a.
Hypothesis Hshape : (if ndim a =? 2 then 1 :: shape a else shape a) = [d; h; w].

Lemma promoted_stack :
  exists a',
    check_stack a = ok a' /\ shape a' = [d; h; w] /\ base a' = base a
    /\ dtype_of a' = dtype_of a /\ base a < length hp
    /\ length (read hp a') = d /\ Forall (rect h w) (read hp a').
Proof.
  assert (Hn : ndim a = 2 \/ ndim a = 3).
  { destruct (Nat.eqb_spec (ndim a) 2) as [E | _]; [now left | right].
    unfold ndim. now rewrite Hshape. }
  destruct (check_stack_wf Hwf Hn) as (a' & d' & h' & w' & Hc & Hs & Hb & Hdt & Hp & Hlt & Hl & Hr).
  rewrite Hshape in Hp. rewrite Hp in Hs. injection Hs as <- <- <-.
  exists a'. repeat split; assumption.
Qed.

Lemma fresnel_returns_exact (pattern : string) (ratio : R) (apply_log : bool) :
  1 <= h -> 1 <= w -> (String.eqb pattern "PROJECTION" = true -> 10 < h) ->
  exists res hp',
    fresnel_filter a pattern ratio apply_log hp = ok (res, hp')
    /\ shape res = [d; h; w] /\ dtype_of res = float32 /\ wf_array hp' res.
Proof.
  intros Hh Hw Hproj.
  destruct promoted_stack as (a' & Hc & Hs & Hb & Hdt & Hlt & Hl & Hr).
  destruct (@fresnel_filter_returns R _ _ a' pattern ratio apply_log hp d h w)
    as (buf & Hrun & Hbl & Hbr); try assumption.
  { apply fresnel_pad_width_nonneg. }
  unfold fresnel_filter in *. rewrite Hc. rewrite (check_stack_idem _ Hc) in Hrun.
  rewrite Hrun. eexists _, _. split; [reflexivity |].
  repeat split; cbn [shape base dtype_of].
  - rewrite length_app. simpl. lia.
  - unfold read. cbn [base]. rewrite app_nth2, Nat.sub_diag by lia. exact Hbl.
  - unfold read. cbn [base]. rewrite app_nth2, Nat.sub_diag by lia. exact Hbr.
Qed.

Lemma paganin_returns_exact (ratio energy distance resolution : R) (pad_y pad_x : Z)
  (pad_method : pad_mode R) (increment : R) :
  1 <= h -> 1 <= w -> (0 <= pad_y)%Z -> (0 <= pad_x)%Z ->
  existsb (String.eqb (mode_name pad_method)) pad_modes = true ->
  energy <> 0%R -> resolution <> 0%R ->
  exists res hp',
    paganin_filter a ratio energy distance resolution pad_y pad_x pad_method increment hp
    = ok (res, hp')
    /\ shape res = [d; h; w] /\ dtype_of res = float32 /\ wf_array hp' res.
Proof.
  intros Hh Hw Hpy Hpx Hmode He Hres.
  destruct promoted_stack as (a' & Hc & Hs & Hb & Hdt & Hlt & Hl & Hr).
  destruct (@paganin_filter_returns R _ _ a' ratio energy distance resolution
              (Z.to_nat pad_y) (Z.to_nat pad_x) pad_method increment hp d h w)
    as (buf & Hrun & Hbl & Hbr); try assumption.
  { now apply paganin_energy_nonzero. }
  { apply paganin_step_nonzero; [lia | assumption]. }
  { apply paganin_step_nonzero; [lia | assumption]. }
  rewrite !Z2Nat.id in Hrun by assumption.
  unfold paganin_filter in *. rewrite Hc. rewrite (check_stack_idem _ Hc) in Hrun.
  rewrite Hrun. eexists _, _. split; [reflexivity |].
  repeat split; cbn [shape base dtype_of].
  - rewrite length_app. simpl. lia.
  - unfold read. cbn [base]. rewrite app_nth2, Nat.sub_diag by lia. exact Hbl.
  - unfold read. cbn [base]. rewrite app_nth2, Nat.sub_diag by lia. exact Hbr.
Qed.

Lemma retrieve_returns_exact (pixel_size dist energy alpha : R) (pad : bool) :
  2 <= h -> 2 <= w -> pixel_size <> 0%R ->
  (if pad then (0 < energy)%R /\ (0 <= dist)%R else energy <> 0%R) ->
  exists res hp',
    retrieve_phase a pixel_size dist energy alpha pad hp = ok (res, hp')
    /\ shape res = [d; h; w] /\ dtype_of res = dtype_of a /\ base res = base a
    /\ wf_array hp' res.
Proof.
  intros Hh Hw Hps Hpar.
  destruct promoted_stack as (a' & Hc & Hs & Hb & Hdt & Hlt & Hl & Hr).
  destruct (@calc_pad_exact h w (read hp a') pixel_size dist energy pad)
    as (py & pz & val & Hpad & Hnopad); try assumption; try lia.
  destruct (@retrieve_phase_returns R _ _ a' pixel_size dist energy alpha pad hp d h w
              py pz val) as (hp' & Hrun & Hlen & _ & Hrl & Hrr); try assumption; try lia.
  { apply reciprocal_step_nonzero; [lia | assumption]. }
  { apply reciprocal_step_nonzero; [lia | assumption]. }
  unfold retrieve_phase in *. rewrite Hc. rewrite (check_stack_idem _ Hc) in Hrun.
  rewrite Hrun. exists a', hp'. split; [reflexivity |].
  repeat split; try assumption.
  - lia.
  - rewrite Hs. split; assumption.
Qed.
End ExactReturns.

(* ------------------------------------------------------------------ *)
(** ** The working buffer of [_retrieve_phase] when both pad amounts are 0 *)

Lemma splice_all {A : Type} (n : nat) (new old : list A) :
  length old = n -> splice 0 n new old = new.
Proof.
  intros Hl. unfold splice. cbn [firstn app]. rewrite skipn_all2 by lia. apply app_nil_r.
Qed.

Lemma map2_splice_all {A : Type} (w : nat) (v m : matrix A) :
  length v = length m -> Forall (fun r => length r = w) m ->
  map2 (fun new old => splice 0 w new old) v m = v.
Proof.
  revert m. induction v as [| r v IH]; intros [| r' m] Hl Hm; try discriminate.
  - reflexivity.
  - unfold map2 in *. cbn [combine map fst snd].
    inversion Hm as [| ? ? Hr' Hm']; subst.
    rewrite splice_all by reflexivity. f_equal.
    apply IH; [simpl in Hl; lia | exact Hm'].
Qed.

(** [prj[0:dy, 0:dz] = v] on a buffer of shape (dy, dz): the whole buffer. *)
Lemma assign_block_whole {A : Type} (H W : nat) (v m : matrix A) :
  rect H W m -> rect H W v -> 1 <= H ->
  assign_block 0 (Z.of_nat H + 0) 0 (Z.of_nat W + 0) v m = ok v.
Proof.
  intros Hm Hv H1. unfold assign_block.
  rewrite (rect_nrows Hm), (rect_ncols Hm H1).
  change 0%Z with (Z.of_nat 0). rewrite !slice_range_inside by lia.
  cbn [Nat.add]. rewrite !Nat.sub_0_r.
  rewrite (broadcast_to_rect Hv). cbn [rbind ok skipn].
  destruct Hm as [Hml Hmr]. destruct Hv as [Hvl Hvr].
  rewrite firstn_all2 by lia.
  rewrite map2_splice_all by (try assumption; lia).
  now rewrite splice_all.
Qed.

(** [prj[:0] = prj[0]]: nothing is written. *)
Lemma assign_rows_none {A : Type} (H W : nat) (m : matrix A) :
  rect H W m -> 1 <= H -> assign_rows None (Some 0%Z) 0 m = ok m.
Proof.
  intros Hm H1. unfold assign_rows. rewrite (rect_nrows Hm).
  destruct (@py_index_ok H 0%Z ltac:(lia)) as (k & -> & Hk & Ek). cbn [rbind ok].
  rewrite (rect_ncols Hm H1).
  rewrite stretch_same by (eapply rect_nth; eassumption).
  reflexivity.
Qed.

(** [prj[-0:] = prj[-0-1]]: every row becomes the last row. *)
Lemma assign_rows_all {A : Type} (H W : nat) (m : matrix A) :
  rect H W m -> 1 <= H ->
  assign_rows (Some 0%Z) None (-1) m = ok (repeat (nth (H - 1) m []) H).
Proof.
  intros Hm H1. unfold assign_rows. rewrite (rect_nrows Hm).
  destruct (@py_index_ok H (-1)%Z ltac:(lia)) as (k & -> & Hk & Ek). cbn [rbind ok].
  change (-1 <? 0)%Z with true in Ek.
  replace k with (H - 1) by lia.
  rewrite (rect_ncols Hm H1).
  rewrite stretch_same by (eapply rect_nth; [eassumption | lia]).
  cbn [rbind ok]. unfold slice_range, slice_bound. cbn [Z.ltb Z.compare Z.to_nat Nat.min Nat.max].
  rewrite Nat.sub_0_r, splice_all; [reflexivity | apply Hm].
Qed.

(** [prj[:, :0] = prj[:, 0][:, cp.newaxis]]: nothing is written. *)
Lemma assign_cols_none {A : Type} (H W : nat) (d : A) (m : matrix A) :
  rect H W m -> 1 <= H -> 1 <= W -> assign_cols None (Some 0%Z) 0 d m = ok m.
Proof.
  intros Hm H1 W1. unfold assign_cols. rewrite (rect_ncols Hm H1).
  destruct (@py_index_ok W 0%Z ltac:(lia)) as (k & -> & Hk & Ek). cbn [rbind ok].
  unfold slice_range, slice_bound. cbn [Z.ltb Z.compare Z.to_nat Nat.min Nat.max].
  f_equal. transitivity (map (fun r : list A => r) m); [| apply map_id].
  apply map_ext. reflexivity.
Qed.

(** [prj[:, -0:] = prj[:, -0-1][:, cp.newaxis]]: every column becomes the
    last column. *)
Lemma assign_cols_all {A : Type} (H W : nat) (d : A) (m : matrix A) :
  rect H W m -> 1 <= H -> 1 <= W ->
  assign_cols (Some 0%Z) None (-1) d m = ok (map (fun row => repeat (nth (W - 1) row d) W) m).
Proof.
  intros Hm H1 W1. unfold assign_cols. rewrite (rect_ncols Hm H1).
  destruct (@py_index_ok W (-1)%Z ltac:(lia)) as (k & -> & Hk & Ek). cbn [rbind ok].
  change (-1 <? 0)%Z with true in Ek.
  replace k with (W - 1) by lia.
  unfold slice_range, slice_bound. cbn [Z.ltb Z.compare Z.to_nat Nat.min Nat.max].
  f_equal. apply map_ext_in. intros row Hrow.
  destruct Hm as [_ Hr]. rewrite Forall_forall in Hr.
  rewrite Nat.sub_0_r. apply splice_all. now apply Hr.
Qed.

(* ------------------------------------------------------------------ *)
(** ** The discrete Fourier transform of a constant image *)

Section ExactDFT.
Local Open Scope R_scope.

Lemma complex_eq (a b : R * R) : fst a = fst b -> snd a = snd b -> a = b.
Proof. destruct a, b; cbn [fst snd]; now intros -> ->. Qed.

Ltac cring :=
  apply complex_eq;
  unfold cmul, cadd, cscale, cdiv_real, czero, of_real;
  cbn [fst snd fadd fsub fmul fdiv fzero numeric float_class];
  try ring.

Lemma cadd_zero_r (a : R * R) : cadd a czero = a.
Proof. cring. Qed.

Lemma cadd_zero_l (a : R * R) : cadd czero a = a.
Proof. cring. Qed.

Lemma cmul_zero_r (a : R * R) : cmul a czero = czero.
Proof. cring. Qed.

Lemma cmul_zero_l (a : R * R) : cmul czero a = czero.
Proof. cring. Qed.

Lemma cmul_one_r (a : R * R) : cmul a (1, 0) = a.
Proof. cring. Qed.

Lemma cscale_zero (x : R) : cscale czero x = czero.
Proof. cring. Qed.

Lemma csum_app (l1 l2 : list (R * R)) : csum (l1 ++ l2) = cadd (csum l1) (csum l2).
Proof.
  induction l1 as [| a l1 IH]; cbn [app csum fold_right].
  - fold (csum l2). now rewrite cadd_zero_l.
  - fold (csum (l1 ++ l2)) (csum l1). rewrite IH. cring.
Qed.

Lemma csum_cons (a : R * R) (l : list (R * R)) : csum (a :: l) = cadd a (csum l).
Proof. reflexivity. Qed.

Lemma csum_map_zero {A : Type} (f : A -> R * R) (l : list A) :
  (forall x, In x l -> f x = czero) -> csum (map f l) = czero.
Proof.
  induction l as [| a l IH]; intros Hf; cbn [map]; [reflexivity |].
  rewrite csum_cons, Hf, IH by (try (now left); intros x Hx; apply Hf; now right).
  apply cadd_zero_l.
Qed.

Lemma csum_map_ext {A : Type} (f g : A -> R * R) (l : list A) :
  (forall x, In x l -> f x = g x) -> csum (map f l) = csum (map g l).
Proof. intros Hfg. f_equal. now apply map_ext_in. Qed.

Lemma csum_map_cmul_l {A : Type} (a : R * R) (f : A -> R * R) (l : list A) :
  csum (map (fun x => cmul a (f x)) l) = cmul a (csum (map f l)).
Proof.
  induction l as [| x l IH]; cbn [map].
  - cbn [csum fold_right]. now rewrite cmul_zero_r.
  - rewrite !csum_cons, IH. cring.
Qed.

Lemma csum_map_cmul_r {A : Type} (b : R * R) (f : A -> R * R) (l : list A) :
  csum (map (fun x => cmul (f x) b) l) = cmul (csum (map f l)) b.
Proof.
  induction l as [| x l IH]; cbn [map].
  - cbn [csum fold_right]. now rewrite cmul_zero_l.
  - rewrite !csum_cons, IH. cring.
Qed.

Lemma twiddle_angle (n : nat) (k : Z) : twiddle n k = (cos (angle n k), - sin (angle n k)).
Proof. reflexivity. Qed.

Lemma twiddle_zero (n : nat) : twiddle n 0 = (1, 0).
Proof.
  rewrite twiddle_angle. unfold angle.
  replace (2 * Rtrigo1.PI * 0 / INR n) with 0 by (unfold Rdiv; ring).
  rewrite cos_0, sin_0. f_equal. ring.
Qed.

Lemma twiddle_add (n : nat) (j k : Z) : cmul (twiddle n j) (twiddle n k) = twiddle n (j + k).
Proof.
  rewrite !twiddle_angle.
  replace (angle n (j + k)) with (angle n j + angle n k)
    by (unfold angle, Rdiv; rewrite plus_IZR; ring).
  rewrite cos_plus, sin_plus. cring.
Qed.

Lemma twiddle_full_turn (n k : nat) : (1 <= n)%nat -> twiddle n (Z.of_nat n * Z.of_nat k) = (1, 0).
Proof.
  intros Hn. rewrite twiddle_angle. unfold angle.
  assert (Hn0 : INR n <> 0) by (apply not_0_INR; lia).
  replace (2 * Rtrigo1.PI * IZR (Z.of_nat n * Z.of_nat k) / INR n)
    with (0 + 2 * INR k * Rtrigo1.PI).
  2:{ rewrite mult_IZR, <- !INR_IZR_INZ. field. exact Hn0. }
  rewrite cos_period, sin_period, cos_0, sin_0. f_equal. ring.
Qed.

Lemma cos_lt_1 (x : R) : 0 < x -> x < 2 * Rtrigo1.PI -> cos x < 1.
Proof.
  intros H0 H1.
  replace x with (2 * (x / 2)) by field.
  rewrite cos_2a_sin.
  assert (Hs : 0 < sin (x / 2)) by (apply sin_gt_0; lra).
  nra.
Qed.

Lemma geometric_telescope (n k N : nat) :
  cadd (cmul (twiddle n (Z.of_nat k))
          (csum (map (fun m => twiddle n (1 * Z.of_nat m * Z.of_nat k)) (seq 0 N))))
       (1, 0)
  = cadd (csum (map (fun m => twiddle n (1 * Z.of_nat m * Z.of_nat k)) (seq 0 N)))
         (twiddle n (Z.of_nat N * Z.of_nat k)).
Proof.
  induction N as [| N IH].
  - cbn [seq map csum fold_right]. rewrite cmul_zero_r, Z.mul_0_l, twiddle_zero. cring.
  - rewrite seq_S, map_app, csum_app. cbn [map Nat.add].
    rewrite csum_cons. cbn [csum fold_right]. fold czero. rewrite cadd_zero_r.
    set (S_N := csum (map (fun m => twiddle n (1 * Z.of_nat m * Z.of_nat k)) (seq 0 N))) in *.
    replace (cmul (twiddle n (Z.of_nat k)) (cadd S_N (twiddle n (1 * Z.of_nat N * Z.of_nat k))))
      with (cadd (cmul (twiddle n (Z.of_nat k)) S_N)
              (cmul (twiddle n (Z.of_nat k)) (twiddle n (1 * Z.of_nat N * Z.of_nat k))))
      by cring.
    rewrite twiddle_add.
    replace (Z.of_nat k + 1 * Z.of_nat N * Z.of_nat k)%Z with (Z.of_nat (S N) * Z.of_nat k)%Z
      by lia.
    replace (1 * Z.of_nat N * Z.of_nat k)%Z with (Z.of_nat N * Z.of_nat k)%Z by lia.
    transitivity (cadd (cadd (cmul (twiddle n (Z.of_nat k)) S_N) (1, 0))
                    (twiddle n (Z.of_nat (S N) * Z.of_nat k))); [cring |].
    rewrite IH. cring.
Qed.

Lemma geometric_zero_index (n : nat) : geometric n 0 = (INR n, 0).
Proof.
  unfold geometric.
  rewrite (csum_map_ext _ (fun _ => (1, 0))).
  2:{ intros m _. rewrite Z.mul_0_r. apply twiddle_zero. }
  generalize 0%nat. induction n as [| n IH]; intros s.
  - reflexivity.
  - cbn [seq map]. rewrite csum_cons, IH, S_INR. cring.
Qed.

Lemma geometric_vanishes (n k : nat) : (0 < k < n)%nat -> geometric n k = czero.
Proof.
  intros Hk.
  pose proof (geometric_telescope n k n) as Htel. fold (geometric n k) in Htel.
  rewrite twiddle_full_turn in Htel by lia.
  rewrite twiddle_angle in Htel.
  assert (Hcos : cos (angle n (Z.of_nat k)) < 1).
  { assert (Hn0 : 0 < INR n) by (apply lt_0_INR; lia).
    assert (Hk0 : 0 < INR k) by (apply lt_0_INR; lia).
    assert (Hkn : INR k < INR n) by (apply lt_INR; lia).
    pose proof PI_RGT_0 as Hpi.
    unfold angle. rewrite <- INR_IZR_INZ. apply cos_lt_1.
    - apply Rdiv_lt_0_compat; [| exact Hn0]. apply Rmult_lt_0_compat; lra.
    - apply (Rmult_lt_reg_r (INR n)); [exact Hn0 |].
      unfold Rdiv. rewrite Rmult_assoc, Rinv_l, Rmult_1_r by lra.
      apply Rmult_lt_compat_l; lra. }
  destruct (geometric n k) as [x y].
  set (c := cos (angle n (Z.of_nat k))) in *.
  set (s := sin (angle n (Z.of_nat k))) in *.
  assert (Hre : c * x - - s * y + 1 = x + 1).
  { apply (f_equal fst) in Htel. unfold cmul, cadd in Htel.
    cbn [fst snd fadd fsub fmul numeric] in Htel. exact Htel. }
  assert (Him : c * y + - s * x + 0 = y + 0).
  { apply (f_equal snd) in Htel. unfold cmul, cadd in Htel.
    cbn [fst snd fadd fsub fmul numeric] in Htel. exact Htel. }
  assert (Hsc : s * s + c * c = 1).
  { pose proof (sin2_cos2 (angle n (Z.of_nat k))) as Hq. unfold Rsqr in Hq. exact Hq. }
  assert (E1 : (c - 1) * x + s * y = 0) by lra.
  assert (E2 : (c - 1) * y - s * x = 0) by lra.
  assert (Hx2 : (2 - 2 * c) * x = 0).
  { replace ((2 - 2 * c) * x)
      with ((c - 1) * ((c - 1) * x + s * y) - s * ((c - 1) * y - s * x)
            - (s * s + c * c - 1) * x) by ring.
    rewrite E1, E2, Hsc. ring. }
  assert (Hy2 : (2 - 2 * c) * y = 0).
  { replace ((2 - 2 * c) * y)
      with ((c - 1) * ((c - 1) * y - s * x) + s * ((c - 1) * x + s * y)
            - (s * s + c * c - 1) * y) by ring.
    rewrite E1, E2, Hsc. ring. }
  apply Rmult_integral in Hx2 as [Hc | ->]; [lra |].
  apply Rmult_integral in Hy2 as [Hc | ->]; [lra |].
  reflexivity.
Qed.

Lemma nth_map2 {A B D : Type} (f : A -> B -> D) (a : list A) (b : list B) (i : nat)
  (dd : D) (da : A) (db : B) :
  length a = length b -> (i < length a)%nat ->
  nth i (map2 f a b) dd = f (nth i a da) (nth i b db).
Proof.
  intros Hl Hi. unfold map2.
  rewrite nth_map_lt with (d' := (da, db)) by (rewrite length_combine; lia).
  now rewrite combine_nth.
Qed.

Lemma nth_dft2 (s : Z) (x : matrix (R * R)) (k l : nat) :
  (k < nrows x)%nat -> (l < ncols x)%nat ->
  nth l (nth k (dft2 s x) []) czero = dft2_at s x k l.
Proof.
  intros Hk Hl. unfold dft2.
  rewrite nth_map_lt with (d' := 0%nat) by (rewrite length_seq; exact Hk).
  rewrite nth_map_lt with (d' := 0%nat) by (rewrite length_seq; exact Hl).
  now rewrite !seq_nth.
Qed.

Lemma dft2_at_const (h w : nat) (c : R) (x : matrix (R * R)) (k l : nat) :
  nrows x = h -> ncols x = w ->
  (forall m n, (m < h)%nat -> (n < w)%nat -> nth n (nth m x []) czero = (c, 0)) ->
  dft2_at 1 x k l = cmul (cmul (c, 0) (geometric h k)) (geometric w l).
Proof.
  intros Hh Hw Hx. unfold dft2_at. unfold complex in *. rewrite Hh, Hw.
  rewrite (csum_map_ext _
             (fun m => cmul (cmul (c, 0) (twiddle h (1 * Z.of_nat m * Z.of_nat k)))
                         (geometric w l))).
  2:{ intros m Hm. apply in_seq in Hm.
      rewrite (csum_map_ext _
                 (fun n => cmul (cmul (c, 0) (twiddle h (1 * Z.of_nat m * Z.of_nat k)))
                             (twiddle w (1 * Z.of_nat n * Z.of_nat l)))).
      2:{ intros n Hn. apply in_seq in Hn. rewrite Hx by lia. cring. }
      now rewrite csum_map_cmul_l. }
  rewrite csum_map_cmul_r. f_equal.
  now rewrite csum_map_cmul_l.
Qed.

Lemma dft2_const (h w : nat) (c : R) :
  (1 <= h)%nat -> (1 <= w)%nat ->
  is_delta h w (c * INR h * INR w, 0) (dft2 1 (mmap of_real (full h w c))).
Proof.
  intros Hh Hw.
  assert (Hrect : rect h w (mmap of_real (full h w c)))
    by (apply rect_mmap, rect_full).
  pose proof (rect_nrows Hrect) as Hnr. pose proof (rect_ncols Hrect Hh) as Hnc.
  split.
  - pose proof (rect_dft2 1 (mmap of_real (full h w c))) as Hd.
    now rewrite Hnr, Hnc in Hd.
  - intros k l Hk Hl. rewrite nth_dft2 by (unfold complex in *; rewrite ?Hnr, ?Hnc; assumption).
    rewrite (@dft2_at_const h w c) by
      (try assumption; intros m n Hm Hn; unfold mmap, full;
       rewrite nth_map_lt with (d' := []) by (rewrite repeat_length; lia);
       rewrite nth_repeat_lt by lia;
       rewrite nth_map_lt with (d' := 0) by (rewrite repeat_length; lia);
       now rewrite nth_repeat_lt by lia).
    destruct (Nat.eqb_spec k 0) as [-> | Hk0].
    + destruct (Nat.eqb_spec l 0) as [-> | Hl0]; cbn [andb].
      * rewrite !geometric_zero_index. cring.
      * rewrite (@geometric_vanishes w l) by lia. apply cmul_zero_r.
    + cbn [andb]. rewrite (@geometric_vanishes h k) by lia.
      rewrite cmul_zero_r. apply cmul_zero_l.
Qed.

Lemma scale_delta (h w : nat) (v : R * R) (x : matrix (R * R)) (nf : matrix R) :
  is_delta h w v x -> rect h w nf ->
  is_delta h w (cscale v (nth 0 (nth 0 nf []) 0)) (map2 (map2 cscale) x nf).
Proof.
  intros [Hx Hv] Hnf. split; [now apply rect_map2 |].
  intros k l Hk Hl.
  pose proof (rect_nth Hx Hk) as Lx. pose proof (rect_nth Hnf Hk) as Ln.
  destruct Hx as [Hxl _]. destruct Hnf as [Hnl _].
  rewrite nth_map2 with (da := []) (db := []) by (unfold complex in *; lia).
  rewrite nth_map2 with (da := czero) (db := 0) by (unfold complex in *; lia).
  rewrite Hv by assumption.
  destruct (Nat.eqb_spec k 0) as [-> | Hk0]; [| apply cscale_zero].
  destruct (Nat.eqb_spec l 0) as [-> | Hl0]; [reflexivity | apply cscale_zero].
Qed.

Lemma idft2_delta (h w : nat) (v : R * R) (x : matrix (R * R)) (k l : nat) :
  is_delta h w v x -> (1 <= h)%nat -> (1 <= w)%nat -> dft2_at (-1) x k l = v.
Proof.
  intros [Hx Hv] Hh Hw. unfold dft2_at. unfold complex in *.
  rewrite (rect_nrows Hx), (rect_ncols Hx Hh).
  destruct h as [| h']; [lia |].
  cbn [seq map]. rewrite csum_cons.
  rewrite (csum_map_zero _ (seq 1 h')).
  2:{ intros m Hm. apply in_seq in Hm. apply csum_map_zero.
      intros n Hn. apply in_seq in Hn. rewrite Hv by lia.
      destruct (Nat.eqb_spec m 0) as [E | _]; [lia |]. cbn [andb].
      apply cmul_zero_l. }
  destruct w as [| w']; [lia |].
  cbn [seq map]. rewrite csum_cons.
  rewrite (csum_map_zero _ (seq 1 w')).
  2:{ intros n Hn. apply in_seq in Hn. rewrite Hv by lia.
      destruct (Nat.eqb_spec n 0) as [E | _]; [lia |]. cbn [andb Nat.eqb].
      apply cmul_zero_l. }
  rewrite Hv by lia. cbn [Nat.eqb andb].
  replace (-1 * Z.of_nat 0 * Z.of_nat k)%Z with 0%Z by lia.
  replace (-1 * Z.of_nat 0 * Z.of_nat l)%Z with 0%Z by lia.
  rewrite !twiddle_zero. cring.
Qed.

Lemma map_const_seq {A : Type} (x : A) (s n : nat) : map (fun _ => x) (seq s n) = repeat x n.
Proof. revert s; induction n as [| n IH]; intros s; cbn [seq map repeat]; now rewrite ?IH. Qed.

(** Forward transform of a constant image, product with the filter, inverse
    transform, real part: a constant image again, handed to what follows. *)
Lemma filter_constant_image {B : Type} (cont : matrix R -> result B) (h w : nat) (c : R)
  (nf : matrix R) :
  rect h w nf -> (1 <= h)%nat -> (1 <= w)%nat ->
  rbind (fft2 (mmap of_real (full h w c))) (fun fproj =>
  rbind (elementwise_inplace cscale fproj nf) (fun fproj =>
  rbind (ifft2 fproj) (fun inv => cont (mmap creal inv))))
  = cont (full h w (c * nth 0 (nth 0 nf []) 0)).
Proof.
  intros Hnf Hh Hw.
  assert (Hrect : rect h w (mmap of_real (full h w c)))
    by (apply rect_mmap, rect_full).
  unfold fft2. unfold complex in *. rewrite (rect_nrows Hrect), (rect_ncols Hrect Hh).
  destruct (Nat.eqb_spec h 0) as [E | _]; [lia |].
  destruct (Nat.eqb_spec w 0) as [E | _]; [lia |].
  cbn [orb rbind ok].
  pose proof (dft2_const c Hh Hw) as Hd.
  rewrite (@elementwise_inplace_rect (R * R)%type R cscale h w); [| apply Hd | exact Hnf | exact Hh].
  cbn [rbind ok].
  match goal with
  | |- context [ifft2 ?t] =>
      assert (Hs : is_delta h w (cscale (c * INR h * INR w, 0) (nth 0 (nth 0 nf []) 0)) t)
        by exact (scale_delta Hd Hnf);
      generalize dependent t; intros y Hs
  end. unfold ifft2. unfold complex in *. destruct Hs as [Hy Hv].
  rewrite (rect_nrows Hy), (rect_ncols Hy Hh).
  destruct (Nat.eqb_spec h 0) as [E | _]; [lia |].
  destruct (Nat.eqb_spec w 0) as [E | _]; [lia |].
  cbn [orb rbind ok]. f_equal.
  unfold mmap, dft2. unfold complex in *. rewrite (rect_nrows Hy), (rect_ncols Hy Hh).
  rewrite !map_map.
  transitivity (map (fun _ : nat => repeat (c * nth 0 (nth 0 nf []) 0) w) (seq 0 h));
    [| apply map_const_seq].
  apply map_ext. intros k. rewrite !map_map.
  transitivity (map (fun _ : nat => c * nth 0 (nth 0 nf []) 0) (seq 0 w));
    [| apply map_const_seq].
  apply map_ext. intros l.
  rewrite (@idft2_delta h w (cscale (c * INR h * INR w, 0) (nth 0 (nth 0 nf []) 0)))
    by (try assumption; now split).
  unfold creal, cdiv_real, cscale. cbn [fst snd fmul fdiv of_Z numeric].
  rewrite <- INR_IZR_INZ, mult_INR.
  assert (INR h <> 0) by (apply not_0_INR; lia).
  assert (INR w <> 0) by (apply not_0_INR; lia).
  field. split; assumption.
Qed.
End ExactDFT.

(* ------------------------------------------------------------------ *)
(** ** [retrieve_phase] without padding *)

Section NoPad.
Context {F : Type} `{Numeric F}.

(** The loop body with [px = py = 0]: the buffer handed to the transform is
    constant. *)
Lemma retrieve_image_no_pad (nf img prj : matrix F) (h w : nat) :
  rect h w img -> rect h w prj -> 1 <= h -> 1 <= w ->
  retrieve_image nf 0 0 h w false img prj
  = rbind (fft2 (mmap of_real (full h w (cast float32 (bottom_right img))))) (fun fproj =>
    rbind (elementwise_inplace cscale fproj nf) (fun fproj =>
    rbind (ifft2 fproj) (fun inv =>
    ok (full h w (cast float32 (bottom_right img)), mmap creal inv)))).
Proof.
  intros Himg Hprj Hh Hw. unfold retrieve_image.
  change (- 0)%Z with 0%Z. change (0 - 1)%Z with (-1)%Z.
  assert (Hv : rect h w (mmap (cast float32) img)) by (now apply rect_mmap).
  rewrite (assign_block_whole Hprj Hv Hh). cbn [rbind ok].
  rewrite (assign_rows_none Hv Hh). cbn [rbind ok].
  rewrite (assign_rows_all Hv Hh). cbn [rbind ok].
  assert (Hrep : rect h w (repeat (nth (h - 1) (mmap (cast float32) img) []) h)).
  { split; [apply repeat_length |]. apply Forall_repeat.
    apply Forall_nth_default; [apply Hv | destruct Hv; lia]. }
  rewrite (assign_cols_none fzero Hrep Hh Hw). cbn [rbind ok].
  rewrite (assign_cols_all fzero Hrep Hh Hw). cbn [rbind ok].
  rewrite map_repeat. fold (full h w (nth (w - 1) (nth (h - 1) (mmap (cast float32) img) []) fzero)).
  assert (Hcorner : nth (w - 1) (nth (h - 1) (mmap (cast float32) img) []) fzero
                    = cast float32 (bottom_right img)).
  { unfold bottom_right, mmap. rewrite (rect_nrows Himg), (rect_ncols Himg Hh).
    rewrite nth_map_lt with (d' := []) by (destruct Himg; lia).
    apply nth_map_lt. rewrite (rect_nth Himg) by lia. lia. }
  rewrite Hcorner. reflexivity.
Qed.

Lemma retrieve_image_buffer (nf img prj prj' proj : matrix F) (h w : nat) :
  rect h w img -> rect h w prj -> 1 <= h -> 1 <= w ->
  retrieve_image nf 0 0 h w false img prj = ok (prj', proj) ->
  prj' = full h w (cast float32 (bottom_right img)).
Proof.
  intros Himg Hprj Hh Hw. rewrite (retrieve_image_no_pad nf Himg Hprj Hh Hw).
  destruct (fft2 _) as [e | f1]; [discriminate |]. cbn [rbind].
  destruct (elementwise_inplace _ _ _) as [e | f2]; [discriminate |]. cbn [rbind].
  destruct (ifft2 _) as [e | inv]; [discriminate |]. cbn [rbind].
  now intros [= <- _].
Qed.

Lemma calc_pad_no_pad (dy dz : nat) (tomo : list (matrix F)) (pixel_size dist energy : F)
  (py pz : Z) (val : F) :
  _calc_pad dy dz tomo pixel_size dist energy false = ok (py, pz, val) ->
  py = 0%Z /\ pz = 0%Z.
Proof.
  unfold _calc_pad. destruct (_wavelength energy) as [e | wl]; [discriminate |].
  cbn [rbind]. now intros [= <- <- _].
Qed.
End NoPad.

Lemma splice_step {A : Type} (f : A -> A) (i : nat) (data : list A) (d : A) :
  i < length data ->
  splice i (S i) [f (nth i data d)] (map f (firstn i data) ++ skipn i data)
  = map f (firstn (S i) data) ++ skipn (S i) data.
Proof.
  revert data. induction i as [| i IH]; intros [| a l] Hi; simpl in Hi; try lia.
  - reflexivity.
  - specialize (IH l ltac:(lia)). unfold splice in *.
    cbn [firstn skipn map app nth]. cbn [firstn skipn map app nth] in IH.
    now rewrite IH.
Qed.

Lemma mmap_id {A : Type} (m : matrix A) : mmap (fun x => x) m = m.
Proof.
  unfold mmap. transitivity (map (fun r : list A => r) m); [| apply map_id].
  apply map_ext. intros r. apply map_id.
Qed.

(** In exact arithmetic the image the loop body produces from a constant
    buffer is constant. *)
Lemma retrieve_image_no_pad_exact (nf img prj : matrix R) (h w : nat) :
  rect h w nf -> rect h w img -> rect h w prj -> 1 <= h -> 1 <= w ->
  retrieve_image nf 0 0 h w false img prj
  = ok (full h w (bottom_right img),
        full h w (bottom_right img * nth 0 (nth 0 nf []) 0%R)%R).
Proof.
  intros Hnf Himg Hprj Hh Hw.
  rewrite (retrieve_image_no_pad nf Himg Hprj Hh Hw).
  cbn [cast Exact.float_class].
  exact (@filter_constant_image _ (fun proj => ok (full h w (bottom_right img), proj))
           h w (bottom_right img) nf Hnf Hh Hw).
Qed.

(** The loop of [_retrieve_phase] without padding, in exact arithmetic:
    image after image is replaced by a constant image. *)
Lemma retrieve_loop_no_pad (tomo : ndarray) (phase_filter prj : matrix R) (hp : heap)
  (d h w : nat) :
  shape tomo = [d; h; w] -> base tomo < length hp ->
  length (read hp tomo) = d -> Forall (rect h w) (read hp tomo) ->
  1 <= h -> 1 <= w -> rect h w phase_filter -> rect h w prj ->
  exists hp' k,
    _retrieve_phase tomo phase_filter 0 0 prj false hp = ok (tomo, hp')
    /\ read hp' tomo
       = map (fun img => full h w (bottom_right img * k)%R) (read hp tomo).
Proof.
  intros Hs Hb Hlen Hrect Hh Hw Hpf Hprj.
  unfold _retrieve_phase. rewrite Hs.
  destruct (matrix_max_ok Hpf Hh Hw) as (mx & ->). cbn [rbind ok].
  set (nf := mmap (fun x => fdiv x mx) phase_filter).
  assert (Hnf : rect h w nf) by (now apply rect_mmap).
  set (k := nth 0 (nth 0 nf []) 0%R).
  set (f := fun img : matrix R => full h w (bottom_right img * k)%R).
  set (data := read hp tomo) in *.
  match goal with
  | |- context [for_range ?body 0 d (prj, hp)] =>
      destruct (@for_range_inv (matrix R * heap)
                  (fun i st =>
                     rect h w (fst st)
                     /\ base tomo < length (snd st)
                     /\ read (snd st) tomo = map f (firstn i data) ++ skipn i data)
                  body d 0 (prj, hp)) as ([prj' hp'] & -> & Hfin)
  end.
  { cbn [fst snd firstn skipn map app]. auto. }
  { intros i [prj0 hp0] Hi (Hp0 & Hb0 & Hread). cbn [fst snd] in *.
    assert (Himg : nth i (read hp0 tomo) [] = nth i data []).
    { rewrite Hread. rewrite app_nth2 by (rewrite length_map, length_firstn; lia).
      rewrite length_map, length_firstn, Nat.min_l by lia.
      rewrite Nat.sub_diag, nth_skipn. f_equal. lia. }
    rewrite Himg.
    assert (Hri : rect h w (nth i data [])) by (apply Forall_nth_default; [assumption | lia]).
    rewrite (retrieve_image_no_pad_exact Hnf Hri Hp0 Hh Hw). cbn [rbind ok].
    cbn [cast Exact.float_class]. rewrite mmap_id.
    rewrite assign_image_rect.
    2:{ rewrite Hread, length_app, length_map, length_firstn, length_skipn. lia. }
    2:{ apply rect_full. }
    cbn [rbind ok]. eexists. split; [reflexivity |]. cbn [fst snd].
    split; [apply rect_full |]. split; [rewrite length_write; assumption |].
    rewrite read_write_same by assumption. rewrite Hread.
    apply (splice_step f). lia. }
  cbn [rbind ok]. cbn [fst snd] in Hfin. destruct Hfin as (_ & _ & Hread).
  exists hp', k. split; [reflexivity |].
  rewrite Hread. cbn [Nat.add]. rewrite firstn_all2, skipn_all2 by lia.
  apply app_nil_r.
Qed.

(** [retrieve_phase] with [pad=False], in exact arithmetic, on a stack of
    rank 3 whose images have at least two rows and two columns. *)
Lemma retrieve_phase_no_pad (tomo : ndarray) (pixel_size dist energy alpha : R)
  (hp : heap) (d h w : nat) :
  shape tomo = [d; h; w] -> base tomo < length hp ->
  length (read hp tomo) = d -> Forall (rect h w) (read hp tomo) ->
  2 <= h -> 2 <= w -> pixel_size <> 0%R -> energy <> 0%R ->
  exists hp' k,
    retrieve_phase tomo pixel_size dist energy alpha false hp = ok (tomo, hp')
    /\ read hp' tomo
       = map (fun img => full h w (bottom_right img * k)%R) (read hp tomo).
Proof.
  intros Hs Hb Hlen Hrect Hh Hw Hps He. unfold retrieve_phase.
  rewrite check_stack_rank3 by (unfold ndim; now rewrite Hs). cbn [rbind ok]. rewrite Hs.
  unfold _calc_pad. rewrite wavelength_exact by exact He. cbn [rbind ok].
  change (2 * 0)%Z with 0%Z. rewrite !Z.add_0_r.
  destruct (@reciprocal_grid_rect R _ _ pixel_size h w) as (w2 & -> & Hw2);
    try (apply reciprocal_step_nonzero; [lia | assumption]).
  cbn [rbind ok].
  unfold _paganin_filter_factor. rewrite wavelength_exact by exact He. cbn [rbind ok].
  destruct (Z.ltb_spec (Z.of_nat h) 0); [lia |].
  destruct (Z.ltb_spec (Z.of_nat w) 0); [lia |].
  cbn [orb]. rewrite !Nat2Z.id.
  apply retrieve_loop_no_pad with (d := d); try assumption; try lia.
  - apply rect_fftshift. now apply rect_mmap.
  - apply rect_full.
Qed.

Lemma wf_stack_2x2 : wf_array heap_2x2 stack_2x2.
Proof.
  split; [cbn; lia |]. cbn. split; [reflexivity |].
  repeat constructor.
Qed.

Lemma wf_stack_5x5 : wf_array heap_5x5 stack_5x5.
Proof.
  split; [cbn; lia |]. cbn. split; [reflexivity |].
  repeat constructor.
Qed.

Lemma wf_stack_11a : wf_array heap_11 stack_11a.
Proof.
  split; [cbn; lia |]. cbn. split; [reflexivity |].
  repeat constructor.
Qed.

(* ------------------------------------------------------------------ *)
(** ** Images of at most ten rows under the pattern "PROJECTION" *)

Section ShortImages.
Context {F : Type} `{Numeric F}.

Lemma fresnel_image_short (window : matrix F) (pad_width : Z) (nrow ncol : nat)
  (img : matrix F) :
  length img <= 10 -> (0 <= pad_width)%Z ->
  fresnel_image "PROJECTION" window pad_width nrow ncol img
  = raise (ValueError (msg_pad_empty_axis 0)).
Proof.
  intros Hlen Hpad. unfold fresnel_image. cbn [String.eqb Ascii.eqb Bool.eqb].
  change 10%Z with (Z.of_nat 10). rewrite slice_from, skipn_all2 by exact Hlen.
  unfold pad_edge_int.
  destruct (Z.ltb_spec (pad_width + Z.of_nat 10) 0); [lia |].
  destruct (Z.ltb_spec pad_width 0); [lia |].
  cbn [orb]. unfold pad_edge. cbn [nrows Datatypes.length Nat.eqb andb].
  destruct (Nat.eqb_spec (Z.to_nat (pad_width + Z.of_nat 10)) 0) as [E | _]; [lia |].
  reflexivity.
Qed.

Lemma fresnel_stack_short (d h w : nat) (data : list (matrix F)) (ratio : F)
  (apply_log : bool) :
  1 <= d -> h <= 10 -> length (nth 0 data []) <= 10 ->
  (0 <= ftrunc (fmul (lit (1 # 10)) (of_Z (Z.of_nat w))))%Z ->
  fresnel_stack [d; h; w] data "PROJECTION" ratio apply_log
  = raise (ValueError (msg_pad_empty_axis 0)).
Proof.
  intros Hd Hh Hlen Hpad. unfold fresnel_stack.
  set (pad_width := Z.min 150 (ftrunc (fmul (lit (1 # 10)) (of_Z (Z.of_nat w))))).
  assert (Hpw : (0 <= pad_width)%Z) by (unfold pad_width; lia).
  unfold zeros_stack.
  destruct (Z.ltb_spec (Z.min (Z.of_nat h) (Z.of_nat h + pad_width * 2 - pad_width)) 0);
    [lia |].
  destruct (Z.ltb_spec (Z.min (Z.of_nat w) (Z.of_nat w + pad_width * 2 - pad_width)) 0);
    [lia |].
  cbn [orb rbind ok].
  destruct d as [| d']; [lia |]. cbn [for_range].
  rewrite fresnel_image_short; [reflexivity | | exact Hpw].
  destruct apply_log; [| exact Hlen].
  destruct data as [| img data']; cbn [map nth]; [simpl; lia |].
  unfold mmap. rewrite length_map. exact Hlen.
Qed.
End ShortImages.

(* ------------------------------------------------------------------ *)
(** ** The shape of the results *)

(** C1, as the code has it, in exact arithmetic: on a stack of [d] images of
    [h] rows and [w] columns (after the promotion of a rank-2 input) each
    filter returns an array of shape (d, h, w) when its computation goes
    through: for [fresnel_filter], images that are not empty and, with the
    pattern "PROJECTION", of more than ten rows; for [paganin_filter],
    non-empty images, pad amounts that are not negative, a padding mode
    [cp.pad] knows, and an energy and a resolution other than 0; for
    [retrieve_phase], images of at least two rows and two columns, a pixel
    size other than 0, and an energy that is positive with a distance that is
    not negative when [pad] is set, other than 0 when it is not. *)
Theorem C1_output_shape (a : ndarray) (hp : heap) (d h w : nat)
  (pattern : string) (f_ratio : R) (apply_log : bool)
  (p_ratio p_energy distance resolution : R) (pad_y pad_x : Z) (pad_method : pad_mode R)
  (increment pixel_size dist energy alpha : R) (pad : bool) :
  wf_array hp a ->
  (if ndim a =? 2 then 1 :: shape a else shape a) = [d; h; w] ->
  (1 <= h -> 1 <= w -> (String.eqb pattern "PROJECTION" = true -> 10 < h) ->
   exists res hp',
     fresnel_filter a pattern f_ratio apply_log hp = ok (res, hp')
     /\ shape res = [d; h; w] /\ wf_array hp' res)
  /\ (1 <= h -> 1 <= w -> (0 <= pad_y)%Z -> (0 <= pad_x)%Z ->
      existsb (String.eqb (mode_name pad_method)) pad_modes = true ->
      p_energy <> 0%R -> resolution <> 0%R ->
      exists res hp',
        paganin_filter a p_ratio p_energy distance resolution pad_y pad_x pad_method
          increment hp = ok (res, hp')
        /\ shape res = [d; h; w] /\ wf_array hp' res)
  /\ (2 <= h -> 2 <= w -> pixel_size <> 0%R ->
      (if pad then (0 < energy)%R /\ (0 <= dist)%R else energy <> 0%R) ->
      exists res hp',
        retrieve_phase a pixel_size dist energy alpha pad hp = ok (res, hp')
        /\ shape res = [d; h; w] /\ wf_array hp' res).
Proof.
  intros Hwf Hshape. split; [| split].
  - intros Hh Hw Hproj.
    destruct (@fresnel_returns_exact a hp d h w Hwf Hshape pattern f_ratio apply_log Hh Hw Hproj)
      as (res & hp' & Hrun & Hs & _ & Hwf').
    exists res, hp'. auto.
  - intros Hh Hw Hpy Hpx Hmode He Hres.
    destruct (@paganin_returns_exact a hp d h w Hwf Hshape p_ratio p_energy distance
                resolution pad_y pad_x pad_method increment Hh Hw Hpy Hpx Hmode He Hres)
      as (res & hp' & Hrun & Hs & _ & Hwf').
    exists res, hp'. auto.
  - intros Hh Hw Hps Hpar.
    destruct (@retrieve_returns_exact a hp d h w Hwf Hshape pixel_size dist energy alpha pad
                Hh Hw Hps Hpar) as (res & hp' & Hrun & Hs & _ & _ & Hwf').
    exists res, hp'. auto.
Qed.

(** The theorem on a stack of one 2x2 image: the three filters with the
    pattern "SINOGRAM", edge padding by one pixel, and the default
    parameters of [retrieve_phase]. *)
Lemma C1_witness :
  (exists res hp', fresnel_filter stack_2x2 "SINOGRAM" 100%R false heap_2x2 = ok (res, hp')
                   /\ shape res = [1; 2; 2])
  /\ (exists res hp', paganin_filter stack_2x2 250%R 53%R 1%R (128 / 100)%R 1 1 Edge 0%R
                        heap_2x2 = ok (res, hp')
                      /\ shape res = [1; 2; 2])
  /\ (exists res hp', retrieve_phase stack_2x2 (1 / 10000)%R 50%R 20%R (1 / 1000)%R true
                        heap_2x2 = ok (res, hp')
                      /\ shape res = [1; 2; 2]).
Proof.
  destruct (@C1_output_shape stack_2x2 heap_2x2 1 2 2 "SINOGRAM"%string 100%R false
              250%R 53%R 1%R (128 / 100)%R 1%Z 1%Z Edge 0%R
              (1 / 10000)%R 50%R 20%R (1 / 1000)%R true wf_stack_2x2 eq_refl)
    as (Hf & Hp & Hr).
  split; [| split].
  - destruct Hf as (res & hp' & Hrun & Hs & _); [lia | lia | discriminate |].
    exists res, hp'. split; assumption.
  - destruct Hp as (res & hp' & Hrun & Hs & _);
      [lia | lia | lia | lia | reflexivity | lra | lra |].
    exists res, hp'. split; assumption.
  - destruct Hr as (res & hp' & Hrun & Hs & _); [lia | lia | lra | split; lra |].
    exists res, hp'. split; assumption.
Defined.

(** C1 as stated fails: with the pattern "PROJECTION" (the default) a stack
    of one 5x5 image is valid, but dropping ten rows leaves an empty array,
    which [cp.pad] refuses to extend: the call raises instead of returning
    an array of shape (1, 5, 5). *)
Lemma C1_counterexample :
  ndim stack_5x5 = 3 /\ wf_array heap_5x5 stack_5x5
  /\ fresnel_filter stack_5x5 "PROJECTION" 100%R false heap_5x5
     = raise (ValueError "can't extend empty axis 0 using modes other than 'constant' or 'empty'").
Proof.
  split; [reflexivity |]. split; [exact wf_stack_5x5 |].
  unfold fresnel_filter. rewrite check_stack_rank3 by reflexivity.
  cbn [rbind ok shape stack_5x5].
  rewrite fresnel_stack_short; [reflexivity | lia | lia | cbn; lia |].
  apply fresnel_pad_width_nonneg.
Qed.

(* ------------------------------------------------------------------ *)
(** ** The filters on the sample inputs *)

(** C3 as stated fails for [retrieve_phase]: the call with the default
    parameters on a double-precision stack returns a double-precision
    array. *)
Lemma C3_counterexample :
  exists res hp',
    retrieve_phase stack_2x2 (1 / 10000)%R 50%R 20%R (1 / 1000)%R true heap_2x2
    = ok (res, hp')
    /\ dtype_of res = float64 /\ dtype_of res <> float32.
Proof.
  destruct (@retrieve_returns_exact stack_2x2 heap_2x2 1 2 2 wf_stack_2x2 eq_refl
              (1 / 10000)%R 50%R 20%R (1 / 1000)%R true
              ltac:(lia) ltac:(lia) ltac:(lra) ltac:(split; lra))
    as (res & hp' & Hrun & _ & Hdt & _).
  exists res, hp'. split; [exact Hrun |]. rewrite Hdt. split; [reflexivity | discriminate].
Qed.

(** The theorem on a stack of one 2x2 image: [fresnel_filter] leaves the
    buffer of its input as it was. *)
Lemma C4_witness :
  exists res hp',
    fresnel_filter stack_2x2 "SINOGRAM" 100%R false heap_2x2 = ok (res, hp')
    /\ read hp' stack_2x2 = [image_2x2] /\ base res = 1.
Proof.
  destruct (@fresnel_returns_exact stack_2x2 heap_2x2 1 2 2 wf_stack_2x2 eq_refl
              "SINOGRAM"%string 100%R false ltac:(lia) ltac:(lia) ltac:(discriminate))
    as (res & hp' & Hrun & _).
  destruct (@C4_heap_effects R _ _ stack_2x2 res heap_2x2 hp' "SINOGRAM"%string 100%R false
              250%R 53%R 1%R (128 / 100)%R 1%Z 1%Z Edge 0%R 1%R 1%R 1%R 1%R false
              ltac:(cbn; lia)) as (Hf & _ & _).
  destruct (Hf Hrun) as (Hread & Hbase & _).
  exists res, hp'. split; [exact Hrun |]. split; [exact Hread | exact Hbase].
Defined.

(** C4 as stated fails for [retrieve_phase]: the call writes its result
    over the caller's stack.  With [pad=False] the 2x2 image [[1, 2], [3, 4]]
    is replaced by a constant image. *)
Lemma C4_counterexample :
  exists res hp',
    retrieve_phase stack_2x2 1%R 1%R 1%R 1%R false heap_2x2 = ok (res, hp')
    /\ base res = base stack_2x2
    /\ read heap_2x2 stack_2x2 = [image_2x2]
    /\ read hp' stack_2x2 <> [image_2x2].
Proof.
  destruct (@retrieve_phase_no_pad stack_2x2 1%R 1%R 1%R 1%R heap_2x2 1 2 2)
    as (hp' & k & Hrun & Hread);
    try reflexivity; try lia; try lra; try (cbn; lia);
    try (repeat constructor).
  exists stack_2x2, hp'. split; [exact Hrun |]. split; [reflexivity |].
  split; [reflexivity |].
  rewrite Hread. cbn [read heap_2x2 stack_2x2 base nth map].
  unfold full, image_2x2. cbn [repeat].
  intros Heq. injection Heq as E1 E2 _ _. lra.
Qed.

(** C10 on two stacks of one 11x1 image that differ in row 0: the two
    calls return the same array and the same heap. *)
Lemma C10_witness :
  read heap_11 stack_11a <> read heap_11 stack_11b
  /\ exists res hp',
       fresnel_filter stack_11a "PROJECTION" 100%R false heap_11 = ok (res, hp')
       /\ fresnel_filter stack_11b "PROJECTION" 100%R false heap_11 = ok (res, hp').
Proof.
  split.
  - cbn [read heap_11 stack_11a stack_11b base nth]. unfold image_11a, image_11b.
    cbn [repeat]. intros Heq. injection Heq as E. lra.
  - destruct (@fresnel_returns_exact stack_11a heap_11 1 11 1 wf_stack_11a eq_refl
                "PROJECTION"%string 100%R false ltac:(lia) ltac:(lia) ltac:(intros _; lia))
      as (res & hp' & Hrun & _).
    exists res, hp'. split; [exact Hrun |].
    rewrite <- Hrun. symmetry.
    refine (proj1 (@C10_fresnel_top_rows R _ _ stack_11a stack_11b heap_11 100%R false
                     eq_refl _)).
    intros [| [| m]]; reflexivity.
Defined.

(** C2 on an array of rank 1, which the three filters reject, and on an
    array of rank 2, which they take as a stack of one image. *)
Lemma C2_witness :
  fresnel_filter vector_4 "PROJECTION" 100%R false heap_vector
  = raise (ValueError
             "Invalid number of dimensions in data: 1, please provide a stack of 2D projections.")
  /\ retrieve_phase vector_4 (1 / 10000)%R 50%R 20%R (1 / 1000)%R true heap_vector
     = raise (ValueError
                "Invalid number of dimensions in data: 1, please provide a stack of 2D projections.")
  /\ paganin_filter array_2x2 250%R 53%R 1%R (128 / 100)%R 1 1 Edge 0%R heap_2x2
     = paganin_filter stack_2x2 250%R 53%R 1%R (128 / 100)%R 1 1 Edge 0%R heap_2x2.
Proof.
  destruct (@C2_rank_check R _ _ vector_4 heap_vector "PROJECTION"%string 100%R false
              250%R 53%R 1%R (128 / 100)%R 1%Z 1%Z Edge 0%R
              (1 / 10000)%R 50%R 20%R (1 / 1000)%R true) as (Hreject & _ & _).
  destruct (@C2_rank_check R _ _ array_2x2 heap_2x2 "PROJECTION"%string 100%R false
              250%R 53%R 1%R (128 / 100)%R 1%Z 1%Z Edge 0%R
              (1 / 10000)%R 50%R 20%R (1 / 1000)%R true) as (_ & Hpromote & _).
  destruct Hreject as (Hf & _ & Hr); [cbn; lia | cbn; lia |].
  destruct (Hpromote eq_refl) as (_ & _ & _ & Hp & _).
  split; [exact Hf |]. split; [exact Hr | exact Hp].
Defined.

(** C3 on a double-precision stack: [paganin_filter] returns a
    single-precision array. *)
Lemma C3_witness :
  dtype_of stack_2x2 = float64
  /\ exists res hp',
       paganin_filter stack_2x2 250%R 53%R 1%R (128 / 100)%R 1 1 Edge 0%R heap_2x2
       = ok (res, hp')
       /\ dtype_of res = float32.
Proof.
  split; [reflexivity |].
  destruct (@paganin_returns_exact stack_2x2 heap_2x2 1 2 2 wf_stack_2x2 eq_refl
              250%R 53%R 1%R (128 / 100)%R 1%Z 1%Z Edge 0%R
              ltac:(lia) ltac:(lia) ltac:(lia) ltac:(lia) eq_refl ltac:(lra) ltac:(lra))
    as (res & hp' & Hrun & _).
  exists res, hp'. split; [exact Hrun |].
  destruct (@C3_output_dtype R _ _ stack_2x2 res heap_2x2 hp' "PROJECTION"%string 100%R false
              250%R 53%R 1%R (128 / 100)%R 1%Z 1%Z Edge 0%R
              (1 / 10000)%R 50%R 20%R (1 / 1000)%R true) as (_ & Hp & _).
  exact (Hp Hrun).
Defined.

(* ================================================================== *)
(** * Further properties of the filters *)

(* ------------------------------------------------------------------ *)
(** ** The inverse transform undoes the forward transform *)

Section Inversion.
Local Open Scope R_scope.

Ltac cring :=
  apply complex_eq;
  unfold cmul, cadd, cscale, cdiv_real, czero, of_real;
  cbn [fst snd fadd fsub fmul fdiv fzero numeric float_class];
  try ring.

Lemma csum_map_cadd {A : Type} (f g : A -> R * R) (l : list A) :
  csum (map (fun x => cadd (f x) (g x)) l) = cadd (csum (map f l)) (csum (map g l)).
Proof.
  induction l as [| a l IH]; cbn [map].
  - cbn [csum fold_right]. cring.
  - rewrite !csum_cons, IH. cring.
Qed.

Lemma csum_swap {A B : Type} (f : A -> B -> R * R) (la : list A) (lb : list B) :
  csum (map (fun a => csum (map (fun b => f a b) lb)) la)
  = csum (map (fun b => csum (map (fun a => f a b) la)) lb).
Proof.
  induction la as [| a la IH]; cbn [map].
  - cbn [csum fold_right]. symmetry. now apply csum_map_zero.
  - rewrite csum_cons, IH.
    rewrite <- csum_map_cadd. apply csum_map_ext. intros b _. now rewrite csum_cons.
Qed.

Lemma twiddle_full_turn_Z (n : nat) (q : Z) :
  (1 <= n)%nat -> twiddle n (Z.of_nat n * q) = (1, 0).
Proof.
  intros Hn. destruct (Z.le_gt_cases 0 q) as [Hq | Hq].
  - rewrite <- (Z2Nat.id q Hq). now apply twiddle_full_turn.
  - pose proof (@twiddle_full_turn n (Z.to_nat (- q)) Hn) as Hpos.
    rewrite Z2Nat.id in Hpos by lia.
    pose proof (twiddle_add n (Z.of_nat n * q) (Z.of_nat n * - q)) as Hadd.
    replace (Z.of_nat n * q + Z.of_nat n * - q)%Z with 0%Z in Hadd by lia.
    rewrite Hpos, twiddle_zero, cmul_one_r in Hadd. exact Hadd.
Qed.

Lemma twiddle_period (n : nat) (z q : Z) :
  (1 <= n)%nat -> twiddle n (z + Z.of_nat n * q) = twiddle n z.
Proof.
  intros Hn. rewrite <- twiddle_add, twiddle_full_turn_Z by exact Hn. apply cmul_one_r.
Qed.

(** The sum of the [n] powers of the twiddle factor of step [z]. *)
Lemma orthogonality (n : nat) (z : Z) :
  (1 <= n)%nat ->
  csum (map (fun k => twiddle n (Z.of_nat k * z)) (seq 0 n))
  = if (z mod Z.of_nat n =? 0)%Z then (INR n, 0) else czero.
Proof.
  intros Hn.
  pose proof (Z.mod_pos_bound z (Z.of_nat n) ltac:(lia)) as Hr.
  pose proof (Z.div_mod z (Z.of_nat n) ltac:(lia)) as Hz.
  set (r := (z mod Z.of_nat n)%Z) in *.
  rewrite (csum_map_ext _ (fun k => twiddle n (1 * Z.of_nat k * Z.of_nat (Z.to_nat r)))).
  2:{ intros k _. rewrite Z2Nat.id by lia.
      rewrite <- (@twiddle_period n (1 * Z.of_nat k * r) (Z.of_nat k * (z / Z.of_nat n)) Hn).
      f_equal. nia. }
  fold (geometric n (Z.to_nat r)).
  destruct (Z.eqb_spec r 0) as [E | E].
  - rewrite E. apply geometric_zero_index.
  - apply geometric_vanishes. lia.
Qed.

Lemma index_difference (n m j : nat) :
  (m < n)%nat -> (j < n)%nat ->
  ((Z.of_nat m - Z.of_nat j) mod Z.of_nat n =? 0)%Z = (m =? j)%nat.
Proof.
  intros Hm Hj.
  destruct (Nat.eqb_spec m j) as [-> | Hne].
  - rewrite Z.sub_diag, Z.mod_0_l by lia. reflexivity.
  - apply Z.eqb_neq. intros Hmod.
    apply Z.mod_divide in Hmod; [| lia].
    destruct Hmod as [q Hq].
    assert (Hcases : (q = 0 \/ 1 <= q \/ q <= -1)%Z) by lia.
    destruct Hcases as [-> | [Hq1 | Hq1]]; nia.
Qed.

Lemma csum_single (c : R * R) (j s n : nat) :
  (s <= j < s + n)%nat ->
  csum (map (fun m => if (m =? j)%nat then c else czero) (seq s n)) = c.
Proof.
  revert s. induction n as [| n IH]; intros s Hj; [lia |].
  cbn [seq map]. rewrite csum_cons.
  destruct (Nat.eqb_spec s j) as [-> | Hne].
  - rewrite csum_map_zero; [apply cadd_zero_r |].
    intros m Hm. apply in_seq in Hm.
    destruct (Nat.eqb_spec m j); [lia | reflexivity].
  - rewrite IH by lia. apply cadd_zero_l.
Qed.

(** One dimension: [ifft(fft(v)) = v], before the division by the length. *)
Lemma idft1_dft1 (v : list (R * R)) (j : nat) :
  (j < length v)%nat ->
  dft1_at (-1) (map (dft1_at 1 v) (seq 0 (length v))) j
  = cscale (nth j v czero) (INR (length v)).
Proof.
  intros Hj. unfold dft1_at at 1. unfold complex in *.
  rewrite length_map, length_seq.
  remember (length v) as n eqn:En.
  rewrite (csum_map_ext _
             (fun k => csum (map (fun m => cmul (nth m v czero)
                                             (twiddle n (Z.of_nat k
                                                * (Z.of_nat m - Z.of_nat j))))
                               (seq 0 n)))).
  2:{ intros k Hk. apply in_seq in Hk.
      rewrite nth_map_lt with (d' := 0%nat) by (rewrite length_seq; lia).
      rewrite seq_nth by lia. cbn [Nat.add].
      unfold dft1_at. unfold complex in *. rewrite <- En. rewrite <- csum_map_cmul_r.
      apply csum_map_ext. intros m _.
      replace (Z.of_nat k * (Z.of_nat m - Z.of_nat j))%Z
        with (1 * Z.of_nat m * Z.of_nat k + -1 * Z.of_nat k * Z.of_nat j)%Z by lia.
      rewrite <- twiddle_add. cring. }
  rewrite csum_swap.
  rewrite (csum_map_ext _
             (fun m => if (m =? j)%nat then cscale (nth j v czero) (INR n) else czero)).
  2:{ intros m Hm. apply in_seq in Hm.
      rewrite csum_map_cmul_l, orthogonality by lia.
      rewrite index_difference by lia.
      destruct (Nat.eqb_spec m j) as [-> | _]; [cring | apply cmul_zero_r]. }
  apply csum_single. lia.
Qed.

(** Two dimensions: [ifft2(fft2(x)) = x], before the division by the size. *)
Lemma sum4 (x : nat -> nat -> R * R) (al be : nat -> nat -> R * R) (h w : nat) :
  csum (map (fun k => csum (map (fun l =>
    csum (map (fun m => csum (map (fun n =>
      cmul (x m n) (cmul (al k m) (be l n))) (seq 0 w))) (seq 0 h)))
    (seq 0 w))) (seq 0 h))
  = csum (map (fun m => csum (map (fun n =>
      cmul (x m n) (cmul (csum (map (fun k => al k m) (seq 0 h)))
                         (csum (map (fun l => be l n) (seq 0 w)))))
      (seq 0 w))) (seq 0 h)).
Proof.
  (* sum over l inside, for fixed k *)
  rewrite (csum_map_ext _
             (fun k => csum (map (fun m => csum (map (fun n =>
                cmul (x m n) (cmul (al k m) (csum (map (fun l => be l n) (seq 0 w)))))
                (seq 0 w))) (seq 0 h)))).
  2:{ intros k _. rewrite csum_swap. apply csum_map_ext. intros m _.
      rewrite csum_swap. apply csum_map_ext. intros n _.
      rewrite (csum_map_ext _ (fun l => cmul (cmul (x m n) (al k m)) (be l n)))
        by (intros l _; cring).
      rewrite csum_map_cmul_l. cring. }
  rewrite csum_swap. apply csum_map_ext. intros m _.
  rewrite csum_swap. apply csum_map_ext. intros n _.
  rewrite (csum_map_ext _
             (fun k => cmul (al k m)
                         (cmul (x m n) (csum (map (fun l => be l n) (seq 0 w))))))
    by (intros k _; cring).
  rewrite csum_map_cmul_r. cring.
Qed.

Lemma idft2_dft2 (x : matrix (R * R)) (h w i j : nat) :
  rect h w x -> (i < h)%nat -> (j < w)%nat ->
  dft2_at (-1) (dft2 1 x) i j = cscale (nth j (nth i x []) czero) (INR h * INR w).
Proof.
  intros Hx Hi Hj.
  assert (Hh : (1 <= h)%nat) by lia.
  pose proof (rect_dft2 1 x) as Hd. unfold complex in *.
  rewrite (rect_nrows Hx), (rect_ncols Hx Hh) in Hd.
  unfold dft2_at at 1. unfold complex in *.
  rewrite (rect_nrows Hd), (rect_ncols Hd Hh).
  rewrite (csum_map_ext _
    (fun k => csum (map (fun l =>
       csum (map (fun m => csum (map (fun n =>
         cmul (nth n (nth m x []) czero)
           (cmul (twiddle h (Z.of_nat k * (Z.of_nat m - Z.of_nat i)))
                 (twiddle w (Z.of_nat l * (Z.of_nat n - Z.of_nat j)))))
         (seq 0 w))) (seq 0 h)))
       (seq 0 w)))).
  2:{ intros k Hk. apply in_seq in Hk. apply csum_map_ext. intros l Hl. apply in_seq in Hl.
      rewrite nth_dft2 by (unfold complex in *;
                           rewrite ?(rect_nrows Hx), ?(rect_ncols Hx Hh); lia).
      unfold dft2_at. unfold complex in *.
      rewrite (rect_nrows Hx), (rect_ncols Hx Hh).
      rewrite <- csum_map_cmul_r. apply csum_map_ext. intros m _.
      rewrite <- csum_map_cmul_r. apply csum_map_ext. intros n _.
      replace (Z.of_nat k * (Z.of_nat m - Z.of_nat i))%Z
        with (1 * Z.of_nat m * Z.of_nat k + -1 * Z.of_nat k * Z.of_nat i)%Z by lia.
      replace (Z.of_nat l * (Z.of_nat n - Z.of_nat j))%Z
        with (1 * Z.of_nat n * Z.of_nat l + -1 * Z.of_nat l * Z.of_nat j)%Z by lia.
      rewrite <- !twiddle_add. cring. }
  rewrite (sum4 (fun m n => nth n (nth m x []) czero)
             (fun k m => twiddle h (Z.of_nat k * (Z.of_nat m - Z.of_nat i)))
             (fun l n => twiddle w (Z.of_nat l * (Z.of_nat n - Z.of_nat j)))).
  rewrite (csum_map_ext _
    (fun m => if (m =? i)%nat
              then cscale (nth j (nth i x []) czero) (INR h * INR w) else czero)).
  2:{ intros m Hm. apply in_seq in Hm.
      rewrite (csum_map_ext _
        (fun n => if (n =? j)%nat
                  then (if (m =? i)%nat
                        then cscale (nth j (nth i x []) czero) (INR h * INR w) else czero)
                  else czero)).
      2:{ intros n Hn. apply in_seq in Hn.
          rewrite !orthogonality by lia. rewrite !index_difference by lia.
          destruct (Nat.eqb_spec n j) as [-> | _];
            destruct (Nat.eqb_spec m i) as [-> | _]; cring. }
      apply csum_single. lia. }
  apply csum_single. lia.
Qed.
End Inversion.

(* ------------------------------------------------------------------ *)
(** ** Padding, shifting and cropping of lists *)

Lemma pad_edge1_repeat {A : Type} (x : A) (before after n : nat) :
  1 <= n -> pad_edge1 before after (repeat x n) = repeat x (before + n + after).
Proof.
  intros Hn. destruct n as [| n]; [lia |]. unfold pad_edge1. cbn [repeat].
  assert (Hlast : last (x :: repeat x n) x = x).
  { clear Hn. induction n as [| n IH]; [reflexivity |]. cbn [repeat]. exact IH. }
  rewrite Hlast. change (x :: repeat x n) with (repeat x (S n)).
  rewrite <- !repeat_app. f_equal. lia.
Qed.

Lemma pad_edge_full {A : Type} (x : A) (t b l r h w : nat) :
  1 <= h -> 1 <= w ->
  pad_edge t b l r (full h w x) = ok (full (t + h + b) (l + w + r) x).
Proof.
  intros Hh Hw. unfold pad_edge, full.
  destruct h as [| h]; [lia |]. destruct w as [| w]; [lia |].
  cbn [nrows ncols repeat Datatypes.length Nat.eqb andb]. f_equal.
  change (repeat (x :: repeat x w) h) with (repeat (repeat x (S w)) h).
  change ((x :: repeat x w) :: repeat (repeat x (S w)) h)
    with (repeat (repeat x (S w)) (S h)).
  rewrite pad_edge1_repeat by lia. rewrite map_repeat.
  rewrite pad_edge1_repeat by lia. reflexivity.
Qed.

Lemma firstn_repeat_le {A : Type} (x : A) (k n : nat) :
  k <= n -> firstn k (repeat x n) = repeat x k.
Proof.
  revert n. induction k as [| k IH]; intros [| n] Hk; cbn; try lia; try reflexivity.
  now rewrite IH by lia.
Qed.

Lemma skipn_repeat_le {A : Type} (x : A) (k n : nat) :
  k <= n -> skipn k (repeat x n) = repeat x (n - k).
Proof.
  revert n. induction k as [| k IH]; intros [| n] Hk; cbn; try lia; try reflexivity.
  now rewrite IH by lia.
Qed.

Lemma ifftshift1_repeat {A : Type} (x : A) (n : nat) : ifftshift1 (repeat x n) = repeat x n.
Proof.
  unfold ifftshift1. rewrite repeat_length.
  assert (Hle : n / 2 <= n) by (pose proof (Nat.Div0.mul_div_le n 2); lia).
  rewrite firstn_repeat_le, skipn_repeat_le by exact Hle.
  rewrite <- repeat_app. f_equal. lia.
Qed.

Lemma ifftshift_full {A : Type} (x : A) (h w : nat) : ifftshift (full h w x) = full h w x.
Proof.
  unfold ifftshift, full. rewrite ifftshift1_repeat, map_repeat.
  now rewrite ifftshift1_repeat.
Qed.

(** [ifftshift] undoes [fftshift]. *)
Lemma ifftshift1_fftshift1 {A : Type} (l : list A) : ifftshift1 (fftshift1 l) = l.
Proof.
  unfold ifftshift1. rewrite length_fftshift1. unfold fftshift1.
  remember (length l) as n eqn:En.
  assert (Hle : n / 2 <= n) by (pose proof (Nat.Div0.mul_div_le n 2); lia).
  assert (Hlen : length (skipn (n - n / 2) l) = n / 2)
    by (rewrite length_skipn; lia).
  rewrite skipn_app, firstn_app, Hlen, Nat.sub_diag.
  rewrite (@skipn_all2 _ (n / 2) (skipn (n - n / 2) l)) by lia.
  rewrite (@firstn_all2 _ (n / 2) (skipn (n - n / 2) l)) by lia.
  cbn [skipn firstn app]. rewrite app_nil_r. apply firstn_skipn.
Qed.

Lemma ifftshift_axis1_fftshift_axis1 {A : Type} (m : matrix A) :
  ifftshift_axis1 (fftshift_axis1 m) = m.
Proof.
  unfold ifftshift_axis1, fftshift_axis1. rewrite map_map.
  transitivity (map (fun r : list A => r) m); [| apply map_id].
  apply map_ext. apply ifftshift1_fftshift1.
Qed.

Lemma map2_repeat_r {A B C : Type} (f : A -> B -> C) (a : list A) (c : B) (n : nat) :
  length a = n -> map2 f a (repeat c n) = map (fun x => f x c) a.
Proof.
  revert n. induction a as [| x a IH]; intros [| n] Hl; try discriminate; [reflexivity |].
  unfold map2 in *. cbn [repeat combine map fst snd]. f_equal. apply IH.
  simpl in Hl. lia.
Qed.

Lemma map2_full_r {A B : Type} (f : A -> B -> A) (c : B) (h w : nat) (m : matrix A) :
  rect h w m -> (forall x, f x c = x) -> map2 (map2 f) m (full h w c) = m.
Proof.
  intros [Hl Hr] Hf. unfold full. rewrite map2_repeat_r by exact Hl.
  transitivity (map (fun r : list A => r) m); [| apply map_id].
  apply map_ext_in. intros r Hin. rewrite Forall_forall in Hr.
  rewrite map2_repeat_r by (now apply Hr).
  transitivity (map (fun x : A => x) r); [| apply map_id].
  apply map_ext. exact Hf.
Qed.

Lemma slice_pad_edge1 {A : Type} (before after n : nat) (l : list A) :
  length l = n -> 1 <= n ->
  slice (Some (Z.of_nat before)) (Some (Z.of_nat before + Z.of_nat n)%Z)
    (pad_edge1 before after l) = l.
Proof.
  intros Hl Hn.
  destruct l as [| x l]; [simpl in Hl; lia |].
  rewrite slice_inside by (rewrite length_pad_edge1 by discriminate; lia).
  unfold pad_edge1.
  rewrite skipn_app, repeat_length, Nat.sub_diag.
  rewrite skipn_all2 by (rewrite repeat_length; lia).
  cbn [skipn app]. rewrite app_comm_cons, firstn_app, Hl, Nat.sub_diag.
  rewrite firstn_all2 by lia. cbn [firstn]. apply app_nil_r.
Qed.

Lemma map_nth_seq' {A : Type} (d : A) (l : list A) :
  map (fun k => nth k l d) (seq 0 (length l)) = l.
Proof.
  apply nth_ext with (d := d) (d' := d).
  - now rewrite length_map, length_seq.
  - intros k Hk. rewrite length_map, length_seq in Hk.
    rewrite nth_map_lt with (d' := 0) by (now rewrite length_seq).
    now rewrite seq_nth.
Qed.

Lemma matrix_nth_seq {A : Type} (d : A) (h w : nat) (m : matrix A) :
  rect h w m ->
  map (fun k => map (fun l => nth l (nth k m []) d) (seq 0 w)) (seq 0 h) = m.
Proof.
  intros [Hl Hr]. subst h.
  rewrite <- (map_nth_seq' [] m) at 2.
  apply map_ext_in. intros k Hk. apply in_seq in Hk.
  assert (Hw : length (nth k m []) = w)
    by (apply (@Forall_nth_default _ (fun r => length r = w)); [assumption | lia]).
  rewrite <- Hw. apply map_nth_seq'.
Qed.

Lemma splice_step2 {A : Type} (g : A -> A) (i : nat) (data res0 : list A) (d : A) :
  i < length data -> length res0 = length data ->
  splice i (S i) [g (nth i data d)] (map g (firstn i data) ++ skipn i res0)
  = map g (firstn (S i) data) ++ skipn (S i) res0.
Proof.
  revert data res0. induction i as [| i IH]; intros [| a l] [| b r] Hi Hl;
    simpl in Hi, Hl; try lia.
  - reflexivity.
  - specialize (IH l r ltac:(lia) ltac:(lia)). unfold splice in *.
    cbn [firstn skipn map app nth]. cbn [firstn skipn map app nth] in IH.
    now rewrite IH.
Qed.

Lemma pad_edge_value {A : Type} (t b l r h w : nat) (m : matrix A) :
  rect h w m -> 1 <= h -> 1 <= w ->
  pad_edge t b l r m = ok (map (pad_edge1 l r) (pad_edge1 t b m)).
Proof.
  intros Hm Hh Hw. unfold pad_edge.
  rewrite (rect_nrows Hm), (rect_ncols Hm Hh).
  destruct (Nat.eqb_spec h 0) as [E | _]; [lia |].
  destruct (Nat.eqb_spec w 0) as [E | _]; [lia |].
  reflexivity.
Qed.

Lemma pad_edge1_none {A : Type} (l : list A) : pad_edge1 0 0 l = l.
Proof.
  destruct l as [| x l]; [reflexivity |]. unfold pad_edge1. cbn [repeat app].
  f_equal. apply app_nil_r.
Qed.

Lemma ok_eq {A : Type} (a b : A) : a = b -> ok a = ok b.
Proof. now intros ->. Qed.

Lemma map_const {A B : Type} (f : A -> B) (c : B) (l : list A) :
  (forall x, f x = c) -> map f l = repeat c (length l).
Proof.
  intros Hf. induction l as [| a l IH]; [reflexivity |].
  cbn [map Datatypes.length repeat]. now rewrite Hf, IH.
Qed.

(* ------------------------------------------------------------------ *)
(** ** Transform round trips in exact arithmetic *)

Section RoundTrips.
Local Open Scope R_scope.

Lemma pad_edge_int_nat (t b l r : nat) (m : matrix R) :
  pad_edge_int (Z.of_nat t) (Z.of_nat b) (Z.of_nat l) (Z.of_nat r) m = pad_edge t b l r m.
Proof.
  unfold pad_edge_int.
  destruct (Z.ltb_spec (Z.of_nat t) 0); [lia |].
  destruct (Z.ltb_spec (Z.of_nat b) 0); [lia |].
  destruct (Z.ltb_spec (Z.of_nat l) 0); [lia |].
  destruct (Z.ltb_spec (Z.of_nat r) 0); [lia |].
  cbn [orb]. now rewrite !Nat2Z.id.
Qed.

Lemma cdiv_real_one (z : R * R) : cdiv_real z 1 = z.
Proof.
  apply complex_eq; unfold cdiv_real; cbn [fst snd fdiv numeric]; field.
Qed.

Lemma cdiv_cscale (z : R * R) (x y : R) : x = y -> y <> 0 -> cdiv_real (cscale z x) y = z.
Proof.
  intros -> Hy.
  apply complex_eq; unfold cdiv_real, cscale; cbn [fst snd fdiv fmul numeric]; now field.
Qed.

Lemma creal_of_real (m : matrix R) : mmap creal (mmap of_real m) = m.
Proof.
  unfold mmap. rewrite map_map.
  transitivity (map (fun r : list R => r) m); [| apply map_id].
  apply map_ext. intros r. rewrite map_map. apply map_id.
Qed.

(** [cp.fft.ifft(cp.fft.fft(x))] is [x]. *)
Lemma ifft_fft (h w : nat) (x : matrix (R * R)) :
  rect h w x -> (1 <= h)%nat -> (1 <= w)%nat ->
  exists y, fft x = ok y /\ rect h w y /\ ifft y = ok x.
Proof.
  intros Hx Hh Hw.
  destruct (@fft_rect R _ _ h w x Hx Hh Hw) as (y & Hy & Hry).
  exists y. split; [exact Hy |]. split; [exact Hry |].
  unfold fft in Hy. unfold complex in *. rewrite (rect_ncols Hx Hh) in Hy.
  destruct (Nat.eqb_spec w 0) as [E | _]; [lia |].
  injection Hy as <-.
  unfold ifft. unfold complex in *. rewrite (rect_ncols Hry Hh).
  destruct (Nat.eqb_spec w 0) as [E | _]; [lia |].
  apply ok_eq. rewrite map_map.
  transitivity (map (fun r : list (R * R) => r) x); [| apply map_id].
  apply map_ext_in. intros v Hv.
  assert (Hlv : length v = w).
  { destruct Hx as [_ Hr]. rewrite Forall_forall in Hr. now apply Hr. }
  rewrite length_map, length_seq.
  transitivity (map (fun k => nth k v czero) (seq 0 (length v)));
    [| apply map_nth_seq'].
  apply map_ext_in. intros k Hk. apply in_seq in Hk.
  rewrite idft1_dft1 by lia.
  apply cdiv_cscale.
  - cbn [of_Z numeric]. now rewrite <- INR_IZR_INZ.
  - cbn [of_Z numeric]. apply not_0_IZR. lia.
Qed.

(** [cp.fft.ifft2(cp.fft.fft2(x))] is [x]. *)
Lemma ifft2_fft2 (h w : nat) (x : matrix (R * R)) :
  rect h w x -> (1 <= h)%nat -> (1 <= w)%nat ->
  exists y, fft2 x = ok y /\ rect h w y /\ ifft2 y = ok x.
Proof.
  intros Hx Hh Hw.
  destruct (@fft2_rect R _ _ h w x Hx Hh Hw) as (y & Hy & Hry).
  exists y. split; [exact Hy |]. split; [exact Hry |].
  unfold fft2 in Hy. unfold complex in *.
  rewrite (rect_nrows Hx), (rect_ncols Hx Hh) in Hy.
  destruct (Nat.eqb_spec h 0) as [E | _]; [lia |].
  destruct (Nat.eqb_spec w 0) as [E | _]; [lia |].
  cbn [orb] in Hy. injection Hy as <-.
  unfold ifft2. unfold complex in *.
  rewrite (rect_nrows Hry), (rect_ncols Hry Hh).
  destruct (Nat.eqb_spec h 0) as [E | _]; [lia |].
  destruct (Nat.eqb_spec w 0) as [E | _]; [lia |].
  cbn [orb]. apply ok_eq.
  unfold mmap. unfold dft2 at 1. unfold complex in *.
  rewrite (rect_nrows Hry), (rect_ncols Hry Hh).
  rewrite map_map.
  transitivity (map (fun k => map (fun l => nth l (nth k x []) czero) (seq 0 w)) (seq 0 h));
    [| apply (matrix_nth_seq czero Hx)].
  apply map_ext_in. intros k Hk. apply in_seq in Hk.
  rewrite map_map. apply map_ext_in. intros l Hl. apply in_seq in Hl.
  rewrite (@idft2_dft2 x h w k l) by (try assumption; lia).
  apply cdiv_cscale.
  - cbn [of_Z numeric]. now rewrite <- INR_IZR_INZ, mult_INR.
  - cbn [of_Z numeric]. apply not_0_IZR. nia.
Qed.
End RoundTrips.

(* ------------------------------------------------------------------ *)
(** ** Cropping what was padded *)

Lemma slice_map {A B : Type} (f : A -> B) (start stop : option Z) (l : list A) :
  slice start stop (map f l) = map f (slice start stop l).
Proof.
  unfold slice. rewrite length_map.
  destruct (slice_range (length l) start stop) as [lo hi].
  now rewrite skipn_map, firstn_map.
Qed.

Lemma map_slice_mmap {A B : Type} (f : A -> B) (start stop : option Z) (m : matrix A) :
  map (slice start stop) (mmap f m) = mmap f (map (slice start stop) m).
Proof.
  unfold mmap. rewrite !map_map. apply map_ext. intros r. apply slice_map.
Qed.

Lemma crop_mmap {A B : Type} (f : A -> B) (r0 r1 c0 c1 : Z) (m : matrix A) :
  crop r0 r1 c0 c1 (mmap f m) = mmap f (crop r0 r1 c0 c1 m).
Proof.
  unfold crop, mmap. rewrite slice_map, !map_map.
  apply map_ext. intros r. apply slice_map.
Qed.

Lemma unpad_columns {A : Type} (pw w : nat) (m : matrix A) :
  Forall (fun r => length r = w) m -> 1 <= w ->
  map (slice (Some (Z.of_nat pw)) (Some (Z.of_nat pw + Z.of_nat w)%Z))
    (map (pad_edge1 pw pw) m) = m.
Proof.
  intros Hm Hw. rewrite map_map.
  transitivity (map (fun r : list A => r) m); [| apply map_id].
  apply map_ext_in. intros r Hr. rewrite Forall_forall in Hm.
  apply slice_pad_edge1; [now apply Hm | exact Hw].
Qed.

Lemma unpad_rows {A : Type} (pw h : nat) (img : list A) (d : A) :
  length img = h -> 10 < h ->
  slice (Some (Z.of_nat pw)) (Some (Z.of_nat pw + Z.of_nat h)%Z)
    (pad_edge1 (pw + 10) pw (skipn 10 img))
  = repeat (nth 10 img d) 10 ++ skipn 10 img.
Proof.
  intros Hl Hh.
  assert (Hs : length (skipn 10 img) = h - 10) by (rewrite length_skipn; lia).
  destruct (skipn 10 img) as [| x s] eqn:Es; [simpl in Hs; lia |].
  assert (Hx : nth 10 img d = x).
  { rewrite <- (Nat.add_0_r 10), <- nth_skipn, Es. reflexivity. }
  rewrite slice_inside by (rewrite length_pad_edge1 by discriminate; lia).
  unfold pad_edge1. rewrite repeat_app, <- app_assoc.
  rewrite skipn_app, repeat_length, Nat.sub_diag.
  rewrite skipn_all2 by (rewrite repeat_length; lia).
  rewrite app_nil_l, skipn_O, app_assoc, firstn_app.
  rewrite firstn_all2 by (rewrite length_app, repeat_length; lia).
  replace (h - length (repeat x 10 ++ x :: s)) with 0
    by (rewrite length_app, repeat_length; lia).
  rewrite firstn_O, app_nil_r, Hx. reflexivity.
Qed.

Section FresnelIdentity.
Local Open Scope R_scope.

Lemma make_window_unit (h w : nat) (pattern : string) :
  _make_window h w 0 pattern = full h w 1.
Proof.
  unfold _make_window, full.
  destruct (String.eqb pattern "PROJECTION").
  - rewrite map_const with (c := repeat 1 w).
    + now rewrite length_map, length_arange.
    + intros v. rewrite map_const with (c := 1).
      * now rewrite length_map, length_arange.
      * intros u. cbn [fadd fmul lit numeric]. rewrite Q2R_one. ring.
  - f_equal. rewrite map_const with (c := 1).
    + now rewrite length_map, length_arange.
    + intros u. cbn [fadd fmul lit numeric]. rewrite Q2R_one. ring.
Qed.

(** One image through the one-dimensional branch with a window of ones. *)
Lemma fresnel_image_unit_rows (pattern : string) (pw h w : nat) (img : matrix R) :
  String.eqb pattern "PROJECTION" = false ->
  rect h w img -> (1 <= h)%nat -> (1 <= w)%nat ->
  fresnel_image pattern (full h w 1) (Z.of_nat pw) h w img = ok img.
Proof.
  intros Hpat Himg Hh Hw. unfold fresnel_image. rewrite Hpat.
  change 0%Z with (Z.of_nat 0). rewrite !pad_edge_int_nat.
  rewrite (pad_edge_value 0 0 pw pw Himg Hh Hw), pad_edge_full by assumption.
  cbn [rbind ok]. rewrite pad_edge1_none. cbn [Nat.add]. rewrite Nat.add_0_r.
  assert (Hpad : rect h (pw + w + pw) (map (pad_edge1 pw pw) img)).
  { eapply rect_map_rows; [| exact Himg].
    intros r Hr. rewrite length_pad_edge1; [lia |]. intros ->. simpl in Hr. lia. }
  destruct (@ifft_fft h (pw + w + pw) (mmap of_real (map (pad_edge1 pw pw) img)))
    as (y & Hy & Hry & Hinv); [now apply rect_mmap | lia | lia |].
  rewrite Hy. cbn [rbind ok].
  rewrite (@elementwise_rect _ _ _ cdiv_real h (pw + w + pw));
    [| now apply rect_fftshift_axis1 | apply rect_full | exact Hh].
  cbn [rbind ok].
  rewrite (@map2_full_r (R * R) R cdiv_real 1 h (pw + w + pw));
    [| now apply rect_fftshift_axis1 | apply cdiv_real_one].
  rewrite ifftshift_axis1_fftshift_axis1, Hinv. cbn [rbind ok].
  apply ok_eq. rewrite map_slice_mmap.
  rewrite creal_of_real. apply unpad_columns; [apply Himg | exact Hw].
Qed.

(** One image through the two-dimensional branch with a window of ones. *)
Lemma fresnel_image_unit_projection (pw h w : nat) (img : matrix R) :
  rect h w img -> (10 < h)%nat -> (1 <= w)%nat ->
  fresnel_image "PROJECTION" (full h w 1) (Z.of_nat pw) h w img
  = ok (top_rows_replaced img).
Proof.
  intros Himg Hh Hw. unfold fresnel_image. cbn [String.eqb Ascii.eqb Bool.eqb].
  change 10%Z with (Z.of_nat 10). rewrite slice_from, <- Nat2Z.inj_add.
  rewrite !pad_edge_int_nat.
  assert (Hskip : rect (h - 10) w (skipn 10 img)) by (now apply rect_skipn).
  rewrite (pad_edge_value (pw + 10) pw pw pw Hskip) by lia.
  rewrite pad_edge_full by lia. cbn [rbind ok].
  set (P := map (pad_edge1 pw pw) (pad_edge1 (pw + 10) pw (skipn 10 img))).
  assert (HP : rect (pw + h + pw) (pw + w + pw) P).
  { destruct (@pad_edge_rect R (pw + 10) pw pw pw (h - 10) w (skipn 10 img))
      as (P' & HP' & Hr); [assumption | lia | lia |].
    rewrite (pad_edge_value (pw + 10) pw pw pw Hskip) in HP' by lia.
    injection HP' as <-. eapply rect_cast; [exact Hr | lia | lia]. }
  destruct (@ifft2_fft2 (pw + h + pw) (pw + w + pw) (mmap of_real P))
    as (y & Hy & Hry & Hinv); [now apply rect_mmap | lia | lia |].
  rewrite Hy. cbn [rbind ok]. rewrite ifftshift_full.
  rewrite (@elementwise_rect _ _ _ cdiv_real (pw + h + pw) (pw + w + pw));
    [| exact Hry | apply rect_full | lia].
  cbn [rbind ok].
  rewrite (@map2_full_r (R * R) R cdiv_real 1 (pw + h + pw) (pw + w + pw));
    [| exact Hry | apply cdiv_real_one].
  rewrite Hinv. cbn [rbind ok]. apply ok_eq.
  rewrite crop_mmap, creal_of_real.
  unfold crop, P. rewrite slice_map.
  rewrite (@unpad_rows _ pw h img []) by (try apply Himg; lia).
  fold (top_rows_replaced img).
  apply unpad_columns; [| exact Hw].
  unfold top_rows_replaced. apply Forall_app. split.
  - apply Forall_repeat. apply (@Forall_nth_default _ (fun r => length r = w)); [apply Himg |].
    destruct Himg; lia.
  - apply Forall_skipn, Himg.
Qed.
End FresnelIdentity.

(** The loop of [fresnel_filter] when the loop body turns every image
    [img] of shape (h, w) with the property [P] into [g img]. *)
Section FresnelLoop.
Context {F : Type} `{Numeric F}.

Lemma fresnel_stack_map (P : matrix F -> Prop) (g : matrix F -> matrix F) (d h w : nat)
  (data : list (matrix F)) (pattern : string) (ratio : F) (apply_log : bool) :
  length data = d -> Forall (rect h w) data ->
  Forall P (if apply_log then map (mmap (fun x => fneg (fln x))) data else data) ->
  (0 <= ftrunc (fmul (lit (1 # 10)) (of_Z (Z.of_nat w))))%Z ->
  (forall (pw : nat) (img : matrix F),
      rect h w img -> P img ->
      fresnel_image pattern (_make_window h w ratio pattern) (Z.of_nat pw) h w img
      = ok (g img) /\ rect h w (g img)) ->
  fresnel_stack [d; h; w] data pattern ratio apply_log
  = ok ([d; h; w],
        if apply_log
        then map (mmap (fun x => fexp (fneg x)))
               (map g (map (mmap (fun x => fneg (fln x))) data))
        else map g data).
Proof.
  intros Hlen Hdata HP Hpad Hg. unfold fresnel_stack.
  set (pad_width := Z.min 150 (ftrunc (fmul (lit (1 # 10)) (of_Z (Z.of_nat w))))).
  assert (Hpw : (0 <= pad_width)%Z) by (subst pad_width; lia).
  replace (Z.min (Z.of_nat h) (Z.of_nat h + pad_width * 2 - pad_width)) with (Z.of_nat h) by lia.
  replace (Z.min (Z.of_nat w) (Z.of_nat w + pad_width * 2 - pad_width)) with (Z.of_nat w) by lia.
  rewrite zeros_stack_ok. cbn [rbind ok]. rewrite !Nat2Z.id.
  set (data' := if apply_log then map (mmap (fun x => fneg (fln x))) data else data).
  assert (Hlen' : length data' = d).
  { subst data'. destruct apply_log; [now rewrite length_map | assumption]. }
  assert (Hdata' : Forall (rect h w) data').
  { subst data'. destruct apply_log; [now apply Forall_rect_map | assumption]. }
  rewrite <- (Z2Nat.id pad_width) by exact Hpw.
  destruct (@for_range_inv (list (matrix F))
              (fun i res => res = map g (firstn i data') ++ skipn i (repeat (full h w fzero) d))
              (fun i res =>
                 rbind (fresnel_image pattern (_make_window h w ratio pattern)
                          (Z.of_nat (Z.to_nat pad_width)) h w (nth i data' []))
                   (fun mat_dec => assign_image h w i mat_dec res))
              d 0 (repeat (full h w fzero) d)) as (res & -> & Hres).
  { reflexivity. }
  { intros i res Hi ->.
    assert (Hri : rect h w (nth i data' [])) by (apply Forall_nth_default; [assumption | lia]).
    assert (HPi : P (nth i data' [])) by (apply Forall_nth_default; [exact HP | lia]).
    destruct (Hg (Z.to_nat pad_width) (nth i data' []) Hri HPi) as [-> Hgi].
    cbn [rbind ok]. rewrite assign_image_rect; [| | exact Hgi].
    2:{ rewrite length_app, length_map, length_firstn, length_skipn, repeat_length. lia. }
    eexists. split; [reflexivity |].
    apply splice_step2; [lia | rewrite repeat_length; lia]. }
  cbn [rbind ok Nat.add]. rewrite Hres.
  rewrite firstn_all2 by lia. rewrite skipn_all2 by (rewrite repeat_length; lia).
  rewrite app_nil_r. subst data'. now destruct apply_log.
Qed.
End FresnelLoop.

(* ------------------------------------------------------------------ *)
(** ** [fresnel_filter] with ratio 0 *)

Lemma top_rows_replaced_mmap {A B : Type} (f : A -> B) (m : matrix A) :
  top_rows_replaced (mmap f m) = mmap f (top_rows_replaced m).
Proof.
  unfold top_rows_replaced, mmap. rewrite map_app, map_repeat, skipn_map.
  f_equal. f_equal.
  destruct (Nat.lt_ge_cases 10 (length m)) as [Hlt | Hge].
  - now apply nth_map_lt.
  - rewrite !nth_overflow by (rewrite ?length_map; lia). reflexivity.
Qed.

Lemma rect_top_rows_replaced {A : Type} (h w : nat) (m : matrix A) :
  rect h w m -> 10 < h -> rect h w (top_rows_replaced m).
Proof.
  intros [Hl Hr] Hh. unfold top_rows_replaced. split.
  - rewrite length_app, repeat_length, length_skipn. lia.
  - apply Forall_app. split.
    + apply Forall_repeat. apply (@Forall_nth_default _ (fun r => length r = w)); [exact Hr | lia].
    + now apply Forall_skipn.
Qed.

Lemma exp_neg_neg_ln (m : matrix R) :
  Forall (Forall (fun x => (0 < x)%R)) m ->
  mmap (fun x => fexp (fneg x)) (mmap (fun x => fneg (fln x)) m) = m.
Proof.
  intros Hm. unfold mmap. rewrite map_map.
  transitivity (map (fun r : list R => r) m); [| apply map_id].
  apply map_ext_in. intros r Hr. rewrite Forall_forall in Hm. specialize (Hm r Hr).
  rewrite map_map.
  transitivity (map (fun x : R => x) r); [| apply map_id].
  apply map_ext_in. intros x Hx. rewrite Forall_forall in Hm. specialize (Hm x Hx).
  cbn [fexp fneg fln numeric float_class]. rewrite Ropp_involutive. now apply exp_ln.
Qed.

(** The contents [fresnel_filter] computes with ratio 0. *)
Lemma fresnel_stack_unit (d h w : nat) (data : list (matrix R)) (pattern : string)
  (apply_log : bool) :
  length data = d -> Forall (rect h w) data -> 1 <= h -> 1 <= w ->
  (String.eqb pattern "PROJECTION" = true -> 10 < h) ->
  (apply_log = true -> positive_stack data) ->
  fresnel_stack [d; h; w] data pattern 0%R apply_log
  = ok ([d; h; w],
        if String.eqb pattern "PROJECTION" then map top_rows_replaced data else data).
Proof.
  intros Hlen Hdata Hh Hw Hproj Hpos.
  set (g := fun img : matrix R =>
              if String.eqb pattern "PROJECTION" then top_rows_replaced img else img).
  rewrite (@fresnel_stack_map R _ _ (fun _ => True) g d h w data pattern 0%R apply_log
             Hlen Hdata);
    [| apply Forall_forall; intros img _; exact I | apply fresnel_pad_width_nonneg |].
  2:{ intros pw img Himg _. rewrite make_window_unit. subst g. cbv beta.
      destruct (String.eqb pattern "PROJECTION") eqn:Hpat.
      - apply String.eqb_eq in Hpat. subst pattern. specialize (Hproj eq_refl).
        split; [now apply fresnel_image_unit_projection | now apply rect_top_rows_replaced].
      - split; [now apply fresnel_image_unit_rows | exact Himg]. }
  apply ok_eq. f_equal.
  assert (Hmap : map g data
                 = if String.eqb pattern "PROJECTION" then map top_rows_replaced data else data).
  { subst g. destruct (String.eqb pattern "PROJECTION"); [reflexivity | apply map_id]. }
  destruct apply_log; [| exact Hmap].
  specialize (Hpos eq_refl). rewrite <- Hmap.
  rewrite !map_map. apply map_ext_in. intros img Himg.
  unfold positive_stack in Hpos. rewrite Forall_forall in Hpos. specialize (Hpos img Himg).
  subst g. cbv beta. destruct (String.eqb pattern "PROJECTION").
  - rewrite <- top_rows_replaced_mmap, exp_neg_neg_ln; [reflexivity | exact Hpos].
  - now apply exp_neg_neg_ln.
Qed.

Lemma fresnel_filter_unit (a : ndarray) (hp : heap) (d h w : nat) (pattern : string)
  (apply_log : bool) :
  wf_array hp a ->
  (if ndim a =? 2 then 1 :: shape a else shape a) = [d; h; w] ->
  1 <= h -> 1 <= w ->
  (String.eqb pattern "PROJECTION" = true -> 10 < h) ->
  (apply_log = true -> positive_stack (read hp a)) ->
  fresnel_filter a pattern 0%R apply_log hp
  = ok ({| base := length hp; dtype_of := float32; shape := [d; h; w] |},
        hp ++ [if String.eqb pattern "PROJECTION"
               then map top_rows_replaced (read hp a) else read hp a]).
Proof.
  intros Hwf Hshape Hh Hw Hproj Hpos.
  destruct (promoted_stack Hwf Hshape) as (a' & Hc & Hs & Hb & Hdt & Hlt & Hl & Hr).
  assert (Hread : read hp a' = read hp a) by (unfold read; now rewrite Hb).
  unfold fresnel_filter. rewrite Hc. cbn [rbind ok]. rewrite Hs, Hread in *.
  rewrite (@fresnel_stack_unit d h w (read hp a) pattern apply_log) by assumption.
  cbn [rbind ok]. unfold alloc. apply ok_eq. f_equal. f_equal. f_equal.
  cbn [cast Exact.float_class].
  transitivity (map (fun m : matrix R => m)
                  (if String.eqb pattern "PROJECTION"
                   then map top_rows_replaced (read hp a) else read hp a));
    [| apply map_id].
  apply map_ext. apply mmap_id.
Qed.

Lemma wf_stack_11b : wf_array heap_11 stack_11b.
Proof.
  split; [cbn; lia |]. cbn. split; [reflexivity |].
  repeat constructor.
Qed.

(** X1, in exact arithmetic: with ratio 0 and a pattern other than
    "PROJECTION", [fresnel_filter] returns a new single-precision array that
    holds the images of the input as they are (with [apply_log] set, when
    every pixel is positive); the heap is extended by that array only. *)
Theorem X1_fresnel_ratio_zero (a : ndarray) (hp : heap) (d h w : nat) (pattern : string)
  (apply_log : bool) :
  wf_array hp a ->
  (if ndim a =? 2 then 1 :: shape a else shape a) = [d; h; w] ->
  1 <= h -> 1 <= w ->
  String.eqb pattern "PROJECTION" = false ->
  (apply_log = true -> positive_stack (read hp a)) ->
  fresnel_filter a pattern 0%R apply_log hp
  = ok ({| base := length hp; dtype_of := float32; shape := [d; h; w] |},
        hp ++ [read hp a]).
Proof.
  intros Hwf Hshape Hh Hw Hpat Hpos.
  rewrite (@fresnel_filter_unit a hp d h w pattern apply_log Hwf Hshape Hh Hw);
    [now rewrite Hpat | | exact Hpos].
  rewrite Hpat. discriminate.
Qed.

(** X1 on the 2x2 stack, with [apply_log] set. *)
Lemma X1_witness :
  fresnel_filter stack_2x2 "SINOGRAM" 0%R true heap_2x2
  = ok ({| base := 1; dtype_of := float32; shape := [1; 2; 2] |},
        heap_2x2 ++ [[image_2x2]]).
Proof.
  apply (@X1_fresnel_ratio_zero stack_2x2 heap_2x2 1 2 2 "SINOGRAM" true
           wf_stack_2x2 eq_refl); [lia | lia | reflexivity |].
  intros _. unfold positive_stack. cbn. repeat constructor; lra.
Defined.

(** X2, in exact arithmetic: with ratio 0 and the pattern "PROJECTION", on
    images of more than ten rows, [fresnel_filter] returns the images of the
    input with their rows 0 to 9 replaced by row 10. *)
Theorem X2_fresnel_ratio_zero_projection (a : ndarray) (hp : heap) (d h w : nat)
  (apply_log : bool) :
  wf_array hp a ->
  (if ndim a =? 2 then 1 :: shape a else shape a) = [d; h; w] ->
  10 < h -> 1 <= w ->
  (apply_log = true -> positive_stack (read hp a)) ->
  fresnel_filter a "PROJECTION" 0%R apply_log hp
  = ok ({| base := length hp; dtype_of := float32; shape := [d; h; w] |},
        hp ++ [map top_rows_replaced (read hp a)]).
Proof.
  intros Hwf Hshape Hh Hw Hpos.
  rewrite (@fresnel_filter_unit a hp d h w "PROJECTION" apply_log Hwf Hshape);
    [reflexivity | lia | exact Hw | intros _; exact Hh | exact Hpos].
Qed.

(** X2 on the 11x1 image whose row 0 holds 5 and whose other rows hold 1:
    the result holds 1 in every row. *)
Lemma X2_witness :
  fresnel_filter stack_11b "PROJECTION" 0%R false heap_11
  = ok ({| base := 2; dtype_of := float32; shape := [1; 11; 1] |},
        heap_11 ++ [[image_11a]]).
Proof.
  apply (@X2_fresnel_ratio_zero_projection stack_11b heap_11 1 11 1 false
           wf_stack_11b eq_refl); [lia | lia | discriminate].
Defined.

(* ------------------------------------------------------------------ *)
(** ** The working buffer of [_retrieve_phase] with positive pad amounts *)

Lemma slice_range_head (len k : nat) :
  k <= len -> slice_range len None (Some (Z.of_nat k)) = (0, k).
Proof.
  intros Hk. unfold slice_range, slice_bound.
  destruct (Z.ltb_spec (Z.of_nat k) 0); [lia |].
  rewrite Nat2Z.id. f_equal. lia.
Qed.

Lemma slice_range_tail (len k : nat) :
  1 <= k <= len -> slice_range len (Some (- Z.of_nat k)%Z) None = (len - k, len).
Proof.
  intros Hk. unfold slice_range, slice_bound.
  destruct (Z.ltb_spec (- Z.of_nat k) 0); [| lia].
  f_equal; lia.
Qed.

Lemma py_index_pos (len k : nat) : k < len -> py_index len (Z.of_nat k) = ok k.
Proof.
  intros Hk. unfold py_index.
  destruct (Z.ltb_spec (Z.of_nat k) 0); [lia |].
  destruct (Z.leb_spec 0 (Z.of_nat k)); [| lia].
  destruct (Z.ltb_spec (Z.of_nat k) (Z.of_nat len)); [| lia].
  cbn [andb]. now rewrite Nat2Z.id.
Qed.

Lemma py_index_neg (len k : nat) :
  k < len -> py_index len (- Z.of_nat k - 1) = ok (len - k - 1).
Proof.
  intros Hk. unfold py_index.
  destruct (Z.ltb_spec (- Z.of_nat k - 1) 0); [| lia].
  destruct (Z.leb_spec 0 (- Z.of_nat k - 1 + Z.of_nat len)); [| lia].
  destruct (Z.ltb_spec (- Z.of_nat k - 1 + Z.of_nat len) (Z.of_nat len)); [| lia].
  cbn [andb]. apply ok_eq. lia.
Qed.

Lemma nth_last {A : Type} (l : list A) (d d' : A) :
  l <> [] -> nth (length l - 1) l d = last l d'.
Proof.
  induction l as [| a l IH]; [contradiction |]. intros _.
  destruct l as [| b l]; [reflexivity |].
  specialize (IH ltac:(discriminate)).
  change (last (a :: b :: l) d') with (last (b :: l) d'). rewrite <- IH.
  cbn [Datatypes.length]. rewrite !Nat.sub_succ, !Nat.sub_0_r. reflexivity.
Qed.

Lemma map_pad_edge1 {A B : Type} (f : A -> B) (before after : nat) (l : list A) :
  map f (pad_edge1 before after l) = pad_edge1 before after (map f l).
Proof.
  destruct l as [| x l]; [reflexivity |]. unfold pad_edge1. cbn [map].
  rewrite !map_app, !map_repeat. cbn [map]. do 3 f_equal.
  change (f x :: map f l) with (map f (x :: l)).
  generalize (x :: l) as l'. intros l'. revert x.
  induction l' as [| a l' IH]; intros x; [reflexivity |].
  destruct l' as [| b l']; [reflexivity |].
  cbn [map last] in *. apply IH.
Qed.

(** Replicating the entry at [p] over the [p] positions before it and the
    entry at [-p-1] over the [p] positions after it: the middle part,
    edge-padded. *)
Lemma replicate_ends {A : Type} (d : A) (p n : nat) (L x R : list A) :
  length L = p -> length R = p -> length x = n -> 1 <= n ->
  let l4 := repeat (nth p (L ++ x ++ R) d) p ++ skipn p (L ++ x ++ R) in
  firstn (n + 2 * p - p) l4 ++ repeat (nth (n + 2 * p - p - 1) l4 d) p = pad_edge1 p p x.
Proof.
  intros HL HR Hx Hn l4.
  destruct x as [| x0 x']; [simpl in Hx; lia |].
  assert (Hskip : skipn p (L ++ (x0 :: x') ++ R) = (x0 :: x') ++ R).
  { rewrite skipn_app, HL, Nat.sub_diag, skipn_all2 by lia. reflexivity. }
  assert (Hnth : nth p (L ++ (x0 :: x') ++ R) d = x0).
  { rewrite app_nth2 by lia. rewrite HL, Nat.sub_diag. reflexivity. }
  subst l4. rewrite Hskip, Hnth.
  replace (n + 2 * p - p) with (p + n) by lia.
  rewrite app_assoc, firstn_app.
  assert (Hlen : length (repeat x0 p ++ x0 :: x') = p + n)
    by (rewrite length_app, repeat_length; lia).
  rewrite firstn_all2 by lia. rewrite Hlen, Nat.sub_diag, firstn_O, app_nil_r.
  rewrite app_nth1 by lia.
  rewrite app_nth2 by (rewrite repeat_length; lia).
  rewrite repeat_length. replace (p + n - 1 - p) with (length (x0 :: x') - 1) by lia.
  rewrite (@nth_last _ (x0 :: x') d x0) by discriminate.
  unfold pad_edge1. now rewrite <- app_assoc.
Qed.

Lemma splice_head {A : Type} (k : nat) (new old : list A) :
  splice 0 k new old = new ++ skipn k old.
Proof. reflexivity. Qed.

Lemma splice_tail {A : Type} (lo : nat) (new old : list A) :
  splice lo (length old) new old = firstn lo old ++ new.
Proof. unfold splice. rewrite skipn_all2 by lia. now rewrite app_nil_r. Qed.

Lemma assign_rows_head {A : Type} (H W px : nat) (m : matrix A) :
  rect H W m -> px < H ->
  assign_rows None (Some (Z.of_nat px)) (Z.of_nat px) m
  = ok (repeat (nth px m []) px ++ skipn px m).
Proof.
  intros Hm Hp. unfold assign_rows. rewrite (rect_nrows Hm).
  rewrite py_index_pos by exact Hp. cbn [rbind ok].
  rewrite slice_range_head by lia.
  rewrite (rect_ncols Hm) by lia.
  rewrite stretch_same by (eapply rect_nth; eassumption).
  cbn [rbind ok]. now rewrite Nat.sub_0_r.
Qed.

Lemma assign_rows_tail {A : Type} (H W px : nat) (m : matrix A) :
  rect H W m -> 1 <= px < H ->
  assign_rows (Some (- Z.of_nat px)%Z) None (- Z.of_nat px - 1) m
  = ok (firstn (H - px) m ++ repeat (nth (H - px - 1) m []) px).
Proof.
  intros Hm Hp. unfold assign_rows. rewrite (rect_nrows Hm).
  rewrite py_index_neg by lia. cbn [rbind ok].
  rewrite slice_range_tail by lia.
  rewrite (rect_ncols Hm) by lia.
  rewrite stretch_same by (eapply rect_nth; [eassumption | lia]).
  cbn [rbind ok]. destruct Hm as [Hl _].
  rewrite <- Hl at 2. rewrite splice_tail. apply ok_eq. do 2 f_equal. lia.
Qed.

Lemma assign_cols_head {A : Type} (H W py : nat) (d : A) (m : matrix A) :
  rect H W m -> 1 <= H -> py < W ->
  assign_cols None (Some (Z.of_nat py)) (Z.of_nat py) d m
  = ok (map (fun row => repeat (nth py row d) py ++ skipn py row) m).
Proof.
  intros Hm HH Hp. unfold assign_cols. rewrite (rect_ncols Hm HH).
  rewrite py_index_pos by exact Hp. cbn [rbind ok].
  rewrite slice_range_head by lia. now rewrite Nat.sub_0_r.
Qed.

Lemma assign_cols_tail {A : Type} (H W py : nat) (d : A) (m : matrix A) :
  rect H W m -> 1 <= H -> 1 <= py < W ->
  assign_cols (Some (- Z.of_nat py)%Z) None (- Z.of_nat py - 1) d m
  = ok (map (fun row => firstn (W - py) row ++ repeat (nth (W - py - 1) row d) py) m).
Proof.
  intros Hm HH Hp. unfold assign_cols. rewrite (rect_ncols Hm HH).
  rewrite py_index_neg by lia. cbn [rbind ok].
  rewrite slice_range_tail by lia.
  apply ok_eq. apply map_ext_in. intros row Hrow.
  destruct Hm as [_ Hr]. rewrite Forall_forall in Hr. specialize (Hr row Hrow).
  rewrite <- Hr at 2. rewrite splice_tail. do 2 f_equal. lia.
Qed.

Lemma assign_block_value {A : Type} (px py dy dz H W : nat) (v m : matrix A) :
  rect H W m -> rect dy dz v -> 1 <= H -> px + dy <= H -> py + dz <= W ->
  assign_block (Z.of_nat px) (Z.of_nat dy + Z.of_nat px)
    (Z.of_nat py) (Z.of_nat dz + Z.of_nat py) v m
  = ok (firstn px m
        ++ map2 (fun new old => firstn py old ++ new ++ skipn (py + dz) old) v
             (firstn dy (skipn px m))
        ++ skipn (px + dy) m).
Proof.
  intros Hm Hv H1 Hr Hc. unfold assign_block.
  rewrite (rect_nrows Hm), (rect_ncols Hm H1).
  rewrite !slice_range_inside by lia.
  replace (px + dy - px) with dy by lia. replace (py + dz - py) with dz by lia.
  rewrite (broadcast_to_rect Hv). reflexivity.
Qed.

Lemma map2_left {A B C : Type} (K : A -> B -> C) (K' : A -> C) (a : list A) (b : list B) :
  length a = length b ->
  (forall x y, In x a -> In y b -> K x y = K' x) ->
  map2 K a b = map K' a.
Proof.
  revert b. induction a as [| x a IH]; intros [| y b] Hl HK; try discriminate; [reflexivity |].
  unfold map2 in *. cbn [combine map fst snd].
  rewrite HK by (now left). f_equal.
  apply IH; [simpl in Hl; lia |]. intros x' y' Hx Hy. apply HK; now right.
Qed.

Lemma map_map2 {A B C D : Type} (F : C -> D) (G : A -> B -> C) (a : list A) (b : list B) :
  map F (map2 G a b) = map2 (fun x y => F (G x y)) a b.
Proof. unfold map2. now rewrite map_map. Qed.

(** Lines 334-338 with positive pad amounts: whatever the buffer held, it
    ends up as the image [v] edge-padded by [px] rows and [py] columns. *)
Lemma replicate_borders {A : Type} (d : A) (px py dy dz : nat) (v prj : matrix A) :
  rect dy dz v -> rect (dy + 2 * px) (dz + 2 * py) prj ->
  1 <= dy -> 1 <= dz -> 1 <= px -> 1 <= py ->
  rbind (assign_block (Z.of_nat px) (Z.of_nat dy + Z.of_nat px)
           (Z.of_nat py) (Z.of_nat dz + Z.of_nat py) v prj) (fun p1 =>
  rbind (assign_rows None (Some (Z.of_nat px)) (Z.of_nat px) p1) (fun p2 =>
  rbind (assign_rows (Some (- Z.of_nat px)%Z) None (- Z.of_nat px - 1) p2) (fun p3 =>
  rbind (assign_cols None (Some (Z.of_nat py)) (Z.of_nat py) d p3) (fun p4 =>
  assign_cols (Some (- Z.of_nat py)%Z) None (- Z.of_nat py - 1) d p4))))
  = ok (map (pad_edge1 py py) (pad_edge1 px px v)).
Proof.
  intros Hv Hprj Hdy Hdz Hpx Hpy.
  set (H := dy + 2 * px) in *. set (W := dz + 2 * py) in *.
  (* the block *)
  destruct (@assign_block_rect A px py dy dz H W v prj) as (p1 & E1 & R1);
    try assumption; try (subst H W; lia).
  rewrite E1. rewrite assign_block_value with (H := H) (W := W) in E1;
    try assumption; try (subst H W; lia).
  injection E1 as E1. cbn [rbind ok].
  set (B := map2 (fun new old => firstn py old ++ new ++ skipn (py + dz) old) v
              (firstn dy (skipn px prj))) in *.
  assert (HlenO : length (firstn dy (skipn px prj)) = dy).
  { rewrite length_firstn, length_skipn. destruct Hprj as [Hl _]. subst H. lia. }
  assert (HB : length B = dy).
  { subst B. rewrite length_map2, HlenO. destruct Hv as [Hl _]. lia. }
  assert (HT0 : length (firstn px prj) = px).
  { rewrite length_firstn. destruct Hprj as [Hl _]. subst H. lia. }
  assert (HT1 : length (skipn (px + dy) prj) = px).
  { rewrite length_skipn. destruct Hprj as [Hl _]. subst H. lia. }
  (* the rows above and below *)
  destruct (@assign_rows_rect A None (Some (Z.of_nat px)) (Z.of_nat px) H W p1)
    as (p2 & E2 & R2); [assumption | subst H; lia |].
  rewrite E2. rewrite (@assign_rows_head A H W px p1) in E2 by (try assumption; subst H; lia).
  injection E2 as E2. cbn [rbind ok].
  destruct (@assign_rows_rect A (Some (- Z.of_nat px)%Z) None (- Z.of_nat px - 1)%Z H W p2)
    as (p3 & E3 & R3); [assumption | subst H; lia |].
  rewrite E3. rewrite (@assign_rows_tail A H W px p2) in E3 by (try assumption; subst H; lia).
  injection E3 as E3. cbn [rbind ok].
  assert (Hp3 : p3 = pad_edge1 px px B).
  { rewrite <- E3, <- E2, <- E1. subst H.
    apply (@replicate_ends (list A) [] px dy (firstn px prj) B (skipn (px + dy) prj));
      assumption. }
  (* the columns left and right *)
  destruct (@assign_cols_rect A None (Some (Z.of_nat py)) (Z.of_nat py) d H W p3)
    as (p4 & E4 & R4); [assumption | subst H; lia | subst W; lia |].
  rewrite E4. rewrite (@assign_cols_head A H W py d p3) in E4
    by (try assumption; subst H W; lia).
  injection E4 as E4. cbn [rbind ok].
  rewrite (@assign_cols_tail A H W py d p4) by (try assumption; subst H W; lia).
  apply ok_eq. rewrite <- E4, map_map, Hp3, map_pad_edge1.
  rewrite (map_pad_edge1 (pad_edge1 py py)). f_equal.
  subst B. rewrite map_map2. apply map2_left.
  - destruct Hv as [Hl _]. lia.
  - intros new old Hnew Hold.
    assert (Hln : length new = dz).
    { destruct Hv as [_ Hr]. rewrite Forall_forall in Hr. now apply Hr. }
    assert (Hlo : length old = W).
    { assert (HO : Forall (fun r => length r = W) (firstn dy (skipn px prj)))
        by (apply Forall_firstn, Forall_skipn, Hprj).
      rewrite Forall_forall in HO. now apply HO. }
    subst W.
    apply (@replicate_ends A d py dz (firstn py old) new (skipn (py + dz) old)).
    + rewrite length_firstn. lia.
    + rewrite length_skipn. lia.
    + exact Hln.
    + exact Hdz.
Qed.

Section PaddedBuffer.
Context {F : Type} `{Numeric F}.

(** The loop body with positive pad amounts: the transform is applied to
    the edge-padded image, whatever the buffer held. *)
Lemma retrieve_image_padded (nf img prj : matrix F) (px py dy dz : nat) (pad : bool) :
  rect dy dz img -> rect (dy + 2 * px) (dz + 2 * py) prj ->
  1 <= dy -> 1 <= dz -> 1 <= px -> 1 <= py ->
  let padded := map (pad_edge1 py py) (pad_edge1 px px (mmap (cast float32) img)) in
  retrieve_image nf (Z.of_nat px) (Z.of_nat py) dy dz pad img prj
  = rbind (fft2 (mmap of_real padded)) (fun fproj =>
    rbind (elementwise_inplace cscale fproj nf) (fun fproj =>
    rbind (ifft2 fproj) (fun inv =>
    ok (padded,
        if pad
        then crop (Z.of_nat px) (Z.of_nat dy + Z.of_nat px)
               (Z.of_nat py) (Z.of_nat dz + Z.of_nat py) (mmap creal inv)
        else mmap creal inv)))).
Proof.
  intros Himg Hprj Hdy Hdz Hpx Hpy padded. unfold retrieve_image.
  assert (Hv : rect dy dz (mmap (cast float32) img)) by (now apply rect_mmap).
  pose proof (@replicate_borders F fzero px py dy dz (mmap (cast float32) img) prj
                Hv Hprj Hdy Hdz Hpx Hpy) as Hrep.
  destruct (assign_block _ _ _ _ _ _) as [e | p1]; [discriminate |]. cbn [rbind] in *.
  destruct (assign_rows None _ _ p1) as [e | p2]; [discriminate |]. cbn [rbind] in *.
  destruct (assign_rows (Some _) None _ p2) as [e | p3]; [discriminate |]. cbn [rbind] in *.
  destruct (assign_cols None _ _ _ p3) as [e | p4]; [discriminate |]. cbn [rbind] in *.
  rewrite Hrep. cbn [rbind ok]. fold padded.
  destruct (fft2 _) as [e | f1]; [reflexivity |]. cbn [rbind].
  destruct (elementwise_inplace _ _ _) as [e | f2]; [reflexivity |]. cbn [rbind].
  destruct (ifft2 _) as [e | inv]; [reflexivity |]. cbn [rbind].
  now destruct pad.
Qed.

(** The loop of [_retrieve_phase] when the loop body turns every image
    [img] of shape (dy, dz) with the property [P] into [g img], whatever
    the buffer holds. *)
Lemma retrieve_loop_map (P : matrix F -> Prop) (g : matrix F -> matrix F) (tomo : ndarray)
  (phase_filter prj : matrix F) (px py : Z) (pad : bool) (hp : heap)
  (d dy dz bh bw : nat) (mx : F) :
  shape tomo = [d; dy; dz] -> base tomo < length hp ->
  length (read hp tomo) = d -> Forall (rect dy dz) (read hp tomo) ->
  Forall P (read hp tomo) ->
  rect bh bw prj -> matrix_max phase_filter = ok mx ->
  (forall img buf, rect dy dz img -> P img -> rect bh bw buf ->
     exists buf',
       retrieve_image (mmap (fun x => fdiv x mx) phase_filter) px py dy dz pad img buf
       = ok (buf', g img)
       /\ rect bh bw buf' /\ rect dy dz (g img)) ->
  exists hp',
    _retrieve_phase tomo phase_filter px py prj pad hp = ok (tomo, hp')
    /\ length hp' = length hp
    /\ (forall b, b <> base tomo -> nth b hp' [] = nth b hp [])
    /\ read hp' tomo = map (fun img => mmap (cast (dtype_of tomo)) (g img)) (read hp tomo).
Proof.
  intros Hs Hb Hlen Hrect HP Hprj Hmx Hbody.
  unfold _retrieve_phase. rewrite Hs, Hmx. cbn [rbind ok].
  set (nf := mmap (fun x => fdiv x mx) phase_filter) in *.
  set (f := fun img : matrix F => mmap (cast (dtype_of tomo)) (g img)).
  set (data := read hp tomo) in *.
  match goal with
  | |- context [for_range ?body 0 d (prj, hp)] =>
      destruct (@for_range_inv (matrix F * heap)
                  (fun i st =>
                     rect bh bw (fst st)
                     /\ length (snd st) = length hp
                     /\ (forall b, b <> base tomo -> nth b (snd st) [] = nth b hp [])
                     /\ read (snd st) tomo = map f (firstn i data) ++ skipn i data)
                  body d 0 (prj, hp)) as ([prj' hp'] & -> & Hfin)
  end.
  { cbn [fst snd firstn skipn map app]. auto. }
  { intros i [prj0 hp0] Hi (Hp0 & Hl0 & Hframe0 & Hread). cbn [fst snd] in *.
    assert (Himg : nth i (read hp0 tomo) [] = nth i data []).
    { rewrite Hread. rewrite app_nth2 by (rewrite length_map, length_firstn; lia).
      rewrite length_map, length_firstn, Nat.min_l by lia.
      rewrite Nat.sub_diag, nth_skipn. f_equal. lia. }
    rewrite Himg.
    assert (Hri : rect dy dz (nth i data [])) by (apply Forall_nth_default; [assumption | lia]).
    assert (HPi : P (nth i data [])) by (apply Forall_nth_default; [assumption | lia]).
    destruct (Hbody (nth i data []) prj0 Hri HPi Hp0) as (buf' & -> & Hbuf' & Hg).
    cbn [rbind ok].
    rewrite assign_image_rect.
    2:{ rewrite Hread, length_app, length_map, length_firstn, length_skipn. lia. }
    2:{ now apply rect_mmap. }
    cbn [rbind ok]. eexists. split; [reflexivity |]. cbn [fst snd].
    assert (Hb0 : base tomo < length hp0) by lia.
    split; [exact Hbuf' |]. split; [rewrite length_write; assumption |].
    split.
    { intros b Hne. rewrite nth_write_other by assumption. now apply Hframe0. }
    rewrite read_write_same by assumption. rewrite Hread.
    apply (splice_step f). lia. }
  cbn [rbind ok]. cbn [fst snd] in Hfin. destruct Hfin as (_ & Hl & Hframe & Hread).
  exists hp'. split; [reflexivity |]. split; [exact Hl |]. split; [exact Hframe |].
  rewrite Hread. cbn [Nat.add]. rewrite firstn_all2, skipn_all2 by lia.
  apply app_nil_r.
Qed.

(** X3: in the loop of [_retrieve_phase], when both pad amounts are at least
    1 and the loop body returns, the buffer handed to the transform is the
    image (as float32) extended by replicating its edges, row-wise and then
    column-wise; what the buffer held before (the value [val] it was filled
    with, or the previous image) is overwritten and does not reach the
    result. *)
Theorem X3_retrieve_buffer_edge_padded (nf img prj prj' proj : matrix F)
  (px py dy dz : nat) (pad : bool) :
  rect dy dz img -> rect (dy + 2 * px) (dz + 2 * py) prj ->
  1 <= dy -> 1 <= dz -> 1 <= px -> 1 <= py ->
  retrieve_image nf (Z.of_nat px) (Z.of_nat py) dy dz pad img prj = ok (prj', proj) ->
  prj' = map (pad_edge1 py py) (pad_edge1 px px (mmap (cast float32) img))
  /\ forall prj2, rect (dy + 2 * px) (dz + 2 * py) prj2 ->
       retrieve_image nf (Z.of_nat px) (Z.of_nat py) dy dz pad img prj2 = ok (prj', proj).
Proof.
  intros Himg Hprj Hdy Hdz Hpx Hpy Hrun.
  rewrite (retrieve_image_padded nf pad Himg Hprj Hdy Hdz Hpx Hpy) in Hrun.
  assert (Hbuf : prj' = map (pad_edge1 py py) (pad_edge1 px px (mmap (cast float32) img))).
  { destruct (fft2 _) as [e | f1]; [discriminate |]. cbn [rbind] in Hrun.
    destruct (elementwise_inplace _ _ _) as [e | f2]; [discriminate |]. cbn [rbind] in Hrun.
    destruct (ifft2 _) as [e | inv]; [discriminate |]. cbn [rbind] in Hrun.
    now injection Hrun as <- _. }
  split; [exact Hbuf |].
  intros prj2 Hprj2.
  rewrite (retrieve_image_padded nf pad Himg Hprj2 Hdy Hdz Hpx Hpy). exact Hrun.
Qed.

(** X4: with both pad amounts at least 1, the result of [_retrieve_phase]
    does not depend on the contents of the buffer [prj] it is given. *)
Theorem X4_retrieve_initial_buffer_unused (tomo : ndarray)
  (phase_filter prj1 prj2 : matrix F) (px py d dy dz : nat) (pad : bool) (hp : heap) :
  shape tomo = [d; dy; dz] ->
  length (read hp tomo) = d -> Forall (rect dy dz) (read hp tomo) ->
  1 <= dy -> 1 <= dz -> 1 <= px -> 1 <= py ->
  rect (dy + 2 * px) (dz + 2 * py) prj1 -> rect (dy + 2 * px) (dz + 2 * py) prj2 ->
  _retrieve_phase tomo phase_filter (Z.of_nat px) (Z.of_nat py) prj1 pad hp
  = _retrieve_phase tomo phase_filter (Z.of_nat px) (Z.of_nat py) prj2 pad hp.
Proof.
  intros Hs Hlen Hrect Hdy Hdz Hpx Hpy H1 H2. unfold _retrieve_phase. rewrite Hs.
  destruct (matrix_max phase_filter) as [e | mx]; [reflexivity |]. cbn [rbind].
  destruct d as [| d']; [reflexivity |].
  cbn [for_range].
  assert (Hri : rect dy dz (nth 0 (read hp tomo) []))
    by (apply Forall_nth_default; [assumption | lia]).
  rewrite (retrieve_image_padded _ pad Hri H1 Hdy Hdz Hpx Hpy).
  rewrite (retrieve_image_padded _ pad Hri H2 Hdy Hdz Hpx Hpy).
  reflexivity.
Qed.
End PaddedBuffer.

(* ------------------------------------------------------------------ *)
(** ** [_retrieve_phase] with a constant filter *)

Section ConstantFilter.
Local Open Scope R_scope.

Lemma fold_max_spec (l : list R) (x : R) :
  let M := fold_left (fun acc y => if fltb acc y then y else acc) l x in
  In M (x :: l) /\ x <= M /\ Forall (fun y => y <= M) l.
Proof.
  revert x. induction l as [| a l IH]; intros x; cbn [fold_left].
  - split; [now left |]. split; [lra | constructor].
  - specialize (IH (if fltb x a then a else x)). cbv zeta in IH.
    destruct IH as (Hin & Hle & Hall). cbn [fltb numeric] in *.
    destruct (Rlt_dec x a) as [Hlt | Hge].
    + split; [right; exact Hin |]. split; [lra |]. constructor; assumption.
    + split.
      * destruct Hin as [Hin | Hin]; [left; exact Hin | right; right; exact Hin].
      * split; [exact Hle |]. constructor; [lra | exact Hall].
Qed.

(** [a.max()] is an entry of the array and no entry exceeds it. *)
Lemma matrix_max_spec (m : matrix R) (mx : R) :
  matrix_max m = ok mx -> In mx (concat m) /\ Forall (fun y => y <= mx) (concat m).
Proof.
  unfold matrix_max. destruct (concat m) as [| x l]; [discriminate |].
  intros [= <-]. destruct (fold_max_spec l x) as (Hin & Hle & Hall).
  split; [exact Hin |]. constructor; assumption.
Qed.

Lemma in_concat_full {A : Type} (x y : A) (h w : nat) : In y (concat (full h w x)) -> y = x.
Proof.
  intros Hin. apply in_concat in Hin as (r & Hr & Hy).
  unfold full in Hr. apply repeat_spec in Hr. subst r. now apply repeat_spec in Hy.
Qed.

Lemma matrix_max_full (h w : nat) (c : R) :
  (1 <= h)%nat -> (1 <= w)%nat -> matrix_max (full h w c) = ok c.
Proof.
  intros Hh Hw.
  destruct (@matrix_max_ok R _ _ h w (full h w c) (rect_full h w c) Hh Hw) as (mx & Hmx).
  rewrite Hmx. apply ok_eq. apply matrix_max_spec in Hmx as [Hin _].
  now apply in_concat_full in Hin.
Qed.

Lemma cscale_one (z : R * R) : cscale z 1 = z.
Proof. apply complex_eq; unfold cscale; cbn [fst snd fmul numeric]; ring. Qed.

Lemma mmap_full {A B : Type} (f : A -> B) (h w : nat) (x : A) :
  mmap f (full h w x) = full h w (f x).
Proof. unfold mmap, full. now rewrite !map_repeat. Qed.

(** The loop body with a filter of ones and positive pad amounts returns
    the image it was given. *)
Lemma retrieve_image_unit (img prj : matrix R) (px py dy dz : nat) :
  rect dy dz img -> rect (dy + 2 * px) (dz + 2 * py) prj ->
  (1 <= dy)%nat -> (1 <= dz)%nat -> (1 <= px)%nat -> (1 <= py)%nat ->
  retrieve_image (full (dy + 2 * px) (dz + 2 * py) 1) (Z.of_nat px) (Z.of_nat py)
    dy dz true img prj
  = ok (map (pad_edge1 py py) (pad_edge1 px px img), img).
Proof.
  intros Himg Hprj Hdy Hdz Hpx Hpy.
  rewrite (retrieve_image_padded _ true Himg Hprj Hdy Hdz Hpx Hpy).
  cbn [cast Exact.float_class]. rewrite mmap_id.
  set (P := map (pad_edge1 py py) (pad_edge1 px px img)).
  assert (HP : rect (dy + 2 * px) (dz + 2 * py) P).
  { destruct (@pad_edge_rect R px px py py dy dz img Himg Hdy Hdz) as (P' & HP' & Hr).
    rewrite (pad_edge_value px px py py Himg Hdy Hdz) in HP'. injection HP' as <-.
    eapply rect_cast; [exact Hr | lia | lia]. }
  destruct (@ifft2_fft2 (dy + 2 * px) (dz + 2 * py) (mmap of_real P))
    as (y & Hy & Hry & Hinv); [now apply rect_mmap | lia | lia |].
  rewrite Hy. cbn [rbind ok].
  rewrite (@elementwise_inplace_rect (R * R) R cscale (dy + 2 * px) (dz + 2 * py));
    [| exact Hry | apply rect_full | lia].
  cbn [rbind ok].
  rewrite (@map2_full_r (R * R) R cscale 1 (dy + 2 * px) (dz + 2 * py));
    [| exact Hry | apply cscale_one].
  rewrite Hinv. cbn [rbind ok]. apply ok_eq. f_equal.
  rewrite creal_of_real. unfold crop, P.
  rewrite (Z.add_comm (Z.of_nat dy)), (Z.add_comm (Z.of_nat dz)).
  rewrite slice_map.
  rewrite slice_pad_edge1 by (try apply Himg; lia).
  apply unpad_columns; [apply Himg | exact Hdz].
Qed.

Lemma heap_ext (hp hp' : heap (F := R)) (a : ndarray) :
  length hp' = length hp ->
  (forall b, b <> base a -> nth b hp' [] = nth b hp []) ->
  read hp' a = read hp a -> hp' = hp.
Proof.
  intros Hl Hother Hread.
  apply nth_ext with (d := []) (d' := []); [exact Hl |].
  intros b _. destruct (Nat.eq_dec b (base a)) as [-> | Hne]; [exact Hread | now apply Hother].
Qed.

(** [_retrieve_phase] with a constant non-zero filter and positive pad
    amounts leaves the stack as it was. *)
Lemma retrieve_loop_constant (tomo : ndarray) (prj : matrix R) (c : R) (px py d dy dz : nat)
  (hp : heap) :
  shape tomo = [d; dy; dz] -> (base tomo < length hp)%nat ->
  length (read hp tomo) = d -> Forall (rect dy dz) (read hp tomo) ->
  (1 <= dy)%nat -> (1 <= dz)%nat -> (1 <= px)%nat -> (1 <= py)%nat ->
  rect (dy + 2 * px) (dz + 2 * py) prj -> c <> 0 ->
  _retrieve_phase tomo (full (dy + 2 * px) (dz + 2 * py) c) (Z.of_nat px) (Z.of_nat py)
    prj true hp
  = ok (tomo, hp).
Proof.
  intros Hs Hb Hlen Hrect Hdy Hdz Hpx Hpy Hprj Hc.
  destruct (@retrieve_loop_map R _ _ (fun _ => True) (fun img => img) tomo
              (full (dy + 2 * px) (dz + 2 * py) c) prj (Z.of_nat px) (Z.of_nat py) true hp
              d dy dz (dy + 2 * px) (dz + 2 * py) c)
    as (hp' & Hrun & Hl & Hother & Hread); try assumption.
  { apply Forall_forall. intros img _. exact I. }
  { apply matrix_max_full; lia. }
  { intros img buf Himg _ Hbuf. rewrite mmap_full.
    replace (fdiv c c) with 1 by (cbn [fdiv numeric]; now field).
    rewrite (retrieve_image_unit Himg Hbuf Hdy Hdz Hpx Hpy).
    eexists. split; [reflexivity |]. split; [| exact Himg].
    destruct (@pad_edge_rect R px px py py dy dz img Himg Hdy Hdz) as (P' & HP' & Hr).
    rewrite (pad_edge_value px px py py Himg Hdy Hdz) in HP'. injection HP' as <-.
    eapply rect_cast; [exact Hr | lia | lia]. }
  rewrite Hrun. apply ok_eq. f_equal.
  apply heap_ext with (a := tomo); try assumption.
  rewrite Hread. cbn [cast Exact.float_class].
  transitivity (map (fun m : matrix R => m) (read hp tomo)); [| apply map_id].
  apply map_ext. apply mmap_id.
Qed.
End ConstantFilter.

(** X3 on the 5x5 image of ones with a filter of ones: the buffer that held
    9 everywhere holds the padded image afterwards. *)
Lemma X3_witness :
  retrieve_image (full 7 7 1%R) 1 1 5 5 true image_5x5 (full 7 7 9%R)
  = ok (full 7 7 1%R, image_5x5).
Proof.
  refine (proj2 (@X3_retrieve_buffer_edge_padded R _ _ (full 7 7 1%R) image_5x5
                   (full 7 7 0%R) (full 7 7 1%R) image_5x5 1 1 5 5 true
                   (rect_full 5 5 1%R) (rect_full 7 7 0%R)
                   ltac:(lia) ltac:(lia) ltac:(lia) ltac:(lia) _)
            (full 7 7 9%R) (rect_full 7 7 9%R)).
  exact (@retrieve_image_unit image_5x5 (full 7 7 0%R) 1 1 5 5
           (rect_full 5 5 1%R) (rect_full 7 7 0%R)
           ltac:(lia) ltac:(lia) ltac:(lia) ltac:(lia)).
Defined.

(** X4 on the 5x5 stack: a buffer of zeros and a buffer of nines give the
    same result. *)
Lemma X4_witness :
  _retrieve_phase stack_5x5 (full 7 7 1%R) 1 1 (full 7 7 0%R) true heap_5x5
  = _retrieve_phase stack_5x5 (full 7 7 1%R) 1 1 (full 7 7 9%R) true heap_5x5.
Proof.
  apply (@X4_retrieve_initial_buffer_unused R _ _ stack_5x5 (full 7 7 1%R)
           (full 7 7 0%R) (full 7 7 9%R) 1 1 1 5 5 true heap_5x5);
    try reflexivity; try lia; try apply rect_full.
  repeat constructor.
Defined.

(* ------------------------------------------------------------------ *)
(** ** [retrieve_phase] at propagation distance 0 *)

Lemma fftshift1_repeat {A : Type} (x : A) (n : nat) : fftshift1 (repeat x n) = repeat x n.
Proof.
  unfold fftshift1. rewrite repeat_length.
  rewrite firstn_repeat_le, skipn_repeat_le by lia.
  rewrite <- repeat_app. f_equal. lia.
Qed.

Lemma fftshift_full {A : Type} (x : A) (h w : nat) : fftshift (full h w x) = full h w x.
Proof.
  unfold fftshift, full. rewrite fftshift1_repeat, map_repeat.
  now rewrite fftshift1_repeat.
Qed.

Lemma mmap_const_rect {A B : Type} (f : A -> B) (c : B) (h w : nat) (m : matrix A) :
  rect h w m -> (forall x, f x = c) -> mmap f m = full h w c.
Proof.
  intros [Hl Hr] Hf. unfold mmap, full. subst h.
  induction m as [| r m IH]; [reflexivity |].
  inversion Hr as [| ? ? Hrl Hr']; subst.
  cbn [map Datatypes.length repeat]. rewrite IH by assumption.
  f_equal. now rewrite map_const with (c := c).
Qed.

Section ZeroDistance.
Local Open Scope R_scope.

(** [ceil(log2(x))] for [x] between two powers of two. *)
Lemma ceil_log2_between (x k : nat) :
  (2 ^ k < 2 * x)%nat -> (x <= 2 ^ k)%nat -> ceilZ (ln (INR x) / ln 2) = Z.of_nat k.
Proof.
  intros Hlo Hhi.
  pose proof ln_lt_2 as Hln2.
  assert (Hx : 0 < INR x).
  { apply lt_0_INR. destruct x; [simpl in Hlo; lia | lia]. }
  assert (HP : INR (2 ^ k) = 2 ^ k) by (rewrite pow_INR; reflexivity).
  assert (HlnP : ln (2 ^ k) = INR k * ln 2) by (apply ln_pow; lra).
  assert (Hpos : 0 < 2 ^ k) by (apply pow_lt; lra).
  assert (Hup : ln (INR x) <= INR k * ln 2).
  { rewrite <- HlnP. apply le_INR in Hhi. rewrite HP in Hhi.
    destruct Hhi as [Hlt | Heq]; [left; now apply ln_increasing | rewrite Heq; lra]. }
  assert (Hdown : INR k * ln 2 < ln 2 + ln (INR x)).
  { rewrite <- HlnP, <- ln_mult by lra. apply ln_increasing; [exact Hpos |].
    apply lt_INR in Hlo. rewrite HP, mult_INR in Hlo. simpl in Hlo. lra. }
  apply ceilZ_spec; rewrite <- INR_IZR_INZ.
  - apply (Rmult_lt_reg_r (ln 2)); [lra |].
    unfold Rdiv. rewrite Rmult_assoc, Rinv_l by lra. lra.
  - apply (Rmult_le_reg_r (ln 2)); [lra |].
    unfold Rdiv. rewrite Rmult_assoc, Rinv_l by lra. lra.
Qed.

(** The pad amount at distance 0 for an axis with [dim + 2 <= 2^k < 2 dim]. *)
Lemma calc_pad_width_zero_distance (dim k : nat) (pixel_size wavelength : R) :
  (2 ^ k < 2 * dim)%nat -> (dim <= 2 ^ k)%nat -> pixel_size <> 0 ->
  _calc_pad_width dim pixel_size wavelength 0 = ok (Z.of_nat ((2 ^ k - dim) / 2)).
Proof.
  intros Hlo Hhi Hps.
  assert (Hdim : (1 <= dim)%nat) by (destruct dim; [simpl in Hlo; lia | lia]).
  destruct (@calc_pad_width_exact dim pixel_size wavelength 0 Hdim Hps ltac:(lra))
    as (Hrun & _ & _).
  rewrite Hrun. apply ok_eq.
  replace (PI * wavelength * 0 / (pixel_size * pixel_size)) with (IZR 0)
    by (unfold Rdiv; simpl; ring).
  rewrite ceilZ_IZR.
  replace (IZR (Z.of_nat dim) + IZR 0) with (INR dim) by (rewrite INR_IZR_INZ; simpl; ring).
  rewrite (@ceil_log2_between dim k Hlo Hhi).
  rewrite Nat2Z.inj_div, Nat2Z.inj_sub, Nat2Z.inj_pow by exact Hhi. reflexivity.
Qed.

(** [retrieve_phase] with [dist = 0] and [pad=True] on a stack of rank 3
    whose axes are padded by at least one pixel. *)
Lemma retrieve_phase_zero_dist (tomo : ndarray) (pixel_size energy alpha : R) (hp : heap)
  (d h w kh kw : nat) :
  shape tomo = [d; h; w] -> (base tomo < length hp)%nat ->
  length (read hp tomo) = d -> Forall (rect h w) (read hp tomo) ->
  (h + 2 <= 2 ^ kh)%nat -> (2 ^ kh < 2 * h)%nat ->
  (w + 2 <= 2 ^ kw)%nat -> (2 ^ kw < 2 * w)%nat ->
  pixel_size <> 0 -> energy <> 0 -> alpha <> 0 ->
  retrieve_phase tomo pixel_size 0 energy alpha true hp = ok (tomo, hp).
Proof.
  intros Hs Hb Hlen Hrect Hh1 Hh2 Hw1 Hw2 Hps He Ha.
  assert (Hh : (1 <= h)%nat) by (destruct h; [simpl in Hh2; lia | lia]).
  assert (Hw : (1 <= w)%nat) by (destruct w; [simpl in Hw2; lia | lia]).
  unfold retrieve_phase.
  rewrite check_stack_rank3 by (unfold ndim; now rewrite Hs). cbn [rbind ok]. rewrite Hs.
  unfold _calc_pad. rewrite wavelength_exact by exact He. cbn [rbind ok].
  unfold _calc_pad_val. destruct (Nat.eqb_spec w 0) as [E | _]; [lia |]. cbn [rbind ok].
  rewrite (@calc_pad_width_zero_distance h kh) by (try assumption; lia).
  rewrite (@calc_pad_width_zero_distance w kw) by (try assumption; lia).
  cbn [rbind ok].
  set (px := ((2 ^ kh - h) / 2)%nat). set (py := ((2 ^ kw - w) / 2)%nat).
  assert (Hpx : (1 <= px)%nat).
  { subst px. apply Nat.div_le_lower_bound; lia. }
  assert (Hpy : (1 <= py)%nat).
  { subst py. apply Nat.div_le_lower_bound; lia. }
  replace (Z.of_nat h + 2 * Z.of_nat px)%Z with (Z.of_nat (h + 2 * px)) by lia.
  replace (Z.of_nat w + 2 * Z.of_nat py)%Z with (Z.of_nat (w + 2 * py)) by lia.
  destruct (@reciprocal_grid_rect R _ _ pixel_size (h + 2 * px) (w + 2 * py))
    as (w2 & -> & Hgrid);
    try (apply reciprocal_step_nonzero; [lia | assumption]).
  cbn [rbind ok].
  unfold _paganin_filter_factor. rewrite wavelength_exact by exact He. cbn [rbind ok].
  destruct (Z.ltb_spec (Z.of_nat (h + 2 * px)) 0); [lia |].
  destruct (Z.ltb_spec (Z.of_nat (w + 2 * py)) 0); [lia |].
  cbn [orb]. rewrite !Nat2Z.id.
  rewrite (@mmap_const_rect R R _ (/ alpha) (h + 2 * px) (w + 2 * py) w2 Hgrid).
  2:{ intros x. cbn [fdiv fadd fmul of_Z numeric].
      pose proof PI_const_pos as Hpi. field. repeat split; try assumption; lra. }
  rewrite fftshift_full.
  apply retrieve_loop_constant with (d := d); try assumption.
  - apply rect_full.
  - now apply Rinv_neq_0_compat.
Qed.
End ZeroDistance.

(** [retrieve_phase] on an array of rank 2 or 3 runs on the promoted array. *)
Lemma retrieve_phase_promoted (a : ndarray) (hp : heap) (d h w : nat)
  (pixel_size dist energy alpha : R) (pad : bool) :
  wf_array hp a ->
  (if ndim a =? 2 then 1 :: shape a else shape a) = [d; h; w] ->
  exists a',
    shape a' = [d; h; w] /\ base a' = base a /\ dtype_of a' = dtype_of a
    /\ base a' < length hp /\ length (read hp a') = d /\ Forall (rect h w) (read hp a')
    /\ read hp a' = read hp a
    /\ retrieve_phase a pixel_size dist energy alpha pad hp
       = retrieve_phase a' pixel_size dist energy alpha pad hp.
Proof.
  intros Hwf Hshape.
  destruct (promoted_stack Hwf Hshape) as (a' & Hc & Hs & Hb & Hdt & Hlt & Hl & Hr).
  exists a'. repeat split; try assumption.
  - now rewrite Hb.
  - unfold read. now rewrite Hb.
  - unfold retrieve_phase. now rewrite Hc, (check_stack_idem _ Hc).
Qed.

(** X5, in exact arithmetic: [retrieve_phase] with [pad=True] at
    propagation distance 0, on images whose sides are padded by at least one
    pixel (a side [n] with [n + 2 <= 2^k < 2 n]), returns the stack as it
    was: the filter is constant, and the padding is cropped away. *)
Theorem X5_retrieve_phase_zero_distance (a : ndarray) (hp : heap) (d h w kh kw : nat)
  (pixel_size energy alpha : R) :
  wf_array hp a ->
  (if ndim a =? 2 then 1 :: shape a else shape a) = [d; h; w] ->
  h + 2 <= 2 ^ kh -> 2 ^ kh < 2 * h -> w + 2 <= 2 ^ kw -> 2 ^ kw < 2 * w ->
  pixel_size <> 0%R -> energy <> 0%R -> alpha <> 0%R ->
  exists res,
    retrieve_phase a pixel_size 0%R energy alpha true hp = ok (res, hp)
    /\ base res = base a /\ shape res = [d; h; w].
Proof.
  intros Hwf Hshape Hh1 Hh2 Hw1 Hw2 Hps He Ha.
  destruct (@retrieve_phase_promoted a hp d h w pixel_size 0%R energy alpha true Hwf Hshape)
    as (a' & Hs & Hb & _ & Hlt & Hl & Hr & _ & ->).
  exists a'. split; [| split; assumption].
  now apply retrieve_phase_zero_dist with (d := d) (h := h) (w := w) (kh := kh) (kw := kw).
Qed.

(** X5 on the 5x5 stack, whose sides are padded to 8. *)
Lemma X5_witness :
  exists res,
    retrieve_phase stack_5x5 (1 / 10000)%R 0%R 20%R (1 / 1000)%R true heap_5x5
    = ok (res, heap_5x5)
    /\ base res = 0.
Proof.
  destruct (@X5_retrieve_phase_zero_distance stack_5x5 heap_5x5 1 5 5 3 3
              (1 / 10000)%R 20%R (1 / 1000)%R wf_stack_5x5 eq_refl
              ltac:(cbn; lia) ltac:(cbn; lia) ltac:(cbn; lia) ltac:(cbn; lia)
              ltac:(lra) ltac:(lra) ltac:(lra))
    as (res & Hrun & Hb & _).
  exists res. split; [exact Hrun | exact Hb].
Defined.

(* ------------------------------------------------------------------ *)
(** ** The peak of the filter of [retrieve_phase] on axes of even length *)

Lemma nth0_fftshift1 {A : Type} (l : list A) (d : A) :
  2 <= length l -> nth 0 (fftshift1 l) d = nth (length l - length l / 2) l d.
Proof.
  intros Hl. unfold fftshift1. remember (length l) as n eqn:En.
  assert (H1 : 1 <= n / 2) by (apply Nat.div_le_lower_bound; lia).
  assert (H2 : n / 2 <= n) by (apply Nat.Div0.div_le_upper_bound; lia).
  rewrite app_nth1 by (rewrite length_skipn; lia).
  rewrite nth_skipn. f_equal. lia.
Qed.

Section FilterPeak.
Local Open Scope R_scope.

(** The filter factor decreases with the squared frequency and is positive. *)
Lemma filter_gain_antitone (c alpha t0 t : R) :
  0 <= c -> 0 < alpha -> 0 <= t0 -> t0 <= t ->
  0 < 1 / (c * t / (4 * PI) + alpha) <= 1 / (c * t0 / (4 * PI) + alpha).
Proof.
  intros Hc Ha Ht0 Ht. pose proof PI_const_pos as Hpi.
  assert (Hq : 0 < / (4 * PI)) by (apply Rinv_0_lt_compat; lra).
  assert (H0 : 0 <= c * t0) by (apply Rmult_le_pos; lra).
  assert (H1 : c * t0 <= c * t) by (apply Rmult_le_compat_l; lra).
  assert (Hd0 : 0 < c * t0 / (4 * PI) + alpha).
  { unfold Rdiv. assert (0 <= c * t0 * / (4 * PI)) by (apply Rmult_le_pos; lra). lra. }
  assert (Hd : c * t0 / (4 * PI) + alpha <= c * t / (4 * PI) + alpha).
  { unfold Rdiv. assert (c * t0 * / (4 * PI) <= c * t * / (4 * PI))
      by (apply Rmult_le_compat_r; lra). lra. }
  replace (1 / (c * t / (4 * PI) + alpha)) with (/ (c * t / (4 * PI) + alpha))
    by (unfold Rdiv; now rewrite Rmult_1_l).
  replace (1 / (c * t0 / (4 * PI) + alpha)) with (/ (c * t0 / (4 * PI) + alpha))
    by (unfold Rdiv; now rewrite Rmult_1_l).
  split.
  - apply Rinv_0_lt_compat. lra.
  - apply Rinv_le_contravar; assumption.
Qed.

(** On an axis of [2 c] points no coordinate is closer to zero than the one
    of index [c]. *)
Lemma reciprocal_coord_min (pixel_size : R) (c k : nat) :
  0 < pixel_size -> (1 <= c)%nat ->
  reciprocal_coord_spec pixel_size (2 * c) c * reciprocal_coord_spec pixel_size (2 * c) c
  <= reciprocal_coord_spec pixel_size (2 * c) k * reciprocal_coord_spec pixel_size (2 * c) k.
Proof.
  intros Hps Hc. unfold reciprocal_coord_spec.
  assert (H2c : INR (2 * c) = 2 * INR c) by (rewrite mult_INR; simpl; ring).
  assert (Hc1 : 1 <= INR c) by (change 1 with (INR 1); now apply le_INR).
  rewrite H2c.
  set (D := 2 * (2 * INR c - 1) * pixel_size).
  assert (HD : 0 < D) by (unfold D; apply Rmult_lt_0_compat; lra).
  set (N := 2 * INR k - (2 * INR c - 1)).
  replace (2 * INR c - (2 * INR c - 1)) with 1 by ring.
  assert (HN : 1 <= N * N).
  { assert (EN : N = IZR (2 * Z.of_nat k - 2 * Z.of_nat c + 1)).
    { unfold N. rewrite plus_IZR, minus_IZR, !mult_IZR, <- !INR_IZR_INZ. ring. }
    rewrite EN, <- mult_IZR. apply IZR_le.
    destruct (Z_lt_le_dec (2 * Z.of_nat k - 2 * Z.of_nat c + 1) 0); nia. }
  assert (Hi : 0 < / D) by (now apply Rinv_0_lt_compat).
  unfold Rdiv. rewrite Rmult_1_l.
  replace (N * / D * (N * / D)) with (N * N * (/ D * / D)) by ring.
  assert (Hii : 0 < / D * / D) by (now apply Rmult_lt_0_compat).
  nra.
Qed.

(** The grid of squared frequencies, entry by entry. *)
Lemma reciprocal_grid_exact (pixel_size : R) (h w : nat) :
  0 < pixel_size -> (2 <= h)%nat -> (2 <= w)%nat ->
  _reciprocal_grid pixel_size (Z.of_nat h) (Z.of_nat w)
  = ok (map (fun i => map (fun j =>
               reciprocal_coord_spec pixel_size h i * reciprocal_coord_spec pixel_size h i
               + reciprocal_coord_spec pixel_size w j * reciprocal_coord_spec pixel_size w j)
               (seq 0 w)) (seq 0 h)).
Proof.
  intros Hps Hh Hw. unfold _reciprocal_grid.
  rewrite !reciprocal_coord_exact by assumption. cbn [rbind ok].
  apply ok_eq. rewrite !map_map. apply map_ext. intros i.
  rewrite !map_map. reflexivity.
Qed.

(** The maximum of the shifted filter on a grid of even sides is its entry
    [0, 0]. *)
Lemma shifted_filter_peak (pixel_size c alpha mx : R) (ch cw : nat) (w2 : matrix R) :
  0 < pixel_size -> 0 <= c -> 0 < alpha -> (1 <= ch)%nat -> (1 <= cw)%nat ->
  _reciprocal_grid pixel_size (Z.of_nat (2 * ch)) (Z.of_nat (2 * cw)) = ok w2 ->
  let pf := fftshift (mmap (fun x => 1 / (c * x / (4 * PI) + alpha)) w2) in
  matrix_max pf = ok mx ->
  nth 0 (nth 0 pf []) 0 = mx /\ 0 < mx.
Proof.
  intros Hps Hc Ha Hch Hcw Hgrid pf Hmx.
  rewrite reciprocal_grid_exact in Hgrid by (try assumption; lia).
  injection Hgrid as <-.
  set (h := (2 * ch)%nat) in *. set (w := (2 * cw)%nat) in *.
  set (rx := reciprocal_coord_spec pixel_size h) in *.
  set (ry := reciprocal_coord_spec pixel_size w) in *.
  set (g := fun x => 1 / (c * x / (4 * PI) + alpha)) in *.
  set (Fm := map (fun i => map (fun j => g (rx i * rx i + ry j * ry j)) (seq 0 w)) (seq 0 h)).
  assert (EF : pf = fftshift Fm).
  { unfold pf, Fm, mmap. f_equal. rewrite map_map. apply map_ext. intros i.
    now rewrite map_map. }
  clearbody pf. subst pf.
  set (peak := g (rx ch * rx ch + ry cw * ry cw)).
  assert (Hhalf_h : (h - h / 2 = ch)%nat).
  { unfold h. rewrite (Nat.mul_comm 2 ch), Nat.div_mul by lia. lia. }
  assert (Hhalf_w : (w - w / 2 = cw)%nat).
  { unfold w. rewrite (Nat.mul_comm 2 cw), Nat.div_mul by lia. lia. }
  assert (HlF : length Fm = h) by (unfold Fm; now rewrite length_map, length_seq).
  assert (Hrow : forall i, (i < h)%nat ->
            nth i Fm [] = map (fun j => g (rx i * rx i + ry j * ry j)) (seq 0 w)).
  { intros i Hi. unfold Fm.
    rewrite (@nth_map_lt nat (list R) _ (seq 0 h) [] 0%nat i) by (rewrite length_seq; lia).
    now rewrite seq_nth by lia. }
  assert (H00 : nth 0 (nth 0 (fftshift Fm) []) 0 = peak).
  { unfold fftshift.
    rewrite (@nth_map_lt (list R) (list R) _ (fftshift1 Fm) [] [] 0%nat)
      by (rewrite length_fftshift1, HlF; unfold h; lia).
    rewrite (@nth0_fftshift1 _ Fm []) by (rewrite HlF; unfold h; lia).
    rewrite HlF, Hhalf_h, Hrow by (unfold h; lia).
    rewrite nth0_fftshift1 by (rewrite length_map, length_seq; unfold w; lia).
    rewrite length_map, length_seq, Hhalf_w.
    rewrite (@nth_map_lt nat R _ (seq 0 w) 0 0%nat cw) by (rewrite length_seq; unfold w; lia).
    rewrite seq_nth by (unfold w; lia). reflexivity. }
  assert (Hbound : Forall (Forall (fun y => 0 < y <= peak)) (fftshift Fm)).
  { unfold fftshift. apply Forall_map. apply Forall_fftshift1.
    unfold Fm. apply Forall_map. apply Forall_forall. intros i _.
    apply Forall_fftshift1. apply Forall_map. apply Forall_forall. intros j _.
    unfold peak, g. apply filter_gain_antitone; try assumption.
    - pose proof (Rle_0_sqr (rx ch)) as Hx. pose proof (Rle_0_sqr (ry cw)) as Hy.
      unfold Rsqr in *. lra.
    - pose proof (@reciprocal_coord_min pixel_size ch i Hps Hch) as Hx.
      pose proof (@reciprocal_coord_min pixel_size cw j Hps Hcw) as Hy.
      fold h in Hx. fold w in Hy. fold rx in Hx. fold ry in Hy. lra. }
  apply matrix_max_spec in Hmx as [Hin Hall].
  assert (Hle : mx <= peak /\ 0 < mx).
  { apply Forall_concat in Hbound. rewrite Forall_forall in Hbound.
    specialize (Hbound mx Hin). cbv beta in Hbound. lra. }
  assert (Hge : peak <= mx).
  { rewrite Forall_forall in Hall. apply Hall. rewrite <- H00.
    apply in_concat. exists (nth 0 (fftshift Fm) []). split.
    - apply nth_In. unfold fftshift. rewrite length_map, length_fftshift1, HlF.
      unfold h; lia.
    - apply nth_In. unfold fftshift.
      rewrite (@nth_map_lt (list R) (list R) _ (fftshift1 Fm) [] [] 0%nat)
        by (rewrite length_fftshift1, HlF; unfold h; lia).
      rewrite length_fftshift1, (@nth0_fftshift1 _ Fm []) by (rewrite HlF; unfold h; lia).
      rewrite HlF, Hhalf_h, Hrow by (unfold h; lia).
      rewrite length_map, length_seq. unfold w; lia. }
  rewrite H00. split; lra.
Qed.

(** [retrieve_phase] with [pad=False] on images of even sides: every image
    becomes constant, equal to its bottom-right pixel. *)
Lemma retrieve_phase_no_pad_even (tomo : ndarray) (pixel_size dist energy alpha : R)
  (hp : heap) (d ch cw : nat) :
  shape tomo = [d; (2 * ch)%nat; (2 * cw)%nat] -> (base tomo < length hp)%nat ->
  length (read hp tomo) = d -> Forall (rect (2 * ch) (2 * cw)) (read hp tomo) ->
  (1 <= ch)%nat -> (1 <= cw)%nat ->
  0 < pixel_size -> 0 < energy -> 0 <= dist -> 0 < alpha ->
  exists hp',
    retrieve_phase tomo pixel_size dist energy alpha false hp = ok (tomo, hp')
    /\ length hp' = length hp
    /\ (forall b, b <> base tomo -> nth b hp' [] = nth b hp [])
    /\ read hp' tomo
       = map (fun img => full (2 * ch) (2 * cw) (bottom_right img)) (read hp tomo).
Proof.
  intros Hs Hb Hlen Hrect Hch Hcw Hps He Hdist Ha. unfold retrieve_phase.
  set (h := (2 * ch)%nat) in *. set (w := (2 * cw)%nat) in *.
  assert (Hh : (2 <= h)%nat) by (unfold h; lia).
  assert (Hw : (2 <= w)%nat) by (unfold w; lia).
  rewrite check_stack_rank3 by (unfold ndim; now rewrite Hs). cbn [rbind ok]. rewrite Hs.
  unfold _calc_pad. rewrite wavelength_exact by lra. cbn [rbind ok].
  change (2 * 0)%Z with 0%Z. rewrite !Z.add_0_r.
  destruct (@reciprocal_grid_rect R _ _ pixel_size h w) as (w2 & Hgrid & Hw2);
    try (apply reciprocal_step_nonzero; [lia | lra]).
  rewrite Hgrid. cbn [rbind ok].
  unfold _paganin_filter_factor. rewrite wavelength_exact by lra. cbn [rbind ok].
  destruct (Z.ltb_spec (Z.of_nat h) 0); [lia |].
  destruct (Z.ltb_spec (Z.of_nat w) 0); [lia |].
  cbn [orb]. rewrite !Nat2Z.id.
  cbn [fdiv fadd fmul of_Z numeric].
  set (wl := 2 * PI * PLANCK_CONSTANT * SPEED_OF_LIGHT / energy).
  assert (Hwl : 0 < wl) by (now apply wavelength_pos).
  set (pf := fftshift (mmap (fun x => 1 / (wl * dist * x / (4 * PI) + alpha)) w2)).
  assert (Hpf : rect h w pf) by (apply rect_fftshift; now apply rect_mmap).
  destruct (@matrix_max_ok R _ _ h w pf Hpf ltac:(lia) ltac:(lia)) as (mx & Hmx).
  destruct (@shifted_filter_peak pixel_size (wl * dist) alpha mx ch cw w2)
    as (H00 & Hpos); try assumption.
  { apply Rmult_le_pos; lra. }
  fold pf in H00.
  destruct (@retrieve_loop_map R _ _ (fun _ => True)
              (fun img => full h w (bottom_right img)) tomo
              pf (full h w (cast float32 (of_Z 0))) 0%Z 0%Z false hp d h w h w mx)
    as (hp' & Hrun & Hl & Hother & Hread); try assumption.
  { apply Forall_forall. intros img _. exact I. }
  { apply rect_full. }
  { intros img buf Himg _ Hbuf.
    rewrite (@retrieve_image_no_pad_exact (mmap (fun x => fdiv x mx) pf) img buf h w);
      try assumption; try lia; [| now apply rect_mmap].
    eexists. split.
    - apply ok_eq. f_equal. f_equal.
      unfold mmap.
      rewrite (@nth_map_lt (list R) (list R) _ pf [] [] 0%nat) by (destruct Hpf; lia).
      rewrite (@nth_map_lt R R _ (nth 0 pf []) 0 0 0%nat).
      2:{ destruct Hpf as [Hl1 Hr1].
          pose proof (@Forall_nth_default _ _ pf [] 0%nat Hr1 ltac:(lia)) as Hn.
          cbv beta in Hn. lia. }
      rewrite H00. cbn [fdiv numeric]. field. lra.
    - split; apply rect_full. }
  exists hp'. split; [exact Hrun |]. split; [exact Hl |]. split; [exact Hother |].
  rewrite Hread. cbn [cast Exact.float_class]. apply map_ext. intros img. apply mmap_id.
Qed.
End FilterPeak.

(** X6, in exact arithmetic: [retrieve_phase] with [pad=False] on images of
    even sides replaces every image by the constant image of its
    bottom-right pixel: the factor between the two is exactly 1, the entry
    [0, 0] of the shifted filter being its maximum. *)
Theorem X6_retrieve_phase_no_pad_even (a : ndarray) (hp : heap) (d ch cw : nat)
  (pixel_size dist energy alpha : R) :
  wf_array hp a ->
  (if ndim a =? 2 then 1 :: shape a else shape a) = [d; 2 * ch; 2 * cw] ->
  1 <= ch -> 1 <= cw ->
  (0 < pixel_size)%R -> (0 < energy)%R -> (0 <= dist)%R -> (0 < alpha)%R ->
  exists res hp',
    retrieve_phase a pixel_size dist energy alpha false hp = ok (res, hp')
    /\ base res = base a /\ length hp' = length hp
    /\ (forall b, b <> base a -> nth b hp' [] = nth b hp [])
    /\ read hp' res
       = map (fun img => full (2 * ch) (2 * cw) (bottom_right img)) (read hp a).
Proof.
  intros Hwf Hshape Hch Hcw Hps He Hdist Ha.
  destruct (@retrieve_phase_promoted a hp d (2 * ch) (2 * cw) pixel_size dist energy alpha
              false Hwf Hshape)
    as (a' & Hs & Hb & _ & Hlt & Hl & Hr & Hread & ->).
  destruct (@retrieve_phase_no_pad_even a' pixel_size dist energy alpha hp d ch cw)
    as (hp' & Hrun & Hlen & Hother & Hout); try assumption.
  exists a', hp'. split; [exact Hrun |]. split; [exact Hb |]. split; [exact Hlen |].
  split.
  - intros b Hne. apply Hother. now rewrite Hb.
  - now rewrite Hout, Hread.
Qed.

(** X6 on the 2x2 stack: the image becomes the constant image of value 4. *)
Lemma X6_witness :
  exists res hp',
    retrieve_phase stack_2x2 (1 / 10000)%R 50%R 20%R (1 / 1000)%R false heap_2x2
    = ok (res, hp')
    /\ read hp' res = [[[4%R; 4%R]; [4%R; 4%R]]].
Proof.
  destruct (@X6_retrieve_phase_no_pad_even stack_2x2 heap_2x2 1 1 1
              (1 / 10000)%R 50%R 20%R (1 / 1000)%R wf_stack_2x2 eq_refl
              ltac:(lia) ltac:(lia) ltac:(lra) ltac:(lra) ltac:(lra) ltac:(lra))
    as (res & hp' & Hrun & _ & _ & _ & Hout).
  exists res, hp'. split; [exact Hrun |]. rewrite Hout. reflexivity.
Defined.

(* ------------------------------------------------------------------ *)
(** ** The constant images of [retrieve_phase] without padding *)

(** [fftshift] keeps the entries of an array. *)
Lemma in_fftshift1 {A : Type} (x : A) (l : list A) : In x l -> In x (fftshift1 l).
Proof.
  intros Hin. unfold fftshift1.
  rewrite <- (firstn_skipn (length l - length l / 2) l) in Hin.
  apply in_app_or in Hin. apply in_or_app. tauto.
Qed.

Lemma in_concat_fftshift {A : Type} (x : A) (m : matrix A) :
  In x (concat m) -> In x (concat (fftshift m)).
Proof.
  intros Hin. apply in_concat in Hin as (r & Hr & Hx).
  apply in_concat. exists (fftshift1 r). split.
  - unfold fftshift. apply in_map. now apply in_fftshift1.
  - now apply in_fftshift1.
Qed.

Section FilterGain.
Local Open Scope R_scope.

(** The coordinates and the grid for a pixel size of either sign. *)
Lemma reciprocal_coord_value (pixel_size : R) (n : nat) :
  pixel_size <> 0 -> (2 <= n)%nat ->
  _reciprocal_coord pixel_size (Z.of_nat n)
  = ok (map (reciprocal_coord_spec pixel_size n) (seq 0 n)).
Proof.
  intros Hps Hn. unfold _reciprocal_coord.
  assert (Hn1 : 1 <= INR n - 1).
  { apply le_INR in Hn. simpl in Hn. lra. }
  assert (HZ : IZR (Z.of_nat n - 1) = INR n - 1).
  { rewrite minus_IZR, <- INR_IZR_INZ. reflexivity. }
  rewrite reciprocal_step_nonzero by assumption.
  f_equal. rewrite Nat2Z.id, map_map.
  apply map_ext; intros k.
  unfold reciprocal_coord_spec.
  cbn [cast float_class fmul fdiv of_Z lit numeric].
  rewrite Q2R_half, HZ.
  replace (IZR (- (Z.of_nat n - 1) + 2 * Z.of_nat k)) with (2 * INR k - (INR n - 1)).
  2:{ push_IZR. rewrite <- !INR_IZR_INZ. lra. }
  field. split; [exact Hps | lra].
Qed.

Lemma reciprocal_grid_value (pixel_size : R) (h w : nat) :
  pixel_size <> 0 -> (2 <= h)%nat -> (2 <= w)%nat ->
  _reciprocal_grid pixel_size (Z.of_nat h) (Z.of_nat w)
  = ok (map (fun i => map (fun j =>
               reciprocal_coord_spec pixel_size h i * reciprocal_coord_spec pixel_size h i
               + reciprocal_coord_spec pixel_size w j * reciprocal_coord_spec pixel_size w j)
               (seq 0 w)) (seq 0 h)).
Proof.
  intros Hps Hh Hw. unfold _reciprocal_grid.
  rewrite !reciprocal_coord_value by assumption. cbn [rbind ok].
  apply ok_eq. rewrite !map_map. apply map_ext. intros i.
  rewrite !map_map. reflexivity.
Qed.

(** On an axis of [n] points no coordinate is closer to zero than the one
    of index [(n - 1) / 2]. *)
Lemma reciprocal_coord_nearest (pixel_size : R) (n k : nat) :
  pixel_size <> 0 -> (2 <= n)%nat ->
  reciprocal_coord_spec pixel_size n ((n - 1) / 2)
  * reciprocal_coord_spec pixel_size n ((n - 1) / 2)
  <= reciprocal_coord_spec pixel_size n k * reciprocal_coord_spec pixel_size n k.
Proof.
  intros Hps Hn. unfold reciprocal_coord_spec.
  assert (Hn1 : 1 <= INR n - 1).
  { apply le_INR in Hn. simpl in Hn. lra. }
  set (D := 2 * (INR n - 1) * pixel_size).
  assert (HD : D <> 0).
  { unfold D. apply Rmult_integral_contrapositive_currified; [lra | exact Hps]. }
  set (c := ((n - 1) / 2)%nat).
  set (z0 := (2 * Z.of_nat c - (Z.of_nat n - 1))%Z).
  set (z := (2 * Z.of_nat k - (Z.of_nat n - 1))%Z).
  assert (E0 : 2 * INR c - (INR n - 1) = IZR z0).
  { unfold z0. push_IZR. rewrite <- !INR_IZR_INZ. ring. }
  assert (E : 2 * INR k - (INR n - 1) = IZR z).
  { unfold z. push_IZR. rewrite <- !INR_IZR_INZ. ring. }
  rewrite E0, E.
  assert (Hz : (z0 * z0 <= z * z)%Z).
  { pose proof (Nat.div_mod_eq (n - 1) 2) as Hdm.
    pose proof (Nat.mod_upper_bound (n - 1) 2 ltac:(lia)) as Hm.
    fold c in Hdm.
    assert (Hz0 : (z0 = 0 \/ z0 = -1)%Z) by (unfold z0; lia).
    destruct Hz0 as [-> | Hz0]; [nia |].
    assert (Hodd : (z <> 0)%Z) by (unfold z0, z in *; lia).
    rewrite Hz0. destruct (Z_lt_le_dec z 0); nia. }
  apply IZR_le in Hz. rewrite !mult_IZR in Hz.
  assert (Hi : 0 < / D * / D).
  { replace (/ D * / D) with (Rsqr (/ D)) by reflexivity.
    apply Rlt_0_sqr. now apply Rinv_neq_0_compat. }
  unfold Rdiv.
  replace (IZR z0 * / D * (IZR z0 * / D)) with (IZR z0 * IZR z0 * (/ D * / D)) by ring.
  replace (IZR z * / D * (IZR z * / D)) with (IZR z * IZR z * (/ D * / D)) by ring.
  apply Rmult_le_compat_r; [lra | exact Hz].
Qed.

(** The entry [0, 0] of the shifted filter and its maximum. *)
Lemma shifted_filter_gain (pixel_size c alpha mx : R) (h w : nat) (w2 : matrix R) :
  pixel_size <> 0 -> 0 <= c -> 0 < alpha -> (2 <= h)%nat -> (2 <= w)%nat ->
  _reciprocal_grid pixel_size (Z.of_nat h) (Z.of_nat w) = ok w2 ->
  let g := fun i j : nat =>
    1 / (c * (reciprocal_coord_spec pixel_size h i * reciprocal_coord_spec pixel_size h i
              + reciprocal_coord_spec pixel_size w j * reciprocal_coord_spec pixel_size w j)
         / (4 * PI) + alpha) in
  let pf := fftshift (mmap (fun x => 1 / (c * x / (4 * PI) + alpha)) w2) in
  matrix_max pf = ok mx ->
  nth 0 (nth 0 pf []) 0 = g (h - h / 2)%nat (w - w / 2)%nat
  /\ mx = g ((h - 1) / 2)%nat ((w - 1) / 2)%nat
  /\ 0 < g (h - h / 2)%nat (w - w / 2)%nat <= mx.
Proof.
  intros Hps Hc Ha Hh Hw Hgrid g pf Hmx.
  rewrite reciprocal_grid_value in Hgrid by assumption.
  injection Hgrid as <-.
  set (rx := reciprocal_coord_spec pixel_size h) in *.
  set (ry := reciprocal_coord_spec pixel_size w) in *.
  set (Fm := map (fun i => map (fun j => g i j) (seq 0 w)) (seq 0 h)).
  assert (EF : pf = fftshift Fm).
  { unfold pf, Fm, mmap. f_equal. rewrite map_map. apply map_ext. intros i.
    now rewrite map_map. }
  clearbody pf. subst pf.
  assert (Hdh : (1 <= h / 2 /\ h / 2 <= h /\ h - h / 2 < h)%nat).
  { pose proof (Nat.div_mod_eq h 2). pose proof (Nat.mod_upper_bound h 2 ltac:(lia)). lia. }
  assert (Hdw : (1 <= w / 2 /\ w / 2 <= w /\ w - w / 2 < w)%nat).
  { pose proof (Nat.div_mod_eq w 2). pose proof (Nat.mod_upper_bound w 2 ltac:(lia)). lia. }
  assert (Hch : ((h - 1) / 2 < h)%nat).
  { pose proof (Nat.div_mod_eq (h - 1) 2). lia. }
  assert (Hcw : ((w - 1) / 2 < w)%nat).
  { pose proof (Nat.div_mod_eq (w - 1) 2). lia. }
  assert (HlF : length Fm = h) by (unfold Fm; now rewrite length_map, length_seq).
  assert (Hrow : forall i, (i < h)%nat -> nth i Fm [] = map (fun j => g i j) (seq 0 w)).
  { intros i Hi. unfold Fm.
    rewrite (@nth_map_lt nat (list R) _ (seq 0 h) [] 0%nat i) by (rewrite length_seq; lia).
    now rewrite seq_nth by lia. }
  assert (Hentry : forall i j, (i < h)%nat -> (j < w)%nat -> nth j (nth i Fm []) 0 = g i j).
  { intros i j Hi Hj. rewrite Hrow by exact Hi.
    rewrite (@nth_map_lt nat R _ (seq 0 w) 0 0%nat j) by (rewrite length_seq; lia).
    now rewrite seq_nth by lia. }
  assert (H00 : nth 0 (nth 0 (fftshift Fm) []) 0 = g (h - h / 2)%nat (w - w / 2)%nat).
  { unfold fftshift.
    rewrite (@nth_map_lt (list R) (list R) _ (fftshift1 Fm) [] [] 0%nat)
      by (rewrite length_fftshift1, HlF; lia).
    rewrite (@nth0_fftshift1 _ Fm []) by (rewrite HlF; lia).
    rewrite HlF.
    assert (Hlr : length (nth (h - h / 2) Fm []) = w).
    { rewrite Hrow, length_map, length_seq by lia. reflexivity. }
    rewrite nth0_fftshift1 by (rewrite Hlr; lia).
    rewrite Hlr. apply Hentry; lia. }
  set (peak := g ((h - 1) / 2)%nat ((w - 1) / 2)%nat).
  assert (Hsq : forall i j, 0 <= rx i * rx i + ry j * ry j).
  { intros i j. pose proof (Rle_0_sqr (rx i)) as Hx. pose proof (Rle_0_sqr (ry j)) as Hy.
    unfold Rsqr in *. lra. }
  assert (Hg : forall i j, 0 < g i j <= peak).
  { intros i j. unfold peak, g. apply filter_gain_antitone; try assumption.
    - apply Hsq.
    - pose proof (@reciprocal_coord_nearest pixel_size h i Hps Hh) as Hx.
      pose proof (@reciprocal_coord_nearest pixel_size w j Hps Hw) as Hy.
      fold rx in Hx. fold ry in Hy. lra. }
  assert (Hbound : Forall (Forall (fun y => 0 < y <= peak)) (fftshift Fm)).
  { unfold fftshift. apply Forall_map. apply Forall_fftshift1.
    unfold Fm. apply Forall_map. apply Forall_forall. intros i _.
    apply Forall_fftshift1. apply Forall_map. apply Forall_forall. intros j _.
    apply Hg. }
  apply matrix_max_spec in Hmx as [Hin Hall].
  assert (Hle : mx <= peak).
  { apply Forall_concat in Hbound. rewrite Forall_forall in Hbound.
    specialize (Hbound mx Hin). cbv beta in Hbound. lra. }
  assert (Hge : peak <= mx).
  { rewrite Forall_forall in Hall. apply Hall. apply in_concat_fftshift.
    apply in_concat. exists (nth ((h - 1) / 2) Fm []). split.
    - apply nth_In. rewrite HlF. exact Hch.
    - unfold peak. rewrite <- (Hentry ((h - 1) / 2)%nat ((w - 1) / 2)%nat Hch Hcw).
      apply nth_In. rewrite Hrow, length_map, length_seq by exact Hch. exact Hcw. }
  split; [exact H00 |]. split; [lra |].
  destruct (Hg (h - h / 2)%nat (w - w / 2)%nat). split; lra.
Qed.
End FilterGain.

Section NoPadGain.
Local Open Scope R_scope.

(** [retrieve_phase] with [pad=False], in exact arithmetic: every image
    becomes constant, its bottom-right pixel times [no_pad_gain]. *)
Lemma retrieve_phase_no_pad_gain (tomo : ndarray) (pixel_size dist energy alpha : R)
  (hp : heap) (d h w : nat) :
  shape tomo = [d; h; w] -> (base tomo < length hp)%nat ->
  length (read hp tomo) = d -> Forall (rect h w) (read hp tomo) ->
  (2 <= h)%nat -> (2 <= w)%nat ->
  pixel_size <> 0 -> 0 < energy -> 0 <= dist -> 0 < alpha ->
  0 < no_pad_gain pixel_size dist energy alpha h w <= 1
  /\ exists hp',
       retrieve_phase tomo pixel_size dist energy alpha false hp = ok (tomo, hp')
       /\ read hp' tomo
          = map (fun img =>
                   full h w (bottom_right img * no_pad_gain pixel_size dist energy alpha h w))
              (read hp tomo).
Proof.
  intros Hs Hb Hlen Hrect Hh Hw Hps He Hdist Ha.
  set (wl := 2 * PI * PLANCK_CONSTANT * SPEED_OF_LIGHT / energy).
  assert (Hwl : 0 < wl) by (now apply wavelength_pos).
  assert (Hc : 0 <= wl * dist) by (apply Rmult_le_pos; lra).
  destruct (@reciprocal_grid_rect R _ _ pixel_size h w) as (w2 & Hgrid & Hw2);
    try (apply reciprocal_step_nonzero; [lia | assumption]).
  set (pf := fftshift (mmap (fun x => 1 / (wl * dist * x / (4 * PI) + alpha)) w2)).
  assert (Hpf : rect h w pf) by (apply rect_fftshift; now apply rect_mmap).
  destruct (@matrix_max_ok R _ _ h w pf Hpf ltac:(lia) ltac:(lia)) as (mx & Hmx).
  destruct (@shifted_filter_gain pixel_size (wl * dist) alpha mx h w w2)
    as (H00 & Hpeak & Hpos & Hle); try assumption.
  fold pf in H00.
  assert (Hgain : nth 0 (nth 0 pf []) 0 / mx = no_pad_gain pixel_size dist energy alpha h w).
  { rewrite H00, Hpeak. reflexivity. }
  assert (Hbounds : 0 < no_pad_gain pixel_size dist energy alpha h w <= 1).
  { rewrite <- Hgain, H00. split.
    - apply Rdiv_lt_0_compat; lra.
    - apply Rmult_le_reg_r with mx; [lra |].
      unfold Rdiv. rewrite Rmult_assoc, Rinv_l by lra. lra. }
  split; [exact Hbounds |].
  unfold retrieve_phase.
  rewrite check_stack_rank3 by (unfold ndim; now rewrite Hs). cbn [rbind ok]. rewrite Hs.
  unfold _calc_pad. rewrite wavelength_exact by lra. cbn [rbind ok].
  change (2 * 0)%Z with 0%Z. rewrite !Z.add_0_r.
  rewrite Hgrid. cbn [rbind ok].
  unfold _paganin_filter_factor. rewrite wavelength_exact by lra. cbn [rbind ok].
  destruct (Z.ltb_spec (Z.of_nat h) 0); [lia |].
  destruct (Z.ltb_spec (Z.of_nat w) 0); [lia |].
  cbn [orb]. rewrite !Nat2Z.id.
  cbn [fdiv fadd fmul of_Z numeric]. fold wl. fold pf.
  destruct (@retrieve_loop_map R _ _ (fun _ => True)
              (fun img => full h w (bottom_right img
                                    * no_pad_gain pixel_size dist energy alpha h w)) tomo
              pf (full h w (cast float32 (of_Z 0))) 0%Z 0%Z false hp d h w h w mx)
    as (hp' & Hrun & _ & _ & Hread); try assumption.
  { apply Forall_forall. intros img _. exact I. }
  { apply rect_full. }
  { intros img buf Himg _ Hbuf.
    rewrite (@retrieve_image_no_pad_exact (mmap (fun x => fdiv x mx) pf) img buf h w);
      try assumption; try lia; [| now apply rect_mmap].
    eexists. split.
    - apply ok_eq. f_equal. f_equal. f_equal.
      unfold mmap.
      rewrite (@nth_map_lt (list R) (list R) _ pf [] [] 0%nat) by (destruct Hpf; lia).
      rewrite (@nth_map_lt R R _ (nth 0 pf []) 0 0 0%nat).
      2:{ destruct Hpf as [Hl1 Hr1].
          pose proof (@Forall_nth_default _ _ pf [] 0%nat Hr1 ltac:(lia)) as Hn.
          cbv beta in Hn. lia. }
      cbn [fdiv numeric]. exact Hgain.
    - split; apply rect_full. }
  exists hp'. split; [exact Hrun |].
  rewrite Hread. cbn [cast Exact.float_class]. apply map_ext. intros img. apply mmap_id.
Qed.

(** On even sides the two filter entries are equal. *)
Lemma no_pad_gain_even (pixel_size dist energy alpha : R) (ch cw : nat) :
  pixel_size <> 0 -> 0 < energy -> 0 <= dist -> 0 < alpha -> (1 <= ch)%nat -> (1 <= cw)%nat ->
  no_pad_gain pixel_size dist energy alpha (2 * ch) (2 * cw) = 1.
Proof.
  intros Hps He Hd Ha Hch Hcw. unfold no_pad_gain.
  set (wl := 2 * PI * PLANCK_CONSTANT * SPEED_OF_LIGHT / energy).
  assert (Hwl : 0 < wl) by (now apply wavelength_pos).
  assert (Hc : 0 <= wl * dist) by (apply Rmult_le_pos; lra).
  assert (Hsym : forall c, (1 <= c)%nat ->
            reciprocal_coord_spec pixel_size (2 * c) (2 * c - 2 * c / 2)
            * reciprocal_coord_spec pixel_size (2 * c) (2 * c - 2 * c / 2)
            = reciprocal_coord_spec pixel_size (2 * c) ((2 * c - 1) / 2)
              * reciprocal_coord_spec pixel_size (2 * c) ((2 * c - 1) / 2)).
  { intros c Hc1.
    assert (E1 : (2 * c - 2 * c / 2 = c)%nat).
    { rewrite (Nat.mul_comm 2 c), Nat.div_mul by lia. lia. }
    assert (E2 : ((2 * c - 1) / 2 = c - 1)%nat).
    { symmetry. apply (Nat.div_unique (2 * c - 1) 2 (c - 1) 1); lia. }
    rewrite E1, E2. unfold reciprocal_coord_spec.
    assert (Hc' : 1 <= INR c) by (change 1 with (INR 1); now apply le_INR).
    rewrite minus_INR, mult_INR by lia. simpl INR.
    field. split; [exact Hps | lra]. }
  rewrite (Hsym ch Hch), (Hsym cw Hcw).
  set (t := reciprocal_coord_spec pixel_size (2 * ch) ((2 * ch - 1) / 2)
            * reciprocal_coord_spec pixel_size (2 * ch) ((2 * ch - 1) / 2)
            + reciprocal_coord_spec pixel_size (2 * cw) ((2 * cw - 1) / 2)
              * reciprocal_coord_spec pixel_size (2 * cw) ((2 * cw - 1) / 2)).
  assert (Ht : 0 <= t).
  { unfold t.
    pose proof (Rle_0_sqr (reciprocal_coord_spec pixel_size (2 * ch) ((2 * ch - 1) / 2))).
    pose proof (Rle_0_sqr (reciprocal_coord_spec pixel_size (2 * cw) ((2 * cw - 1) / 2))).
    unfold Rsqr in *. lra. }
  destruct (@filter_gain_antitone (wl * dist) alpha t t Hc Ha Ht ltac:(lra)) as [Hpos _].
  unfold Rdiv at 1. apply Rinv_r. lra.
Qed.
End NoPadGain.

(** C5, for calls that return and parameters that keep the filter positive
    (images of at least two rows and two columns, a pixel size other than
    0, a positive energy, a distance that is not negative, a positive
    [alpha]): with [pad=False] both pad amounts are 0; whatever the
    arithmetic, the buffer handed to the forward transform then holds the
    bottom-right pixel of the image in every position; and in exact
    arithmetic every image of the result is constant, the bottom-right
    pixel of the input image times [no_pad_gain]: the entry [0, 0] of the
    normalized filter, the same for all the images, positive and at most
    1. *)
Theorem C5_retrieve_phase_no_pad (a : ndarray) (hp : heap) (d h w : nat)
  (pixel_size dist energy alpha : R) :
  wf_array hp a ->
  (if ndim a =? 2 then 1 :: shape a else shape a) = [d; h; w] ->
  2 <= h -> 2 <= w ->
  pixel_size <> 0%R -> (0 < energy)%R -> (0 <= dist)%R -> (0 < alpha)%R ->
  (forall (F : Type) (FC : FloatClass F) (N : Numeric F) (tomo : list (matrix F))
          (ps di en : F) (py pz : Z) (val : F),
      _calc_pad h w tomo ps di en false = ok (py, pz, val) -> py = 0%Z /\ pz = 0%Z)
  /\ (forall (F : Type) (FC : FloatClass F) (N : Numeric F)
             (nf img prj prj' proj : matrix F),
        rect h w img -> rect h w prj ->
        retrieve_image nf 0 0 h w false img prj = ok (prj', proj) ->
        prj' = full h w (cast float32 (bottom_right img)))
  /\ (exists res hp',
        retrieve_phase a pixel_size dist energy alpha false hp = ok (res, hp')
        /\ base res = base a
        /\ forall m, m < d ->
             nth m (read hp' res) []
             = full h w (bottom_right (nth m (read hp a) [])
                         * no_pad_gain pixel_size dist energy alpha h w)%R)
  /\ (0 < no_pad_gain pixel_size dist energy alpha h w <= 1)%R.
Proof.
  intros Hwf Hshape Hh Hw Hps He Hdist Ha. split; [| split].
  - intros F FC N tomo ps di en py pz val. apply calc_pad_no_pad.
  - intros F FC N nf img prj prj' proj Himg Hprj.
    apply retrieve_image_buffer; try assumption; lia.
  - destruct (@retrieve_phase_promoted a hp d h w pixel_size dist energy alpha false Hwf Hshape)
      as (a' & Hs & Hb & _ & Hlt & Hl & Hr & Hread & ->).
    destruct (@retrieve_phase_no_pad_gain a' pixel_size dist energy alpha hp d h w)
      as (Hbounds & hp' & Hrun & Hout); try assumption.
    split; [| exact Hbounds].
    exists a', hp'. split; [exact Hrun |]. split; [exact Hb |].
    intros m Hm. rewrite Hout, Hread.
    rewrite (@nth_map_lt (matrix R) (matrix R) _ (read hp a) [] [] m); [reflexivity |].
    rewrite <- Hread. lia.
Qed.

(** C5 on a stack of one 2x2 image, whose bottom-right pixel is 4: the
    sides are even, the factor is 1 and the result is the constant image of
    value 4. *)
Lemma C5_witness :
  exists res hp',
    retrieve_phase stack_2x2 1%R 1%R 1%R 1%R false heap_2x2 = ok (res, hp')
    /\ nth 0 (read hp' res) [] = [[4%R; 4%R]; [4%R; 4%R]].
Proof.
  destruct (@C5_retrieve_phase_no_pad stack_2x2 heap_2x2 1 2 2 1%R 1%R 1%R 1%R
              wf_stack_2x2 eq_refl ltac:(lia) ltac:(lia) ltac:(lra) ltac:(lra) ltac:(lra)
              ltac:(lra))
    as (_ & _ & (res & hp' & Hrun & _ & Hout) & _).
  exists res, hp'. split; [exact Hrun |].
  rewrite (Hout 0) by lia.
  change (no_pad_gain 1 1 1 1 2 2) with (no_pad_gain 1 1 1 1 (2 * 1) (2 * 1)).
  rewrite no_pad_gain_even by (lra || lia).
  cbn. now rewrite Rmult_1_r.
Defined.


(* ------------------------------------------------------------------ *)
(** ** Exceptions raised before the first image is filtered *)

(** The rank check on an array whose promoted shape has three axes. *)
Lemma check_stack_shape (a : ndarray) (d h w : nat) :
  (if ndim a =? 2 then 1 :: shape a else shape a) = [d; h; w] ->
  exists a',
    check_stack a = ok a' /\ shape a' = [d; h; w] /\ base a' = base a
    /\ dtype_of a' = dtype_of a.
Proof.
  intros Hshape. unfold check_stack.
  destruct (Nat.eqb_spec (ndim a) 2) as [E2 | N2].
  - exists (expand_dims0 a). unfold ndim in *. cbn [expand_dims0 shape].
    cbn [Datatypes.length]. rewrite E2. cbn [Nat.eqb negb].
    repeat split. exact Hshape.
  - exists a. unfold ndim in *. rewrite Hshape. cbn [Datatypes.length Nat.eqb negb].
    repeat split.
Qed.

(** X7: on an array of rank 2 or 3, [retrieve_phase] called with an energy
    of 0 raises ZeroDivisionError, whatever the other arguments: the
    wavelength (line 390) is the first thing computed. *)
Theorem X7_retrieve_phase_zero_energy {F : Type} `{Numeric F} (a : ndarray)
  (pixel_size dist energy alpha : F) (pad : bool) (hp : heap) (d h w : nat) :
  (if ndim a =? 2 then 1 :: shape a else shape a) = [d; h; w] ->
  is_zero energy = true ->
  retrieve_phase a pixel_size dist energy alpha pad hp = raise ZeroDivisionError.
Proof.
  intros Hshape He.
  destruct (check_stack_shape a Hshape) as (a' & Hc & Hs & _).
  unfold retrieve_phase. rewrite Hc. cbn [rbind ok]. rewrite Hs.
  unfold _calc_pad, _wavelength. rewrite He. reflexivity.
Qed.

Lemma X7_witness :
  retrieve_phase stack_2x2 (1 / 10000)%R 50%R 0%R (1 / 1000)%R true heap_2x2
  = raise ZeroDivisionError.
Proof.
  apply (@X7_retrieve_phase_zero_energy R _ _ stack_2x2 (1 / 10000)%R 50%R 0%R
           (1 / 1000)%R true heap_2x2 1 2 2 eq_refl).
  now apply is_zero_true.
Defined.

(** X8: on an array of rank 2 or 3, [paganin_filter] called with an energy
    of 0 raises ZeroDivisionError (line 217), whatever the other
    arguments. *)
Theorem X8_paganin_filter_zero_energy {F : Type} `{Numeric F} (a : ndarray)
  (ratio energy distance resolution : F) (pad_y pad_x : Z) (pad_method : pad_mode F)
  (increment : F) (hp : heap) (d h w : nat) :
  (if ndim a =? 2 then 1 :: shape a else shape a) = [d; h; w] ->
  is_zero (fmul energy (lit 1000)) = true ->
  paganin_filter a ratio energy distance resolution pad_y pad_x pad_method increment hp
  = raise ZeroDivisionError.
Proof.
  intros Hshape He.
  destruct (check_stack_shape a Hshape) as (a' & Hc & Hs & _).
  unfold paganin_filter. rewrite Hc. cbn [rbind ok]. rewrite Hs.
  unfold paganin_stack, paganin_filtercomplex. rewrite He. reflexivity.
Qed.

Lemma X8_witness :
  paganin_filter stack_2x2 250%R 0%R 1%R (128 / 100)%R 100 100 Edge 0%R heap_2x2
  = raise ZeroDivisionError.
Proof.
  apply (@X8_paganin_filter_zero_energy R _ _ stack_2x2 250%R 0%R 1%R (128 / 100)%R
           100%Z 100%Z Edge 0%R heap_2x2 1 2 2 eq_refl).
  apply is_zero_true. cbn [fmul numeric]. apply Rmult_0_l.
Defined.

(** X9: [paganin_filter] called with a negative pad amount never returns an
    array: the rank check, the construction of the filter or [cp.pad] raises
    a ValueError or a ZeroDivisionError. *)
Theorem X9_paganin_filter_negative_pad {F : Type} `{Numeric F} (a : ndarray)
  (ratio energy distance resolution : F) (pad_y pad_x : Z) (pad_method : pad_mode F)
  (increment : F) (hp : heap) :
  (pad_y < 0 \/ pad_x < 0)%Z ->
  exists e,
    paganin_filter a ratio energy distance resolution pad_y pad_x pad_method increment hp
    = raise e
    /\ (e = ZeroDivisionError \/ exists msg, e = ValueError msg).
Proof.
  intros Hneg.
  assert (Hb : ((pad_y <? 0) || (pad_x <? 0))%Z = true).
  { destruct Hneg as [Hy | Hx].
    - apply Z.ltb_lt in Hy. now rewrite Hy.
    - apply Z.ltb_lt in Hx. rewrite Hx. apply orb_true_r. }
  unfold paganin_filter, check_stack. cbv zeta.
  destruct (negb (ndim (if ndim a =? 2 then expand_dims0 a else a) =? 3));
    [eexists; split; [reflexivity | right; eexists; reflexivity] |].
  cbn [rbind ok]. unfold paganin_stack.
  destruct (shape (if ndim a =? 2 then expand_dims0 a else a)) as [| d [| h [| w [| x l]]]];
    try (eexists; split; [reflexivity | right; eexists; reflexivity]).
  unfold paganin_filtercomplex. cbv zeta.
  destruct (is_zero (fmul energy (lit 1000)));
    [eexists; split; [reflexivity | now left] |].
  destruct (is_zero (fmul (of_Z _) _));
    [eexists; split; [reflexivity | now left] |].
  destruct (is_zero (fmul (of_Z _) _));
    [eexists; split; [reflexivity | now left] |].
  destruct ((Z.of_nat h + _ <? 0) || (_ <? 0))%Z;
    [eexists; split; [reflexivity | right; eexists; reflexivity] |].
  cbn [rbind ok]. unfold pad_stack. rewrite Hb.
  eexists. split; [reflexivity | right; eexists; reflexivity].
Qed.

(** X9 on the 2x2 stack with [pad_y = -1]. *)
Lemma X9_witness :
  exists e,
    paganin_filter stack_2x2 250%R 53%R 1%R (128 / 100)%R (-1) 100 Edge 0%R heap_2x2
    = raise e
    /\ (e = ZeroDivisionError \/ exists msg, e = ValueError msg).
Proof.
  apply (@X9_paganin_filter_negative_pad R _ _ stack_2x2 250%R 53%R 1%R (128 / 100)%R
           (-1)%Z 100%Z Edge 0%R heap_2x2).
  left. lia.
Defined.

(** X10: on a stack whose images have no column, [retrieve_phase] with
    [pad=True] and an energy other than 0 raises IndexError: line 405 reads
    the column 0 of every image. *)
Theorem X10_retrieve_phase_no_columns {F : Type} `{Numeric F} (a : ndarray)
  (pixel_size dist energy alpha : F) (hp : heap) (d h : nat) :
  (if ndim a =? 2 then 1 :: shape a else shape a) = [d; h; 0] ->
  is_zero energy = false ->
  retrieve_phase a pixel_size dist energy alpha true hp = raise IndexError.
Proof.
  intros Hshape He.
  destruct (check_stack_shape a Hshape) as (a' & Hc & Hs & _).
  unfold retrieve_phase. rewrite Hc. cbn [rbind ok]. rewrite Hs.
  unfold _calc_pad, _wavelength. rewrite He. cbn [rbind ok].
  reflexivity.
Qed.

Lemma X10_witness :
  retrieve_phase stack_no_columns (1 / 10000)%R 50%R 20%R (1 / 1000)%R true heap_no_columns
  = raise IndexError.
Proof.
  apply (@X10_retrieve_phase_no_columns R _ _ stack_no_columns (1 / 10000)%R 50%R 20%R
           (1 / 1000)%R heap_no_columns 1 2 eq_refl).
  apply is_zero_false. lra.
Defined.
(** X11, in exact arithmetic: on images of a single row or a single column,
    [retrieve_phase] with [pad=False] and an energy other than 0 raises
    ZeroDivisionError: line 463 divides by [(num_grid - 1) * pixel_size]. *)
Theorem X11_retrieve_phase_single_line (a : ndarray) (pixel_size dist energy alpha : R)
  (hp : heap) (d h w : nat) :
  (if ndim a =? 2 then 1 :: shape a else shape a) = [d; h; w] ->
  h = 1 \/ w = 1 -> energy <> 0%R ->
  retrieve_phase a pixel_size dist energy alpha false hp = raise ZeroDivisionError.
Proof.
  intros Hshape Hone He.
  destruct (check_stack_shape a Hshape) as (a' & Hc & Hs & _).
  unfold retrieve_phase. rewrite Hc. cbn [rbind ok]. rewrite Hs.
  unfold _calc_pad. rewrite wavelength_exact by exact He. cbn [rbind ok].
  change (2 * 0)%Z with 0%Z. rewrite !Z.add_0_r.
  assert (Hline : forall ps, _reciprocal_coord ps (Z.of_nat 1) = raise ZeroDivisionError).
  { intros ps. unfold _reciprocal_coord.
    rewrite is_zero_true; [reflexivity |].
    cbn [of_Z fmul numeric]. change (Z.of_nat 1 - 1)%Z with 0%Z. apply Rmult_0_l. }
  unfold _reciprocal_grid.
  destruct Hone as [-> | ->].
  - now rewrite Hline.
  - destruct (_reciprocal_coord pixel_size (Z.of_nat h)) as [e | indx] eqn:Ex.
    + unfold _reciprocal_coord in Ex.
      destruct (is_zero _) in Ex; [| discriminate]. injection Ex as <-. reflexivity.
    + cbn [rbind ok]. now rewrite Hline.
Qed.

Lemma X11_witness :
  retrieve_phase stack_11a (1 / 10000)%R 50%R 20%R (1 / 1000)%R false heap_11
  = raise ZeroDivisionError.
Proof.
  apply (@X11_retrieve_phase_single_line stack_11a (1 / 10000)%R 50%R 20%R (1 / 1000)%R
           heap_11 1 11 1 eq_refl); [now right | lra].
Defined.

(* ------------------------------------------------------------------ *)
(** ** The padded length of an axis *)

Section PaddedLength.
Local Open Scope R_scope.

(** X12, in exact arithmetic: for an axis of [dim >= 1] points, a pixel size
    other than 0 and [wavelength * dist >= 0], [_calc_pad_width] returns a
    pad amount [p >= 0], and the padded length [dim + 2 p] is a power of two
    [2^k >= dim] when [2^k - dim] is even, and one less than that power of
    two when [2^k - dim] is odd. *)
Theorem X12_calc_pad_width_padded_length (dim : nat) (pixel_size wavelength dist : R) :
  (1 <= dim)%nat -> pixel_size <> 0 -> 0 <= wavelength * dist ->
  exists k p : Z,
    _calc_pad_width dim pixel_size wavelength dist = ok p
    /\ (0 <= k)%Z /\ (0 <= p)%Z /\ (Z.of_nat dim <= 2 ^ k)%Z
    /\ (Z.of_nat dim + 2 * p
        = if Z.even (2 ^ k - Z.of_nat dim) then 2 ^ k else 2 ^ k - 1)%Z.
Proof.
  intros Hdim Hps Hwd.
  destruct (@calc_pad_width_exact dim pixel_size wavelength dist Hdim Hps Hwd)
    as (Hrun & Hpp & Hle).
  set (pad_pix := ceilZ (PI * wavelength * dist / (pixel_size * pixel_size))) in *.
  set (k := ceilZ (ln (IZR (Z.of_nat dim) + IZR pad_pix) / ln 2)) in *.
  assert (Hx : 1 <= IZR (Z.of_nat dim) + IZR pad_pix).
  { rewrite <- plus_IZR. apply IZR_le. lia. }
  destruct (pow2_ceil_log2 Hx) as (Hk & _ & _). fold k in Hk.
  exists k, ((2 ^ k - Z.of_nat dim) / 2)%Z.
  split; [exact Hrun |]. split; [exact Hk |].
  assert (Hz : (0 <= 2 ^ k - Z.of_nat dim)%Z) by lia.
  pose proof (Z.div_mod (2 ^ k - Z.of_nat dim) 2 ltac:(lia)) as Hdm.
  pose proof (Z.mod_pos_bound (2 ^ k - Z.of_nat dim) 2 ltac:(lia)) as Hmod.
  split; [apply Z.div_pos; lia |]. split; [lia |].
  rewrite Zeven_mod.
  destruct (Z.eqb_spec ((2 ^ k - Z.of_nat dim) mod 2) 0) as [E | N]; lia.
Qed.

(** X12 on an axis of 200 points with the default parameters. *)
Lemma X12_witness :
  exists k p : Z,
    _calc_pad_width 200 (1 / 10000)%R
      (2 * PI * PLANCK_CONSTANT * SPEED_OF_LIGHT / 20)%R 50%R = ok p
    /\ (200 + 2 * p = if Z.even (2 ^ k - 200) then 2 ^ k else 2 ^ k - 1)%Z.
Proof.
  destruct (@X12_calc_pad_width_padded_length 200 (1 / 10000)%R
              (2 * PI * PLANCK_CONSTANT * SPEED_OF_LIGHT / 20)%R 50%R
              ltac:(lia) ltac:(lra))
    as (k & p & Hrun & _ & _ & _ & Hlen).
  - pose proof (@wavelength_pos 20%R ltac:(lra)). lra.
  - exists k, p. split; [exact Hrun | exact Hlen].
Defined.
End PaddedLength.

(* ------------------------------------------------------------------ *)
(** ** The frequencies of [_reciprocal_coord] *)

Section Frequencies.
Local Open Scope R_scope.

Lemma reciprocal_coord_nth (pixel_size : R) (n k : nat) (rc : list R) :
  0 < pixel_size -> (2 <= n)%nat ->
  _reciprocal_coord pixel_size (Z.of_nat n) = ok rc -> (k < n)%nat ->
  nth k rc 0 = reciprocal_coord_spec pixel_size n k.
Proof.
  intros Hps Hn Hrun Hk. rewrite reciprocal_coord_exact in Hrun by assumption.
  injection Hrun as <-.
  rewrite (@nth_map_lt nat R _ (seq 0 n) 0 0%nat k) by (rewrite length_seq; lia).
  now rewrite seq_nth by lia.
Qed.

(** X13, in exact arithmetic: for a pixel size above 0 and an axis of
    [n >= 2] points, [_reciprocal_coord] returns [n] frequencies that run
    from [-1/(2 pixel_size)] to [1/(2 pixel_size)] in equal steps of
    [1/((n-1) pixel_size)]; they are antisymmetric about the middle of the
    axis, and an axis of even length has no zero frequency. *)
Theorem X13_reciprocal_coord_range (pixel_size : R) (n : nat) :
  0 < pixel_size -> (2 <= n)%nat ->
  exists rc,
    _reciprocal_coord pixel_size (Z.of_nat n) = ok rc
    /\ length rc = n
    /\ nth 0 rc 0 = - / (2 * pixel_size)
    /\ nth (n - 1) rc 0 = / (2 * pixel_size)
    /\ (forall k, (S k < n)%nat ->
          nth (S k) rc 0 - nth k rc 0 = / ((INR n - 1) * pixel_size))
    /\ (forall k, (k < n)%nat -> nth (n - 1 - k) rc 0 = - nth k rc 0)
    /\ (Nat.even n = true -> forall k, (k < n)%nat -> nth k rc 0 <> 0).
Proof.
  intros Hps Hn.
  pose proof (reciprocal_coord_exact Hps Hn) as Hrun.
  exists (map (reciprocal_coord_spec pixel_size n) (seq 0 n)).
  set (rc := map (reciprocal_coord_spec pixel_size n) (seq 0 n)) in *.
  split; [exact Hrun |].
  assert (Hn1 : 1 <= INR n - 1).
  { apply le_INR in Hn. change (INR 2) with 2 in Hn. lra. }
  assert (Hlen : length rc = n) by (unfold rc; now rewrite length_map, length_seq).
  split; [exact Hlen |].
  split.
  { rewrite (reciprocal_coord_nth Hps Hn Hrun) by lia. unfold reciprocal_coord_spec.
    change (INR 0) with 0. field. lra. }
  split.
  { rewrite (reciprocal_coord_nth Hps Hn Hrun) by lia. unfold reciprocal_coord_spec.
    rewrite minus_INR by lia. change (INR 1) with 1. field. lra. }
  split.
  { intros k Hk. rewrite !(reciprocal_coord_nth Hps Hn Hrun) by lia.
    unfold reciprocal_coord_spec. rewrite S_INR. field. lra. }
  split.
  { intros k Hk. rewrite !(reciprocal_coord_nth Hps Hn Hrun) by lia.
    unfold reciprocal_coord_spec. rewrite !minus_INR by lia. change (INR 1) with 1.
    field. lra. }
  intros Hev k Hk. rewrite (reciprocal_coord_nth Hps Hn Hrun) by lia.
  unfold reciprocal_coord_spec. intros Hzero.
  apply Nat.even_spec in Hev as [m Hm].
  assert (Hnum : 2 * INR k - (INR n - 1) = 0).
  { apply Rmult_integral in Hzero as [Hz | Hz]; [exact Hz |].
    exfalso. revert Hz. apply Rinv_neq_0_compat.
    apply Rgt_not_eq. apply Rmult_lt_0_compat; lra. }
  assert (Hint : (2 * Z.of_nat k - (Z.of_nat n - 1) = 0)%Z).
  { apply eq_IZR. rewrite minus_IZR, mult_IZR, minus_IZR, <- !INR_IZR_INZ. exact Hnum. }
  lia.
Qed.

(** X13 on an axis of 4 points with the default pixel size. *)
Lemma X13_witness :
  exists rc,
    _reciprocal_coord (1 / 10000)%R 4 = ok rc
    /\ nth 0 rc 0%R = (- / (2 * (1 / 10000)))%R
    /\ nth 3 rc 0%R = (/ (2 * (1 / 10000)))%R.
Proof.
  destruct (@X13_reciprocal_coord_range (1 / 10000)%R 4 ltac:(lra) ltac:(lia))
    as (rc & Hrun & _ & H0 & Hlast & _).
  exists rc. split; [exact Hrun |]. split; [exact H0 | exact Hlast].
Defined.
End Frequencies.

(* ------------------------------------------------------------------ *)
(** ** The values of the filter of [retrieve_phase] *)

Section FilterValues.
Local Open Scope R_scope.

(** X14, in exact arithmetic: for a pixel size, an energy and an [alpha]
    above 0, a distance that is not negative and a grid of at least two
    points per axis, every entry of the filter
    [_paganin_filter_factor(energy, dist, alpha, _reciprocal_grid(...))]
    lies in (0, 1/alpha]. *)
Theorem X14_paganin_filter_factor_bounds (pixel_size energy dist alpha : R) (h w : nat) :
  0 < pixel_size -> 0 < energy -> 0 <= dist -> 0 < alpha -> (2 <= h)%nat -> (2 <= w)%nat ->
  exists w2 f,
    _reciprocal_grid pixel_size (Z.of_nat h) (Z.of_nat w) = ok w2
    /\ _paganin_filter_factor energy dist alpha w2 = ok f
    /\ rect h w f
    /\ Forall (Forall (fun y => 0 < y <= / alpha)) f.
Proof.
  intros Hps He Hdist Ha Hh Hw.
  destruct (@reciprocal_grid_rect R _ _ pixel_size h w) as (w2 & Hgrid & Hw2);
    try (apply reciprocal_step_nonzero; [lia | lra]).
  exists w2. eexists. split; [exact Hgrid |].
  unfold _paganin_filter_factor. rewrite wavelength_exact by lra. cbn [rbind ok].
  split; [reflexivity |]. split; [now apply rect_mmap |].
  rewrite reciprocal_grid_exact in Hgrid by assumption. injection Hgrid as <-.
  pose proof (wavelength_pos He) as Hwl.
  unfold mmap. apply Forall_map, Forall_map, Forall_forall. intros i _.
  apply Forall_map, Forall_map, Forall_forall. intros j _.
  cbn [fdiv fadd fmul of_Z numeric].
  set (c := 2 * PI * PLANCK_CONSTANT * SPEED_OF_LIGHT / energy * dist).
  set (t := reciprocal_coord_spec pixel_size h i * reciprocal_coord_spec pixel_size h i
            + reciprocal_coord_spec pixel_size w j * reciprocal_coord_spec pixel_size w j).
  assert (Hc : 0 <= c) by (unfold c; apply Rmult_le_pos; lra).
  assert (Ht : 0 <= t).
  { unfold t.
    pose proof (Rle_0_sqr (reciprocal_coord_spec pixel_size h i)) as Hx.
    pose proof (Rle_0_sqr (reciprocal_coord_spec pixel_size w j)) as Hy.
    unfold Rsqr in *. lra. }
  destruct (@filter_gain_antitone c alpha 0 t Hc Ha (Rle_refl 0) Ht) as [Hpos Hle].
  split; [exact Hpos |].
  replace (/ alpha) with (1 / (c * 0 / (4 * PI) + alpha)); [exact Hle |].
  pose proof PI_const_pos. field. split; lra.
Qed.

(** X14 on a grid of 2x3 points with the default parameters. *)
Lemma X14_witness :
  exists w2 f,
    _reciprocal_grid (1 / 10000)%R 2 3 = ok w2
    /\ _paganin_filter_factor 20%R 50%R (1 / 1000)%R w2 = ok f
    /\ Forall (Forall (fun y => (0 < y <= / (1 / 1000))%R)) f.
Proof.
  destruct (@X14_paganin_filter_factor_bounds (1 / 10000)%R 20%R 50%R (1 / 1000)%R 2 3
              ltac:(lra) ltac:(lra) ltac:(lra) ltac:(lra) ltac:(lia) ltac:(lia))
    as (w2 & f & Hgrid & Hf & _ & Hb).
  exists w2, f. split; [exact Hgrid |]. split; [exact Hf | exact Hb].
Defined.
End FilterValues.

(* ------------------------------------------------------------------ *)
(** ** The values of the Fresnel window *)

Section WindowValues.
Local Open Scope R_scope.

(** For a ratio that is not negative no entry of the window is below 1. *)
Lemma make_window_ge_one (h w : nat) (ratio : R) (pattern : string) :
  0 <= ratio -> Forall (Forall (fun y => 1 <= y)) (_make_window h w ratio pattern).
Proof.
  intros Hr. unfold _make_window.
  destruct (String.eqb pattern "PROJECTION").
  - apply Forall_map, Forall_map, Forall_forall. intros i _.
    apply Forall_map, Forall_map, Forall_forall. intros j _.
    cbn [fadd fmul fsqr fdiv fsub lit of_Z numeric]. rewrite Q2R_one.
    match goal with
    | |- 1 <= 1 + ratio * (?u * ?u + ?v * ?v) =>
        pose proof (Rle_0_sqr u) as Hu; pose proof (Rle_0_sqr v) as Hv;
        unfold Rsqr in Hu, Hv;
        assert (0 <= ratio * (u * u + v * v)) by (apply Rmult_le_pos; lra); lra
    end.
  - apply Forall_repeat. apply Forall_map, Forall_map, Forall_forall. intros j _.
    cbn [fadd fmul fsqr fdiv fsub lit of_Z numeric]. rewrite Q2R_one.
    match goal with
    | |- 1 <= 1 + ratio * (?u * ?u) =>
        pose proof (Rle_0_sqr u) as Hu; unfold Rsqr in Hu;
        assert (0 <= ratio * (u * u)) by (apply Rmult_le_pos; lra); lra
    end.
Qed.
End WindowValues.

Section WindowCentre.
Local Open Scope R_scope.

Lemma center_index (n : nat) :
  truncZ (IZR (ceilZ (IZR (Z.of_nat n - 1) * Q2R (1 # 2)))) = Z.of_nat (n / 2).
Proof.
  rewrite truncZ_IZR, Q2R_half, ceilZ_half.
  replace (Z.of_nat n - 1 + 1)%Z with (Z.of_nat n) by lia.
  now rewrite Nat2Z.inj_div.
Qed.

(** The entry at the centre of the window is 1. *)
Lemma make_window_center_one (h w : nat) (ratio : R) (pattern : string) :
  (1 <= h)%nat -> (1 <= w)%nat ->
  nth (w / 2) (nth (h / 2) (_make_window h w ratio pattern) []) 0 = 1.
Proof.
  intros Hh Hw.
  assert (Hh2 : (h / 2 < h)%nat) by (apply Nat.div_lt; lia).
  assert (Hw2 : (w / 2 < w)%nat) by (apply Nat.div_lt; lia).
  assert (HW : INR w <> 0) by (apply not_0_INR; lia).
  assert (HH : INR h <> 0) by (apply not_0_INR; lia).
  unfold _make_window. cbn [ftrunc fceil fmul of_Z lit numeric].
  rewrite !center_index.
  destruct (String.eqb pattern "PROJECTION").
  - rewrite map_map.
    rewrite (@nth_map_lt Z (list R) _ (arange h) [] 0%Z (h / 2))
      by (rewrite length_arange; lia).
    rewrite map_map.
    rewrite (@nth_map_lt Z R _ (arange w) 0 0%Z (w / 2)) by (rewrite length_arange; lia).
    rewrite !nth_arange by lia.
    cbn [fadd fmul fsqr fdiv fsub lit of_Z numeric]. rewrite Q2R_one, <- !INR_IZR_INZ.
    field. split; assumption.
  - rewrite nth_repeat_lt by lia. rewrite map_map.
    rewrite (@nth_map_lt Z R _ (arange w) 0 0%Z (w / 2)) by (rewrite length_arange; lia).
    rewrite !nth_arange by lia.
    cbn [fadd fmul fsqr fdiv fsub lit of_Z numeric]. rewrite Q2R_one, <- !INR_IZR_INZ.
    field. assumption.
Qed.
End WindowCentre.

(** X15, in exact arithmetic: for a ratio that is not negative no entry of
    the window of [_make_window] is below 1, so that [fresnel_filter] never
    divides by 0, and the entry at the centre [(h // 2, w // 2)] is 1. *)
Theorem X15_make_window_values (h w : nat) (ratio : R) (pattern : string) :
  (0 <= ratio)%R -> 1 <= h -> 1 <= w ->
  Forall (Forall (fun y => (1 <= y)%R)) (_make_window h w ratio pattern)
  /\ nth (w / 2) (nth (h / 2) (_make_window h w ratio pattern) []) 0%R = 1%R.
Proof.
  intros Hr Hh Hw. split; [now apply make_window_ge_one |].
  now apply make_window_center_one.
Qed.

(** X15 on the window of 3 rows and 4 columns for ratio 100. *)
Lemma X15_witness :
  Forall (Forall (fun y => (1 <= y)%R)) (_make_window 3 4 100%R "PROJECTION")
  /\ nth 2 (nth 1 (_make_window 3 4 100%R "PROJECTION") []) 0%R = 1%R.
Proof.
  exact (@X15_make_window_values 3 4 100%R "PROJECTION" ltac:(lra) ltac:(lia) ltac:(lia)).
Defined.

(* ------------------------------------------------------------------ *)
(** ** Infinite pixels on the way to the transform of [paganin_filter] *)

(** X16, in IEEE arithmetic: where an image of [paganin_filter] holds an
    infinity, the array handed to the transform on line 252 holds the
    largest finite float32 value (with the sign of the infinity) when the
    stack is of dtype float32, but an infinity again when the stack is of
    dtype float64: [cp.nan_to_num] yields the largest float64 value, which
    the conversion to float32 overflows. *)
Theorem X16_transform_input_infinite (dt : dtype) (img : matrix spec_float) (i j : nat)
  (s : bool) :
  i < length img -> j < length (nth i img []) ->
  nth j (nth i img []) S754_nan = S754_infinity s ->
  nth j (nth i (transform_input dt img) []) S754_nan
  = match dt with
    | float32 => if s then SFopp (SFmax_float 24 128) else SFmax_float 24 128
    | float64 => S754_infinity s
    end.
Proof.
  intros Hi Hj Hx. unfold transform_input, sanitize, mmap. rewrite map_map.
  rewrite (@nth_map_lt (list spec_float) (list spec_float) _ img [] [] i) by exact Hi.
  rewrite map_map.
  rewrite (@nth_map_lt spec_float spec_float _ (nth i img []) S754_nan S754_nan j)
    by exact Hj.
  rewrite Hx. destruct dt, s; vm_compute; reflexivity.
Qed.

(** X16 on a double-precision image of one infinite pixel. *)
Lemma X16_witness :
  nth 0 (nth 0 (transform_input float64 image_inf) []) S754_nan = S754_infinity false.
Proof.
  apply (@X16_transform_input_infinite float64 image_inf 0 0 false);
    [cbn; lia | cbn; lia | reflexivity].
Defined.

(* ------------------------------------------------------------------ *)
(** ** [retrieve_phase] with [pad=True] and a computed pad amount of 0 *)

Section ZeroPadAmount.
Context {F : Type} `{Numeric F}.

(** The flag [pad] only decides whether the filtered image is cropped. *)
Lemma retrieve_image_pad_flag (nf img prj : matrix F) (px py : Z) (dy dz : nat) :
  retrieve_image nf px py dy dz true img prj
  = rbind (retrieve_image nf px py dy dz false img prj) (fun r =>
      ok (fst r, crop px (Z.of_nat dy + px) py (Z.of_nat dz + py) (snd r))).
Proof.
  unfold retrieve_image.
  destruct (assign_block _ _ _ _ _ _) as [e | p1]; [reflexivity |]. cbn [rbind].
  destruct (assign_rows None _ _ p1) as [e | p2]; [reflexivity |]. cbn [rbind].
  destruct (assign_rows (Some _) None _ p2) as [e | p3]; [reflexivity |]. cbn [rbind].
  destruct (assign_cols None _ _ _ p3) as [e | p4]; [reflexivity |]. cbn [rbind].
  destruct (assign_cols (Some _) None _ _ p4) as [e | p5]; [reflexivity |]. cbn [rbind].
  destruct (fft2 _) as [e | f1]; [reflexivity |]. cbn [rbind].
  destruct (elementwise_inplace _ _ _) as [e | f2]; [reflexivity |]. cbn [rbind].
  destruct (ifft2 _) as [e | inv]; reflexivity.
Qed.
End ZeroPadAmount.

Lemma crop_whole {A : Type} (h w : nat) (m : matrix A) :
  rect h w m -> crop 0 (Z.of_nat h + 0) 0 (Z.of_nat w + 0) m = m.
Proof.
  intros [Hl Hr]. unfold crop. rewrite !Z.add_0_r.
  change 0%Z with (Z.of_nat 0). rewrite <- (Z.add_0_l (Z.of_nat h)), <- (Z.add_0_l (Z.of_nat w)).
  change 0%Z with (Z.of_nat 0).
  rewrite slice_inside by (cbn [Nat.add]; lia). rewrite skipn_O, firstn_all2 by lia.
  transitivity (map (fun r : list A => r) m); [| apply map_id].
  apply map_ext_Forall. eapply Forall_impl; [| exact Hr].
  intros r Hrl. cbv beta in Hrl.
  rewrite slice_inside by (cbn [Nat.add]; lia). rewrite skipn_O. apply firstn_all2. lia.
Qed.

Section PowerOfTwo.
Local Open Scope R_scope.

(** The loop body with pad amounts 0, whatever the flag [pad]. *)
Lemma retrieve_image_zero_pad (nf img prj : matrix R) (h w : nat) (pad : bool) :
  rect h w nf -> rect h w img -> rect h w prj -> (1 <= h)%nat -> (1 <= w)%nat ->
  retrieve_image nf 0 0 h w pad img prj
  = ok (full h w (bottom_right img),
        full h w (bottom_right img * nth 0 (nth 0 nf []) 0)).
Proof.
  intros Hnf Himg Hprj Hh Hw. destruct pad.
  - rewrite retrieve_image_pad_flag.
    rewrite (retrieve_image_no_pad_exact Hnf Himg Hprj Hh Hw). cbn [rbind ok fst snd].
    apply ok_eq. f_equal. apply crop_whole. apply rect_full.
  - now apply retrieve_image_no_pad_exact.
Qed.

(** [retrieve_phase] with [pad=True] at distance 0 on images whose sides are
    powers of two: no padding is added and every image becomes constant. *)
Lemma retrieve_phase_power_of_two (tomo : ndarray) (pixel_size energy alpha : R) (hp : heap)
  (d kh kw : nat) :
  shape tomo = [d; (2 ^ kh)%nat; (2 ^ kw)%nat] -> (base tomo < length hp)%nat ->
  length (read hp tomo) = d -> Forall (rect (2 ^ kh) (2 ^ kw)) (read hp tomo) ->
  (1 <= kh)%nat -> (1 <= kw)%nat ->
  pixel_size <> 0 -> energy <> 0 -> alpha <> 0 ->
  exists hp',
    retrieve_phase tomo pixel_size 0 energy alpha true hp = ok (tomo, hp')
    /\ length hp' = length hp
    /\ (forall b, b <> base tomo -> nth b hp' [] = nth b hp [])
    /\ read hp' tomo
       = map (fun img => full (2 ^ kh) (2 ^ kw) (bottom_right img)) (read hp tomo).
Proof.
  intros Hs Hb Hlen Hrect Hkh Hkw Hps He Ha.
  set (h := (2 ^ kh)%nat) in *. set (w := (2 ^ kw)%nat) in *.
  assert (Hh : (2 <= h)%nat).
  { unfold h. change 2%nat with (2 ^ 1)%nat at 1. apply Nat.pow_le_mono_r; lia. }
  assert (Hw : (2 <= w)%nat).
  { unfold w. change 2%nat with (2 ^ 1)%nat at 1. apply Nat.pow_le_mono_r; lia. }
  unfold retrieve_phase.
  rewrite check_stack_rank3 by (unfold ndim; now rewrite Hs). cbn [rbind ok]. rewrite Hs.
  unfold _calc_pad. rewrite wavelength_exact by exact He. cbn [rbind ok].
  unfold _calc_pad_val. destruct (Nat.eqb_spec w 0) as [E | _]; [lia |]. cbn [rbind ok].
  rewrite (@calc_pad_width_zero_distance h kh) by (try assumption; fold h; lia).
  rewrite (@calc_pad_width_zero_distance w kw) by (try assumption; fold w; lia).
  cbn [rbind ok]. fold h. fold w. rewrite !Nat.sub_diag.
  change (Z.of_nat (0 / 2)) with 0%Z. change (2 * 0)%Z with 0%Z. rewrite !Z.add_0_r.
  destruct (@reciprocal_grid_rect R _ _ pixel_size h w) as (w2 & -> & Hgrid);
    try (apply reciprocal_step_nonzero; [lia | assumption]).
  cbn [rbind ok].
  unfold _paganin_filter_factor. rewrite wavelength_exact by exact He. cbn [rbind ok].
  destruct (Z.ltb_spec (Z.of_nat h) 0); [lia |].
  destruct (Z.ltb_spec (Z.of_nat w) 0); [lia |].
  cbn [orb]. rewrite !Nat2Z.id.
  rewrite (@mmap_const_rect R R _ (/ alpha) h w w2 Hgrid).
  2:{ intros x. cbn [fdiv fadd fmul of_Z numeric].
      pose proof PI_const_pos as Hpi. field. repeat split; try assumption; lra. }
  rewrite fftshift_full.
  match goal with
  | |- context [_retrieve_phase tomo _ _ _ ?buf true hp] => set (prj := buf)
  end.
  destruct (@retrieve_loop_map R _ _ (fun _ => True)
              (fun img => full h w (bottom_right img)) tomo
              (full h w (/ alpha)) prj 0%Z 0%Z true hp d h w h w (/ alpha))
    as (hp' & Hrun & Hl & Hother & Hread); try assumption.
  { apply Forall_forall. intros img _. exact I. }
  { apply rect_full. }
  { apply matrix_max_full; lia. }
  { intros img buf Himg _ Hbuf. rewrite mmap_full.
    replace (fdiv (/ alpha) (/ alpha)) with 1
      by (cbn [fdiv numeric]; field; exact Ha).
    rewrite (@retrieve_image_zero_pad (full h w 1) img buf h w true);
      try assumption; try lia; [| apply rect_full].
    eexists. split.
    - apply ok_eq. f_equal. f_equal.
      unfold full. rewrite !nth_repeat_lt by lia. ring.
    - split; apply rect_full. }
  exists hp'. split; [exact Hrun |]. split; [exact Hl |]. split; [exact Hother |].
  rewrite Hread. cbn [cast Exact.float_class]. apply map_ext. intros img. apply mmap_id.
Qed.
End PowerOfTwo.

(** X17, in exact arithmetic: [retrieve_phase] with [pad=True] at
    propagation distance 0 on images whose sides are powers of two (2 at
    least) adds no padding, and every image is replaced by the constant
    image of its bottom-right pixel, as it is with [pad=False]. *)
Theorem X17_retrieve_phase_power_of_two (a : ndarray) (hp : heap) (d kh kw : nat)
  (pixel_size energy alpha : R) :
  wf_array hp a ->
  (if ndim a =? 2 then 1 :: shape a else shape a) = [d; 2 ^ kh; 2 ^ kw] ->
  1 <= kh -> 1 <= kw ->
  pixel_size <> 0%R -> energy <> 0%R -> alpha <> 0%R ->
  exists res hp',
    retrieve_phase a pixel_size 0%R energy alpha true hp = ok (res, hp')
    /\ base res = base a /\ length hp' = length hp
    /\ (forall b, b <> base a -> nth b hp' [] = nth b hp [])
    /\ read hp' res
       = map (fun img => full (2 ^ kh) (2 ^ kw) (bottom_right img)) (read hp a).
Proof.
  intros Hwf Hshape Hkh Hkw Hps He Ha.
  destruct (@retrieve_phase_promoted a hp d (2 ^ kh) (2 ^ kw) pixel_size 0%R energy alpha
              true Hwf Hshape)
    as (a' & Hs & Hb & _ & Hlt & Hl & Hr & Hread & ->).
  destruct (@retrieve_phase_power_of_two a' pixel_size energy alpha hp d kh kw)
    as (hp' & Hrun & Hlen & Hother & Hout); try assumption.
  exists a', hp'. split; [exact Hrun |]. split; [exact Hb |]. split; [exact Hlen |].
  split.
  - intros b Hne. apply Hother. now rewrite Hb.
  - now rewrite Hout, Hread.
Qed.

(** X17 on the 2x2 stack: the image becomes the constant image of value 4. *)
Lemma X17_witness :
  exists res hp',
    retrieve_phase stack_2x2 (1 / 10000)%R 0%R 20%R (1 / 1000)%R true heap_2x2
    = ok (res, hp')
    /\ read hp' res = [[[4%R; 4%R]; [4%R; 4%R]]].
Proof.
  destruct (@X17_retrieve_phase_power_of_two stack_2x2 heap_2x2 1 1 1
              (1 / 10000)%R 20%R (1 / 1000)%R wf_stack_2x2 eq_refl
              ltac:(lia) ltac:(lia) ltac:(lra) ltac:(lra) ltac:(lra))
    as (res & hp' & Hrun & _ & _ & _ & Hout).
  exists res, hp'. split; [exact Hrun |]. rewrite Hout. reflexivity.
Defined.

(* ------------------------------------------------------------------ *)
(** ** [fresnel_filter] on short images under the pattern "PROJECTION" *)

(** X18: under the pattern "PROJECTION", [fresnel_filter] on a stack of at
    least one image of at most ten rows raises the ValueError of [cp.pad]:
    dropping the first ten rows leaves an empty axis, which cannot be
    extended in mode "edge". *)
Theorem X18_fresnel_projection_short (a : ndarray) (hp : heap) (d h w : nat) (ratio : R)
  (apply_log : bool) :
  wf_array hp a -> (if ndim a =? 2 then 1 :: shape a else shape a) = [d; h; w] ->
  1 <= d -> h <= 10 ->
  fresnel_filter a "PROJECTION" ratio apply_log hp
  = raise (ValueError (msg_pad_empty_axis 0)).
Proof.
  intros Hwf Hshape Hd Hh.
  destruct (promoted_stack Hwf Hshape) as (a' & Hc & Hs & Hb & Hdt & Hlt & Hl & Hr).
  unfold fresnel_filter. rewrite Hc. cbn [rbind ok]. rewrite Hs.
  rewrite fresnel_stack_short; [reflexivity | exact Hd | exact Hh | |].
  - assert (Hrect : rect h w (nth 0 (read hp a') []))
      by (apply Forall_nth_default; [assumption | lia]).
    destruct Hrect as [Hlen _]. lia.
  - apply fresnel_pad_width_nonneg.
Qed.

(** X18 on the 5x5 stack. *)
Lemma X18_witness :
  fresnel_filter stack_5x5 "PROJECTION" 100%R false heap_5x5
  = raise (ValueError
             "can't extend empty axis 0 using modes other than 'constant' or 'empty'").
Proof.
  apply (@X18_fresnel_projection_short stack_5x5 heap_5x5 1 5 5 100%R false
           wf_stack_5x5 eq_refl); lia.
Defined.

(* ------------------------------------------------------------------ *)
(** ** Constant images under [retrieve_phase] with [pad=True] *)

Lemma bottom_right_full (h w : nat) (v : R) :
  1 <= h -> 1 <= w -> bottom_right (full h w v) = v.
Proof.
  intros Hh Hw. unfold bottom_right.
  rewrite (rect_nrows (rect_full h w v)), (rect_ncols (rect_full h w v) Hh).
  unfold full. rewrite !nth_repeat_lt by lia. reflexivity.
Qed.

Lemma crop_full {A : Type} (x : A) (p q h w : nat) :
  crop (Z.of_nat p) (Z.of_nat h + Z.of_nat p) (Z.of_nat q) (Z.of_nat w + Z.of_nat q)
    (full (h + 2 * p) (w + 2 * q) x)
  = full h w x.
Proof.
  unfold crop, full.
  rewrite (Z.add_comm (Z.of_nat h)), (Z.add_comm (Z.of_nat w)).
  rewrite slice_inside by (rewrite repeat_length; lia).
  rewrite skipn_repeat_le, firstn_repeat_le by lia.
  rewrite map_repeat. f_equal.
  rewrite slice_inside by (rewrite repeat_length; lia).
  rewrite skipn_repeat_le, firstn_repeat_le by lia. reflexivity.
Qed.

Section ConstantImages.
Local Open Scope R_scope.

(** The loop body on a constant image, for equal pad amounts on both axes
    and a normalised filter whose entry [0, 0] is 1. *)
Lemma retrieve_image_constant (nf prj : matrix R) (p n : nat) (v : R) :
  rect (n + 2 * p) (n + 2 * p) nf -> rect (n + 2 * p) (n + 2 * p) prj ->
  (1 <= n)%nat -> nth 0 (nth 0 nf []) 0 = 1 ->
  retrieve_image nf (Z.of_nat p) (Z.of_nat p) n n true (full n n v) prj
  = ok (full (n + 2 * p) (n + 2 * p) v, full n n v).
Proof.
  intros Hnf Hprj Hn H00. destruct p as [| p'].
  - cbn [Nat.mul Nat.add] in *. rewrite Nat.add_0_r in *. change (Z.of_nat 0) with 0%Z.
    rewrite (@retrieve_image_zero_pad nf (full n n v) prj n n true);
      try assumption; try apply rect_full.
    rewrite bottom_right_full, H00 by assumption. apply ok_eq. f_equal. f_equal. ring.
  - set (p := S p') in *.
    rewrite (@retrieve_image_padded R _ _ nf (full n n v) prj p p n n true);
      try assumption; try apply rect_full; try (unfold p; lia).
    cbn [cast Exact.float_class]. rewrite mmap_id.
    assert (Hpad : map (pad_edge1 p p) (pad_edge1 p p (full n n v))
                   = full (n + 2 * p) (n + 2 * p) v).
    { pose proof (@pad_edge_full R v p p p p n n Hn Hn) as Hfull.
      rewrite (pad_edge_value p p p p (rect_full n n v) Hn Hn) in Hfull.
      injection Hfull as ->. f_equal; lia. }
    rewrite Hpad.
    etransitivity.
    { exact (@filter_constant_image _
               (fun proj => ok (full (n + 2 * p) (n + 2 * p) v,
                                crop (Z.of_nat p) (Z.of_nat n + Z.of_nat p)
                                  (Z.of_nat p) (Z.of_nat n + Z.of_nat p) proj))
               (n + 2 * p) (n + 2 * p) v nf Hnf ltac:(lia) ltac:(lia)). }
    cbv beta. rewrite H00, Rmult_1_r, crop_full. reflexivity.
Qed.

(** [retrieve_phase] with [pad=True] on square images of even side: a stack
    of constant images is returned as it is. *)
Lemma retrieve_phase_constant (tomo : ndarray) (pixel_size dist energy alpha : R) (hp : heap)
  (d c : nat) :
  shape tomo = [d; (2 * c)%nat; (2 * c)%nat] -> (base tomo < length hp)%nat ->
  length (read hp tomo) = d ->
  Forall (constant_image (2 * c) (2 * c)) (read hp tomo) ->
  (1 <= c)%nat -> 0 < pixel_size -> 0 < energy -> 0 <= dist -> 0 < alpha ->
  retrieve_phase tomo pixel_size dist energy alpha true hp = ok (tomo, hp).
Proof.
  intros Hs Hb Hlen Hconst Hc Hps He Hdist Ha.
  set (n := (2 * c)%nat) in *.
  assert (Hn : (2 <= n)%nat) by (unfold n; lia).
  assert (Hrect : Forall (rect n n) (read hp tomo)).
  { eapply Forall_impl; [| exact Hconst]. intros img [v ->]. apply rect_full. }
  unfold retrieve_phase.
  rewrite check_stack_rank3 by (unfold ndim; now rewrite Hs). cbn [rbind ok]. rewrite Hs.
  unfold _calc_pad. rewrite wavelength_exact by lra. cbn [rbind ok].
  set (wl := 2 * PI * PLANCK_CONSTANT * SPEED_OF_LIGHT / energy).
  assert (Hwl : 0 < wl) by (now apply wavelength_pos).
  assert (Hwd : 0 <= wl * dist) by (apply Rmult_le_pos; lra).
  unfold _calc_pad_val. destruct (Nat.eqb_spec n 0) as [E | _]; [lia |]. cbn [rbind ok].
  destruct (@calc_pad_width_exact n pixel_size wl dist ltac:(lia) ltac:(lra) Hwd)
    as (Hrun & Hpp & Hle).
  rewrite Hrun. cbn [rbind ok].
  match goal with
  | |- context [(Z.of_nat n + 2 * ?q)%Z] => set (pz := q) in *
  end.
  assert (Hpz : (0 <= pz)%Z) by (unfold pz; apply Z.div_pos; lia).
  set (p := Z.to_nat pz). replace pz with (Z.of_nat p) by (unfold p; lia).
  replace (Z.of_nat n + 2 * Z.of_nat p)%Z with (Z.of_nat (n + 2 * p)) by lia.
  destruct (@reciprocal_grid_rect R _ _ pixel_size (n + 2 * p) (n + 2 * p))
    as (w2 & Hgrid & Hw2);
    try (apply reciprocal_step_nonzero; [lia | lra]).
  rewrite Hgrid. cbn [rbind ok].
  unfold _paganin_filter_factor. fold wl.
  replace (_wavelength energy) with (ok wl) by (symmetry; apply wavelength_exact; lra).
  cbn [rbind ok].
  destruct (Z.ltb_spec (Z.of_nat (n + 2 * p)) 0); [lia |].
  cbn [orb]. rewrite !Nat2Z.id.
  cbn [fdiv fadd fmul of_Z numeric].
  set (pf := fftshift (mmap (fun x => 1 / (wl * dist * x / (4 * PI) + alpha)) w2)).
  assert (Hpf : rect (n + 2 * p) (n + 2 * p) pf) by (apply rect_fftshift; now apply rect_mmap).
  destruct (@matrix_max_ok R _ _ (n + 2 * p) (n + 2 * p) pf Hpf ltac:(lia) ltac:(lia))
    as (mx & Hmx).
  assert (Heven : (n + 2 * p = 2 * (c + p))%nat) by (unfold n; lia).
  destruct (@shifted_filter_peak pixel_size (wl * dist) alpha mx (c + p) (c + p) w2)
    as (H00 & Hpos); try assumption; try lia.
  { rewrite <- Heven. exact Hgrid. }
  fold pf in H00.
  match goal with
  | |- context [_retrieve_phase tomo pf _ _ ?buf true hp] => set (prj := buf)
  end.
  destruct (@retrieve_loop_map R _ _ (constant_image n n) (fun img => img) tomo
              pf prj (Z.of_nat p) (Z.of_nat p) true hp d n n (n + 2 * p) (n + 2 * p) mx)
    as (hp' & Hrun' & Hl & Hother & Hread); try assumption.
  { apply rect_full. }
  { intros img buf Himg [v ->] Hbuf.
    rewrite retrieve_image_constant; try assumption; try lia.
    - eexists. split; [reflexivity |]. split; apply rect_full.
    - now apply rect_mmap.
    - unfold mmap.
      rewrite (@nth_map_lt (list R) (list R) _ pf [] [] 0%nat) by (destruct Hpf; lia).
      rewrite (@nth_map_lt R R _ (nth 0 pf []) 0 0 0%nat).
      2:{ destruct Hpf as [Hl1 Hr1].
          pose proof (@Forall_nth_default _ _ pf [] 0%nat Hr1 ltac:(lia)) as Hrow.
          cbv beta in Hrow. lia. }
      rewrite H00. cbn [fdiv numeric]. field. lra. }
  rewrite Hrun'. apply ok_eq. f_equal.
  apply heap_ext with (a := tomo); try assumption.
  rewrite Hread. cbn [cast Exact.float_class].
  transitivity (map (fun m : matrix R => m) (read hp tomo)); [| apply map_id].
  apply map_ext. apply mmap_id.
Qed.
End ConstantImages.

Lemma wf_stack_4x4 : wf_array heap_4x4 stack_4x4.
Proof.
  split; [cbn; lia |]. cbn. split; [reflexivity |].
  repeat constructor.
Qed.

(** X19, in exact arithmetic: [retrieve_phase] with [pad=True] on square
    images of even side returns a stack of constant images as it was (for a
    pixel size, an energy and an [alpha] above 0 and a distance that is not
    negative): edge padding keeps the image constant, and the filter
    multiplies the only non-zero coefficient of its transform by 1. *)
Theorem X19_retrieve_phase_constant_images (a : ndarray) (hp : heap) (d c : nat)
  (pixel_size dist energy alpha : R) :
  wf_array hp a ->
  (if ndim a =? 2 then 1 :: shape a else shape a) = [d; 2 * c; 2 * c] ->
  Forall (constant_image (2 * c) (2 * c)) (read hp a) ->
  1 <= c ->
  (0 < pixel_size)%R -> (0 < energy)%R -> (0 <= dist)%R -> (0 < alpha)%R ->
  exists res,
    retrieve_phase a pixel_size dist energy alpha true hp = ok (res, hp)
    /\ base res = base a /\ shape res = [d; 2 * c; 2 * c].
Proof.
  intros Hwf Hshape Hconst Hc Hps He Hdist Ha.
  destruct (@retrieve_phase_promoted a hp d (2 * c) (2 * c) pixel_size dist energy alpha
              true Hwf Hshape)
    as (a' & Hs & Hb & _ & Hlt & Hl & Hr & Hread & ->).
  exists a'. split; [| split; assumption].
  apply retrieve_phase_constant with (d := d) (c := c); try assumption.
  now rewrite Hread.
Qed.

(** X19 on the stack of one 4x4 image of value 3, with the default
    parameters. *)
Lemma X19_witness :
  exists res,
    retrieve_phase stack_4x4 (1 / 10000)%R 50%R 20%R (1 / 1000)%R true heap_4x4
    = ok (res, heap_4x4)
    /\ base res = 0.
Proof.
  destruct (@X19_retrieve_phase_constant_images stack_4x4 heap_4x4 1 2
              (1 / 10000)%R 50%R 20%R (1 / 1000)%R wf_stack_4x4 eq_refl)
    as (res & Hrun & Hb & _); try lia; try lra.
  - constructor; [| constructor]. exists 3%R. reflexivity.
  - exists res. split; [exact Hrun | exact Hb].
Defined.

(* ------------------------------------------------------------------ *)
(** ** Flat images under [fresnel_filter] *)

Lemma nth_pad_edge1_inside {A : Type} (before after j : nat) (l : list A) (d : A) :
  j < length l -> nth (before + j) (pad_edge1 before after l) d = nth j l d.
Proof.
  intros Hj. destruct l as [| x l]; [simpl in Hj; lia |].
  unfold pad_edge1. rewrite app_nth2 by (rewrite repeat_length; lia).
  rewrite repeat_length. replace (before + j - before) with j by lia.
  now rewrite app_nth1 by exact Hj.
Qed.

Lemma nth0_ifftshift1 {A : Type} (l : list A) (d : A) :
  1 <= length l -> nth 0 (ifftshift1 l) d = nth (length l / 2) l d.
Proof.
  intros Hl. unfold ifftshift1.
  assert (Hlt : length l / 2 < length l) by (apply Nat.div_lt; lia).
  rewrite app_nth1 by (rewrite length_skipn; lia).
  rewrite nth_skipn. f_equal. lia.
Qed.

(** A row that vanishes off index 0 vanishes off index [n / 2] once shifted. *)
Lemma fftshift1_delta {A : Type} (l : list A) (z d : A) (k : nat) :
  (forall j, 1 <= j -> j < length l -> nth j l d = z) ->
  k < length l -> k <> length l / 2 -> nth k (fftshift1 l) d = z.
Proof.
  intros Hz Hk Hne. unfold fftshift1. remember (length l) as n eqn:En.
  assert (Hhalf : n / 2 < n) by (apply Nat.div_lt; lia).
  destruct (Nat.lt_ge_cases k (n / 2)) as [Hlt | Hge].
  - rewrite app_nth1 by (rewrite length_skipn; lia).
    rewrite nth_skipn. apply Hz; lia.
  - rewrite app_nth2 by (rewrite length_skipn; lia).
    rewrite length_skipn, <- En, nth_firstn.
    replace (n - (n - n / 2)) with (n / 2) by lia.
    destruct (Nat.ltb_spec (k - n / 2) (n - n / 2)) as [_ | Hx]; [| lia].
    apply Hz; lia.
Qed.

Section FlatImages.
Local Open Scope R_scope.

Lemma cdiv_real_zero (x : R) : cdiv_real czero x = czero.
Proof.
  apply complex_eq; unfold cdiv_real, czero; cbn [fst snd fdiv fzero float_class numeric];
    unfold Rdiv; ring.
Qed.

(** Dividing by a window changes nothing where the window is 1 or the
    dividend is 0. *)
Lemma map2_cdiv_real_fixed (a : list (R * R)) (b : list R) :
  length a = length b ->
  (forall k, (k < length a)%nat -> nth k a czero = czero \/ nth k b 0 = 1) ->
  map2 cdiv_real a b = a.
Proof.
  intros Hl Hk. apply nth_ext with (d := czero) (d' := czero).
  - rewrite length_map2. unfold complex in *. lia.
  - intros k Hlt. rewrite length_map2 in Hlt.
    assert (Hka : (k < length a)%nat) by (unfold complex in *; lia).
    rewrite (@nth_map2 _ _ _ cdiv_real a b k czero czero 0 Hl Hka).
    unfold complex in *.
    destruct (Hk k Hka) as [E | E]; rewrite E; [apply cdiv_real_zero | apply cdiv_real_one].
Qed.

(** The transform of a constant row vanishes off index 0. *)
Lemma dft1_const (v : R) (n k : nat) :
  (1 <= k)%nat -> (k < n)%nat ->
  dft1_at 1 (map of_real (repeat v n)) k = czero.
Proof.
  intros Hk Hn. unfold dft1_at. rewrite length_map, repeat_length.
  rewrite (csum_map_ext _ (fun m => cmul (v, 0) (twiddle n (1 * Z.of_nat m * Z.of_nat k)))).
  2:{ intros m Hm. apply in_seq in Hm. f_equal.
      rewrite (@nth_map_lt R (R * R) of_real (repeat v n) czero 0 m)
        by (rewrite repeat_length; lia).
      now rewrite nth_repeat_lt by lia. }
  rewrite csum_map_cmul_l. fold (geometric n k).
  rewrite geometric_vanishes by lia. apply cmul_zero_r.
Qed.

(** One image of constant rows through the one-dimensional branch, for a
    window whose rows are 1 at the centre column. *)
Lemma fresnel_image_flat_rows (pattern : string) (window : matrix R) (pw h w : nat)
  (img : matrix R) :
  String.eqb pattern "PROJECTION" = false ->
  rect h w img -> constant_rows w img -> rect h w window ->
  (forall i, (i < h)%nat -> nth (w / 2) (nth i window []) 0 = 1) ->
  (1 <= h)%nat -> (1 <= w)%nat ->
  fresnel_image pattern window (Z.of_nat pw) h w img = ok img.
Proof.
  intros Hpat Himg Hconst Hwin Hcentre Hh Hw. unfold fresnel_image. rewrite Hpat.
  change 0%Z with (Z.of_nat 0). rewrite !pad_edge_int_nat.
  rewrite (pad_edge_value 0 0 pw pw Himg Hh Hw), (pad_edge_value 0 0 pw pw Hwin Hh Hw).
  cbn [rbind ok]. rewrite !pad_edge1_none.
  set (W := (pw + w + pw)%nat).
  assert (Hpad : rect h W (map (pad_edge1 pw pw) img)).
  { eapply rect_map_rows; [| exact Himg].
    intros r Hr. rewrite length_pad_edge1; [unfold W; lia |]. intros ->. simpl in Hr. lia. }
  assert (Hwpad : rect h W (map (pad_edge1 pw pw) window)).
  { eapply rect_map_rows; [| exact Hwin].
    intros r Hr. rewrite length_pad_edge1; [unfold W; lia |]. intros ->. simpl in Hr. lia. }
  destruct (@ifft_fft h W (mmap of_real (map (pad_edge1 pw pw) img)))
    as (y & Hy & Hry & Hinv); [now apply rect_mmap | lia | unfold W; lia |].
  rewrite Hy. cbn [rbind ok].
  rewrite (@elementwise_rect _ _ _ cdiv_real h W);
    [| now apply rect_fftshift_axis1 | exact Hwpad | exact Hh].
  cbn [rbind ok].
  assert (Hfix : map2 (map2 cdiv_real) (fftshift_axis1 y) (map (pad_edge1 pw pw) window)
                 = fftshift_axis1 y).
  { unfold fft in Hy. unfold complex in *.
    rewrite (rect_ncols (rect_mmap of_real Hpad) Hh) in Hy.
    destruct (Nat.eqb_spec W 0) as [E | _]; [unfold W in E; lia |].
    injection Hy as <-.
    unfold fftshift_axis1, mmap. rewrite !map_map.
    apply nth_ext with (d := []) (d' := []).
    { rewrite length_map2, !length_map. destruct Hwin, Himg. lia. }
    intros i Hi. rewrite length_map2, !length_map in Hi.
    destruct Himg as [Hil Hir]. destruct Hwin as [Hwl Hwr].
    assert (Hih : (i < h)%nat) by lia.
    rewrite (@nth_map2 (list (R * R)) (list R) (list (R * R))
               (map2 (@cdiv_real R _ _)) _ _ i [] [] [])
      by (rewrite !length_map; lia).
    rewrite (@nth_map_lt (list R) (list (R * R)) _ img [] [] i) by lia.
    rewrite (@nth_map_lt (list R) (list R) _ window [] [] i) by lia.
    unfold constant_rows in Hconst.
    pose proof (@Forall_nth_default _ _ img [] i Hconst ltac:(lia)) as [v Hv].
    cbv beta in Hv. rewrite Hv.
    rewrite pad_edge1_repeat by exact Hw. fold W.
    rewrite length_map, repeat_length.
    pose proof (@Forall_nth_default _ _ window [] i Hwr ltac:(lia)) as Hlw.
    cbv beta in Hlw.
    apply map2_cdiv_real_fixed.
    { rewrite length_fftshift1, length_map, length_seq, length_pad_edge1; [unfold W; lia |].
      intros E. rewrite E in Hlw. simpl in Hlw. lia. }
    intros k Hk. rewrite length_fftshift1, length_map, length_seq in Hk.
    destruct (Nat.eq_dec k (W / 2)) as [-> | Hne].
    - right.
      assert (EW : (W / 2 = pw + w / 2)%nat).
      { unfold W. replace (pw + w + pw)%nat with (w + pw * 2)%nat by lia.
        rewrite Nat.div_add by lia. lia. }
      rewrite EW, nth_pad_edge1_inside by (rewrite Hlw; apply Nat.div_lt; lia).
      now apply Hcentre.
    - left. apply fftshift1_delta.
      + intros j Hj1 Hj2. rewrite length_map, length_seq in Hj2.
        rewrite (@nth_map_lt nat (R * R) _ (seq 0 W) czero 0%nat j)
          by (rewrite length_seq; lia).
        rewrite seq_nth by lia. cbn [Nat.add]. now apply dft1_const.
      + now rewrite length_map, length_seq.
      + now rewrite length_map, length_seq. }
  unfold complex in *. rewrite Hfix.
  rewrite ifftshift_axis1_fftshift_axis1, Hinv. cbn [rbind ok].
  apply ok_eq. rewrite map_slice_mmap.
  rewrite creal_of_real. apply unpad_columns; [apply Himg | exact Hw].
Qed.
End FlatImages.

Section FlatProjections.
Local Open Scope R_scope.

(** One constant image through the two-dimensional branch, for a window
    that is 1 at its centre. *)
Lemma fresnel_image_flat_projection (window : matrix R) (pw h w : nat) (v : R) :
  rect h w window -> nth (w / 2) (nth (h / 2) window []) 0 = 1 ->
  (10 < h)%nat -> (1 <= w)%nat ->
  fresnel_image "PROJECTION" window (Z.of_nat pw) h w (full h w v) = ok (full h w v).
Proof.
  intros Hwin Hcentre Hh Hw. unfold fresnel_image. cbn [String.eqb Ascii.eqb Bool.eqb].
  change 10%Z with (Z.of_nat 10). rewrite slice_from, <- Nat2Z.inj_add.
  rewrite !pad_edge_int_nat.
  assert (Hskip : skipn 10 (full h w v) = full (h - 10) w v).
  { unfold full. apply skipn_repeat_le. lia. }
  rewrite Hskip, pad_edge_full by lia.
  rewrite (pad_edge_value pw pw pw pw Hwin) by lia. cbn [rbind ok].
  set (H := (h + 2 * pw)%nat). set (W := (w + 2 * pw)%nat).
  replace (pw + 10 + (h - 10) + pw)%nat with H by (unfold H; lia).
  replace (pw + w + pw)%nat with W by (unfold W; lia).
  set (X := mmap of_real (full H W v)).
  assert (HX : rect H W X) by (apply rect_mmap, rect_full).
  assert (HH : (1 <= H)%nat) by (unfold H; lia).
  assert (HW : (1 <= W)%nat) by (unfold W; lia).
  destruct (@ifft2_fft2 H W X HX HH HW) as (y & Hy & Hry & Hinv).
  rewrite Hy. cbn [rbind ok].
  set (wp := map (pad_edge1 pw pw) (pad_edge1 pw pw window)).
  assert (Hwp : rect H W wp).
  { destruct (@pad_edge_rect R pw pw pw pw h w window Hwin ltac:(lia) Hw) as (P' & HP' & Hr).
    rewrite (pad_edge_value pw pw pw pw Hwin) in HP' by lia. injection HP' as <-.
    eapply rect_cast; [exact Hr | unfold H; lia | unfold W; lia]. }
  rewrite (@elementwise_rect _ _ _ cdiv_real H W);
    [| exact Hry | now apply rect_ifftshift | exact HH].
  cbn [rbind ok].
  assert (Hdelta : is_delta H W (v * INR H * INR W, 0) y).
  { unfold fft2 in Hy. unfold complex in *.
    rewrite (rect_nrows HX), (rect_ncols HX HH) in Hy.
    destruct (Nat.eqb_spec H 0) as [E | _]; [lia |].
    destruct (Nat.eqb_spec W 0) as [E | _]; [lia |].
    cbn [orb] in Hy. injection Hy as <-. now apply dft2_const. }
  assert (H00 : nth 0 (nth 0 (ifftshift wp) []) 0 = 1).
  { unfold ifftshift.
    destruct Hwp as [Hwpl Hwpr].
    rewrite (@nth_map_lt (list R) (list R) _ (ifftshift1 wp) [] [] 0%nat)
      by (rewrite length_ifftshift1; lia).
    rewrite (@nth0_ifftshift1 _ wp []) by lia.
    rewrite Hwpl.
    assert (EH : (H / 2 = pw + h / 2)%nat).
    { unfold H. replace (h + 2 * pw)%nat with (h + pw * 2)%nat by lia.
      rewrite Nat.div_add by lia. lia. }
    assert (EW : (W / 2 = pw + w / 2)%nat).
    { unfold W. replace (w + 2 * pw)%nat with (w + pw * 2)%nat by lia.
      rewrite Nat.div_add by lia. lia. }
    assert (Hh2 : (h / 2 < h)%nat) by (apply Nat.div_lt; lia).
    assert (Hw2 : (w / 2 < w)%nat) by (apply Nat.div_lt; lia).
    destruct Hwin as [Hwl Hwr].
    assert (Hrow : nth (H / 2) wp [] = pad_edge1 pw pw (nth (h / 2) window [])).
    { unfold wp.
      rewrite (@nth_map_lt (list R) (list R) _ (pad_edge1 pw pw window) [] [] (H / 2)).
      - now rewrite EH, nth_pad_edge1_inside by lia.
      - rewrite length_pad_edge1; [lia |]. intros E. rewrite E in Hwl. simpl in Hwl. lia. }
    pose proof (@Forall_nth_default _ _ window [] (h / 2) Hwr ltac:(lia)) as Hlr.
    cbv beta in Hlr.
    rewrite Hrow, nth0_ifftshift1.
    - rewrite length_pad_edge1.
      + replace (pw + length (nth (h / 2) window []) + pw)%nat with W by (unfold W; lia).
        rewrite EW, nth_pad_edge1_inside by lia. exact Hcentre.
      + intros E. rewrite E in Hlr. simpl in Hlr. lia.
    - rewrite length_pad_edge1; [lia |]. intros E. rewrite E in Hlr. simpl in Hlr. lia. }
  assert (Hfix : map2 (map2 cdiv_real) y (ifftshift wp) = y).
  { pose proof (rect_ifftshift Hwp) as Hsw. destruct Hdelta as [Hyr Hyv].
    apply nth_ext with (d := []) (d' := []).
    { rewrite length_map2. destruct Hyr, Hsw. unfold complex in *. lia. }
    intros i Hi. rewrite length_map2 in Hi.
    assert (Hih : (i < H)%nat) by (destruct Hyr, Hsw; unfold complex in *; lia).
    pose proof (rect_nth Hyr Hih) as Ly. pose proof (rect_nth Hsw Hih) as Ls.
    rewrite (@nth_map2 (list (R * R)) (list R) (list (R * R))
               (map2 (@cdiv_real R _ _)) y (ifftshift wp) i [] [] [])
      by (destruct Hyr, Hsw; unfold complex in *; lia).
    apply map2_cdiv_real_fixed; [unfold complex in *; lia |].
    intros k Hk.
    assert (Hkw : (k < W)%nat) by (unfold complex in *; lia).
    pose proof (Hyv i k Hih Hkw) as Hv.
    destruct (Nat.eqb_spec i 0) as [-> | Hi0]; [| left; exact Hv].
    destruct (Nat.eqb_spec k 0) as [-> | Hk0]; [| left; exact Hv].
    right. exact H00. }
  unfold complex in *. rewrite Hfix, Hinv. cbn [rbind ok].
  apply ok_eq. unfold X. rewrite crop_mmap, creal_of_real.
  rewrite (Z.add_comm (Z.of_nat pw) (Z.of_nat h)), (Z.add_comm (Z.of_nat pw) (Z.of_nat w)).
  apply crop_full.
Qed.

Lemma make_window_rows_center (h w : nat) (ratio : R) (pattern : string) (i : nat) :
  String.eqb pattern "PROJECTION" = false -> (i < h)%nat -> (1 <= w)%nat ->
  nth (w / 2) (nth i (_make_window h w ratio pattern) []) 0 = 1.
Proof.
  intros Hpat Hi Hw.
  pose proof (@make_window_center_one h w ratio pattern ltac:(lia) Hw) as Hc.
  assert (Hh2 : (h / 2 < h)%nat) by (apply Nat.div_lt; lia).
  unfold _make_window in *. rewrite Hpat in *.
  rewrite nth_repeat_lt in Hc by exact Hh2. now rewrite nth_repeat_lt by exact Hi.
Qed.

Lemma constant_rows_mmap {A B : Type} (f : A -> B) (w : nat) (img : matrix A) :
  constant_rows w img -> constant_rows w (mmap f img).
Proof.
  intros Hc. unfold constant_rows, mmap. apply Forall_map.
  eapply Forall_impl; [| exact Hc]. intros r [v ->]. exists (f v). apply map_repeat.
Qed.

Lemma constant_image_mmap {A B : Type} (f : A -> B) (h w : nat) (img : matrix A) :
  constant_image h w img -> constant_image h w (mmap f img).
Proof. intros [v ->]. exists (f v). apply mmap_full. Qed.

(** The contents [fresnel_filter] computes from flat images. *)
Lemma fresnel_stack_flat (d h w : nat) (data : list (matrix R)) (pattern : string)
  (ratio : R) (apply_log : bool) :
  length data = d -> Forall (rect h w) data -> (1 <= h)%nat -> (1 <= w)%nat ->
  (if String.eqb pattern "PROJECTION"
   then (10 < h)%nat /\ Forall (constant_image h w) data
   else Forall (constant_rows w) data) ->
  (apply_log = true -> positive_stack data) ->
  fresnel_stack [d; h; w] data pattern ratio apply_log = ok ([d; h; w], data).
Proof.
  intros Hlen Hdata Hh Hw Hflat Hpos.
  set (P := fun img : matrix R =>
              if String.eqb pattern "PROJECTION" then constant_image h w img
              else constant_rows w img).
  rewrite (@fresnel_stack_map R _ _ P (fun img => img) d h w data pattern ratio apply_log
             Hlen Hdata); [| | apply fresnel_pad_width_nonneg |].
  - apply ok_eq. f_equal. destruct apply_log; [| apply map_id].
    rewrite map_id, map_map.
    transitivity (map (fun m : matrix R => m) data); [| apply map_id].
    apply map_ext_in. intros img Himg. specialize (Hpos eq_refl).
    unfold positive_stack in Hpos. rewrite Forall_forall in Hpos.
    apply exp_neg_neg_ln. now apply Hpos.
  - assert (HP : Forall P data).
    { unfold P. destruct (String.eqb pattern "PROJECTION"); [apply Hflat | exact Hflat]. }
    destruct apply_log; [| exact HP].
    apply Forall_map. eapply Forall_impl; [| exact HP].
    intros img Hi. unfold P in *.
    destruct (String.eqb pattern "PROJECTION");
      [now apply constant_image_mmap | now apply constant_rows_mmap].
  - intros pw img Himg HPi. split; [| exact Himg]. unfold P in HPi.
    destruct (String.eqb pattern "PROJECTION") eqn:Hpat.
    + apply String.eqb_eq in Hpat. subst pattern. destruct HPi as [v ->].
      apply fresnel_image_flat_projection; try assumption.
      * apply rect_make_window.
      * apply make_window_center_one; lia.
      * apply Hflat.
    + apply fresnel_image_flat_rows; try assumption.
      * apply rect_make_window.
      * intros i Hi. now apply make_window_rows_center.
Qed.

(** X20, in exact arithmetic: for a ratio that is not negative (no entry of
    the window is 0 then), [fresnel_filter] returns flat images as they are,
    in a new single-precision array: under the pattern "PROJECTION", constant
    images of more than ten rows; under any other pattern, images whose rows
    are constant (with [apply_log] set, when every pixel is positive). *)
Theorem X20_fresnel_flat_images (a : ndarray) (hp : heap) (d h w : nat) (pattern : string)
  (ratio : R) (apply_log : bool) :
  wf_array hp a ->
  (if ndim a =? 2 then 1%nat :: shape a else shape a) = [d; h; w] ->
  (1 <= h)%nat -> (1 <= w)%nat -> 0 <= ratio ->
  (if String.eqb pattern "PROJECTION"
   then (10 < h)%nat /\ Forall (constant_image h w) (read hp a)
   else Forall (constant_rows w) (read hp a)) ->
  (apply_log = true -> positive_stack (read hp a)) ->
  fresnel_filter a pattern ratio apply_log hp
  = ok ({| base := length hp; dtype_of := float32; shape := [d; h; w] |},
        hp ++ [read hp a]).
Proof.
  intros Hwf Hshape Hh Hw _ Hflat Hpos.
  destruct (promoted_stack Hwf Hshape) as (a' & Hc & Hs & Hb & Hdt & Hlt & Hl & Hr).
  assert (Hread : read hp a' = read hp a) by (unfold read; now rewrite Hb).
  unfold fresnel_filter. rewrite Hc. cbn [rbind ok]. rewrite Hs, Hread in *.
  rewrite (@fresnel_stack_flat d h w (read hp a) pattern ratio apply_log) by assumption.
  cbn [rbind ok]. unfold alloc. apply ok_eq. f_equal. f_equal. f_equal.
  cbn [cast Exact.float_class].
  transitivity (map (fun m : matrix R => m) (read hp a)); [| apply map_id].
  apply map_ext. apply mmap_id.
Qed.
End FlatProjections.

(** X20 on the 5x5 image of ones, a pattern other than "PROJECTION" and
    ratio 100. *)
Lemma X20_witness :
  fresnel_filter stack_5x5 "SINOGRAM" 100%R false heap_5x5
  = ok ({| base := 1; dtype_of := float32; shape := [1; 5; 5] |},
        heap_5x5 ++ [[image_5x5]]).
Proof.
  apply (@X20_fresnel_flat_images stack_5x5 heap_5x5 1 5 5 "SINOGRAM" 100%R false
           wf_stack_5x5 eq_refl); [lia | lia | lra | | discriminate].
  cbn. constructor; [| constructor].
  unfold constant_rows, image_5x5, full. cbn [repeat].
  repeat (constructor; [exists 1%R; reflexivity |]). constructor.
Defined.

(* ------------------------------------------------------------------ *)
(** ** The transform of a shifted spectrum *)

Lemma map_seq_shift {A : Type} (f : nat -> A) (s n : nat) :
  map f (seq s n) = map (fun i => f (s + i)) (seq 0 n).
Proof.
  revert s. induction n as [| n IH]; intros s; [reflexivity |].
  cbn [seq map]. rewrite Nat.add_0_r. f_equal.
  rewrite IH, <- seq_shift, map_map. apply map_ext. intros i. f_equal. lia.
Qed.

Lemma fftshift1_map {A B : Type} (f : A -> B) (l : list A) :
  fftshift1 (map f l) = map f (fftshift1 l).
Proof. unfold fftshift1. now rewrite length_map, map_app, skipn_map, firstn_map. Qed.

Section ShiftedSpectrum.
Local Open Scope R_scope.

Ltac cring :=
  apply complex_eq;
  unfold cmul, cadd, cscale, cdiv_real, czero, of_real;
  cbn [fst snd fadd fsub fmul fdiv fzero numeric float_class];
  try ring.

Lemma cadd_comm (a b : R * R) : cadd a b = cadd b a.
Proof. cring. Qed.

Lemma cmul_comm (a b : R * R) : cmul a b = cmul b a.
Proof. cring. Qed.

Lemma cmul_assoc (a b c : R * R) : cmul a (cmul b c) = cmul (cmul a b) c.
Proof. cring. Qed.

(** Rotating a vector multiplies its inverse transform by a twiddle factor. *)
Lemma idft1_rotate (v : list (R * R)) (r k : nat) :
  (r <= length v)%nat -> (1 <= length v)%nat ->
  dft1_at (-1) (skipn r v ++ firstn r v) k
  = cmul (twiddle (length v) (Z.of_nat r * Z.of_nat k)) (dft1_at (-1) v k).
Proof.
  intros Hr Hn. unfold dft1_at. unfold complex in *.
  rewrite length_app, length_skipn, length_firstn, Nat.min_l by exact Hr.
  remember (length v) as n eqn:En.
  replace (n - r + r)%nat with n by lia.
  set (rho := twiddle n (Z.of_nat r * Z.of_nat k)).
  rewrite <- csum_map_cmul_l.
  assert (HL : seq 0 n = seq 0 (n - r) ++ seq (n - r) r).
  { replace n with (n - r + r)%nat at 1 by lia. apply (seq_app (n - r) r 0). }
  assert (HR : seq 0 n = seq 0 r ++ seq r (n - r)).
  { replace n with (r + (n - r))%nat at 1 by lia. apply (seq_app r (n - r) 0). }
  rewrite HL at 1. rewrite HR.
  rewrite !map_app, !csum_app.
  rewrite cadd_comm. f_equal.
  - rewrite (map_seq_shift _ (n - r) r).
    apply csum_map_ext. intros b Hb. apply in_seq in Hb.
    rewrite app_nth2 by (rewrite length_skipn; lia).
    rewrite length_skipn, <- En.
    replace (n - r + b - (n - r))%nat with b by lia.
    rewrite nth_firstn. destruct (Nat.ltb_spec b r) as [_ | Hx]; [| lia].
    rewrite (cmul_comm rho), <- cmul_assoc. f_equal.
    unfold rho. rewrite twiddle_add.
    rewrite <- (@twiddle_period n (-1 * Z.of_nat b * Z.of_nat k + Z.of_nat r * Z.of_nat k)
                  (- Z.of_nat k)) by lia.
    f_equal. rewrite Nat2Z.inj_add, Nat2Z.inj_sub by lia. ring.
  - rewrite (map_seq_shift _ r (n - r)).
    apply csum_map_ext. intros a Ha. apply in_seq in Ha.
    rewrite app_nth1 by (rewrite length_skipn; lia).
    rewrite nth_skipn.
    rewrite (cmul_comm rho), <- cmul_assoc. f_equal.
    unfold rho. rewrite twiddle_add. f_equal. rewrite Nat2Z.inj_add. ring.
Qed.

Lemma idft1_fftshift1 (v : list (R * R)) (k : nat) :
  (1 <= length v)%nat ->
  dft1_at (-1) (fftshift1 v) k
  = cmul (twiddle (length v) (Z.of_nat (length v - length v / 2) * Z.of_nat k))
      (dft1_at (-1) v k).
Proof.
  intros Hn. unfold fftshift1. apply idft1_rotate; [lia | exact Hn].
Qed.

(** The transform is linear. *)
Lemma dft1_cmul (s : Z) (c : R * R) (v : list (R * R)) (k : nat) :
  dft1_at s (map (cmul c) v) k = cmul c (dft1_at s v k).
Proof.
  unfold dft1_at. rewrite length_map. rewrite <- csum_map_cmul_l.
  apply csum_map_ext. intros n Hn. apply in_seq in Hn.
  rewrite (@nth_map_lt (R * R) (R * R) (cmul c) v czero czero n) by (unfold complex in *; lia).
  symmetry. apply cmul_assoc.
Qed.

(** The two-dimensional transform, axis after axis. *)
Lemma dft2_at_rows (s : Z) (x : matrix (R * R)) (h w k l : nat) :
  rect h w x -> (1 <= h)%nat ->
  dft2_at s x k l = dft1_at s (map (fun row => dft1_at s row l) x) k.
Proof.
  intros Hx Hh. unfold dft2_at. unfold complex in *.
  rewrite (rect_nrows Hx), (rect_ncols Hx Hh).
  unfold dft1_at at 1. rewrite length_map. destruct Hx as [Hl Hr]. rewrite Hl.
  apply csum_map_ext. intros m Hm. apply in_seq in Hm.
  rewrite (@nth_map_lt (list (R * R)) (R * R) _ x czero [] m) by lia.
  unfold dft1_at.
  pose proof (@Forall_nth_default _ _ x [] m Hr ltac:(lia)) as Hlen. cbv beta in Hlen.
  unfold complex in *. rewrite Hlen.
  rewrite <- csum_map_cmul_r. apply csum_map_ext. intros n _.
  rewrite <- !cmul_assoc. f_equal. apply cmul_comm.
Qed.

Lemma rect_row_length {A : Type} (h w : nat) (x : matrix A) (row : list A) :
  rect h w x -> In row x -> length row = w.
Proof. intros [_ Hr] Hin. rewrite Forall_forall in Hr. now apply Hr. Qed.

(** Shifting a spectrum along both axes multiplies each sample of its
    inverse transform by two twiddle factors. *)
Lemma idft2_fftshift (y : matrix (R * R)) (h w k l : nat) :
  rect h w y -> (1 <= h)%nat -> (1 <= w)%nat ->
  dft2_at (-1) (fftshift y) k l
  = cmul (twiddle h (Z.of_nat (h - h / 2) * Z.of_nat k))
      (cmul (twiddle w (Z.of_nat (w - w / 2) * Z.of_nat l)) (dft2_at (-1) y k l)).
Proof.
  intros Hy Hh Hw.
  rewrite (@dft2_at_rows (-1) (fftshift y) h w k l (rect_fftshift Hy) Hh).
  rewrite (@dft2_at_rows (-1) y h w k l Hy Hh).
  unfold fftshift. rewrite map_map.
  set (rho := twiddle w (Z.of_nat (w - w / 2) * Z.of_nat l)).
  assert (Hrows : map (fun row => dft1_at (-1) (fftshift1 row) l) (fftshift1 y)
                  = map (cmul rho) (map (fun row => dft1_at (-1) row l) (fftshift1 y))).
  { rewrite map_map. apply map_ext_in. intros row Hin.
    assert (Hlen : length row = w).
    { apply (@rect_row_length _ h w (fftshift1 y)); [| exact Hin].
      destruct Hy as [Hl Hr]. split; [now rewrite length_fftshift1 |].
      now apply Forall_fftshift1. }
    rewrite idft1_fftshift1 by (unfold complex in *; lia).
    unfold complex in *. now rewrite Hlen. }
  unfold complex in *. rewrite Hrows, dft1_cmul.
  rewrite <- fftshift1_map.
  rewrite idft1_fftshift1 by (rewrite length_map; destruct Hy; unfold complex in *; lia).
  rewrite length_map. destruct Hy as [Hl _]. unfold complex in *. rewrite Hl.
  rewrite !cmul_assoc. f_equal. apply cmul_comm.
Qed.

(** A constant factor on the spectrum. *)
Lemma dft2_at_cmul (s : Z) (c : R * R) (x : matrix (R * R)) (h w k l : nat) :
  rect h w x -> (1 <= h)%nat ->
  dft2_at s (mmap (cmul c) x) k l = cmul c (dft2_at s x k l).
Proof.
  intros Hx Hh.
  rewrite (@dft2_at_rows s (mmap (cmul c) x) h w k l (rect_mmap (cmul c) Hx) Hh).
  rewrite (@dft2_at_rows s x h w k l Hx Hh).
  unfold mmap. rewrite map_map.
  rewrite <- dft1_cmul. f_equal. rewrite map_map. apply map_ext. intros row.
  apply dft1_cmul.
Qed.

(** Moduli. *)
Lemma cabs_cmul (a b : R * R) : cabs (cmul a b) = cabs a * cabs b.
Proof.
  unfold cabs, cmul. cbn [fst snd fsqrt fadd fsub fmul numeric].
  destruct a as [a1 a2], b as [b1 b2]. cbn [fst snd].
  rewrite <- sqrt_mult by nra. f_equal. ring.
Qed.

Lemma cabs_twiddle (n : nat) (z : Z) : cabs (twiddle n z) = 1.
Proof.
  rewrite twiddle_angle. unfold cabs. cbn [fst snd fsqrt fadd fmul numeric].
  pose proof (sin2_cos2 (angle n z)) as Hsc. unfold Rsqr in Hsc.
  replace (cos (angle n z) * cos (angle n z) + - sin (angle n z) * - sin (angle n z))
    with 1 by lra.
  apply sqrt_1.
Qed.

Lemma cabs_of_real (x : R) : cabs (of_real x) = Rabs x.
Proof.
  unfold cabs, of_real. cbn [fst snd fsqrt fadd fmul fzero numeric float_class].
  replace (x * x + 0 * 0) with (Rsqr x) by (unfold Rsqr; ring).
  apply sqrt_Rsqr_abs.
Qed.

Lemma cabs_half : cabs (1 / 2, - (1 / 2)) = / sqrt 2.
Proof.
  unfold cabs. cbn [fst snd fsqrt fadd fmul numeric].
  replace (1 / 2 * (1 / 2) + - (1 / 2) * - (1 / 2)) with (/ 2) by field.
  apply sqrt_inv.
Qed.

Lemma cdiv_one_one (z : R * R) : cdiv z (1, 1) = cmul (1 / 2, - (1 / 2)) z.
Proof.
  apply complex_eq; unfold cdiv, cmul; cbn [fst snd fadd fsub fmul fdiv numeric]; field.
Qed.

(** The modulus of the inverse transform of a shifted spectrum on which the
    division by the filter acts as the multiplication by [kappa]. *)
Lemma cabs_ifft2_scaled {B : Type} (cont : matrix R -> result B) (x fc : matrix (R * R))
  (kappa : R * R) (h w : nat) :
  rect h w x -> rect h w fc -> (1 <= h)%nat -> (1 <= w)%nat ->
  map2 (map2 cdiv) (fftshift (dft2 1 x)) fc = mmap (cmul kappa) (fftshift (dft2 1 x)) ->
  rbind (fft2 x) (fun pci1 =>
  rbind (elementwise cdiv (fftshift pci1) fc) (fun pci2 =>
  rbind (ifft2 pci2) (fun inv => cont (mmap cabs inv))))
  = cont (mmap (fun z => cabs z * cabs kappa) x).
Proof.
  intros Hx Hfc Hh Hw Hq.
  unfold fft2. unfold complex in *. rewrite (rect_nrows Hx), (rect_ncols Hx Hh).
  destruct (Nat.eqb_spec h 0) as [E | _]; [lia |].
  destruct (Nat.eqb_spec w 0) as [E | _]; [lia |].
  cbn [orb rbind ok].
  pose proof (rect_dft2 1 x) as Hd. unfold complex in *.
  rewrite (rect_nrows Hx), (rect_ncols Hx Hh) in Hd.
  rewrite (@elementwise_rect (R * R) (R * R) (R * R) (@cdiv R _ _) h w
             (fftshift (dft2 1 x)) fc);
    [| now apply rect_fftshift | exact Hfc | exact Hh].
  cbn [rbind ok].
  unfold complex in *. rewrite Hq. clear Hq.
  assert (Hinv : forall k l, (k < h)%nat -> (l < w)%nat ->
            dft2_at (-1) (dft2 1 x) k l = cscale (nth l (nth k x []) czero) (INR h * INR w))
    by (intros k l Hk Hl; now apply idft2_dft2).
  set (Y := dft2 1 x) in *. clearbody Y.
  assert (Hs : rect h w (mmap (cmul kappa) (fftshift Y)))
    by (apply rect_mmap; now apply rect_fftshift).
  unfold ifft2. unfold complex in *. rewrite (rect_nrows Hs), (rect_ncols Hs Hh).
  destruct (Nat.eqb_spec h 0) as [E | _]; [lia |].
  destruct (Nat.eqb_spec w 0) as [E | _]; [lia |].
  cbn [orb rbind ok]. f_equal.
  unfold mmap at 1 2. unfold dft2. unfold complex in *.
  rewrite (rect_nrows Hs), (rect_ncols Hs Hh). rewrite !map_map.
  transitivity (map (fun k => map (fun l => cabs (nth l (nth k x []) czero) * cabs kappa)
                                (seq 0 w)) (seq 0 h)).
  - apply map_ext_in. intros k Hk. apply in_seq in Hk.
    rewrite !map_map. apply map_ext_in. intros l Hl. apply in_seq in Hl.
    pose proof (@dft2_at_cmul (-1) kappa (fftshift Y) h w k l (rect_fftshift Hd) Hh) as E1.
    pose proof (@idft2_fftshift Y h w k l Hd Hh Hw) as E2.
    pose proof (Hinv k l ltac:(lia) ltac:(lia)) as E3.
    unfold complex in *. rewrite E1, E2, E3. clear E1 E2 E3.
    set (z := nth l (nth k x []) czero).
    set (t1 := twiddle h _). set (t2 := twiddle w _).
    assert (HN : INR w <> 0 /\ INR h <> 0) by (split; apply not_0_INR; lia).
    replace (cdiv_real (cmul kappa (cmul t1 (cmul t2 (cscale z (INR h * INR w)))))
               (of_Z (Z.of_nat (h * w))))
      with (cmul kappa (cmul t1 (cmul t2 z))).
    2:{ cbn [of_Z numeric]. rewrite <- INR_IZR_INZ, mult_INR.
        apply complex_eq; unfold cdiv_real, cmul, cscale;
          cbn [fst snd fadd fsub fmul fdiv numeric]; field; exact HN. }
    rewrite !cabs_cmul. unfold t1, t2. rewrite !cabs_twiddle. ring.
  - unfold mmap.
    transitivity (map (fun r => map (fun z => cabs z * cabs kappa) r)
                    (map (fun k => map (fun l => nth l (nth k x []) czero) (seq 0 w))
                       (seq 0 h))).
    + rewrite map_map. apply map_ext. intros k. now rewrite map_map.
    + f_equal. apply (matrix_nth_seq czero Hx).
Qed.

(** The same for the division by [1 + 1j]. *)
Lemma cabs_ifft2_shifted {B : Type} (cont : matrix R -> result B) (x : matrix (R * R))
  (h w : nat) :
  rect h w x -> (1 <= h)%nat -> (1 <= w)%nat ->
  rbind (fft2 x) (fun pci1 =>
  rbind (elementwise cdiv (fftshift pci1) (full h w (1, 1))) (fun pci2 =>
  rbind (ifft2 pci2) (fun inv => cont (mmap cabs inv))))
  = cont (mmap (fun z => cabs z * / sqrt 2) x).
Proof.
  intros Hx Hh Hw.
  rewrite (@cabs_ifft2_scaled B cont x (full h w (1, 1)) (1 / 2, - (1 / 2)) h w Hx
             (rect_full h w (1, 1)) Hh Hw).
  - now rewrite cabs_half.
  - pose proof (rect_dft2 1 x) as Hd. unfold complex in *.
    rewrite (rect_nrows Hx), (rect_ncols Hx Hh) in Hd.
    pose proof (rect_fftshift Hd) as Hs. destruct Hs as [Hsl Hsr].
    unfold full, mmap. rewrite map2_repeat_r by (unfold complex in *; lia).
    apply map_ext_in. intros row Hin. rewrite Forall_forall in Hsr.
    rewrite map2_repeat_r by (unfold complex in *; now apply Hsr).
    apply map_ext. intros z. apply cdiv_one_one.
Qed.
End ShiftedSpectrum.

(* ------------------------------------------------------------------ *)
(** ** [paganin_filter] at distance 0 *)

Lemma slice_middle {A : Type} (a m b : list A) :
  slice (Some (Z.of_nat (length a))) (Some (Z.of_nat (length a) + Z.of_nat (length m))%Z)
    (a ++ m ++ b) = m.
Proof.
  rewrite slice_inside by (rewrite !length_app; lia).
  rewrite skipn_app, Nat.sub_diag, skipn_all2 by lia.
  rewrite app_nil_l, skipn_O, firstn_app, Nat.sub_diag, firstn_O, app_nil_r.
  now apply firstn_all2.
Qed.

Section PaganinZeroDistance.
Local Open Scope R_scope.

Lemma slice_pad1 (mode : pad_mode R) (pad w : nat) (l : list R) :
  length l = w -> (1 <= w)%nat ->
  slice (Some (Z.of_nat pad)) (Some (Z.of_nat pad + Z.of_nat w)%Z) (pad1 mode pad pad l) = l.
Proof.
  intros Hl Hw. destruct mode as [| name fill]; cbn [pad1].
  - now apply slice_pad_edge1.
  - subst w.
    pose proof (@slice_middle R
                  (map (fun i => fill pad pad l (Z.of_nat i - Z.of_nat pad)%Z) (seq 0 pad)) l
                  (map (fun i => fill pad pad l (Z.of_nat (length l + i))) (seq 0 pad)))
      as Hs.
    rewrite length_map, length_seq in Hs. exact Hs.
Qed.

(** Cropping undoes the padding, in every mode. *)
Lemma crop_pad_image (mode : pad_mode R) (h w pad_y pad_x : nat) (m : matrix R) :
  rect h w m -> (1 <= h)%nat -> (1 <= w)%nat ->
  crop (Z.of_nat pad_y) (Z.of_nat pad_y + Z.of_nat h) (Z.of_nat pad_x)
    (Z.of_nat pad_x + Z.of_nat w) (pad_image mode w pad_y pad_x m) = m.
Proof.
  intros [Hl Hr] Hh Hw. unfold crop, pad_image. rewrite slice_map.
  assert (Hrows : forall rows : matrix R,
             slice (Some (Z.of_nat pad_y)) (Some (Z.of_nat pad_y + Z.of_nat h)%Z) rows = m ->
             map (slice (Some (Z.of_nat pad_x)) (Some (Z.of_nat pad_x + Z.of_nat w)%Z))
               (map (pad1 mode pad_x pad_x)
                  (slice (Some (Z.of_nat pad_y)) (Some (Z.of_nat pad_y + Z.of_nat h)%Z) rows))
             = m).
  { intros rows ->. rewrite map_map.
    transitivity (map (fun r : list R => r) m); [| apply map_id].
    apply map_ext_in. intros r Hin. rewrite Forall_forall in Hr.
    apply slice_pad1; [now apply Hr | exact Hw]. }
  apply Hrows. destruct mode as [| name fill].
  - now apply slice_pad_edge1.
  - subst h.
    match goal with
    | |- slice _ _ (?a ++ m ++ ?b) = m => pose proof (@slice_middle _ a m b) as Hs
    end.
    rewrite length_map, length_seq in Hs. exact Hs.
Qed.

Lemma Q2R_minus_half : Q2R (-1 # 2) = - (1 / 2).
Proof. unfold Q2R; simpl. lra. Qed.

(** The complex filter of lines 234-237 at distance 0. *)
Lemma paganin_filtercomplex_zero_distance (ratio energy resolution : R) (h1 w1 : nat) :
  energy <> 0 -> resolution <> 0 -> (1 <= h1)%nat -> (1 <= w1)%nat ->
  paganin_filtercomplex ratio energy 0 resolution (Z.of_nat h1) (Z.of_nat w1)
  = ok (full h1 w1 (1, 1)).
Proof.
  intros He Hres Hh Hw. unfold paganin_filtercomplex.
  rewrite paganin_energy_nonzero by exact He.
  rewrite !paganin_step_nonzero by assumption.
  destruct (Z.ltb_spec (Z.of_nat h1) 0); [lia |].
  destruct (Z.ltb_spec (Z.of_nat w1) 0); [lia |].
  cbn [orb]. rewrite !Nat2Z.id. apply ok_eq. unfold full.
  rewrite map_const with (c := repeat (1, 1) w1).
  - now rewrite length_map, length_arange.
  - intros py. rewrite map_const with (c := (1, 1)).
    + now rewrite length_map, length_arange.
    + intros px. cbn [fadd fmul lit numeric]. rewrite Q2R_one.
      f_equal; ring.
Qed.

(** The loop body of [paganin_filter] at distance 0, on a padded image. *)
Lemma paganin_image_zero_distance (dt : dtype) (ratio increment : R)
  (pad_y pad_x h w : nat) (mode : pad_mode R) (img : matrix R) :
  rect h w img -> (1 <= h)%nat -> (1 <= w)%nat ->
  paganin_image dt (full (pad_y + h + pad_y) (pad_x + w + pad_x) (1, 1)) ratio increment
    (Z.of_nat pad_y) (Z.of_nat pad_x) h w (pad_image mode w pad_y pad_x img)
  = ok (mmap (paganin_pointwise ratio increment) img).
Proof.
  intros Himg Hh Hw. unfold paganin_image.
  set (P := pad_image mode w pad_y pad_x img).
  assert (HP : rect (pad_y + h + pad_y) (pad_x + w + pad_x) P)
    by (now apply rect_pad_image).
  set (proj := transform_input dt P).
  assert (Hproj : rect (pad_y + h + pad_y) (pad_x + w + pad_x) proj)
    by (unfold proj, transform_input, sanitize; now repeat apply rect_mmap).
  etransitivity.
  { exact (@cabs_ifft2_shifted _
             (fun fpci =>
                ok (crop (Z.of_nat pad_y) (Z.of_nat pad_y + Z.of_nat h)
                      (Z.of_nat pad_x) (Z.of_nat pad_x + Z.of_nat w)
                      (mmap (fun x => fmul (fmul (lit (-1 # 2)) ratio)
                                        (fln (fadd x increment))) fpci)))
             (mmap of_real proj) (pad_y + h + pad_y) (pad_x + w + pad_x)
             (rect_mmap of_real Hproj) ltac:(lia) ltac:(lia)). }
  cbv beta. apply ok_eq.
  assert (Hpix : mmap (fun x => fmul (fmul (lit (-1 # 2)) ratio) (fln (fadd x increment)))
                   (mmap (fun z => cabs z * / sqrt 2) (mmap of_real proj))
                 = mmap (paganin_pointwise ratio increment) P).
  { unfold proj, transform_input, sanitize, mmap. rewrite !map_map.
    apply map_ext. intros r. rewrite !map_map. apply map_ext. intros x.
    rewrite cabs_of_real. unfold paganin_pointwise.
    cbn [fmul fln fadd lit numeric cast float_class sanitize_pixel zero_to_one nan_to_num
         is_nan is_posinf is_neginf is_zero fone].
    unfold sanitize_pixel, zero_to_one, nan_to_num.
    cbn [is_nan is_posinf is_neginf is_zero fone cast float_class].
    rewrite Q2R_minus_half. destruct (Req_dec_T x 0); reflexivity. }
  rewrite Hpix, crop_mmap. f_equal. unfold P. now apply crop_pad_image.
Qed.

(** The contents [paganin_filter] computes at distance 0. *)
Lemma paganin_stack_zero_distance (dt : dtype) (d h w : nat) (data : list (matrix R))
  (ratio energy resolution : R) (pad_y pad_x : nat) (pad_method : pad_mode R)
  (increment : R) :
  length data = d -> Forall (rect h w) data -> (1 <= h)%nat -> (1 <= w)%nat ->
  existsb (String.eqb (mode_name pad_method)) pad_modes = true ->
  energy <> 0 -> resolution <> 0 ->
  paganin_stack dt [d; h; w] data ratio energy 0 resolution
    (Z.of_nat pad_y) (Z.of_nat pad_x) pad_method increment
  = ok ([d; h; w], map (mmap (paganin_pointwise ratio increment)) data).
Proof.
  intros Hlen Hdata Hh Hw Hmode He Hres. unfold paganin_stack.
  replace (Z.of_nat h + 2 * Z.of_nat pad_y)%Z with (Z.of_nat (pad_y + h + pad_y)) by lia.
  replace (Z.of_nat w + 2 * Z.of_nat pad_x)%Z with (Z.of_nat (pad_x + w + pad_x)) by lia.
  rewrite paganin_filtercomplex_zero_distance by (try assumption; lia).
  cbn [rbind ok].
  unfold pad_stack.
  destruct (Z.ltb_spec (Z.of_nat pad_y) 0); [lia |].
  destruct (Z.ltb_spec (Z.of_nat pad_x) 0); [lia |].
  cbn [orb]. rewrite Hmode. cbn [negb].
  destruct (Nat.eqb_spec h 0) as [E | _]; [lia |].
  destruct (Nat.eqb_spec w 0) as [E | _]; [lia |].
  rewrite !andb_false_r. cbn [andb rbind ok]. rewrite !Nat2Z.id.
  set (g := mmap (paganin_pointwise ratio increment)).
  destruct (@for_range_inv (list (matrix R))
              (fun i res => res = map g (firstn i data) ++ skipn i (repeat (full h w 0) d))
              (fun i res =>
                 rbind (paganin_image dt (full (pad_y + h + pad_y) (pad_x + w + pad_x) (1, 1))
                          ratio increment (Z.of_nat pad_y) (Z.of_nat pad_x) h w
                          (nth i (map (pad_image pad_method w pad_y pad_x) data) []))
                   (fun proj => assign_image h w i (mmap (cast float32) proj) res))
              d 0 (repeat (full h w 0) d)) as (res & Hrun & Hres').
  { reflexivity. }
  { intros i res Hi ->.
    assert (Hri : rect h w (nth i data [])) by (apply Forall_nth_default; [assumption | lia]).
    rewrite (@nth_map_lt (matrix R) (matrix R) _ data [] [] i) by lia.
    rewrite (paganin_image_zero_distance dt ratio increment pad_y pad_x pad_method Hri Hh Hw).
    cbn [rbind ok]. cbn [cast Exact.float_class]. rewrite mmap_id.
    rewrite assign_image_rect; [| | now apply rect_mmap].
    2:{ rewrite length_app, length_map, length_firstn, length_skipn, repeat_length. lia. }
    eexists. split; [reflexivity |].
    apply (splice_step2 g); [lia | rewrite repeat_length; lia]. }
  cbn [fzero float_class] in *. rewrite Hrun. cbn [rbind ok Nat.add]. rewrite Hres'.
  rewrite firstn_all2 by lia. rewrite skipn_all2 by (rewrite repeat_length; lia).
  now rewrite app_nil_r.
Qed.
End PaganinZeroDistance.

(** X21, in exact arithmetic: at distance 0, for an energy and a resolution
    other than 0, pad amounts that are not negative, a padding mode [cp.pad]
    knows and an increment that is not negative, [paganin_filter] on
    non-empty images returns, in a new single-precision array, the image of
    the input under a pixel-wise map: a pixel [x] (1 where the input holds 0)
    becomes [-0.5 * ratio * log(|x| / sqrt(2) + increment)].  The padding
    does not reach the result, and the filter [filter1 + filter1 * 1j]
    divides every pixel by [sqrt(2)]. *)
Theorem X21_paganin_filter_zero_distance (a : ndarray) (hp : heap) (d h w : nat)
  (ratio energy resolution : R) (pad_y pad_x : nat) (pad_method : pad_mode R)
  (increment : R) :
  wf_array hp a ->
  (if ndim a =? 2 then 1 :: shape a else shape a) = [d; h; w] ->
  1 <= h -> 1 <= w ->
  existsb (String.eqb (mode_name pad_method)) pad_modes = true ->
  energy <> 0%R -> resolution <> 0%R -> (0 <= increment)%R ->
  paganin_filter a ratio energy 0%R resolution (Z.of_nat pad_y) (Z.of_nat pad_x)
    pad_method increment hp
  = ok ({| base := length hp; dtype_of := float32; shape := [d; h; w] |},
        hp ++ [map (mmap (paganin_pointwise ratio increment)) (read hp a)]).
Proof.
  intros Hwf Hshape Hh Hw Hmode He Hres _.
  destruct (promoted_stack Hwf Hshape) as (a' & Hc & Hs & Hb & Hdt & Hlt & Hl & Hr).
  assert (Hread : read hp a' = read hp a) by (unfold read; now rewrite Hb).
  unfold paganin_filter. rewrite Hc. cbn [rbind ok]. rewrite Hs.
  rewrite (@paganin_stack_zero_distance (dtype_of a') d h w (read hp a') ratio energy
             resolution pad_y pad_x pad_method increment) by assumption.
  cbn [rbind ok]. unfold alloc. now rewrite Hread.
Qed.

(** X21 on the 2x2 stack with the default parameters and distance 0. *)
Lemma X21_witness :
  paganin_filter stack_2x2 250%R 53%R 0%R (128 / 100)%R 100 100 Edge 0%R heap_2x2
  = ok ({| base := 1; dtype_of := float32; shape := [1; 2; 2] |},
        heap_2x2 ++ [[mmap (paganin_pointwise 250 0) image_2x2]]).
Proof.
  apply (@X21_paganin_filter_zero_distance stack_2x2 heap_2x2 1 2 2 250%R 53%R
           (128 / 100)%R 100 100 Edge 0%R wf_stack_2x2 eq_refl);
    try lia; try lra; reflexivity.
Defined.

(* ------------------------------------------------------------------ *)
(** ** Constant images under [paganin_filter] *)

(** Where [fftshift] takes a sample from. *)
Lemma nth_fftshift1 {A : Type} (l : list A) (d : A) (k : nat) :
  k < length l ->
  nth k (fftshift1 l) d
  = nth (if k <? length l / 2 then k + (length l - length l / 2) else k - length l / 2) l d.
Proof.
  intros Hk. unfold fftshift1. remember (length l) as n eqn:En.
  assert (Hhalf : n / 2 < n) by (apply Nat.div_lt; lia).
  destruct (Nat.ltb_spec k (n / 2)) as [Hlt | Hge].
  - rewrite app_nth1 by (rewrite length_skipn; lia).
    rewrite nth_skipn. f_equal. lia.
  - rewrite app_nth2 by (rewrite length_skipn; lia).
    rewrite length_skipn, <- En, nth_firstn.
    replace (n - (n - n / 2)) with (n / 2) by lia.
    destruct (Nat.ltb_spec (k - n / 2) (n - n / 2)) as [_ | Hx]; [reflexivity | lia].
Qed.

Section PaganinConstant.
Local Open Scope R_scope.

(** The spectrum of a constant image, shifted: its only coefficient that is
    not zero sits at [h // 2, w // 2]. *)
Lemma fftshift_delta (h w : nat) (v : R * R) (y : matrix (R * R)) (k l : nat) :
  is_delta h w v y -> (k < h)%nat -> (l < w)%nat ->
  nth l (nth k (fftshift y) []) czero
  = if (k =? h / 2)%nat && (l =? w / 2)%nat then v else czero.
Proof.
  intros [Hy Hv] Hk Hl. unfold fftshift.
  destruct Hy as [Hyl Hyr].
  assert (Hh2 : (h / 2 < h)%nat) by (apply Nat.div_lt; lia).
  assert (Hw2 : (w / 2 < w)%nat) by (apply Nat.div_lt; lia).
  rewrite (@nth_map_lt (list (R * R)) (list (R * R)) _ (fftshift1 y) [] [] k)
    by (rewrite length_fftshift1; unfold complex in *; lia).
  rewrite (@nth_fftshift1 _ y [] k) by (unfold complex in *; lia).
  unfold complex in *. rewrite Hyl.
  set (i := if (k <? h / 2)%nat then (k + (h - h / 2))%nat else (k - h / 2)%nat).
  assert (Hi : (i < h)%nat) by (unfold i; destruct (Nat.ltb_spec k (h / 2)); lia).
  pose proof (@Forall_nth_default _ _ y [] i Hyr ltac:(lia)) as Hrow. cbv beta in Hrow.
  rewrite nth_fftshift1 by lia. rewrite Hrow.
  set (j := if (l <? w / 2)%nat then (l + (w - w / 2))%nat else (l - w / 2)%nat).
  assert (Hj : (j < w)%nat) by (unfold j; destruct (Nat.ltb_spec l (w / 2)); lia).
  rewrite (Hv i j Hi Hj).
  assert (Ei : (i =? 0)%nat = (k =? h / 2)%nat).
  { unfold i. destruct (Nat.ltb_spec k (h / 2)), (Nat.eqb_spec k (h / 2));
      try lia; apply Nat.eqb_neq || apply Nat.eqb_eq; lia. }
  assert (Ej : (j =? 0)%nat = (l =? w / 2)%nat).
  { unfold j. destruct (Nat.ltb_spec l (w / 2)), (Nat.eqb_spec l (w / 2));
      try lia; apply Nat.eqb_neq || apply Nat.eqb_eq; lia. }
  now rewrite Ei, Ej.
Qed.

Lemma cdiv_zero (b : R * R) : cdiv czero b = czero.
Proof.
  apply complex_eq; unfold cdiv, czero;
    cbn [fst snd fadd fsub fmul fdiv fzero numeric float_class]; unfold Rdiv; ring.
Qed.

Lemma cdiv_as_cmul (v b : R * R) : cdiv v b = cmul (cdiv (1, 0) b) v.
Proof.
  apply complex_eq; unfold cdiv, cmul;
    cbn [fst snd fadd fsub fmul fdiv numeric]; unfold Rdiv; ring.
Qed.

Lemma cmul_zero_right (a : R * R) : cmul a czero = czero.
Proof.
  apply complex_eq; unfold cmul, czero;
    cbn [fst snd fadd fsub fmul fzero numeric float_class]; ring.
Qed.

(** On the spectrum of a constant image the division by the filter is the
    multiplication by the inverse of one entry of the filter. *)
Lemma constant_spectrum_division (h w : nat) (c : R) (fc : matrix (R * R)) :
  rect h w fc -> (1 <= h)%nat -> (1 <= w)%nat ->
  map2 (map2 cdiv) (fftshift (dft2 1 (mmap of_real (full h w c)))) fc
  = mmap (cmul (cdiv (1, 0) (nth (w / 2) (nth (h / 2) fc []) czero)))
      (fftshift (dft2 1 (mmap of_real (full h w c)))).
Proof.
  intros Hfc Hh Hw.
  pose proof (dft2_const c Hh Hw) as Hdelta.
  set (y := dft2 1 (mmap of_real (full h w c))) in *.
  assert (Hs : rect h w (fftshift y)) by (apply rect_fftshift, Hdelta).
  set (kappa := cdiv (1, 0) (nth (w / 2) (nth (h / 2) fc []) czero)).
  apply nth_ext with (d := []) (d' := []).
  { rewrite length_map2. unfold mmap. rewrite length_map.
    destruct Hs, Hfc. unfold complex in *. lia. }
  intros k Hk. rewrite length_map2 in Hk.
  assert (Hkh : (k < h)%nat) by (destruct Hs, Hfc; unfold complex in *; lia).
  pose proof (rect_nth Hs Hkh) as Ls. pose proof (rect_nth Hfc Hkh) as Lf.
  rewrite (@nth_map2 (list (R * R)) (list (R * R)) (list (R * R))
             (map2 (@cdiv R _ _)) (fftshift y) fc k [] [] [])
    by (destruct Hs, Hfc; unfold complex in *; lia).
  unfold mmap.
  rewrite (@nth_map_lt (list (R * R)) (list (R * R)) _ (fftshift y) [] [] k)
    by (destruct Hs; unfold complex in *; lia).
  apply nth_ext with (d := czero) (d' := czero).
  { rewrite length_map2, length_map. unfold complex in *. lia. }
  intros l Hl. rewrite length_map2 in Hl.
  assert (Hlw : (l < w)%nat) by (unfold complex in *; lia).
  rewrite (@nth_map2 (R * R) (R * R) (R * R) (@cdiv R _ _) _ _ l czero czero czero)
    by (unfold complex in *; lia).
  rewrite (@nth_map_lt (R * R) (R * R) _ (nth k (fftshift y) []) czero czero l)
    by (unfold complex in *; lia).
  pose proof (@fftshift_delta h w _ y k l Hdelta Hkh Hlw) as Hent.
  unfold complex in *. rewrite Hent.
  destruct (Nat.eqb_spec k (h / 2)) as [-> | Hk0]; cbn [andb];
    [| rewrite cdiv_zero; symmetry; apply cmul_zero_right].
  destruct (Nat.eqb_spec l (w / 2)) as [-> | Hl0];
    [| rewrite cdiv_zero; symmetry; apply cmul_zero_right].
  apply cdiv_as_cmul.
Qed.

Lemma cabs_inverse_diagonal (g : R) : 0 < g -> cabs (cdiv (1, 0) (g, g)) = / (sqrt 2 * g).
Proof.
  intros Hg. unfold cabs, cdiv. cbn [fst snd fsqrt fadd fsub fmul fdiv numeric].
  replace ((1 * g + 0 * g) / (g * g + g * g) * ((1 * g + 0 * g) / (g * g + g * g))
           + (0 * g - 1 * g) / (g * g + g * g) * ((0 * g - 1 * g) / (g * g + g * g)))
    with (/ (2 * (g * g))).
  2:{ assert (Hgg : g * g + g * g <> 0) by nra. field.
      repeat split; try lra; try exact Hgg. }
  rewrite sqrt_inv, sqrt_mult by nra.
  replace (g * g) with (Rsqr g) by reflexivity.
  rewrite sqrt_Rsqr by lra. reflexivity.
Qed.

(** The offset between the centre the filter is built around and the index
    [n // 2]. *)
Lemma center_offset (n : nat) :
  IZR (Z.of_nat (n / 2)) - (IZR (ceilZ (IZR (Z.of_nat n) / Q2R 2)) - Q2R 1)
  = if Nat.even n then 1 else 0.
Proof.
  replace (Q2R 2) with 2 by (unfold Q2R; simpl; lra). rewrite Q2R_one.
  unfold Rdiv. rewrite ceilZ_half.
  destruct (Nat.even n) eqn:Ev.
  - apply Nat.even_spec in Ev as [m ->].
    replace (2 * m / 2)%nat with m by (rewrite Nat.mul_comm, Nat.div_mul; lia).
    replace ((Z.of_nat (2 * m) + 1) / 2)%Z with (Z.of_nat m).
    + ring.
    + apply Z.div_unique with (r := 1%Z); lia.
  - assert (Hodd : Nat.odd n = true) by (unfold Nat.odd; now rewrite Ev).
    apply Nat.odd_spec in Hodd as [m ->].
    replace ((2 * m + 1) / 2)%nat with m.
    2:{ apply Nat.div_unique with (r := 1%nat); lia. }
    replace ((Z.of_nat (2 * m + 1) + 1) / 2)%Z with (Z.of_nat m + 1)%Z.
    + rewrite plus_IZR. ring.
    + apply Z.div_unique with (r := 0%Z); lia.
Qed.

(** The entry of the complex filter at [h1 // 2, w1 // 2]. *)
Lemma paganin_filtercomplex_center (ratio energy distance resolution : R) (h1 w1 : nat)
  (fc : matrix (R * R)) :
  (1 <= h1)%nat -> (1 <= w1)%nat ->
  paganin_filtercomplex ratio energy distance resolution (Z.of_nat h1) (Z.of_nat w1) = ok fc ->
  nth (w1 / 2) (nth (h1 / 2) fc []) czero
  = (paganin_center_gain ratio energy distance resolution h1 w1,
     paganin_center_gain ratio energy distance resolution h1 w1).
Proof.
  intros Hh Hw Hrun. unfold paganin_filtercomplex in Hrun.
  destruct (is_zero (fmul energy (lit 1000))); [discriminate |].
  destruct (is_zero (fmul (of_Z (Z.of_nat w1)) _)); [discriminate |].
  destruct (is_zero (fmul (of_Z (Z.of_nat h1)) _)); [discriminate |].
  destruct ((Z.of_nat h1 <? 0) || (Z.of_nat w1 <? 0))%Z; [discriminate |].
  injection Hrun as <-. rewrite !Nat2Z.id.
  assert (Hh2 : (h1 / 2 < h1)%nat) by (apply Nat.div_lt; lia).
  assert (Hw2 : (w1 / 2 < w1)%nat) by (apply Nat.div_lt; lia).
  rewrite map_map.
  rewrite (@nth_map_lt Z (list (R * R)) _ (arange h1) [] 0%Z (h1 / 2))
    by (rewrite length_arange; lia).
  rewrite map_map.
  rewrite (@nth_map_lt Z (R * R) _ (arange w1) czero 0%Z (w1 / 2))
    by (rewrite length_arange; lia).
  rewrite !nth_arange by lia.
  cbn [cast fadd fsub fmul fdiv fceil lit of_Z numeric float_class].
  rewrite !center_offset. unfold paganin_center_gain.
  replace (Q2R 1240) with 1240 by (unfold Q2R; simpl; lra).
  replace (Q2R 1000) with 1000 by (unfold Q2R; simpl; lra).
  replace (Q2R (1 # 1000000000)) with (1 / 1000000000) by (unfold Q2R; simpl; lra).
  replace (Q2R (1 # 1000000)) with (1 / 1000000) by (unfold Q2R; simpl; lra).
  rewrite Q2R_one, <- !INR_IZR_INZ. reflexivity.
Qed.

Lemma math_pi_pos : 0 < math_pi.
Proof. apply Q2R_pos. Qed.

Lemma paganin_center_gain_ge_one (ratio energy distance resolution : R) (h1 w1 : nat) :
  0 <= ratio -> 0 < energy -> 0 <= distance ->
  1 <= paganin_center_gain ratio energy distance resolution h1 w1.
Proof.
  intros Hr He Hd. unfold paganin_center_gain.
  set (px := _ * (1 / (INR w1 * _))). set (py := _ * (1 / (INR h1 * _))).
  pose proof (Rle_0_sqr px) as Hx. pose proof (Rle_0_sqr py) as Hy. unfold Rsqr in *.
  pose proof math_pi_pos as Hpi.
  assert (Hwl : 0 < 1240 / (energy * 1000) * (1 / 1000000000)).
  { apply Rmult_lt_0_compat; [| lra]. apply Rdiv_lt_0_compat; lra. }
  assert (H1 : 0 <= (px * px + py * py) * (1240 / (energy * 1000) * (1 / 1000000000)))
    by (apply Rmult_le_pos; lra).
  assert (H2 : 0 <= (px * px + py * py) * (1240 / (energy * 1000) * (1 / 1000000000))
                    * distance) by (apply Rmult_le_pos; lra).
  assert (H3 : 0 <= (px * px + py * py) * (1240 / (energy * 1000) * (1 / 1000000000))
                    * distance * math_pi) by (apply Rmult_le_pos; lra).
  assert (H4 : 0 <= ratio * ((px * px + py * py)
                    * (1240 / (energy * 1000) * (1 / 1000000000)) * distance * math_pi))
    by (apply Rmult_le_pos; lra).
  lra.
Qed.

(** The loop body of [paganin_filter] on a constant image padded in mode
    "edge". *)
Lemma paganin_image_constant (dt : dtype) (fc : matrix (R * R)) (ratio increment g : R)
  (pad_y pad_x h w : nat) (c : R) :
  rect (pad_y + h + pad_y) (pad_x + w + pad_x) fc ->
  nth ((pad_x + w + pad_x) / 2) (nth ((pad_y + h + pad_y) / 2) fc []) czero = (g, g) ->
  0 < g -> (1 <= h)%nat -> (1 <= w)%nat ->
  paganin_image dt fc ratio increment (Z.of_nat pad_y) (Z.of_nat pad_x) h w
    (pad_image Edge w pad_y pad_x (full h w c))
  = ok (mmap (paganin_flat ratio increment g) (full h w c)).
Proof.
  intros Hfc Hcentre Hg Hh Hw. unfold paganin_image.
  set (H1 := (pad_y + h + pad_y)%nat) in *. set (W1 := (pad_x + w + pad_x)%nat) in *.
  assert (HP : pad_image Edge w pad_y pad_x (full h w c) = full H1 W1 c).
  { unfold pad_image. cbn [pad1].
    pose proof (@pad_edge_full R c pad_y pad_y pad_x pad_x h w Hh Hw) as Hfull.
    rewrite (pad_edge_value pad_y pad_y pad_x pad_x (rect_full h w c) Hh Hw) in Hfull.
    injection Hfull as Hf. etransitivity; [| exact Hf]. reflexivity. }
  rewrite HP.
  set (c' := if Req_dec_T c 0 then 1 else c).
  assert (Hproj : transform_input dt (full H1 W1 c) = full H1 W1 c').
  { unfold transform_input, sanitize. rewrite !mmap_full. f_equal.
    unfold sanitize_pixel, zero_to_one, nan_to_num.
    cbn [is_nan is_posinf is_neginf is_zero fone cast float_class].
    unfold c'. destruct (Req_dec_T c 0); reflexivity. }
  rewrite Hproj.
  etransitivity.
  { exact (@cabs_ifft2_scaled _
             (fun fpci =>
                ok (crop (Z.of_nat pad_y) (Z.of_nat pad_y + Z.of_nat h)
                      (Z.of_nat pad_x) (Z.of_nat pad_x + Z.of_nat w)
                      (mmap (fun x => fmul (fmul (lit (-1 # 2)) ratio)
                                        (fln (fadd x increment))) fpci)))
             (mmap of_real (full H1 W1 c')) fc
             (cdiv (1, 0) (nth (W1 / 2) (nth (H1 / 2) fc []) czero)) H1 W1
             (rect_mmap of_real (rect_full H1 W1 c')) Hfc
             ltac:(unfold H1; lia) ltac:(unfold W1; lia)
             (@constant_spectrum_division H1 W1 c' fc Hfc
                ltac:(unfold H1; lia) ltac:(unfold W1; lia))). }
  cbv beta. apply ok_eq. rewrite Hcentre, cabs_inverse_diagonal by exact Hg.
  rewrite !mmap_full. rewrite cabs_of_real.
  replace (Z.of_nat pad_y + Z.of_nat h)%Z with (Z.of_nat h + Z.of_nat pad_y)%Z by lia.
  replace (Z.of_nat pad_x + Z.of_nat w)%Z with (Z.of_nat w + Z.of_nat pad_x)%Z by lia.
  replace H1 with (h + 2 * pad_y)%nat by (unfold H1; lia).
  replace W1 with (w + 2 * pad_x)%nat by (unfold W1; lia).
  rewrite crop_full. f_equal.
  unfold paganin_flat. cbn [fmul fln fadd lit numeric]. rewrite Q2R_minus_half.
  reflexivity.
Qed.

(** The contents [paganin_filter] computes from constant images padded in
    mode "edge". *)
Lemma paganin_stack_constant (dt : dtype) (d h w : nat) (data : list (matrix R))
  (ratio energy distance resolution : R) (pad_y pad_x : nat) (increment : R) :
  length data = d -> Forall (constant_image h w) data -> (1 <= h)%nat -> (1 <= w)%nat ->
  0 <= ratio -> 0 < energy -> 0 <= distance -> resolution <> 0 ->
  paganin_stack dt [d; h; w] data ratio energy distance resolution
    (Z.of_nat pad_y) (Z.of_nat pad_x) Edge increment
  = ok ([d; h; w],
        map (mmap (paganin_flat ratio increment
                     (paganin_center_gain ratio energy distance resolution
                        (h + 2 * pad_y) (w + 2 * pad_x)))) data).
Proof.
  intros Hlen Hdata Hh Hw Hr He Hd Hres. unfold paganin_stack.
  replace (Z.of_nat h + 2 * Z.of_nat pad_y)%Z with (Z.of_nat (h + 2 * pad_y)) by lia.
  replace (Z.of_nat w + 2 * Z.of_nat pad_x)%Z with (Z.of_nat (w + 2 * pad_x)) by lia.
  destruct (@paganin_filtercomplex_rect R _ _ ratio energy distance resolution
              (h + 2 * pad_y) (w + 2 * pad_x)) as (fc & Hfcrun & Hfc).
  { apply paganin_energy_nonzero. lra. }
  { apply paganin_step_nonzero; [lia | exact Hres]. }
  { apply paganin_step_nonzero; [lia | exact Hres]. }
  rewrite Hfcrun. cbn [rbind ok].
  pose proof (@paganin_filtercomplex_center ratio energy distance resolution
                (h + 2 * pad_y) (w + 2 * pad_x) fc ltac:(lia) ltac:(lia) Hfcrun) as Hcentre.
  set (g := paganin_center_gain ratio energy distance resolution
              (h + 2 * pad_y) (w + 2 * pad_x)) in *.
  assert (Hg : 0 < g).
  { pose proof (@paganin_center_gain_ge_one ratio energy distance resolution
                  (h + 2 * pad_y) (w + 2 * pad_x) Hr He Hd). fold g in H. lra. }
  replace (h + 2 * pad_y)%nat with (pad_y + h + pad_y)%nat in Hfc, Hcentre by lia.
  replace (w + 2 * pad_x)%nat with (pad_x + w + pad_x)%nat in Hfc, Hcentre by lia.
  unfold pad_stack.
  destruct (Z.ltb_spec (Z.of_nat pad_y) 0); [lia |].
  destruct (Z.ltb_spec (Z.of_nat pad_x) 0); [lia |].
  cbn [orb]. cbn [mode_name pad_modes existsb String.eqb Ascii.eqb Bool.eqb orb negb].
  destruct (Nat.eqb_spec h 0) as [E | _]; [lia |].
  destruct (Nat.eqb_spec w 0) as [E | _]; [lia |].
  rewrite !andb_false_r. cbn [andb rbind ok]. rewrite !Nat2Z.id.
  set (f := mmap (paganin_flat ratio increment g)).
  destruct (@for_range_inv (list (matrix R))
              (fun i res => res = map f (firstn i data) ++ skipn i (repeat (full h w 0) d))
              (fun i res =>
                 rbind (paganin_image dt fc ratio increment (Z.of_nat pad_y) (Z.of_nat pad_x)
                          h w (nth i (map (pad_image Edge w pad_y pad_x) data) []))
                   (fun proj => assign_image h w i (mmap (cast float32) proj) res))
              d 0 (repeat (full h w 0) d)) as (res & Hrun & Hres').
  { reflexivity. }
  { intros i res Hi ->.
    pose proof (@Forall_nth_default _ _ data [] i Hdata ltac:(lia)) as [c Hc].
    rewrite (@nth_map_lt (matrix R) (matrix R) _ data [] [] i) by lia.
    rewrite Hc.
    rewrite (@paganin_image_constant dt fc ratio increment g pad_y pad_x h w c
               Hfc Hcentre Hg Hh Hw).
    cbn [rbind ok]. cbn [cast Exact.float_class]. rewrite mmap_id.
    rewrite assign_image_rect; [| | apply rect_mmap, rect_full].
    2:{ rewrite length_app, length_map, length_firstn, length_skipn, repeat_length. lia. }
    eexists. split; [reflexivity |].
    rewrite <- Hc. apply (splice_step2 f); [lia | rewrite repeat_length; lia]. }
  cbn [fzero float_class] in *. rewrite Hrun. cbn [rbind ok Nat.add]. rewrite Hres'.
  rewrite firstn_all2 by lia. rewrite skipn_all2 by (rewrite repeat_length; lia).
  now rewrite app_nil_r.
Qed.
End PaganinConstant.

(** X22, in exact arithmetic: in mode "edge", for a ratio, a distance and an
    increment that are not negative, an energy above 0 and a resolution other
    than 0, [paganin_filter] turns constant images into constant images: a
    pixel [x] (1 where the input holds 0) becomes
    [-0.5 * ratio * log(|x| / (sqrt(2) * g) + increment)], where [g >= 1] is
    the entry of the filter at index [h1 // 2, w1 // 2] of the padded shape,
    which the zero frequency of the shifted spectrum meets.  The filter is 1
    at index [ceil(n / 2) - 1]: [g] is 1 when both padded sides are odd, and
    above 1 when a padded side is even and ratio and distance are above 0. *)
Theorem X22_paganin_filter_constant_images (a : ndarray) (hp : heap) (d h w : nat)
  (ratio energy distance resolution : R) (pad_y pad_x : nat) (increment : R) :
  wf_array hp a ->
  (if ndim a =? 2 then 1 :: shape a else shape a) = [d; h; w] ->
  Forall (constant_image h w) (read hp a) ->
  1 <= h -> 1 <= w ->
  (0 <= ratio)%R -> (0 < energy)%R -> (0 <= distance)%R -> resolution <> 0%R ->
  (0 <= increment)%R ->
  let g := paganin_center_gain ratio energy distance resolution
             (h + 2 * pad_y) (w + 2 * pad_x) in
  paganin_filter a ratio energy distance resolution (Z.of_nat pad_y) (Z.of_nat pad_x)
    Edge increment hp
  = ok ({| base := length hp; dtype_of := float32; shape := [d; h; w] |},
        hp ++ [map (mmap (paganin_flat ratio increment g)) (read hp a)])
  /\ (1 <= g)%R
  /\ (Nat.odd (h + 2 * pad_y) = true -> Nat.odd (w + 2 * pad_x) = true -> g = 1%R)
  /\ (Nat.even (h + 2 * pad_y) = true \/ Nat.even (w + 2 * pad_x) = true ->
      (0 < ratio)%R -> (0 < distance)%R -> (1 < g)%R).
Proof.
  intros Hwf Hshape Hconst Hh Hw Hr He Hd Hres _ g.
  split; [| split; [| split]].
  - destruct (promoted_stack Hwf Hshape) as (a' & Hc & Hs & Hb & Hdt & Hlt & Hl & Hrect).
    assert (Hread : read hp a' = read hp a) by (unfold read; now rewrite Hb).
    unfold paganin_filter. rewrite Hc. cbn [rbind ok]. rewrite Hs.
    rewrite (@paganin_stack_constant (dtype_of a') d h w (read hp a') ratio energy distance
               resolution pad_y pad_x increment); try assumption.
    + cbn [rbind ok]. unfold alloc. now rewrite Hread.
    + now rewrite Hread.
  - now apply paganin_center_gain_ge_one.
  - intros Hoh How. unfold g, paganin_center_gain, Nat.odd in *.
    destruct (Nat.even (h + 2 * pad_y)); [discriminate |].
    destruct (Nat.even (w + 2 * pad_x)); [discriminate |]. ring.
  - intros Hev Hr0 Hd0. unfold g, paganin_center_gain.
    set (H1 := h + 2 * pad_y) in *. set (W1 := w + 2 * pad_x) in *.
    assert (HH : (0 < INR H1)%R) by (apply lt_0_INR; unfold H1; lia).
    assert (HW : (0 < INR W1)%R) by (apply lt_0_INR; unfold W1; lia).
    set (sx := (1 / (INR W1 * (resolution * (1 / 1000000))))%R).
    set (sy := (1 / (INR H1 * (resolution * (1 / 1000000))))%R).
    assert (Hsx : sx <> 0%R).
    { unfold sx. unfold Rdiv. rewrite Rmult_1_l.
      apply Rinv_neq_0_compat. apply Rmult_integral_contrapositive_currified; [lra |].
      apply Rmult_integral_contrapositive_currified; [exact Hres | lra]. }
    assert (Hsy : sy <> 0%R).
    { unfold sy. unfold Rdiv. rewrite Rmult_1_l.
      apply Rinv_neq_0_compat. apply Rmult_integral_contrapositive_currified; [lra |].
      apply Rmult_integral_contrapositive_currified; [exact Hres | lra]. }
    pose proof math_pi_pos as Hpi.
    assert (Hwl : (0 < 1240 / (energy * 1000) * (1 / 1000000000))%R).
    { apply Rmult_lt_0_compat; [| lra]. apply Rdiv_lt_0_compat; lra. }
    assert (Hsq : (0 < (if Nat.even W1 then 1 else 0) * sx * ((if Nat.even W1 then 1 else 0) * sx)
                     + (if Nat.even H1 then 1 else 0) * sy * ((if Nat.even H1 then 1 else 0) * sy))%R).
    { pose proof (Rle_0_sqr sx) as Hx0. pose proof (Rle_0_sqr sy) as Hy0.
      assert (Hx1 : (0 < sx * sx)%R) by (apply Rsqr_pos_lt in Hsx; exact Hsx).
      assert (Hy1 : (0 < sy * sy)%R) by (apply Rsqr_pos_lt in Hsy; exact Hsy).
      unfold Rsqr in *.
      destruct Hev as [E | E]; rewrite E;
        destruct (Nat.even W1), (Nat.even H1); try discriminate; nra. }
    set (S := ((if Nat.even W1 then 1 else 0) * sx * ((if Nat.even W1 then 1 else 0) * sx)
               + (if Nat.even H1 then 1 else 0) * sy * ((if Nat.even H1 then 1 else 0) * sy))%R)
      in *.
    set (wl := (1240 / (energy * 1000) * (1 / 1000000000))%R) in *.
    assert (A1 : (0 < S * wl)%R) by (apply Rmult_lt_0_compat; assumption).
    assert (A2 : (0 < S * wl * distance)%R) by (apply Rmult_lt_0_compat; assumption).
    assert (A3 : (0 < S * wl * distance * math_pi)%R)
      by (apply Rmult_lt_0_compat; assumption).
    assert (A4 : (0 < ratio * (S * wl * distance * math_pi))%R)
      by (apply Rmult_lt_0_compat; assumption).
    lra.
Qed.

(** X22 on the stack of one 4x4 image of value 3, padded by one pixel to
    6x6: the gain is above 1. *)
Lemma X22_witness :
  paganin_filter stack_4x4 250%R 53%R 1%R (128 / 100)%R 1 1 Edge 0%R heap_4x4
  = ok ({| base := 1; dtype_of := float32; shape := [1; 4; 4] |},
        heap_4x4
        ++ [[mmap (paganin_flat 250 0 (paganin_center_gain 250 53 1 (128 / 100) 6 6))
               image_4x4]])
  /\ (1 < paganin_center_gain 250 53 1 (128 / 100) 6 6)%R.
Proof.
  pose proof (@X22_paganin_filter_constant_images stack_4x4 heap_4x4 1 4 4
                250%R 53%R 1%R (128 / 100)%R 1 1 0%R wf_stack_4x4 eq_refl) as Hx.
  cbv zeta in Hx.
  destruct Hx as (Hrun & _ & _ & Hgt); try lia; try lra.
  - constructor; [| constructor]. exists 3%R. reflexivity.
  - split; [exact Hrun |]. apply Hgt; [left; reflexivity | lra | lra].
Defined.
